(** * Convex hulls of unions of polyhedra: a model of [isl_convex_hull.c]

    The development embeds the functions of [isl_convex_hull.c] as Rocq
    functions over rows of integers and states the properties of the
    specification about them.  Functions of the library that live in other
    files (the LP solver, Gaussian elimination, the tableau, matrix
    inverses, preimages) are parameters of the sections that use them. *)

From Stdlib Require Import ZArith List Lia Bool Arith.
Import ListNotations.
Local Open Scope Z_scope.

(** ** Rows of [isl_int] and the [isl_seq_*] primitives used by the file *)

Module Seq.

Definition row := list Z.

(** [p[i]] for a row pointer [p]; positions past the buffer read as 0. *)
Definition at_ (r : row) (i : nat) : Z := nth i r 0.

(** [dst] with its first [length new] entries overwritten. *)
Definition overwrite (dst new : row) : row := new ++ skipn (length new) dst.

(** [isl_seq_cpy(dst, src, len)]. *)
Definition isl_seq_cpy (dst src : row) (len : nat) : row :=
  overwrite dst (map (at_ src) (seq 0 len)).

(** [isl_seq_neg(dst, src, len)]. *)
Definition isl_seq_neg (dst src : row) (len : nat) : row :=
  overwrite dst (map (fun i => - at_ src i) (seq 0 len)).

(** [isl_seq_scale(dst, src, m, len)]. *)
Definition isl_seq_scale (dst src : row) (m : Z) (len : nat) : row :=
  overwrite dst (map (fun i => at_ src i * m) (seq 0 len)).

(** [isl_seq_combine(dst, m1, src1, m2, src2, len)]:
    [dst[i] = m1 * src1[i] + m2 * src2[i]]. *)
Definition isl_seq_combine (dst : row) (m1 : Z) (src1 : row)
    (m2 : Z) (src2 : row) (len : nat) : row :=
  overwrite dst (map (fun i => m1 * at_ src1 i + m2 * at_ src2 i) (seq 0 len)).

(** [isl_seq_clr(p, len)] on a fresh buffer. *)
Definition zeros (len : nat) : row := repeat 0 len.

(** [isl_seq_eq(p1, p2, len)]. *)
Definition isl_seq_eq (p1 p2 : row) (len : nat) : bool :=
  forallb (fun i => at_ p1 i =? at_ p2 i) (seq 0 len).

(** The inner product [f . v]; [f] is an objective or the coefficient part
    of a constraint. *)
Fixpoint dot (f v : row) : Z :=
  match f, v with
  | a :: f', b :: v' => a * b + dot f' v'
  | _, _ => 0
  end.

End Seq.
Import Seq.

(** ** Polyhedra, unions and rational points *)

(** Flag bits of [struct isl_basic_map].  The header that defines them is
    not part of this file's sources; the bit positions are those of
    [isl_map_private.h]. *)
Definition ISL_BASIC_MAP_FINAL : Z := Z.shiftl 1 0.
Definition ISL_BASIC_MAP_EMPTY : Z := Z.shiftl 1 1.
Definition ISL_BASIC_MAP_NO_IMPLICIT : Z := Z.shiftl 1 2.
Definition ISL_BASIC_MAP_NO_REDUNDANT : Z := Z.shiftl 1 3.
Definition ISL_BASIC_MAP_RATIONAL : Z := Z.shiftl 1 4.
Definition ISL_BASIC_SET_EMPTY : Z := ISL_BASIC_MAP_EMPTY.

(** [struct isl_basic_map]: the rows of [eq] and [ineq] have [1 + total]
    entries, constant term first. *)
Record isl_basic_map : Type := mk_bmap {
  total_dim : nat;
  eq : list row;
  ineq : list row;
  flags : Z
}.

Definition isl_basic_set := isl_basic_map.

Definition n_eq (b : isl_basic_map) : nat := length (eq b).
Definition n_ineq (b : isl_basic_map) : nat := length (ineq b).

Definition ISL_F_ISSET (b : isl_basic_map) (f : Z) : bool :=
  negb (Z.land (flags b) f =? 0).
Definition ISL_F_SET (b : isl_basic_map) (f : Z) : isl_basic_map :=
  mk_bmap (total_dim b) (eq b) (ineq b) (Z.lor (flags b) f).
Definition ISL_F_CLR (b : isl_basic_map) (f : Z) : isl_basic_map :=
  mk_bmap (total_dim b) (eq b) (ineq b) (Z.land (flags b) (Z.lnot f)).

(** [struct isl_set] / [struct isl_map]: an ordered collection [p] of
    basic sets of a common dimension. *)
Record isl_set : Type := mk_set {
  set_dim : nat;
  p : list isl_basic_set
}.

Definition isl_set_n_dim (s : isl_set) : nat := set_dim s.

(** [enum isl_lp_result]. *)
Inductive isl_lp_result : Type :=
  | isl_lp_error | isl_lp_ok | isl_lp_unbounded | isl_lp_empty.

(** What [isl_solve_lp] hands back: the result code and the values left in
    [*opt] and [*opt_denom]. *)
Record lp_out : Type := mk_lp_out {
  lp_res : isl_lp_result;
  lp_num : Z;
  lp_den : Z
}.

(** A rational point [pv / pd] with common denominator [pd > 0]. *)
Record point : Type := mk_point { pd : Z; pv : row }.

(** The value of the affine form [c] at the point, scaled by [pd]. *)
Definition eval (c : row) (x : point) : Z :=
  at_ c 0 * pd x + dot (tl c) (pv x).

Definition sat_ineq (c : row) (x : point) : Prop := 0 <= eval c x.
Definition sat_eq (c : row) (x : point) : Prop := eval c x = 0.

Definition in_bmap (x : point) (b : isl_basic_map) : Prop :=
  0 < pd x /\
  Forall (fun c => sat_eq c x) (eq b) /\
  Forall (fun c => sat_ineq c x) (ineq b).

Definition in_set (x : point) (s : isl_set) : Prop :=
  Exists (in_bmap x) (p s).

(** The contract of [isl_solve_lp(bmap, 0, f, one, &opt, &opt_denom)]:
    exact minimisation of [f . x] over the rational points of [bmap]. *)
Definition lp_contract (b : isl_basic_map) (f : row) (o : lp_out) : Prop :=
  match lp_res o with
  | isl_lp_ok =>
      0 < lp_den o /\
      (forall x, in_bmap x b -> lp_num o * pd x <= lp_den o * dot f (pv x)) /\
      (exists x, in_bmap x b /\ lp_num o * pd x = lp_den o * dot f (pv x))
  | isl_lp_unbounded =>
      forall m : Z, exists x, in_bmap x b /\ dot f (pv x) < m * pd x
  | isl_lp_empty => forall x, ~ in_bmap x b
  | isl_lp_error => True
  end.

(** The objective [f] is bounded below on the points of [b]. *)
Definition bounded_below (f : row) (b : isl_basic_map) : Prop :=
  exists m : Z, forall x, in_bmap x b -> m * pd x <= dot f (pv x).

(** ** Redundancy of one constraint, and the hull of one basic map *)

Section Redundancy.

(** [isl_solve_lp(bmap, max, f, denom, opt, opt_denom)]; the last argument
    tells whether an [opt_denom] pointer is passed. *)
Variable isl_solve_lp :
  isl_basic_map -> bool -> row -> Z -> bool -> lp_out.
Variable isl_basic_map_set_to_empty : isl_basic_map -> option isl_basic_map.

(** The inner loop [for (j = 0; j < n_ineq; ++j) if (sign == sgn(ineq[j][1+i])) break;]
    of the sign filter: the value of [j] when the loop is left. *)
Fixpoint same_sign_scan (sign : Z) (i : nat) (rows : list row) (j : nat) : nat :=
  match rows with
  | [] => j
  | r :: rest =>
      if sign =? Z.sgn (at_ r (1 + i)) then j
      else same_sign_scan sign i rest (S j)
  end.

(** The outer loop over the variables: the value of [i] when it is left
    ([todo] counts the iterations that remain, [total - i]). *)
Fixpoint sign_filter_scan (c : row) (rows : list row) (todo i : nat) : nat :=
  match todo with
  | O => i
  | S todo' =>
      if at_ c (1 + i) =? 0 then sign_filter_scan c rows todo' (S i)
      else if Nat.eqb (same_sign_scan (Z.sgn (at_ c (1 + i))) i rows 0)
                      (length rows)
           then i
           else sign_filter_scan c rows todo' (S i)
  end.

(** Whether the filter leaves the loop early ([i < total]). *)
Definition sign_filter_fires (b : isl_basic_map) (c : row) : bool :=
  Nat.ltb (sign_filter_scan c (ineq b) (total_dim b) 0) (total_dim b).

(** The variable [i] of [c] has no inequality of the same sign. *)
Definition unmatched_sign (rows : list row) (c : row) (i : nat) : Prop :=
  at_ c (1 + i) <> 0 /\
  Forall (fun r => Z.sgn (at_ r (1 + i)) <> Z.sgn (at_ c (1 + i))) rows.

Record redundant_result : Type := mk_redundant {
  rr_ret : Z;                          (* the returned int *)
  rr_bmap : option isl_basic_map;      (* the value left in [*bmap] *)
  rr_opt_n : option Z;                 (* the value left in [*opt_n], if written *)
  rr_lp_calls : nat                    (* calls of [isl_solve_lp] made *)
}.

(** [isl_basic_map_constraint_is_redundant(bmap, c, opt_n, opt_d)];
    [None] for a null [bmap], [opt_d] tells whether that pointer is given. *)
Definition isl_basic_map_constraint_is_redundant
    (bmap : option isl_basic_map) (c : row) (opt_d : bool) : redundant_result :=
  match bmap with
  | None => mk_redundant (-1) None None 0
  | Some b =>
      if sign_filter_fires b c then mk_redundant 0 (Some b) None 0
      else
        let o := isl_solve_lp b false (tl c) 1 opt_d in
        match lp_res o with
        | isl_lp_unbounded => mk_redundant 0 (Some b) None 1
        | isl_lp_error => mk_redundant (-1) (Some b) None 1
        | isl_lp_empty => mk_redundant 0 (isl_basic_map_set_to_empty b) None 1
        | isl_lp_ok =>
            let opt_n :=
              if opt_d then lp_num o + lp_den o * at_ c 0
              else lp_num o + at_ c 0 in
            mk_redundant (if opt_n <? 0 then 0 else 1) (Some b) (Some opt_n) 1
        end
  end.

Definition isl_basic_set_constraint_is_redundant := isl_basic_map_constraint_is_redundant.

(** *** [isl_basic_map_convex_hull] *)

Variable isl_tab : Type.
Variable isl_basic_map_gauss : isl_basic_map -> isl_basic_map.
Variable isl_tab_from_basic_map : isl_basic_map -> isl_tab.
Variable isl_tab_detect_equalities : isl_tab -> isl_tab.
Variable isl_tab_detect_redundant : isl_tab -> isl_tab.
Variable isl_basic_map_update_from_tab : isl_basic_map -> isl_tab -> isl_basic_map.

Definition isl_basic_map_convex_hull (bmap : option isl_basic_map)
    : option isl_basic_map :=
  match bmap with
  | None => None
  | Some b =>
      let b := isl_basic_map_gauss b in
      if ISL_F_ISSET b ISL_BASIC_MAP_EMPTY then Some b
      else if ISL_F_ISSET b ISL_BASIC_MAP_NO_REDUNDANT then Some b
      else if Nat.leb (n_ineq b) 1 then Some b
      else
        let tab := isl_tab_from_basic_map b in
        let tab := isl_tab_detect_equalities tab in
        let tab := isl_tab_detect_redundant tab in
        let b := isl_basic_map_update_from_tab b tab in
        let b := ISL_F_SET b ISL_BASIC_MAP_NO_IMPLICIT in
        let b := ISL_F_SET b ISL_BASIC_MAP_NO_REDUNDANT in
        Some b
  end.

Definition isl_basic_set_convex_hull := isl_basic_map_convex_hull.

(** *** [uset_is_bound] *)

Variable isl_basic_set_set_to_empty : isl_basic_set -> option isl_basic_set.

(** [isl_int_set(c[0], v)]. *)
Definition set_c0 (c : row) (v : Z) : row := overwrite c [v].

(** How the loop over the members is left. *)
Inductive bound_loop : Type :=
  | BL_error (members : list isl_basic_set) (c : row)
  | BL_break (members : list isl_basic_set) (c : row)       (* [j < set->n] *)
  | BL_end (members : list isl_basic_set) (c : row).        (* [j >= set->n] *)

(** The loop [for (j = 0; j < set->n; ++j)]: [seen] are the members
    [p[0..j-1]] as the loop left them, [todo] the members [p[j..]]. *)
Fixpoint uset_is_bound_loop (seen todo : list isl_basic_set)
    (first : bool) (c : row) (len : nat) : bound_loop :=
  match todo with
  | [] => BL_end seen c
  | pj :: rest =>
      if ISL_F_ISSET pj ISL_BASIC_SET_EMPTY
      then uset_is_bound_loop (seen ++ [pj]) rest first c len
      else
        let o := isl_solve_lp pj false (tl c) 1 true in
        match lp_res o with
        | isl_lp_unbounded => BL_break (seen ++ todo) c
        | isl_lp_error => BL_error (seen ++ todo) c
        | isl_lp_empty =>
            match isl_basic_set_set_to_empty pj with
            | None => BL_error (seen ++ todo) c
            | Some pj' => uset_is_bound_loop (seen ++ [pj']) rest first c len
            end
        | isl_lp_ok =>
            let c := if lp_den o =? 1 then c
                     else isl_seq_scale c c (lp_den o) len in
            let c := if first || (lp_num o <? at_ c 0)
                     then set_c0 c (lp_num o) else c in
            uset_is_bound_loop (seen ++ [pj]) rest false c len
        end
  end.

(** The members and the row a run of the loop leaves. *)
Definition bl_members (l : bound_loop) : list isl_basic_set :=
  match l with BL_error ms _ | BL_break ms _ | BL_end ms _ => ms end.
Definition bl_row (l : bound_loop) : row :=
  match l with BL_error _ c | BL_break _ c | BL_end _ c => c end.

(** A call of the LP solver on [b] that makes [uset_is_bound] give up:
    an LP error, or an empty LP whose basic set could not be marked. *)
Definition lp_failure (b : isl_basic_set) : Prop :=
  exists f,
    lp_res (isl_solve_lp b false f 1 true) = isl_lp_error \/
    (lp_res (isl_solve_lp b false f 1 true) = isl_lp_empty /\
     isl_basic_set_set_to_empty b = None).

(** What a run of the loop over the members [todo] establishes, started
    with the row [c] whose constant bounds the points [P] seen before. *)
Definition bound_loop_post (todo : list isl_basic_set) (c : row)
    (P : point -> Prop) (l : bound_loop) : Prop :=
  match l with
  | BL_end _ c' =>
      exists k, 0 < k /\ length c' = length c /\
        tl c' = map (Z.mul k) (tl c) /\
        Forall (bounded_below (tl c)) todo /\
        (forall x, P x \/ Exists (in_bmap x) todo ->
           at_ c' 0 * pd x <= dot (tl c') (pv x)) /\
        ((exists x, P x \/ Exists (in_bmap x) todo) ->
         exists x, (P x \/ Exists (in_bmap x) todo) /\
                   at_ c' 0 * pd x = dot (tl c') (pv x))
  | BL_break _ _ => Exists (fun b => ~ bounded_below (tl c) b) todo
  | BL_error _ _ => Exists lp_failure todo
  end.

(** How a member [b'] of the set after the call relates to the member [b]
    before it: it is the same, or [b] has no point and [b'] is [b] marked
    empty. *)
Definition marked_or_same (b b' : isl_basic_set) : Prop :=
  b' = b \/
  ((forall x, ~ in_bmap x b) /\ isl_basic_set_set_to_empty b = Some b').

Record bound_result : Type := mk_bound {
  ib_ret : Z;           (* the returned int *)
  ib_set : isl_set;     (* the set, with the members marked empty *)
  ib_c : row            (* the row [c] as the call leaves it *)
}.

(** [uset_is_bound(ctx, set, c, len)].  On the error path the caller frees
    the set; the model leaves it as the loop found it. *)
Definition uset_is_bound (set : isl_set) (c : row) (len : nat) : bound_result :=
  match uset_is_bound_loop [] (p set) true c len with
  | BL_error ms c' => mk_bound (-1) (mk_set (set_dim set) ms) c'
  | BL_break ms c' => mk_bound 0 (mk_set (set_dim set) ms) (set_c0 c' (- at_ c' 0))
  | BL_end ms c' => mk_bound 1 (mk_set (set_dim set) ms) (set_c0 c' (- at_ c' 0))
  end.

End Redundancy.

(** ** Wrapping a facet around a ridge *)

Definition isl_mat := list row.

(** [row] with entry [i] set to [v] ([isl_int_set_si(row[i], v)]). *)
Definition set_at (r : row) (i : nat) (v : Z) : row :=
  firstn i r ++ overwrite (skipn i r) [v].

(** The equality [\sum_i x_{i,1} = 1] of [wrap_constraints]: constant [-1],
    then per basic set the block [0, 1, 0, ..., 0] of [dim] entries. *)
Definition wrap_sum_row (dim n : nat) : row :=
  (-1) :: concat (repeat (0 :: 1 :: zeros (dim - 2)) n).

(** A constraint of the basic set [i] copied into its block:
    [isl_seq_clr(row, 1+dim*i)], [isl_seq_cpy(row+1+dim*i, c, dim)],
    [isl_seq_clr(row+1+dim*(i+1), dim*(n-i-1))]. *)
Definition wrap_block_row (dim n i : nat) (c : row) : row :=
  zeros (1 + dim * i) ++ isl_seq_cpy (zeros dim) c dim
    ++ zeros (dim * (n - i - 1)).

(** The constraint [a_i >= 0]. *)
Definition wrap_dilation_row (dim n i : nat) : row :=
  set_at (zeros (1 + dim * n)) (1 + dim * i) 1.

(** The second loop of [wrap_constraints], over the basic sets [p[i..]]:
    the equalities and the inequalities it allocates, in order. *)
Fixpoint wrap_constraints_from (dim n i : nat) (ps : list isl_basic_set)
    : list row * list row :=
  match ps with
  | [] => ([], [])
  | b :: rest =>
      let '(eqs, ineqs) := wrap_constraints_from dim n (S i) rest in
      (map (wrap_block_row dim n i) (eq b) ++ eqs,
       wrap_dilation_row dim n i :: map (wrap_block_row dim n i) (ineq b)
         ++ ineqs)
  end.

(** [wrap_constraints(ctx, set)]; the set has dimension at least 1, so that
    [dim - 2] does not wrap around. *)
Definition wrap_constraints (set : isl_set) : isl_basic_set :=
  let dim := (1 + isl_set_n_dim set)%nat in
  let n := length (p set) in
  let '(eqs, ineqs) := wrap_constraints_from dim n 0 (p set) in
  mk_bmap (dim * n) (wrap_sum_row dim n :: eqs) ineqs 0.

(** The objective of [wrap_facet]: per basic set the block
    [0, 0, 1, 0, ..., 0] of [dim] entries. *)
Definition wrap_objective (dim n : nat) : row :=
  concat (repeat (0 :: 0 :: 1 :: zeros (dim - 3)) n).

Section Wrap.

Variable isl_solve_lp :
  isl_basic_map -> bool -> row -> Z -> bool -> lp_out.
Variable isl_mat_right_inverse : isl_mat -> option isl_mat.
Variable isl_set_preimage : isl_set -> isl_mat -> option isl_set.

(** The matrix [T] of [wrap_facet] before it is inverted. *)
Definition wrap_matrix (dim : nat) (facet ridge : row) : isl_mat :=
  [ 1 :: zeros (dim - 1);
    isl_seq_cpy (zeros dim) facet dim;
    isl_seq_cpy (zeros dim) ridge dim ].

(** The LP that [wrap_facet] solves and its result, [None] when the
    preimage could not be computed. *)
Definition wrap_lp (set : isl_set) (facet ridge : row) : option lp_out :=
  let dim := (1 + isl_set_n_dim set)%nat in
  match isl_mat_right_inverse (wrap_matrix dim facet ridge) with
  | None => None
  | Some T =>
      match isl_set_preimage set T with
      | None => None
      | Some set' =>
          Some (isl_solve_lp (wrap_constraints set') false
                  (wrap_objective dim (length (p set'))) 1 true)
      end
  end.

(** [wrap_facet(ctx, set, facet, ridge)]: the contents of [facet] on
    return, [None] for a null result. *)
Definition wrap_facet (set : isl_set) (facet ridge : row) : option row :=
  let dim := (1 + isl_set_n_dim set)%nat in
  match wrap_lp set facet ridge with
  | None => None
  | Some o =>
      match lp_res o with
      | isl_lp_ok =>
          let num := - lp_num o in
          Some (isl_seq_combine facet num facet (lp_den o) ridge dim)
      | isl_lp_unbounded => Some facet
      | _ => None
      end
  end.

(** *** The facets of a facet *)

Variable isl_mat_drop_cols : isl_mat -> nat -> nat -> isl_mat.
Variable isl_mat_drop_rows : isl_mat -> nat -> nat -> isl_mat.
Variable isl_basic_set_preimage : isl_basic_set -> isl_mat -> option isl_basic_set.
(** The recursion of [compute_facet] into the hull of one dimension less. *)
Variable uset_convex_hull_wrap : isl_set -> option isl_basic_set.

(** [compute_facet(ctx, set, c)]. *)
Definition compute_facet (set : isl_set) (c : row) : option isl_basic_set :=
  let dim := isl_set_n_dim set in
  let m := [ 1 :: zeros dim; isl_seq_cpy (zeros (1 + dim)) c (1 + dim) ] in
  match isl_mat_right_inverse m with
  | None => None
  | Some U =>
      match isl_mat_right_inverse U with
      | None => None
      | Some Q =>
          let U := isl_mat_drop_cols U 1 1 in
          let Q := isl_mat_drop_rows Q 1 1 in
          match isl_set_preimage set U with
          | None => None
          | Some set' =>
              match uset_convex_hull_wrap set' with
              | None => None
              | Some facet => isl_basic_set_preimage facet Q
              end
          end
      end
  end.

End Wrap.

(** ** Extending the hull from an initial facet *)

Section Extend.

Variable isl_solve_lp :
  isl_basic_map -> bool -> row -> Z -> bool -> lp_out.
Variable isl_mat_right_inverse : isl_mat -> option isl_mat.
Variable isl_set_preimage : isl_set -> isl_mat -> option isl_set.
(** [compute_facet(ctx, set, c)]: the function above, with its recursion
    into the hull of one dimension less. *)
Variable compute_facet : isl_set -> row -> option isl_basic_set.

(** The hull under construction: its inequalities and the room allocated
    for them (the local [n_ineq] of [extend]). *)
Record hull_state : Type := mk_hull {
  h_ineq : list row;
  h_room : nat
}.

(** The scan [for (f = 0; f < k; ++f) if (isl_seq_eq(ineq[f], ineq[k], 1+dim)) break;]:
    whether it stops before [k]. *)
Definition seen_before (rows : list row) (cand : row) (len : nat) : bool :=
  existsb (fun r => isl_seq_eq r cand len) rows.

(** One iteration of the loop over the ridges [facet->ineq[j]] of the
    facet [hull->ineq[i]]; [None] for [goto error]. *)
Definition extend_ridge (set : isl_set) (i : nat) (h : hull_state)
    (ridge : row) : option hull_state :=
  let dim := isl_set_n_dim set in
  let k := length (h_ineq h) in
  if Nat.leb (h_room h) k then None          (* no room: [k < 0] *)
  else
    let cand := isl_seq_cpy (zeros (1 + dim)) (nth i (h_ineq h) []) (1 + dim) in
    match wrap_facet isl_solve_lp isl_mat_right_inverse isl_set_preimage
            set cand ridge with
    | None => None
    | Some cand' =>
        if seen_before (h_ineq h) cand' (1 + dim)
        then Some h                           (* [isl_basic_set_free_inequality(hull, 1)] *)
        else Some (mk_hull (h_ineq h ++ [cand']) (h_room h))
    end.

(** The loop over the ridges of one facet. *)
Fixpoint extend_ridges (set : isl_set) (i : nat) (h : hull_state)
    (ridges : list row) : option hull_state :=
  match ridges with
  | [] => Some h
  | r :: rest =>
      match extend_ridge set i h r with
      | None => None
      | Some h' => extend_ridges set i h' rest
      end
  end.

(** The body of the loop over the facets [hull->ineq[i]]. *)
Definition extend_facet (set : isl_set) (i : nat) (h : hull_state)
    : option hull_state :=
  match compute_facet set (nth i (h_ineq h) []) with
  | None => None
  | Some facet =>
      let h :=
        if Nat.ltb (h_room h) (n_ineq facet + length (h_ineq h))
        then mk_hull (h_ineq h) (length (h_ineq h) + n_ineq facet)
        else h in
      extend_ridges set i h (ineq facet)
  end.

(** How a bounded run of the walk ends. *)
Inductive walk : Type :=
  | Walk_error
  | Walk_done (h : hull_state)              (* [i >= hull->n_ineq] *)
  | Walk_running (i : nat) (h : hull_state). (* stopped after [steps] facets *)

(** The loop [for (i = 0; i < hull->n_ineq; ++i)], cut after [steps]
    facets: the list grows during the walk, so the number of iterations is
    not known beforehand. *)
Fixpoint extend_walk (set : isl_set) (steps i : nat) (h : hull_state) : walk :=
  if Nat.leb (length (h_ineq h)) i then Walk_done h
  else
    match steps with
    | O => Walk_running i h
    | S steps' =>
        match extend_facet set i h with
        | None => Walk_error
        | Some h' => extend_walk set steps' (S i) h'
        end
    end.

(** The hull a bounded run of the walk has arrived at. *)
Definition walk_hull (w : walk) : option hull_state :=
  match w with
  | Walk_error => None
  | Walk_done h => Some h
  | Walk_running _ h => Some h
  end.

Variable isl_basic_set_simplify : isl_basic_set -> option isl_basic_set.
Variable isl_basic_set_finalize : isl_basic_set -> option isl_basic_set.

(** [isl_basic_set_set_rational(bset)]. *)
Definition isl_basic_set_set_rational (bset : isl_basic_set)
    : option isl_basic_set :=
  if ISL_F_ISSET bset ISL_BASIC_MAP_RATIONAL then Some bset
  else isl_basic_set_finalize (ISL_F_SET bset ISL_BASIC_MAP_RATIONAL).

(** The room [extend] asks for at the start: one more than the number of
    constraints of the members. *)
Definition extend_room (set : isl_set) : nat :=
  fold_left (fun n b => (n + n_eq b + n_ineq b)%nat) (p set) 1%nat.

(** The hull as [extend] seeds it: the first row of [initial]. *)
Definition extend_init (set : isl_set) (initial : isl_mat) : hull_state :=
  let dim := isl_set_n_dim set in
  mk_hull [isl_seq_cpy (zeros (1 + dim)) (nth 0 initial []) (1 + dim)]
          (extend_room set).

(** [extend(ctx, set, initial)] run for at most [steps] facets; [None]
    for a null result or a walk that is not over after [steps] facets. *)
Definition extend (steps : nat) (set : isl_set) (initial : isl_mat)
    : option isl_basic_set :=
  let dim := isl_set_n_dim set in
  if Nat.eqb (length (p set)) 0 then None
  else if negb (Nat.eqb (1 + dim) (length (nth 0 initial []))) then None
  else
    match isl_basic_set_set_rational (mk_bmap dim [] [] 0) with
    | None => None
    | Some hull0 =>
        match extend_walk set steps 0 (extend_init set initial) with
        | Walk_done h =>
            match isl_basic_set_simplify
                    (mk_bmap dim (eq hull0) (h_ineq h) (flags hull0)) with
            | None => None
            | Some hull => isl_basic_set_finalize hull
            end
        | _ => None
        end
    end.

End Extend.

(** No two rows of the list are equal on their first [len] entries. *)
Definition distinct_rows (len : nat) (rows : list row) : Prop :=
  forall i j, (i < j < length rows)%nat ->
    isl_seq_eq (nth i rows []) (nth j rows []) len = false.

(** [r2] is a positive multiple of [r1]: the two rows describe the same
    halfspace. *)
Definition same_halfspace (len : nat) (r1 r2 : row) : Prop :=
  exists k, 0 < k /\
    forall i, (i < len)%nat -> at_ r2 i = k * at_ r1 i.

(** ** The hull of a one-dimensional set *)

(** The pointers [lower] and [upper] of [convex_hull_1d]: [None] is the
    null pointer, [Some r] the contents of the row of the matrix [c] the
    pointer refers to. *)
Record bounds_1d : Type := mk_bounds {
  lower : option row;
  upper : option row
}.

(** The rows of the 2x2 matrix [c] have two entries, so that a copy of
    length 2 replaces the whole row. *)
Definition cpy2 (src : row) : row := isl_seq_cpy (zeros 2) src 2.
Definition neg2 (src : row) : row := isl_seq_neg (zeros 2) src 2.

(** The bounds the first member provides. *)
Definition seed_1d (p0 : isl_basic_set) : option bounds_1d :=
  if Nat.ltb 0 (n_eq p0) then
    if negb (Nat.eqb (n_eq p0) 1) then None
    else
      let e := nth 0 (eq p0) [] in
      if 0 <? at_ e 1
      then Some (mk_bounds (Some (cpy2 e)) (Some (neg2 e)))
      else Some (mk_bounds (Some (neg2 e)) (Some (cpy2 e)))
  else
    Some (fold_left
            (fun b c =>
               if 0 <? at_ c 1 then mk_bounds (Some (cpy2 c)) (upper b)
               else mk_bounds (lower b) (Some (cpy2 c)))
            (ineq p0) (mk_bounds None None)).

(** The running bound against one equality [e] of a member. *)
Definition lower_vs_eq (l e : row) : row :=
  let a := at_ l 0 * at_ e 1 in
  let b := at_ l 1 * at_ e 0 in
  let l := if (a <? b) && (0 <? at_ e 1) then cpy2 e else l in
  if (a >? b) && (at_ e 1 <? 0) then neg2 e else l.

Definition upper_vs_eq (u e : row) : row :=
  let a := at_ u 0 * at_ e 1 in
  let b := at_ u 1 * at_ e 0 in
  let u := if (a <? b) && (0 <? at_ e 1) then neg2 e else u in
  if (a >? b) && (at_ e 1 <? 0) then cpy2 e else u.

(** The running bound against one inequality [c] of a member. *)
Definition lower_vs_ineq (l c : row) : row :=
  if 0 <? at_ c 1 then
    let a := at_ l 0 * at_ c 1 in
    let b := at_ l 1 * at_ c 0 in
    if a <? b then cpy2 c else l
  else l.

Definition upper_vs_ineq (u c : row) : row :=
  if at_ c 1 <? 0 then
    let a := at_ u 0 * at_ c 1 in
    let b := at_ u 1 * at_ c 0 in
    if a >? b then cpy2 c else u
  else u.

(** The state of the loop over the constraints of one member. *)
Record member_1d : Type := mk_member {
  has_lower : bool;
  has_upper : bool;
  m_bounds : bounds_1d
}.

Definition member_eq_step (m : member_1d) (e : row) : member_1d :=
  mk_member true true
    (mk_bounds (option_map (fun l => lower_vs_eq l e) (lower (m_bounds m)))
               (option_map (fun u => upper_vs_eq u e) (upper (m_bounds m)))).

Definition member_ineq_step (m : member_1d) (c : row) : member_1d :=
  mk_member
    (if 0 <? at_ c 1 then true else has_lower m)
    (if at_ c 1 <? 0 then true else has_upper m)
    (mk_bounds (option_map (fun l => lower_vs_ineq l c) (lower (m_bounds m)))
               (option_map (fun u => upper_vs_ineq u c) (upper (m_bounds m)))).

(** One iteration of the loop over the members. *)
Definition member_1d_step (b : bounds_1d) (bset : isl_basic_set) : bounds_1d :=
  let m := mk_member false false b in
  let m := fold_left member_eq_step (eq bset) m in
  let m := fold_left member_ineq_step (ineq bset) m in
  mk_bounds (if has_lower m then lower (m_bounds m) else None)
            (if has_upper m then upper (m_bounds m) else None).

(** The lower bounds a member provides, as rows with a positive
    coefficient: its equalities, negated where the coefficient is negative,
    and its inequalities with a positive coefficient. *)
Definition lower_cands (bset : isl_basic_set) : list row :=
  map (fun e => if 0 <? at_ e 1 then cpy2 e else neg2 e)
      (filter (fun e => negb (at_ e 1 =? 0)) (eq bset)) ++
  map cpy2 (filter (fun c => 0 <? at_ c 1) (ineq bset)).

(** The upper bounds a member provides, as rows with a negative
    coefficient. *)
Definition upper_cands (bset : isl_basic_set) : list row :=
  map (fun e => if 0 <? at_ e 1 then neg2 e else cpy2 e)
      (filter (fun e => negb (at_ e 1 =? 0)) (eq bset)) ++
  map cpy2 (filter (fun c => at_ c 1 <? 0) (ineq bset)).

(** Whether the member sets [has_lower], [has_upper]. *)
Definition provides_lower (bset : isl_basic_set) : bool :=
  negb (Nat.eqb (n_eq bset) 0) || existsb (fun c => 0 <? at_ c 1) (ineq bset).
Definition provides_upper (bset : isl_basic_set) : bool :=
  negb (Nat.eqb (n_eq bset) 0) || existsb (fun c => at_ c 1 <? 0) (ineq bset).

(** For rows [l], [r] with positive coefficients, standing for
    [x >= -l0/l1] and [x >= -r0/r1]: the bound of [l] is at most the bound
    of [r], so [l] is implied by [r] (it is the less restrictive one). *)
Definition lower_le (l r : row) : Prop :=
  at_ r 0 * at_ l 1 <= at_ l 0 * at_ r 1.

(** For rows [u], [r] with negative coefficients, standing for
    [x <= -u0/u1] and [x <= -r0/r1]: the bound of [u] is at least the bound
    of [r]. *)
Definition upper_ge (u r : row) : Prop :=
  at_ u 0 * at_ r 1 <= at_ r 0 * at_ u 1.

(** The comparison of the running lower bound [l] with a lower bound [r]
    of a member by cross-multiplication, and the same for upper bounds. *)
Definition lower_pick (l r : row) : row :=
  if at_ l 0 * at_ r 1 <? at_ l 1 * at_ r 0 then r else l.
Definition upper_pick (u r : row) : row :=
  if at_ u 1 * at_ r 0 <? at_ u 0 * at_ r 1 then r else u.

(** The value of a row [r0 + r1 x] of a one-dimensional set at a point. *)
Definition eval2 (r : row) (x : point) : Z :=
  at_ r 0 * pd x + at_ r 1 * at_ (pv x) 0.

(** A member of a one-dimensional set as [isl_basic_set_simplify] leaves
    it: rows of two entries, each with a non-zero coefficient. *)
Definition plain_1d (b : isl_basic_set) : Prop :=
  Forall (fun r => length r = 2%nat /\ at_ r 1 <> 0) (eq b) /\
  Forall (fun r => length r = 2%nat /\ at_ r 1 <> 0) (ineq b).

(** The running lower bound has a positive and the running upper bound a
    negative coefficient. *)
Definition signed_bounds (b : bounds_1d) : Prop :=
  (forall l, lower b = Some l -> 0 < at_ l 1) /\
  (forall u, upper b = Some u -> at_ u 1 < 0).

(** The running bounds hold on the points of the member [m]. *)
Definition bounds_cover (b : bounds_1d) (m : isl_basic_set) : Prop :=
  (forall l, lower b = Some l -> forall x, in_bmap x m -> 0 <= eval2 l x) /\
  (forall u, upper b = Some u -> forall x, in_bmap x m -> 0 <= eval2 u x).

(** The inequalities of the hull: [lower] if it is not null, then [upper]. *)
Definition bounds_rows (b : bounds_1d) : list row :=
  match lower b with Some l => [cpy2 l] | None => [] end ++
  match upper b with Some u => [cpy2 u] | None => [] end.

Fixpoint map_option {A B : Type} (f : A -> option B) (l : list A)
    : option (list B) :=
  match l with
  | [] => Some []
  | a :: l' =>
      match f a with
      | None => None
      | Some b => option_map (cons b) (map_option f l')
      end
  end.

Section Hull1d.

Variable isl_basic_set_simplify : isl_basic_set -> option isl_basic_set.
Variable isl_set_remove_empty_parts : isl_set -> option isl_set.
Variable isl_basic_set_finalize : isl_basic_set -> option isl_basic_set.

(** The bounds [convex_hull_1d] arrives at for the members [ps]
    (simplified, without empty parts). *)
Definition bounds_of_members (ps : list isl_basic_set) : option bounds_1d :=
  match ps with
  | [] => None
  | p0 :: _ =>
      match seed_1d p0 with
      | None => None
      | Some b => Some (fold_left member_1d_step ps b)
      end
  end.

(** [convex_hull_1d(ctx, set)]. *)
Definition convex_hull_1d (set : isl_set) : option isl_basic_set :=
  match map_option isl_basic_set_simplify (p set) with
  | None => None
  | Some ps =>
      match isl_set_remove_empty_parts (mk_set (set_dim set) ps) with
      | None => None
      | Some set =>
          match bounds_of_members (p set) with
          | None => None
          | Some b =>
              match isl_basic_set_set_rational isl_basic_set_finalize
                      (mk_bmap 1 [] [] 0) with
              | None => None
              | Some hull =>
                  isl_basic_set_finalize
                    (mk_bmap (total_dim hull) (eq hull)
                       (ineq hull ++ bounds_rows b) (flags hull))
              end
          end
      end
  end.

End Hull1d.


(** ** The simple hull *)

Section SimpleHull.

Variable isl_solve_lp :
  isl_basic_map -> bool -> row -> Z -> bool -> lp_out.
Variable isl_basic_set_set_to_empty : isl_basic_set -> option isl_basic_set.
Variable isl_basic_map_empty_like_map : isl_set -> option isl_basic_map.
Variable isl_map_align_divs : isl_set -> option isl_set.
Variable isl_map_underlying_set : isl_set -> option isl_set.
Variable isl_set_affine_hull : isl_set -> option isl_basic_set.
Variable isl_basic_set_simplify : isl_basic_set -> option isl_basic_set.
Variable isl_basic_set_finalize : isl_basic_set -> option isl_basic_set.
(** [isl_basic_set_convex_hull], the function above with its tableau. *)
Variable basic_set_convex_hull : option isl_basic_set -> option isl_basic_set.
Variable isl_basic_map_overlying_set :
  isl_basic_set -> isl_basic_map -> option isl_basic_map.

(** The state of the two nested loops of [isl_map_simple_hull]: the set,
    whose members [uset_is_bound] may mark empty, and the inequalities
    added to the hull so far. *)
Record simple_state : Type := mk_simple {
  sh_set : isl_set;
  sh_rows : list row
}.

(** One iteration of the inner loop, for the inequality [j] of the member
    [i]: the row is copied, tested and tightened by [uset_is_bound], and
    freed again if it is not a bound; [None] for [goto error]. *)
Definition simple_hull_ineq (dim i j : nat) (st : simple_state)
    : option simple_state :=
  let c := isl_seq_cpy (zeros (1 + dim))
             (nth j (ineq (nth i (p (sh_set st)) (mk_bmap dim [] [] 0))) [])
             (1 + dim) in
  let r := uset_is_bound isl_solve_lp isl_basic_set_set_to_empty
             (sh_set st) c (1 + dim) in
  if ib_ret r <? 0 then None
  else if ib_ret r =? 0 then Some (mk_simple (ib_set r) (sh_rows st))
  else Some (mk_simple (ib_set r) (sh_rows st ++ [ib_c r])).

(** The loop [for (j = 0; j < set->p[i]->n_ineq; ++j)]; the bound is read
    again in every iteration, since the member may have been marked empty
    in the meantime ([todo] bounds the iterations that remain). *)
Fixpoint simple_hull_member (dim i : nat) (todo j : nat) (st : simple_state)
    : option simple_state :=
  match todo with
  | O => Some st
  | S todo' =>
      if Nat.ltb j (n_ineq (nth i (p (sh_set st)) (mk_bmap dim [] [] 0)))
      then
        match simple_hull_ineq dim i j st with
        | None => None
        | Some st' => simple_hull_member dim i todo' (S j) st'
        end
      else Some st
  end.

(** The loop [for (i = 0; i < set->n; ++i)], over the members [i], [i+1],
    ... ([todo] of them). *)
Fixpoint simple_hull_members (dim : nat) (todo i : nat) (st : simple_state)
    : option simple_state :=
  match todo with
  | O => Some st
  | S todo' =>
      match simple_hull_member dim i
              (n_ineq (nth i (p (sh_set st)) (mk_bmap dim [] [] 0))) 0 st with
      | None => None
      | Some st' => simple_hull_members dim todo' (S i) st'
      end
  end.

(** [isl_map_simple_hull(map)]. *)
Definition isl_map_simple_hull (map : isl_set) : option isl_basic_map :=
  match p map with
  | [] => isl_basic_map_empty_like_map map
  | [p0] => Some p0
  | _ =>
      match isl_map_align_divs map with
      | None => None
      | Some map =>
          let model := nth 0 (p map) (mk_bmap (set_dim map) [] [] 0) in
          match isl_map_underlying_set map with
          | None => None
          | Some set =>
              match isl_set_affine_hull set with
              | None => None
              | Some bset =>
                  let dim := total_dim bset in
                  match simple_hull_members dim (length (p set)) 0
                          (mk_simple set []) with
                  | None => None
                  | Some st =>
                      let bset := mk_bmap dim (eq bset)
                                    (ineq bset ++ sh_rows st) (flags bset) in
                      match isl_basic_set_simplify bset with
                      | None => None
                      | Some bset =>
                          match basic_set_convex_hull
                                  (isl_basic_set_finalize bset) with
                          | None => None
                          | Some bset => isl_basic_map_overlying_set bset model
                          end
                      end
                  end
              end
          end
      end
  end.

End SimpleHull.

(** The members [ms'] have the points of the members [ms], member by
    member, the LP solver meets its contract on those that are not flagged
    empty, and those that are flagged have no point. *)
Definition same_members
    (lp : isl_basic_map -> bool -> row -> Z -> bool -> lp_out)
    (ms ms' : list isl_basic_set) : Prop :=
  Forall2
    (fun b b' =>
       (forall x, in_bmap x b <-> in_bmap x b') /\
       (forall f, ISL_F_ISSET b' ISL_BASIC_SET_EMPTY = false ->
                  lp_contract b' f (lp b' false f 1 true)) /\
       (ISL_F_ISSET b' ISL_BASIC_SET_EMPTY = true -> forall x, ~ in_bmap x b'))
    ms ms'.

(** The invariant of the loops of the simple hull: the members keep their
    points and the rows added so far hold on the points of the members
    [ms]. *)
Definition simple_inv
    (lp : isl_basic_map -> bool -> row -> Z -> bool -> lp_out)
    (ms : list isl_basic_set) (st : simple_state) : Prop :=
  same_members lp ms (p (sh_set st)) /\
  Forall (fun r => forall x, Exists (in_bmap x) ms -> sat_ineq r x) (sh_rows st).

(** * More of the file: wrapping, the pair hull and the drivers *)

(** ** Points of the LP of [wrap_constraints] *)

(** The shape [wrap_constraints] and [wrap_facet] expect of a set: every
    constraint of every member has [1 + dim] entries. *)
Definition rows_of_dim (set : isl_set) : Prop :=
  Forall (fun b =>
            Forall (fun c => length c = (1 + isl_set_n_dim set)%nat) (eq b) /\
            Forall (fun c => length c = (1 + isl_set_n_dim set)%nat) (ineq b))
         (p set).

(** The homogeneous vector [(pd, pv)] of a point. *)
Definition hom (x : point) : row := pd x :: pv x.

(** The point of the LP in which the member [i] is dilated so that the
    first coordinate of [x] becomes 1 and every other member is shrunk to
    the origin: the variables [(a_j, x_j)] are [(pd, pv)] for [j = i] and
    0 otherwise, over the common denominator [pv[0]]. *)
Definition wrap_lift (dim n i : nat) (x : point) : point :=
  mk_point (at_ (pv x) 0)
    (concat (map (fun j => if Nat.eqb j i then hom x else zeros dim)
               (seq 0 n))).

(** ** Validity of rows on a set *)

(** The inequality [r] holds on every point of the set. *)
Definition valid_on (set : isl_set) (r : row) : Prop :=
  forall x, in_set x set -> 0 <= eval r x.

(** The inequality [ridge] holds on the points of the set that lie on the
    hyperplane of [facet]. *)
Definition ridge_on (set : isl_set) (facet ridge : row) : Prop :=
  forall x, in_set x set -> eval facet x = 0 -> 0 <= eval ridge x.

(** What [wrap_facet] relies on when it maps the set through the right
    inverse of the matrix with the rows [1 0 ... 0], [facet] and [ridge]:
    the new set [set'] has the dimension and the row shape of [set], and
    every point of [set] has an image in [set'] whose first coordinate is
    the value of [facet] and whose second coordinate is the value of
    [ridge] at the point. *)
Definition wrap_frame (set set' : isl_set) (facet ridge : row) : Prop :=
  isl_set_n_dim set' = isl_set_n_dim set /\
  rows_of_dim set' /\
  forall x, in_set x set ->
    exists z, in_set z set' /\
      length (pv z) = isl_set_n_dim set /\
      at_ (pv z) 0 * pd x = eval facet x * pd z /\
      at_ (pv z) 1 * pd x = eval ridge x * pd z.

(** What [extend] relies on for its calls of [wrap_facet] on the set: the
    frame of the transformed set and the contract of the LP solver on the
    LP built from it. *)
Definition wrap_contract
    (lp : isl_basic_map -> bool -> row -> Z -> bool -> lp_out)
    (rinv : isl_mat -> option isl_mat)
    (pre : isl_set -> isl_mat -> option isl_set) (set : isl_set) : Prop :=
  forall facet ridge T set',
    length facet = (1 + isl_set_n_dim set)%nat ->
    length ridge = (1 + isl_set_n_dim set)%nat ->
    rinv (wrap_matrix (1 + isl_set_n_dim set) facet ridge) = Some T ->
    pre set T = Some set' ->
    wrap_frame set set' facet ridge /\
    lp_contract (wrap_constraints set')
      (wrap_objective (1 + isl_set_n_dim set) (length (p set')))
      (lp (wrap_constraints set') false
          (wrap_objective (1 + isl_set_n_dim set) (length (p set'))) 1 true).

(** What [extend] relies on for [compute_facet]: the inequalities of the
    facet it returns for a row [c] are rows of the set's shape that hold
    on the part of the set on the hyperplane of [c]. *)
Definition ridges_contract
    (cf : isl_set -> row -> option isl_basic_set) (set : isl_set) : Prop :=
  forall c facet,
    length c = (1 + isl_set_n_dim set)%nat ->
    valid_on set c ->
    cf set c = Some facet ->
    Forall (fun ridge => length ridge = (1 + isl_set_n_dim set)%nat /\
                         ridge_on set c ridge) (ineq facet).

(** Every inequality of the hull under construction has the set's shape
    and holds on the set. *)
Definition hull_valid (set : isl_set) (h : hull_state) : Prop :=
  Forall (fun r => length r = (1 + isl_set_n_dim set)%nat /\ valid_on set r)
         (h_ineq h).

(** ** [convex_hull_pair] *)

Definition isl_basic_set_n_dim (bset : isl_basic_set) : nat := total_dim bset.

(** A constraint [c] of the basic set [i] (0 or 1) in its block:
    [isl_seq_clr(row, (i+1)*(1+dim))],
    [isl_seq_clr(row+(i+2)*(1+dim), (1-i)*(1+dim))],
    [isl_seq_cpy(row+(i+1)*(1+dim), c, 1+dim)]. *)
Definition pair_block_row (dim i : nat) (c : row) : row :=
  zeros ((i + 1) * (1 + dim)) ++ isl_seq_cpy (zeros (1 + dim)) c (1 + dim)
    ++ zeros ((1 - i) * (1 + dim)).

(** The inequality [a_i >= 0] on the homogeneous coordinate of block [i]. *)
Definition pair_dilation_row (dim i : nat) : row :=
  set_at (zeros (1 + 2 + 3 * dim)) ((i + 1) * (1 + dim)) 1.

(** The equality that makes column [j] of the hull the sum of the columns
    [j] of the two blocks. *)
Definition pair_link_row (dim j : nat) : row :=
  set_at (set_at (set_at (zeros (1 + 2 + 3 * dim)) j (-1)) (1 + dim + j) 1)
         (2 * (1 + dim) + j) 1.

(** The equalities and the inequalities that the body of the loop over
    [i] allocates for [bset[i]], in order. *)
Definition pair_member_rows (dim i : nat) (b : isl_basic_set)
    : list row * list row :=
  (map (pair_block_row dim i) (eq b),
   map (pair_block_row dim i) (ineq b) ++ [pair_dilation_row dim i]).

(** The basic set in [2 + 3 * dim] variables that [convex_hull_pair] sets
    up before it projects. *)
Definition convex_hull_pair_system (bset1 bset2 : isl_basic_set)
    : isl_basic_set :=
  let dim := isl_basic_set_n_dim bset1 in
  mk_bmap (2 + 3 * dim)
    (fst (pair_member_rows dim 0 bset1) ++ fst (pair_member_rows dim 1 bset2)
       ++ map (pair_link_row dim) (seq 0 (1 + dim)))
    (snd (pair_member_rows dim 0 bset1) ++ snd (pair_member_rows dim 1 bset2))
    0.

Section Pair.

Variable isl_basic_set_finalize : isl_basic_set -> option isl_basic_set.
Variable isl_basic_set_remove_dims :
  isl_basic_set -> nat -> nat -> option isl_basic_set.
Variable basic_set_convex_hull : option isl_basic_set -> option isl_basic_set.

(** [convex_hull_pair(bset1, bset2)]. *)
Definition convex_hull_pair (bset1 bset2 : option isl_basic_set)
    : option isl_basic_set :=
  match bset1, bset2 with
  | Some b1, Some b2 =>
      let dim := isl_basic_set_n_dim b1 in
      match isl_basic_set_set_rational isl_basic_set_finalize
              (convex_hull_pair_system b1 b2) with
      | None => None
      | Some hull =>
          match isl_basic_set_remove_dims hull dim (2 * (1 + dim)) with
          | None => None
          | Some hull => basic_set_convex_hull (Some hull)
          end
      end
  | _, _ => None
  end.

End Pair.

(** The part of a point of the system that lies in block [i]: the
    homogeneous coordinate [a_i] and the [dim] coordinates after it. *)
Definition pair_part (dim i : nat) (y : point) : point :=
  mk_point (at_ (hom y) ((i + 1) * (1 + dim)))
           (firstn dim (skipn ((i + 1) * (1 + dim) + 1) (hom y))).

(** The homogeneous cone of a basic set: the constraints without their
    constant made 1. *)
Definition in_cone (q : point) (b : isl_basic_set) : Prop :=
  0 <= pd q /\
  Forall (fun c => sat_eq c q) (eq b) /\
  Forall (fun c => sat_ineq c q) (ineq b).

Definition rows_of_bset_dim (dim : nat) (b : isl_basic_set) : Prop :=
  Forall (fun c => length c = (1 + dim)%nat) (eq b) /\
  Forall (fun c => length c = (1 + dim)%nat) (ineq b).

(** The sum of two points of the cones, with its two summands behind it. *)
Definition vadd (u v : row) : row := map (fun ab => fst ab + snd ab) (combine u v).
Definition pair_sum (q1 q2 : point) : point :=
  mk_point (pd q1 + pd q2) (vadd (pv q1) (pv q2) ++ hom q1 ++ hom q2).
Definition scale_point (k : Z) (x : point) : point :=
  mk_point (k * pd x) (map (Z.mul k) (pv x)).

(** The first block of a point of the system is the sum of the two others. *)
Definition pair_linked (dim : nat) (y : point) : Prop :=
  forall j, (j < 1 + dim)%nat ->
    at_ (hom y) j = at_ (hom y) (1 + dim + j) + at_ (hom y) (2 * (1 + dim) + j).

(** What is left of a point when [n] variables from position [first] on
    are projected out. *)
Definition project_out (first n : nat) (y : point) : point :=
  mk_point (pd y) (firstn first (pv y) ++ skipn (first + n) (pv y)).

(** The collaborators of [convex_hull_pair] (marking as rational, the
    projection by Fourier-Motzkin elimination and the removal of redundant
    constraints) keep the projections of the points of the system. *)
Definition pair_contract
    (finalize : isl_basic_set -> option isl_basic_set)
    (remove_dims : isl_basic_set -> nat -> nat -> option isl_basic_set)
    (hull_of : option isl_basic_set -> option isl_basic_set)
    (b1 b2 : isl_basic_set) : Prop :=
  let dim := isl_basic_set_n_dim b1 in
  forall hull1 hull2 h,
    isl_basic_set_set_rational finalize (convex_hull_pair_system b1 b2)
      = Some hull1 ->
    remove_dims hull1 dim (2 * (1 + dim))%nat = Some hull2 ->
    hull_of (Some hull2) = Some h ->
    forall y, in_bmap y (convex_hull_pair_system b1 b2) ->
              in_bmap (project_out dim (2 * (1 + dim)) y) h.

(** The convex combination of [p1] and [p2] with the weights
    [w1 / (w1 + w2)] and [w2 / (w1 + w2)]. *)
Definition combination (w1 w2 : Z) (p1 p2 : point) : point :=
  mk_point ((w1 + w2) * (pd p1 * pd p2))
    (vadd (map (Z.mul (w1 * pd p2)) (pv p1)) (map (Z.mul (w2 * pd p1)) (pv p2))).

(** ** The bounds of the one-dimensional hull *)

(** [l] is a lower bound that some member provides, and it is implied by
    every lower bound that any member provides. *)
Definition weakest_lower (ps : list isl_basic_set) (l : row) : Prop :=
  (exists m, In m ps /\ In l (lower_cands m)) /\
  forall m r, In m ps -> In r (lower_cands m) -> lower_le l r.

Definition weakest_upper (ps : list isl_basic_set) (u : row) : Prop :=
  (exists m, In m ps /\ In u (upper_cands m)) /\
  forall m r, In m ps -> In r (upper_cands m) -> upper_ge u r.

(** ** The rows of the simple hull *)

(** A member as the loops of the simple hull find it: the member itself,
    or one that was marked empty and has no inequality left. *)
Definition kept_or_emptied (b b' : isl_basic_set) : Prop :=
  b' = b \/ ineq b' = [].

(** The coefficients of [r] are a positive multiple of those of an
    inequality of a member. *)
Definition simple_row_origin (dim : nat) (ms : list isl_basic_set) (r : row)
    : Prop :=
  exists b c k, In b ms /\ In c (ineq b) /\ 0 < k /\
    tl r = map (Z.mul k) (tl (isl_seq_cpy (zeros (1 + dim)) c (1 + dim))).

(** The row [r] is attained on the members when they have a point. *)
Definition tight_on (ms : list isl_basic_set) (r : row) : Prop :=
  (exists x, Exists (in_bmap x) ms) ->
  exists x, Exists (in_bmap x) ms /\ eval r x = 0.

Definition simple_inv_tight
    (lp : isl_basic_map -> bool -> row -> Z -> bool -> lp_out)
    (dim : nat) (ms : list isl_basic_set) (st : simple_state) : Prop :=
  same_members lp ms (p (sh_set st)) /\
  Forall2 kept_or_emptied ms (p (sh_set st)) /\
  Forall (fun r => simple_row_origin dim ms r /\ tight_on ms r) (sh_rows st).

(** ** Adding an equality to a set *)

Section AddEquality.

(** [isl_basic_set_extend(bset, 0, dim, 0, 1, 0)]: room for one more
    equality. *)
Variable isl_basic_set_extend : isl_basic_set -> option isl_basic_set.

(** [isl_basic_set_add_equality(ctx, bset, c)]. *)
Definition isl_basic_set_add_equality (bset : isl_basic_set) (c : row)
    : option isl_basic_set :=
  if ISL_F_ISSET bset ISL_BASIC_SET_EMPTY then Some bset
  else
    let dim := isl_basic_set_n_dim bset in
    match isl_basic_set_extend bset with
    | None => None
    | Some bset =>
        Some (mk_bmap (total_dim bset)
                (eq bset ++ [isl_seq_cpy (zeros (1 + dim)) c (1 + dim)])
                (ineq bset) (flags bset))
    end.

(** [isl_set_add_equality(ctx, set, c)]. *)
Definition isl_set_add_equality (set : isl_set) (c : row) : option isl_set :=
  match map_option (fun b => isl_basic_set_add_equality b c) (p set) with
  | None => None
  | Some ps => Some (mk_set (set_dim set) ps)
  end.

End AddEquality.

(** ** Boundedness *)

Section Bounded.

Variable isl_tab : Type.
Variable isl_tab_from_recession_cone : isl_basic_map -> isl_tab.
Variable isl_tab_cone_is_bounded : isl_tab -> Z.

(** [isl_basic_set_is_bounded(bset)]. *)
Definition isl_basic_set_is_bounded (bset : isl_basic_set) : Z :=
  isl_tab_cone_is_bounded (isl_tab_from_recession_cone bset).

(** [isl_set_is_bounded(set)], as the loop over the members. *)
Fixpoint isl_set_is_bounded_from (ps : list isl_basic_set) : Z :=
  match ps with
  | [] => 1
  | b :: rest =>
      let bounded := isl_basic_set_is_bounded b in
      if (bounded =? 0) || (bounded <? 0) then bounded
      else isl_set_is_bounded_from rest
  end.

Definition isl_set_is_bounded (set : isl_set) : Z :=
  isl_set_is_bounded_from (p set).

End Bounded.

(** ** Independent bounds *)

(** [isl_seq_first_non_zero(p, len)]: the position of the first non-zero
    entry among the first [len], or -1. *)
Definition isl_seq_first_non_zero (p : row) (len : nat) : Z :=
  match find (fun i => negb (at_ p i =? 0)) (seq 0 len) with
  | Some i => Z.of_nat i
  | None => -1
  end.

Section IndependentBound.

Variable isl_solve_lp :
  isl_basic_map -> bool -> row -> Z -> bool -> lp_out.
Variable isl_basic_set_set_to_empty : isl_basic_set -> option isl_basic_set.
(** [isl_seq_elim(dst, src, pos, len, NULL)]: the contents of [dst]
    afterwards. *)
Variable isl_seq_elim : row -> row -> nat -> nat -> row.

(** How the loop over the rows found before is left. *)
Inductive elim_loop_end : Type :=
  | EL_dependent (cur : row)            (* [return 0]: the row was reduced to 0 *)
  | EL_position (i : nat) (cur : row).  (* to [uset_is_bound], with this [i] *)

(** The loop [for (i = 0; i < n; ++i)] of [is_independent_bound] over the
    rows [dirs->row[i..n-1]]; [cur] is [dirs->row[n]+1] and [pos] its
    first non-zero position. *)
Fixpoint elim_loop (rows : list row) (i : nat) (cur : row) (pos : Z)
    (len : nat) : elim_loop_end :=
  match rows with
  | [] => EL_position i cur
  | r :: rest =>
      let pos_i := isl_seq_first_non_zero (tl r) len in
      if pos_i <? pos then elim_loop rest (S i) cur pos len
      else if pos <? pos_i then EL_position i cur
      else
        let cur := isl_seq_elim cur (tl r) (Z.to_nat pos) len in
        let pos := isl_seq_first_non_zero cur len in
        if pos <? 0 then EL_dependent cur
        else elim_loop rest (S i) cur pos len
  end.

(** The matrix with row [n] replaced. *)
Definition set_row (dirs : isl_mat) (n : nat) (r : row) : isl_mat :=
  firstn n dirs ++ [r] ++ skipn (S n) dirs.

(** The rotation [t = row[n]; row[k] = row[k-1] (k = n, ..., i+1);
    row[i] = t]. *)
Definition rotate_rows (dirs : isl_mat) (i n : nat) : isl_mat :=
  firstn i dirs ++ [nth n dirs []] ++ firstn (n - i) (skipn i dirs)
    ++ skipn (S n) dirs.

Record independent_result : Type := mk_independent {
  ind_ret : Z;
  ind_set : isl_set;
  ind_dirs : isl_mat
}.

(** The first part of [is_independent_bound]: the coefficients of [c] are
    copied into [dirs->row[n]+1] and reduced against the rows found
    before. *)
Definition reduce_against (c : row) (dirs : isl_mat) (n_col n : nat)
    : elim_loop_end :=
  let old := nth n dirs [] in
  let cur := isl_seq_cpy (tl old) (tl c) (n_col - 1) in
  if Nat.eqb n 0 then EL_position 0 cur
  else
    let pos := isl_seq_first_non_zero cur (n_col - 1) in
    if pos <? 0 then EL_dependent cur
    else elim_loop (firstn n dirs) 0 cur pos (n_col - 1).

(** [is_independent_bound(ctx, set, c, dirs, n)], with [n_col] for
    [dirs->n_col]. *)
Definition is_independent_bound (set : isl_set) (c : row) (dirs : isl_mat)
    (n_col n : nat) : independent_result :=
  let old := nth n dirs [] in
  match reduce_against c dirs n_col n with
  | EL_dependent cur =>
      mk_independent 0 set (set_row dirs n (hd 0 old :: cur))
  | EL_position i cur =>
      let r := uset_is_bound isl_solve_lp isl_basic_set_set_to_empty set
                 (hd 0 old :: cur) n_col in
      let dirs := set_row dirs n (ib_c r) in
      if negb (ib_ret r =? 1) then mk_independent (ib_ret r) (ib_set r) dirs
      else if Nat.ltb i n
      then mk_independent 1 (ib_set r) (rotate_rows dirs i n)
      else mk_independent 1 (ib_set r) dirs
  end.

End IndependentBound.

(** The first non-zero positions of the coefficient parts of the rows
    (-1 for a row whose coefficients are all zero). *)
Definition pivots (len : nat) (rows : list row) : list Z :=
  map (fun r => isl_seq_first_non_zero (tl r) len) rows.

(** The entries of the list increase strictly. *)
Fixpoint increasing (l : list Z) : Prop :=
  match l with
  | [] => True
  | a :: rest => Forall (fun b => a < b) rest /\ increasing rest
  end.

(** What [is_independent_bound] needs of [isl_seq_elim] on rows of [len]
    entries: with a non-zero entry of [src] at [pos], the entry of [dst]
    at [pos] is cancelled, the length is kept and no entry before [pos]
    that is zero in both rows becomes non-zero. *)
Definition elim_contract (elim : row -> row -> nat -> nat -> row) : Prop :=
  forall dst src pos len,
    (pos < len)%nat -> length dst = len -> at_ src pos <> 0 ->
    length (elim dst src pos len) = length dst /\
    at_ (elim dst src pos len) pos = 0 /\
    forall j, (j < pos)%nat -> at_ dst j = 0 -> at_ src j = 0 ->
              at_ (elim dst src pos len) j = 0.

(** ** The feasible points of the LP of [wrap_constraints] *)

(** The part of a point of the LP that lies in block [i]: the dilation
    [a_i] and the coordinates after it; [dim] is the width of a block. *)
Definition wrap_part (dim i : nat) (y : point) : point :=
  mk_point (at_ (hom y) (1 + dim * i))
           (firstn (dim - 1) (skipn (1 + dim * i + 1) (hom y))).

(** The sum of the first coordinates of the blocks. *)
Definition wrap_first_sum (dim n : nat) (y : point) : Z :=
  fold_right Z.add 0 (map (fun i => at_ (pv y) (dim * i + 1)) (seq 0 n)).

(** ** The row of [wrap_facet] touches the set *)

(** The sum of the second coordinates of the blocks: the objective. *)
Definition wrap_second_sum (dim n : nat) (y : point) : Z :=
  fold_right Z.add 0 (map (fun i => at_ (pv y) (dim * i + 2)) (seq 0 n)).

(** Every point of the transformed set comes from a point of the set,
    with the values of [facet] and [ridge] as its first two coordinates. *)
Definition wrap_frame_back (set set' : isl_set) (facet ridge : row) : Prop :=
  forall z, in_set z set' ->
    exists x, in_set x set /\
      at_ (pv z) 0 * pd x = eval facet x * pd z /\
      at_ (pv z) 1 * pd x = eval ridge x * pd z.

(** The members have no direction of recession in the first two
    coordinates. *)
Definition no_recession (set : isl_set) : Prop :=
  forall b q, In b (p set) -> in_cone q b -> pd q = 0 ->
    at_ (pv q) 0 = 0 /\ at_ (pv q) 1 = 0.

(** A point with its coordinates cut or filled up with zeros to [d]. *)
Definition pad_point (d : nat) (q : point) : point :=
  mk_point (pd q) (firstn d (pv q ++ zeros d)).

(** ** The driver of the hull of a set without parameters *)

Section Driver.

Variable isl_basic_set_finalize : isl_basic_set -> option isl_basic_set.

(** [isl_set_set_rational(set)]. *)
Definition isl_set_set_rational (set : isl_set) : option isl_set :=
  match map_option (isl_basic_set_set_rational isl_basic_set_finalize) (p set) with
  | None => None
  | Some ps => Some (mk_set (set_dim set) ps)
  end.

Variable isl_set_is_empty : isl_set -> Z.
Variable isl_basic_set_empty : nat -> option isl_basic_set.
Variable isl_basic_set_universe : nat -> option isl_basic_set.

(** [convex_hull_0d(set)]. *)
Definition convex_hull_0d (set : isl_set) : option isl_basic_set :=
  if negb (isl_set_is_empty set =? 0)
  then isl_basic_set_empty (set_dim set)
  else isl_basic_set_universe (set_dim set).

Variable isl_set_normalize : isl_set -> option isl_set.
Variable isl_tab : Type.
Variable isl_tab_from_recession_cone : isl_basic_map -> isl_tab.
Variable isl_tab_cone_is_bounded : isl_tab -> Z.
(** The hulls of the three paths, each with the functions it calls. *)
Variable hull_1d : isl_set -> option isl_basic_set.
Variable uset_convex_hull_elim : isl_set -> option isl_basic_set.
Variable independent_bounds : isl_set -> option isl_mat.
Variable uset_convex_hull_wrap_with_bounds :
  isl_set -> isl_mat -> option isl_basic_set.

(** [uset_convex_hull(set)]. *)
Definition uset_convex_hull (set : isl_set) : option isl_basic_set :=
  if Nat.eqb (isl_set_n_dim set) 0 then convex_hull_0d set
  else
    match isl_set_set_rational set with
    | None => None
    | Some set =>
        match isl_set_normalize set with
        | None => None
        | Some set =>
            if Nat.eqb (length (p set)) 1
            then Some (nth 0 (p set) (mk_bmap (set_dim set) [] [] 0))
            else if Nat.eqb (isl_set_n_dim set) 1 then hull_1d set
            else if isl_set_is_bounded isl_tab isl_tab_from_recession_cone
                      isl_tab_cone_is_bounded set =? 0
            then uset_convex_hull_elim set
            else
              match independent_bounds set with
              | None => None
              | Some bounds => uset_convex_hull_wrap_with_bounds set bounds
              end
        end
    end.

End Driver.

(** ** The sign filter of the redundancy test *)

(** The point [x] moved by [t] along the coordinate [i]. *)
Definition shift_point (x : point) (i : nat) (t : Z) : point :=
  mk_point (pd x)
    (set_at (pv x ++ zeros (S i)) i (at_ (pv x) i + t)).

(** ** Rejected directions *)

(** The combination of the coefficient parts of [rows] with the
    coefficients [bs], at position [j]. *)
Fixpoint lincomb (bs : list Z) (rows : list row) (j : nat) : Z :=
  match bs, rows with
  | b :: bs', r :: rows' => b * at_ (tl r) j + lincomb bs' rows' j
  | _, _ => 0
  end.

Definition end_row (e : elim_loop_end) : row :=
  match e with EL_dependent cur => cur | EL_position _ cur => cur end.

(** [isl_seq_elim] leaves a combination of the two rows in which [dst]
    has a non-zero coefficient. *)
Definition elim_combines (elim : row -> row -> nat -> nat -> row) : Prop :=
  forall dst src pos len,
    (pos < len)%nat -> length dst = len -> at_ src pos <> 0 ->
    length (elim dst src pos len) = length dst /\
    exists a b, a <> 0 /\
      forall j, (j < len)%nat ->
        at_ (elim dst src pos len) j = a * at_ dst j + b * at_ src j.

(** ** The hull is closed under wrapping *)

(** For the facets [0..k-1] of the hull, every ridge that [compute_facet]
    gives leads, by [wrap_facet], to a row that is in the hull. *)
Definition closed_below
    (lp : isl_basic_map -> bool -> row -> Z -> bool -> lp_out)
    (rinv : isl_mat -> option isl_mat)
    (pre : isl_set -> isl_mat -> option isl_set)
    (cf : isl_set -> row -> option isl_basic_set)
    (set : isl_set) (k : nat) (rows : list row) : Prop :=
  forall i facet ridge,
    (i < k)%nat ->
    cf set (nth i rows []) = Some facet ->
    In ridge (ineq facet) ->
    exists r,
      wrap_facet lp rinv pre set
        (isl_seq_cpy (zeros (1 + isl_set_n_dim set)) (nth i rows [])
           (1 + isl_set_n_dim set)) ridge = Some r /\
      seen_before rows r (1 + isl_set_n_dim set) = true.

(** A list of rows that holds every row the walk of [extend] reaches from
    a row of the list: [compute_facet] returns a facet for each of its
    rows, and [wrap_facet] wraps the row around each ridge of that facet
    into a row of the list. *)
Definition wrap_closed
    (lp : isl_basic_map -> bool -> row -> Z -> bool -> lp_out)
    (rinv : isl_mat -> option isl_mat)
    (pre : isl_set -> isl_mat -> option isl_set)
    (cf : isl_set -> row -> option isl_basic_set)
    (set : isl_set) (facets : list row) : Prop :=
  forall c, In c facets ->
    exists facet, cf set c = Some facet /\
      forall ridge, In ridge (ineq facet) ->
        exists r, wrap_facet lp rinv pre set c ridge = Some r /\ In r facets.
(** * Concrete polyhedra and solvers used in the examples *)

(** The polyhedron [{x = 0}] in one variable, and the constraint [x >= 0]. *)
Definition bmap_x_eq_0 : isl_basic_map := mk_bmap 1 [[0; 1]] [] 0.
Definition row_x_ge_0 : row := [0; 1].

(** The half-line [{x >= 0}] and an LP solver that knows its minimum of
    [x]. *)
Definition bmap_x_ge_0 : isl_basic_map := mk_bmap 1 [] [[0; 1]] 0.
Definition lp_min_zero : isl_basic_map -> bool -> row -> Z -> bool -> lp_out :=
  fun _ _ _ _ _ => mk_lp_out isl_lp_ok 0 1.


(** An instance of the Gaussian elimination of [isl_basic_map_gauss] for the
    basic maps used below: it makes the pivot of an equality positive by
    negating the equality. *)
Definition gauss_positive_pivot (b : isl_basic_map) : isl_basic_map :=
  mk_bmap (total_dim b)
    (map (fun e => if at_ e (total_dim b) <? 0
                   then isl_seq_neg e e (1 + total_dim b) else e) (eq b))
    (ineq b) (flags b).

(** The polyhedron [{-x = 0}], with no inequality and no flag. *)
Definition bmap_neg_x_eq_0 : isl_basic_map := mk_bmap 1 [[0; -1]] [] 0.

(** The triangle with corners (0,0), (0,1), (1,1):
    [x >= 0], [1 - y >= 0], [y - x >= 0]. *)
Definition triangle : isl_basic_set :=
  mk_bmap 2 [] [[0; 1; 0]; [1; 0; -1]; [0; -1; 1]] 0.
Definition triangle_set : isl_set := mk_set 2 [triangle].

(** Its facet [x >= 0] and, on that facet, the ridge [y >= 0]. *)
Definition facet_x : row := [0; 1; 0].
Definition ridge_y : row := [0; 0; 1].

(** With this facet and ridge the matrix of [wrap_facet] is the identity:
    its right inverse is the identity and the preimage is the set itself. *)
Definition right_inverse_id : isl_mat -> option isl_mat := fun m => Some m.
Definition preimage_id : isl_set -> isl_mat -> option isl_set :=
  fun s _ => Some s.

(** LP solvers that answer with a fixed result. *)
Definition lp_const (o : lp_out) : isl_basic_map -> bool -> row -> Z -> bool -> lp_out :=
  fun _ _ _ _ _ => o.

(** The unit square as the union of two triangles. *)
Definition square_set : isl_set :=
  mk_set 2 [ mk_bmap 2 [] [[0; 1; 0]; [0; 0; 1]; [1; -1; -1]] 0;
             mk_bmap 2 [] [[1; -1; 0]; [1; 0; -1]; [-1; 1; 1]] 0 ].

(** The facets of the facets of the square: a facet in the direction of
    [x] has the ridges [y >= 0] and [1 - y >= 0], a facet in the direction
    of [y] the ridges [x >= 0] and [1 - x >= 0]. *)
Definition square_compute_facet : isl_set -> row -> option isl_basic_set :=
  fun _ c =>
    if at_ c 1 =? 0
    then Some (mk_bmap 2 [] [[0; 1; 0]; [1; -1; 0]] 0)
    else Some (mk_bmap 2 [] [[0; 0; 1]; [1; 0; -1]] 0).

(** The intervals [1 <= x <= 3] and [2 <= x <= 5]. *)
Definition interval_1_3 : isl_basic_set := mk_bmap 1 [] [[-1; 1]; [3; -1]] 0.
Definition interval_2_5 : isl_basic_set := mk_bmap 1 [] [[-2; 1]; [5; -1]] 0.

(** An LP solver for the intervals [lo <= x <= hi] of one variable, given
    as the inequalities [x - lo >= 0] and [hi - x >= 0]: the minimum of
    [f1 * x] is taken at [lo] or at [hi], by the sign of [f1].  Any other
    problem is answered with an error. *)
Definition lp_interval : isl_basic_map -> bool -> row -> Z -> bool -> lp_out :=
  fun b _ f _ _ =>
    match eq b, ineq b, f with
    | [], [[a; 1]; [h; -1]], [f1] =>
        if a + h <? 0 then mk_lp_out isl_lp_error 0 0
        else mk_lp_out isl_lp_ok (if 0 <=? f1 then f1 * - a else f1 * h) 1
    | _, _, _ => mk_lp_out isl_lp_error 0 0
    end.

(** [isl_basic_set_set_to_empty]: the canonical empty basic set, with the
    equality [1 = 0] and the EMPTY flag. *)
Definition set_to_empty (b : isl_basic_set) : option isl_basic_set :=
  Some (mk_bmap (total_dim b) [1 :: zeros (total_dim b)] []
          (Z.lor (flags b) ISL_BASIC_SET_EMPTY)).

Definition two_intervals : isl_set := mk_set 1 [interval_1_3; interval_2_5].

(** * Further examples *)

(** The unit matrix of order 3 and a right inverse that knows only it. *)
Definition unit_matrix_3 : isl_mat := [[1; 0; 0]; [0; 1; 0]; [0; 0; 1]].
Definition right_inverse_unit : isl_mat -> option isl_mat :=
  fun m => if list_eq_dec (list_eq_dec Z.eq_dec) m unit_matrix_3
           then Some m else None.

(** The facets of the facets of the triangle, as far as the walk below
    needs them: the facet [x >= 0] has the ridge [y >= 0]; no ridge is
    given for the other rows. *)
Definition triangle_compute_facet : isl_set -> row -> option isl_basic_set :=
  fun _ c => if list_eq_dec Z.eq_dec c facet_x
             then Some (mk_bmap 2 [] [ridge_y] 0)
             else Some (mk_bmap 2 [] [] 0).

(** A [compute_facet] that always fails. *)
Definition compute_facet_fails : isl_set -> row -> option isl_basic_set :=
  fun _ _ => None.

(** The interval [0 <= x <= 3], the hull of the point [x = 0] and the
    interval [1 <= x <= 3], and a projection that knows this one result. *)
Definition interval_0_3 : isl_basic_set := mk_bmap 1 [] [[0; 1]; [3; -1]] 0.
Definition remove_dims_0_3 : isl_basic_set -> nat -> nat -> option isl_basic_set :=
  fun _ _ _ => Some interval_0_3.
Definition finalize_id : isl_basic_set -> option isl_basic_set := fun b => Some b.
Definition hull_id : option isl_basic_set -> option isl_basic_set := fun b => b.

(** An [isl_basic_set_extend] that leaves the basic set as it is. *)
Definition extend_id : isl_basic_set -> option isl_basic_set := fun b => Some b.

(** The triangle as [isl_basic_map_convex_hull] returns it, with the
    flags NO_IMPLICIT and NO_REDUNDANT. *)
Definition triangle_hull : isl_basic_map :=
  mk_bmap 2 [] [[0; 1; 0]; [1; 0; -1]; [0; -1; 1]] 12.

(** [isl_seq_elim] as a combination of the two rows with the cofactors of
    the entries at [pos], made coprime and with a positive one for [dst]. *)
Definition seq_elim_gcd (dst src : row) (pos len : nat) : row :=
  if at_ dst pos =? 0 then dst
  else
    let g := Z.gcd (at_ src pos) (at_ dst pos) in
    let b := at_ dst pos / g in
    let b := if 0 <? at_ src pos then - b else b in
    let a := Z.abs (at_ src pos / g) in
    isl_seq_combine dst a dst b src len.

(** An LP solver for the triangle and objectives in two variables: the
    minimum is taken at one of the corners (0,0), (0,1), (1,1). *)
Definition lp_triangle : isl_basic_map -> bool -> row -> Z -> bool -> lp_out :=
  fun _ _ f _ _ =>
    match f with
    | [f1; f2] => mk_lp_out isl_lp_ok (Z.min 0 (Z.min f2 (f1 + f2))) 1
    | _ => mk_lp_out isl_lp_error 0 0
    end.

(** An [isl_set_remove_empty_parts] for sets without empty members. *)
Definition remove_empty_none : isl_set -> option isl_set := fun s => Some s.

(** A tableau that fails: the boundedness test reports an error. *)
Definition cone_is_bounded_error : unit -> Z := fun _ => -1.

(** The half line [x <= 0] and the whole line, in one dimension. *)
Definition half_line : isl_basic_set := mk_bmap 1 [] [[0; -1]] 0.
Definition whole_line : isl_basic_set := mk_bmap 1 [] [] 0.
Definition half_line_then_whole : isl_set := mk_set 1 [half_line; whole_line].

(** An LP solver for the half line: the minimum of [f . x] is 0 when the
    first coefficient is not positive and the others are 0, and the
    problem is unbounded otherwise.  Any other basic set is answered with
    an error. *)
Definition lp_half_line : isl_basic_map -> bool -> row -> Z -> bool -> lp_out :=
  fun b _ f _ _ =>
    match eq b, ineq b with
    | [], [[0; -1]] =>
        if (0 <? hd 0 f) || negb (forallb (Z.eqb 0) (tl f))
        then mk_lp_out isl_lp_unbounded 0 0
        else mk_lp_out isl_lp_ok 0 1
    | _, _ => mk_lp_out isl_lp_error 0 0
    end.
(** * Properties *)

(** Evaluation of affine forms at concrete rows, leaving the arithmetic
    to [lia]. *)
Ltac eval_rows :=
  unfold sat_ineq, sat_eq, eval, at_ in *;
  cbn [nth tl hd dot pd pv eq ineq total_dim flags] in *.

(** ** The redundancy test *)

Lemma same_sign_scan_bounds (sign : Z) (i : nat) (rows : list row) (j : nat) :
  (j <= same_sign_scan sign i rows j <= j + length rows)%nat.
Proof.
  revert j; induction rows as [|r rows IH]; intros j; simpl.
  - lia.
  - destruct (sign =? Z.sgn (at_ r (S i))); [lia|].
    specialize (IH (S j)); lia.
Qed.

(** The inner scan runs to the end exactly when no inequality has the
    sign [sign] in the variable [i]. *)
Lemma same_sign_scan_end (sign : Z) (i : nat) (rows : list row) (j : nat) :
  same_sign_scan sign i rows j = (j + length rows)%nat <->
  Forall (fun r => Z.sgn (at_ r (1 + i)) <> sign) rows.
Proof.
  revert j; induction rows as [|r rows IH]; intros j; simpl.
  - split; [constructor | lia].
  - destruct (Z.eqb_spec sign (Z.sgn (at_ r (S i)))) as [E|E].
    + split; [lia|]. intros H; inversion H; subst; congruence.
    + rewrite <- Nat.add_succ_comm, IH. split.
      * intros H; constructor; [congruence | exact H].
      * intros H; inversion H; assumption.
Qed.

Lemma sign_filter_scan_bounds (c : row) (rows : list row) (todo i : nat) :
  (i <= sign_filter_scan c rows todo i <= i + todo)%nat.
Proof.
  revert i; induction todo as [|todo IH]; intros i; simpl; [lia|].
  destruct (at_ c (S i) =? 0); [specialize (IH (S i)); lia|].
  destruct (Nat.eqb _ _); [lia | specialize (IH (S i)); lia].
Qed.

Lemma sign_filter_scan_early (c : row) (rows : list row) (todo i : nat) :
  (sign_filter_scan c rows todo i < i + todo)%nat <->
  exists k, (i <= k < i + todo)%nat /\ unmatched_sign rows c k.
Proof.
  revert i; induction todo as [|todo IH]; intros i; simpl.
  - split; [lia | intros (k & Hk & _); lia].
  - destruct (Z.eqb_spec (at_ c (S i)) 0) as [Z0|Z0].
    + rewrite <- Nat.add_succ_comm, IH. split; intros (k & Hk & U).
      * exists k; split; [lia | exact U].
      * exists k; split; [|exact U].
        assert (k <> i) by (intros ->; destruct U as [U _]; apply U, Z0). lia.
    + destruct (Nat.eqb_spec (same_sign_scan (Z.sgn (at_ c (S i))) i rows 0)
                  (length rows)) as [E|E].
      * split; [|lia]. intros _. exists i. split; [lia|]. split; [exact Z0|].
        apply (same_sign_scan_end _ _ _ 0%nat). simpl. exact E.
      * rewrite <- Nat.add_succ_comm, IH. split; intros (k & Hk & U).
        -- exists k; split; [lia | exact U].
        -- exists k; split; [|exact U].
           assert (k <> i); [|lia]. intros ->. apply E.
           destruct U as [_ U].
           apply (same_sign_scan_end _ _ _ 0%nat) in U. simpl in U. exact U.
Qed.

(** The filter fires exactly when some variable of [c] with a non-zero
    coefficient has no inequality of [bmap] of the same sign. *)
Lemma sign_filter_fires_iff (b : isl_basic_map) (c : row) :
  sign_filter_fires b c = true <->
  exists i, (i < total_dim b)%nat /\ unmatched_sign (ineq b) c i.
Proof.
  unfold sign_filter_fires. rewrite Nat.ltb_lt.
  pose proof (sign_filter_scan_early c (ineq b) (total_dim b) 0) as H.
  simpl in H. rewrite H. split; intros (k & Hk & U); exists k; (split; [lia | exact U]).
Qed.

(** C4, as stated, fails: [{x = 0}] is not empty and lies in [{x >= 0}],
    yet the test answers 0, whatever the LP solver would say, because no
    inequality of the polyhedron has a positive coefficient in [x]. *)
Lemma constraint_is_redundant_misses_equalities :
  (exists x, in_bmap x bmap_x_eq_0) /\
  (forall x, in_bmap x bmap_x_eq_0 -> sat_ineq row_x_ge_0 x) /\
  forall lp ste opt_d,
    rr_ret (isl_basic_map_constraint_is_redundant lp ste
              (Some bmap_x_eq_0) row_x_ge_0 opt_d) = 0.
Proof.
  split; [|split].
  - exists (mk_point 1 [0]). repeat split; simpl; repeat constructor.
  - intros x (_ & He & _). inversion He as [|? ? H0 _]; subst.
    unfold row_x_ge_0. eval_rows. destruct (pv x); eval_rows; lia.
  - intros lp ste opt_d. reflexivity.
Qed.

(** C4, amended: the sign filter answers 0 without a call of the LP solver
    and leaves the polyhedron alone; past the filter one LP is solved, an
    LP error gives -1, and otherwise (with the denominator of the optimum
    asked for) the answer is 1 exactly when the polyhedron is non-empty and
    contained in [{c >= 0}], and 0 if not. *)
Theorem constraint_is_redundant_spec :
  forall lp ste (b : isl_basic_map) (c : row),
    let r := isl_basic_map_constraint_is_redundant lp ste (Some b) c true in
    let o := lp b false (tl c) 1 true in
    ((exists i, (i < total_dim b)%nat /\ unmatched_sign (ineq b) c i) ->
       rr_ret r = 0 /\ rr_lp_calls r = 0%nat /\ rr_bmap r = Some b) /\
    (~ (exists i, (i < total_dim b)%nat /\ unmatched_sign (ineq b) c i) ->
       lp_contract b (tl c) o ->
       rr_lp_calls r = 1%nat /\
       (lp_res o = isl_lp_error -> rr_ret r = -1) /\
       (lp_res o <> isl_lp_error ->
          (rr_ret r = 1 <->
             (exists x, in_bmap x b) /\
             (forall x, in_bmap x b -> sat_ineq c x)) /\
          (rr_ret r = 1 \/ rr_ret r = 0))).
Proof.
  intros lp ste b c r o. split.
  - intros F. apply sign_filter_fires_iff in F.
    subst r. unfold isl_basic_map_constraint_is_redundant. rewrite F. auto.
  - intros F C.
    assert (Fb : sign_filter_fires b c = false).
    { destruct (sign_filter_fires b c) eqn:E; [|reflexivity].
      exfalso. apply F, sign_filter_fires_iff, E. }
    subst r. unfold isl_basic_map_constraint_is_redundant. rewrite Fb.
    fold o. unfold lp_contract in C.
    destruct (lp_res o) eqn:R; simpl.
    + split; [reflexivity|]. split; [reflexivity | congruence].
    + destruct C as (Dpos & Cmin & x0 & Hx0 & Cx0).
      split; [reflexivity|]. split; [congruence|]. intros _.
      destruct (Z.ltb_spec (lp_num o + lp_den o * at_ c 0) 0) as [N|N].
      * split; [|right; reflexivity]. split; [discriminate|].
        intros (_ & A). exfalso. specialize (A x0 Hx0).
        unfold sat_ineq, eval in A. destruct Hx0 as (P0 & _). nia.
      * split; [|left; reflexivity]. split; [|reflexivity]. intros _.
        split; [exists x0; exact Hx0|]. intros x Hx.
        specialize (Cmin x Hx). destruct Hx as (P & _).
        unfold sat_ineq, eval. nia.
    + split; [reflexivity|]. split; [congruence|]. intros _.
      split; [|right; reflexivity]. split; [discriminate|].
      intros (_ & A). exfalso.
      destruct (C (- at_ c 0)) as (x & Hx & Lt).
      specialize (A x Hx). unfold sat_ineq, eval in A. lia.
    + split; [reflexivity|]. split; [congruence|]. intros _.
      split; [|right; reflexivity]. split; [discriminate|].
      intros ((x & Hx) & _). exfalso. exact (C x Hx).
Qed.

Lemma lp_min_zero_contract : lp_contract bmap_x_ge_0 [1] (mk_lp_out isl_lp_ok 0 1).
Proof.
  unfold lp_contract; cbn [lp_res lp_num lp_den]. split; [lia|]. split.
  - intros x (_ & _ & Hi). inversion Hi as [|? ? H0 _]; subst. clear Hi.
    eval_rows. destruct (pv x) as [|v w]; eval_rows; lia.
  - exists (mk_point 1 [0]). split; [|reflexivity].
    repeat split; simpl; repeat constructor. unfold sat_ineq, eval; simpl; lia.
Defined.

Lemma bmap_x_ge_0_in_shifted :
  forall x, in_bmap x bmap_x_ge_0 -> sat_ineq [1; 1] x.
Proof.
  intros x (P & _ & Hi). inversion Hi as [|? ? H0 _]; subst.
  eval_rows. destruct (pv x) as [|v w]; eval_rows; lia.
Defined.

Lemma constraint_is_redundant_spec_witness :
  rr_ret (isl_basic_map_constraint_is_redundant lp_min_zero
            (fun b => Some b) (Some bmap_x_ge_0) [1; 1] true) = 1.
Proof.
  destruct (constraint_is_redundant_spec lp_min_zero (fun b => Some b)
              bmap_x_ge_0 [1; 1]) as [_ H].
  assert (NF : ~ (exists i, (i < total_dim bmap_x_ge_0)%nat /\
                            unmatched_sign (ineq bmap_x_ge_0) [1; 1] i)).
  { intros (i & Hi & _ & U). simpl in Hi.
    assert (i = 0%nat) by lia. subst i.
    inversion U as [|? ? H0 _]; subst. apply H0. reflexivity. }
  destruct (H NF lp_min_zero_contract) as (_ & _ & K).
  destruct K as [[_ K] _]; [discriminate|].
  apply K. split; [|exact bmap_x_ge_0_in_shifted].
  exists (mk_point 1 [0]).
  repeat split; simpl; repeat constructor. unfold sat_ineq, eval; simpl; lia.
Defined.

(** ** The hull of one basic map *)

(** C8, as stated, fails: the map [{-x = 0}] has no inequality, so it takes
    a fast path, but what comes back is the map after Gaussian elimination,
    with the equality negated. *)
Lemma convex_hull_fast_path_changes_input :
  n_ineq bmap_neg_x_eq_0 = 0%nat /\
  isl_basic_map_convex_hull unit gauss_positive_pivot (fun _ => tt)
    (fun t => t) (fun t => t) (fun b _ => b) (Some bmap_neg_x_eq_0)
  = Some (mk_bmap 1 [[0; 1]] [] 0) /\
  isl_basic_map_convex_hull unit gauss_positive_pivot (fun _ => tt)
    (fun t => t) (fun t => t) (fun b _ => b) (Some bmap_neg_x_eq_0)
  <> Some bmap_neg_x_eq_0.
Proof.
  split; [reflexivity|]. split; [reflexivity|]. discriminate.
Qed.

(** C8, amended: on the fast paths the function returns the basic map that
    Gaussian elimination left, with no further change of equalities,
    inequalities or flags; the fast paths are taken when that map is
    flagged EMPTY or NO_REDUNDANT or has at most one inequality.  The input
    itself comes back when the elimination leaves it as it is. *)
Theorem convex_hull_fast_paths :
  forall (tab : Type) gauss from_bmap det_eq det_red update (b : isl_basic_map),
    ISL_F_ISSET (gauss b) ISL_BASIC_MAP_EMPTY = true \/
    ISL_F_ISSET (gauss b) ISL_BASIC_MAP_NO_REDUNDANT = true \/
    (n_ineq (gauss b) <= 1)%nat ->
    isl_basic_map_convex_hull tab gauss from_bmap det_eq det_red update (Some b)
      = Some (gauss b) /\
    (gauss b = b ->
     isl_basic_map_convex_hull tab gauss from_bmap det_eq det_red update (Some b)
       = Some b).
Proof.
  intros tab gauss from_bmap det_eq det_red update b H.
  assert (E : isl_basic_map_convex_hull tab gauss from_bmap det_eq det_red
                update (Some b) = Some (gauss b)).
  { unfold isl_basic_map_convex_hull.
    destruct (ISL_F_ISSET (gauss b) ISL_BASIC_MAP_EMPTY) eqn:E1; [reflexivity|].
    destruct (ISL_F_ISSET (gauss b) ISL_BASIC_MAP_NO_REDUNDANT) eqn:E2;
      [reflexivity|].
    destruct H as [H|[H|H]]; try discriminate.
    apply Nat.leb_le in H. rewrite H. reflexivity. }
  split; [exact E|]. intros G. rewrite E, G. reflexivity.
Qed.

Lemma convex_hull_fast_paths_witness :
  isl_basic_map_convex_hull unit gauss_positive_pivot (fun _ => tt)
    (fun t => t) (fun t => t) (fun b _ => b) (Some bmap_x_ge_0)
  = Some bmap_x_ge_0.
Proof.
  apply (convex_hull_fast_paths unit gauss_positive_pivot (fun _ => tt)
           (fun t => t) (fun t => t) (fun b _ => b) bmap_x_ge_0).
  - right; right. vm_compute. lia.
  - reflexivity.
Defined.

(** ** Wrapping *)

Lemma length_overwrite (dst new : row) :
  length (overwrite dst new) = Nat.max (length new) (length dst).
Proof.
  unfold overwrite. rewrite length_app, length_skipn. lia.
Qed.

Lemma at_overwrite_lt (dst new : row) (i : nat) :
  (i < length new)%nat -> at_ (overwrite dst new) i = at_ new i.
Proof.
  intros H. unfold at_, overwrite. rewrite app_nth1; [reflexivity | exact H].
Qed.

Lemma at_overwrite_ge (dst new : row) (i : nat) :
  (length new <= i)%nat -> at_ (overwrite dst new) i = at_ dst i.
Proof.
  intros H. unfold at_, overwrite. rewrite app_nth2 by exact H.
  rewrite nth_skipn. f_equal. lia.
Qed.

Lemma at_map_seq (f : nat -> Z) (len i : nat) :
  (i < len)%nat -> at_ (map f (seq 0 len)) i = f i.
Proof.
  intros H. unfold at_.
  rewrite (nth_indep _ 0 (f 0%nat)) by (rewrite length_map, length_seq; exact H).
  rewrite map_nth, seq_nth by exact H. reflexivity.
Qed.

Lemma at_combine_lt dst m1 s1 m2 s2 len i :
  (i < len)%nat ->
  at_ (isl_seq_combine dst m1 s1 m2 s2 len) i = m1 * at_ s1 i + m2 * at_ s2 i.
Proof.
  intros H. unfold isl_seq_combine.
  rewrite at_overwrite_lt by (rewrite length_map, length_seq; exact H).
  apply at_map_seq, H.
Qed.

Lemma at_combine_ge dst m1 s1 m2 s2 len i :
  (len <= i)%nat -> at_ (isl_seq_combine dst m1 s1 m2 s2 len) i = at_ dst i.
Proof.
  intros H. unfold isl_seq_combine.
  apply at_overwrite_ge. rewrite length_map, length_seq. exact H.
Qed.

Lemma at_cpy_lt dst src len i :
  (i < len)%nat -> at_ (isl_seq_cpy dst src len) i = at_ src i.
Proof.
  intros H. unfold isl_seq_cpy.
  rewrite at_overwrite_lt by (rewrite length_map, length_seq; exact H).
  apply at_map_seq, H.
Qed.

(** The LP that [wrap_facet] builds for the triangle, its facet [x >= 0]
    and the ridge [y >= 0]: variables [(a, x1, x2)], the equality
    [x1 = 1], and [a >= 0] followed by the homogenised constraints. *)
Lemma wrap_constraints_triangle :
  wrap_constraints triangle_set =
  mk_bmap 3 [[-1; 0; 1; 0]]
            [[0; 1; 0; 0]; [0; 0; 1; 0]; [0; 1; 0; -1]; [0; 0; -1; 1]] 0
  /\ wrap_objective 3 1 = [0; 0; 1].
Proof. split; reflexivity. Qed.

(** The minimum of [x2] over that LP is 1. *)
Lemma wrap_lp_triangle_optimum :
  lp_contract (wrap_constraints triangle_set) (wrap_objective 3 1)
    (mk_lp_out isl_lp_ok 1 1).
Proof.
  destruct wrap_constraints_triangle as [-> ->].
  unfold lp_contract; cbn [lp_res lp_num lp_den]. split; [lia|]. split.
  - intros x (P & He & Hi).
    inversion He as [|? ? E1 _]; subst; clear He.
    inversion Hi as [|? ? _ Hi1]; subst; clear Hi.
    inversion Hi1 as [|? ? _ Hi2]; subst; clear Hi1.
    inversion Hi2 as [|? ? _ Hi3]; subst; clear Hi2.
    inversion Hi3 as [|? ? I4 _]; subst; clear Hi3.
    eval_rows.
    destruct (pv x) as [|a [|x1 [|x2 w]]]; eval_rows; lia.
  - exists (mk_point 1 [1; 1; 1]). split; [|reflexivity].
    split; [reflexivity|].
    split; repeat constructor; eval_rows; lia.
Qed.

(** C2, as stated, fails.  For the triangle, its facet [x >= 0] and the
    ridge [y >= 0] the matrix of [wrap_facet] is the identity, the LP has
    the optimum 1/1, and the wrapped row is [facet * -1 + ridge * 1], the
    facet [y - x >= 0] of the triangle, not [facet * 1 + ridge * 1]. *)
Lemma wrap_facet_negates_optimum :
  wrap_matrix 3 facet_x ridge_y = [[1; 0; 0]; [0; 1; 0]; [0; 0; 1]] /\
  lp_contract (wrap_constraints triangle_set) (wrap_objective 3 1)
    (mk_lp_out isl_lp_ok 1 1) /\
  wrap_lp (lp_const (mk_lp_out isl_lp_ok 1 1)) right_inverse_id preimage_id
    triangle_set facet_x ridge_y = Some (mk_lp_out isl_lp_ok 1 1) /\
  wrap_facet (lp_const (mk_lp_out isl_lp_ok 1 1)) right_inverse_id preimage_id
    triangle_set facet_x ridge_y = Some [0; -1; 1] /\
  isl_seq_combine facet_x 1 facet_x 1 ridge_y 3 = [0; 1; 1] /\
  wrap_facet (lp_const (mk_lp_out isl_lp_ok 1 1)) right_inverse_id preimage_id
    triangle_set facet_x ridge_y
  <> Some (isl_seq_combine facet_x 1 facet_x 1 ridge_y 3).
Proof.
  split; [reflexivity|]. split; [exact wrap_lp_triangle_optimum|].
  repeat split; try reflexivity. discriminate.
Qed.

(** C2, amended: when the LP is unbounded the facet row is returned as it
    is; when the LP returns ok with the optimum num/den the returned row is
    [(-num) * facet + den * ridge] on its [1 + dim] entries; any other LP
    outcome, and a failure to build the LP, gives the null result. *)
Theorem wrap_facet_spec :
  forall lp rinv pre (set : isl_set) (facet ridge : row),
    match wrap_lp lp rinv pre set facet ridge with
    | None => wrap_facet lp rinv pre set facet ridge = None
    | Some o =>
        match lp_res o with
        | isl_lp_unbounded => wrap_facet lp rinv pre set facet ridge = Some facet
        | isl_lp_ok =>
            exists r,
              wrap_facet lp rinv pre set facet ridge = Some r /\
              (forall i, (i < 1 + isl_set_n_dim set)%nat ->
                 at_ r i = - lp_num o * at_ facet i + lp_den o * at_ ridge i) /\
              (forall i, (1 + isl_set_n_dim set <= i)%nat ->
                 at_ r i = at_ facet i)
        | _ => wrap_facet lp rinv pre set facet ridge = None
        end
    end.
Proof.
  intros lp rinv pre set facet ridge. unfold wrap_facet.
  destruct (wrap_lp lp rinv pre set facet ridge) as [o|]; [|reflexivity].
  destruct (lp_res o); try reflexivity.
  eexists. split; [reflexivity|]. split; intros i Hi.
  - apply at_combine_lt, Hi.
  - apply at_combine_ge, Hi.
Qed.

(** ** The walk of [extend] *)

Lemma isl_seq_eq_cpy (dst r : row) (len : nat) :
  isl_seq_eq r (isl_seq_cpy dst r len) len = true.
Proof.
  unfold isl_seq_eq. apply forallb_forall. intros i Hi.
  apply in_seq in Hi. rewrite at_cpy_lt by lia. apply Z.eqb_refl.
Qed.

Lemma seen_before_true (rows : list row) (cand : row) (len i : nat) :
  (i < length rows)%nat ->
  isl_seq_eq (nth i rows []) cand len = true ->
  seen_before rows cand len = true.
Proof.
  intros Hi E. unfold seen_before. apply existsb_exists.
  exists (nth i rows []). split; [apply nth_In, Hi | exact E].
Qed.

Lemma seen_before_false (rows : list row) (cand : row) (len i : nat) :
  seen_before rows cand len = false ->
  (i < length rows)%nat ->
  isl_seq_eq (nth i rows []) cand len = false.
Proof.
  intros S Hi. destruct (isl_seq_eq (nth i rows []) cand len) eqn:E;
    [|reflexivity].
  rewrite (seen_before_true rows cand len i Hi E) in S. discriminate.
Qed.

(** What one ridge does to the hull: nothing when the wrapped row is
    already there, and the wrapped row is appended when it is not. *)
Lemma extend_ridge_cases lp rinv pre set i h ridge h' :
  extend_ridge lp rinv pre set i h ridge = Some h' ->
  exists cand',
    wrap_facet lp rinv pre set
      (isl_seq_cpy (zeros (1 + isl_set_n_dim set)) (nth i (h_ineq h) [])
         (1 + isl_set_n_dim set)) ridge = Some cand' /\
    ((seen_before (h_ineq h) cand' (1 + isl_set_n_dim set) = true /\ h' = h) \/
     (seen_before (h_ineq h) cand' (1 + isl_set_n_dim set) = false /\
      h' = mk_hull (h_ineq h ++ [cand']) (h_room h))).
Proof.
  unfold extend_ridge. intros H.
  destruct (Nat.leb (h_room h) (length (h_ineq h))); [discriminate|].
  destruct (wrap_facet _ _ _ _ _ _) as [cand'|]; [|discriminate].
  exists cand'. split; [reflexivity|].
  destruct (seen_before _ _ _) eqn:S; inversion H; subst; auto.
Qed.

Lemma distinct_rows_app (len : nat) (rows : list row) (cand : row) :
  distinct_rows len rows ->
  seen_before rows cand len = false ->
  distinct_rows len (rows ++ [cand]).
Proof.
  intros D S i j Hij. rewrite length_app in Hij. simpl in Hij.
  destruct (Nat.eq_dec j (length rows)) as [->|Hj].
  - rewrite (app_nth1 rows) by lia.
    rewrite app_nth2, Nat.sub_diag by lia. simpl.
    apply seen_before_false; [exact S | lia].
  - rewrite !app_nth1 by lia. apply D. lia.
Qed.

Lemma extend_ridge_distinct lp rinv pre set i h ridge h' :
  extend_ridge lp rinv pre set i h ridge = Some h' ->
  distinct_rows (1 + isl_set_n_dim set) (h_ineq h) ->
  distinct_rows (1 + isl_set_n_dim set) (h_ineq h').
Proof.
  intros E D. apply extend_ridge_cases in E.
  destruct E as (cand' & _ & [[_ ->] | [S ->]]); [exact D|].
  apply distinct_rows_app; assumption.
Qed.

Lemma extend_ridges_distinct lp rinv pre set i ridges :
  forall h h',
    extend_ridges lp rinv pre set i h ridges = Some h' ->
    distinct_rows (1 + isl_set_n_dim set) (h_ineq h) ->
    distinct_rows (1 + isl_set_n_dim set) (h_ineq h').
Proof.
  induction ridges as [|r ridges IH]; intros h h' E D; simpl in E.
  - inversion E; subst; exact D.
  - destruct (extend_ridge lp rinv pre set i h r) as [h1|] eqn:E1;
      [|discriminate].
    apply (IH h1 h' E). exact (extend_ridge_distinct _ _ _ _ _ _ _ _ E1 D).
Qed.

Lemma extend_facet_distinct lp rinv pre cf set i h h' :
  extend_facet lp rinv pre cf set i h = Some h' ->
  distinct_rows (1 + isl_set_n_dim set) (h_ineq h) ->
  distinct_rows (1 + isl_set_n_dim set) (h_ineq h').
Proof.
  unfold extend_facet. intros E D.
  destruct (cf set (nth i (h_ineq h) [])) as [facet|]; [|discriminate].
  apply (extend_ridges_distinct _ _ _ _ _ _ _ _ E).
  destruct (Nat.ltb _ _); exact D.
Qed.

Lemma extend_walk_distinct lp rinv pre cf set steps :
  forall i h h',
    walk_hull (extend_walk lp rinv pre cf set steps i h) = Some h' ->
    distinct_rows (1 + isl_set_n_dim set) (h_ineq h) ->
    distinct_rows (1 + isl_set_n_dim set) (h_ineq h').
Proof.
  induction steps as [|steps IH]; intros i h h' E D; simpl in E.
  - destruct (Nat.leb _ _); simpl in E; inversion E; subst; exact D.
  - destruct (Nat.leb _ _); simpl in E; [inversion E; subst; exact D|].
    destruct (extend_facet lp rinv pre cf set i h) as [h1|] eqn:E1;
      [|discriminate].
    apply (IH (S i) h1 h' E). exact (extend_facet_distinct _ _ _ _ _ _ _ _ E1 D).
Qed.

Lemma seen_before_iff (rows : list row) (cand : row) (len : nat) :
  seen_before rows cand len = true <->
  exists f, (f < length rows)%nat /\ isl_seq_eq (nth f rows []) cand len = true.
Proof.
  split.
  - intros H. apply existsb_exists in H. destruct H as (r & Hin & E).
    destruct (In_nth rows r [] Hin) as (f & Hf & <-). exists f. auto.
  - intros (f & Hf & E). exact (seen_before_true rows cand len f Hf E).
Qed.

(** C6, as stated, fails: the rows are compared as they are, without gcd
    normalisation.  Starting the walk over the unit square from the facet
    [2x >= 0], the facet [x >= 0] is found again by wrapping and is kept,
    since [0 1 0] and [0 2 0] differ as rows; the hull then holds two rows
    for one halfspace. *)
Lemma extend_keeps_scaled_duplicate :
  extend_walk (lp_const (mk_lp_out isl_lp_ok 0 1)) right_inverse_id preimage_id
    square_compute_facet square_set 5 0 (extend_init square_set [[0; 2; 0]])
  = Walk_done
      (mk_hull [[0; 2; 0]; [0; 0; 1]; [1; 0; -1]; [0; 1; 0]; [1; -1; 0]] 7) /\
  same_halfspace 3 [0; 1; 0] [0; 2; 0].
Proof.
  split; [reflexivity|]. exists 2. split; [lia|].
  intros [|[|[|i]]] Hi; try reflexivity. lia.
Qed.

(** C6, amended: every wrapped candidate is compared, entry by entry on
    its [1 + dim] entries and as [wrap_facet] left it, with every
    inequality already in the hull, and it is appended only when it equals
    none of them; consequently at every point of the walk, once a
    candidate has been processed, no two inequalities of the growing hull
    are equal as rows. *)
Theorem extend_rows_distinct :
  forall lp rinv pre cf (set : isl_set) (initial : isl_mat),
    (forall i h ridge h',
       extend_ridge lp rinv pre set i h ridge = Some h' ->
       exists cand',
         wrap_facet lp rinv pre set
           (isl_seq_cpy (zeros (1 + isl_set_n_dim set)) (nth i (h_ineq h) [])
              (1 + isl_set_n_dim set)) ridge = Some cand' /\
         (((exists f, (f < length (h_ineq h))%nat /\
              isl_seq_eq (nth f (h_ineq h) []) cand' (1 + isl_set_n_dim set)
                = true) /\ h' = h) \/
          ((forall f, (f < length (h_ineq h))%nat ->
              isl_seq_eq (nth f (h_ineq h) []) cand' (1 + isl_set_n_dim set)
                = false) /\
           h' = mk_hull (h_ineq h ++ [cand']) (h_room h)))) /\
    (forall steps h',
       walk_hull (extend_walk lp rinv pre cf set steps 0
                    (extend_init set initial)) = Some h' ->
       distinct_rows (1 + isl_set_n_dim set) (h_ineq h')).
Proof.
  intros lp rinv pre cf set initial. split.
  - intros i h ridge h' E. apply extend_ridge_cases in E.
    destruct E as (cand' & W & [[S ->] | [S ->]]); exists cand';
      (split; [exact W|]).
    + left. split; [apply seen_before_iff, S | reflexivity].
    + right. split; [|reflexivity]. intros f Hf.
      apply seen_before_false; assumption.
  - intros steps h' E.
    apply (extend_walk_distinct _ _ _ _ _ _ _ _ _ E).
    intros i j Hij. simpl in Hij. lia.
Qed.

Lemma extend_rows_distinct_witness :
  distinct_rows 3 [[0; 2; 0]; [0; 0; 1]; [1; 0; -1]; [0; 1; 0]; [1; -1; 0]].
Proof.
  apply (proj2 (extend_rows_distinct (lp_const (mk_lp_out isl_lp_ok 0 1))
                  right_inverse_id preimage_id square_compute_facet
                  square_set [[0; 2; 0]]) 5%nat
           (mk_hull [[0; 2; 0]; [0; 0; 1]; [1; 0; -1]; [0; 1; 0]; [1; -1; 0]] 7)).
  reflexivity.
Defined.

(** The facet [hull->ineq[i]] stays where it is while its ridges are
    processed: the index [i] remains below the number of inequalities. *)
Lemma extend_ridge_keeps_facet lp rinv pre set i h ridge h' :
  extend_ridge lp rinv pre set i h ridge = Some h' ->
  (i < length (h_ineq h))%nat ->
  (i < length (h_ineq h'))%nat /\
  nth i (h_ineq h') [] = nth i (h_ineq h) [] /\
  h_room h' = h_room h.
Proof.
  intros E Hi. apply extend_ridge_cases in E.
  destruct E as (cand' & _ & [[_ ->] | [_ ->]]); [auto|].
  cbn [h_ineq h_room]. rewrite length_app, app_nth1 by exact Hi.
  repeat split. lia.
Qed.

Lemma extend_ridges_keeps_facet lp rinv pre set i ridges :
  forall h h',
    extend_ridges lp rinv pre set i h ridges = Some h' ->
    (i < length (h_ineq h))%nat ->
    (i < length (h_ineq h'))%nat /\
    nth i (h_ineq h') [] = nth i (h_ineq h) [].
Proof.
  induction ridges as [|r ridges IH]; intros h h' E Hi; cbn [extend_ridges] in E.
  - inversion E; subst. auto.
  - destruct (extend_ridge lp rinv pre set i h r) as [h1|] eqn:E1;
      [|discriminate].
    destruct (extend_ridge_keeps_facet _ _ _ _ _ _ _ _ E1 Hi) as (Hi1 & N1 & _).
    destruct (IH h1 h' E Hi1) as (Hi' & N'). split; [exact Hi' | congruence].
Qed.

(** C10: when [wrap_facet] takes its unbounded branch for a ridge of the
    facet [hull->ineq[i]], the candidate, seeded as a copy of that facet,
    comes back as it was, equals [hull->ineq[i]], is found by the scan
    over the rows before it, and is freed: the hull is left as it was. *)
Theorem unbounded_wrap_adds_nothing :
  forall lp rinv pre (set : isl_set) (i : nat) (h : hull_state) (ridge : row) o,
    let len := (1 + isl_set_n_dim set)%nat in
    let cand := isl_seq_cpy (zeros len) (nth i (h_ineq h) []) len in
    (i < length (h_ineq h))%nat ->
    wrap_lp lp rinv pre set cand ridge = Some o ->
    lp_res o = isl_lp_unbounded ->
    wrap_facet lp rinv pre set cand ridge = Some cand /\
    isl_seq_eq (nth i (h_ineq h) []) cand len = true /\
    seen_before (h_ineq h) cand len = true /\
    ((length (h_ineq h) < h_room h)%nat ->
     extend_ridge lp rinv pre set i h ridge = Some h) /\
    (forall h', extend_ridge lp rinv pre set i h ridge = Some h' -> h' = h).
Proof.
  intros lp rinv pre set i h ridge o len cand Hi L U.
  assert (W : wrap_facet lp rinv pre set cand ridge = Some cand).
  { unfold wrap_facet. fold len. rewrite L, U. reflexivity. }
  assert (Q : isl_seq_eq (nth i (h_ineq h) []) cand len = true)
    by apply isl_seq_eq_cpy.
  assert (S : seen_before (h_ineq h) cand len = true)
    by exact (seen_before_true _ _ _ i Hi Q).
  repeat split; try assumption.
  - intros R. unfold extend_ridge. fold len. fold cand.
    apply Nat.leb_gt in R. rewrite R, W, S. reflexivity.
  - intros h' E. unfold extend_ridge in E. fold len in E. fold cand in E.
    destruct (Nat.leb _ _); [discriminate|].
    rewrite W, S in E. inversion E; reflexivity.
Qed.

Lemma unbounded_wrap_adds_nothing_witness :
  extend_ridge (lp_const (mk_lp_out isl_lp_unbounded 0 0)) right_inverse_id
    preimage_id triangle_set 0 (mk_hull [facet_x] 4) ridge_y
  = Some (mk_hull [facet_x] 4).
Proof.
  apply (unbounded_wrap_adds_nothing
           (lp_const (mk_lp_out isl_lp_unbounded 0 0)) right_inverse_id
           preimage_id triangle_set 0 (mk_hull [facet_x] 4) ridge_y
           (mk_lp_out isl_lp_unbounded 0 0)).
  - simpl; lia.
  - reflexivity.
  - reflexivity.
  - simpl; lia.
Defined.

(** ** The one-dimensional hull *)

Lemma at_cpy2 (r : row) (k : nat) : (k < 2)%nat -> at_ (cpy2 r) k = at_ r k.
Proof. intros H. unfold cpy2. apply at_cpy_lt, H. Qed.

Lemma at_neg2 (r : row) (k : nat) : (k < 2)%nat -> at_ (neg2 r) k = - at_ r k.
Proof.
  intros H. unfold neg2, isl_seq_neg.
  rewrite at_overwrite_lt by (rewrite length_map, length_seq; exact H).
  apply (at_map_seq (fun i => - at_ r i)), H.
Qed.

Lemma lower_vs_ineq_pick (l c : row) :
  lower_vs_ineq l c = if 0 <? at_ c 1 then lower_pick l (cpy2 c) else l.
Proof.
  unfold lower_vs_ineq, lower_pick. rewrite !at_cpy2 by lia. reflexivity.
Qed.

Lemma upper_vs_ineq_pick (u c : row) :
  upper_vs_ineq u c = if at_ c 1 <? 0 then upper_pick u (cpy2 c) else u.
Proof.
  unfold upper_vs_ineq, upper_pick. rewrite !at_cpy2 by lia.
  rewrite Z.gtb_ltb. reflexivity.
Qed.

Lemma lower_vs_eq_pick (l e : row) :
  lower_vs_eq l e =
  if at_ e 1 =? 0 then l
  else lower_pick l (if 0 <? at_ e 1 then cpy2 e else neg2 e).
Proof.
  unfold lower_vs_eq, lower_pick. rewrite Z.gtb_ltb.
  destruct (Z.eqb_spec (at_ e 1) 0) as [E|E].
  - rewrite E, !Z.ltb_irrefl, !andb_false_r. reflexivity.
  - destruct (Z.ltb_spec 0 (at_ e 1)) as [P|P].
    + rewrite !at_cpy2 by lia.
      replace (at_ e 1 <? 0) with false by (symmetry; apply Z.ltb_ge; lia).
      rewrite andb_false_r, andb_true_r. reflexivity.
    + rewrite !at_neg2 by lia.
      replace (at_ e 1 <? 0) with true by (symmetry; apply Z.ltb_lt; lia).
      rewrite andb_false_r, andb_true_r.
      replace (at_ l 0 * - at_ e 1 <? at_ l 1 * - at_ e 0)
        with (at_ l 1 * at_ e 0 <? at_ l 0 * at_ e 1); [reflexivity|].
      destruct (Z.ltb_spec (at_ l 1 * at_ e 0) (at_ l 0 * at_ e 1));
        symmetry; [apply Z.ltb_lt | apply Z.ltb_ge]; lia.
Qed.

Lemma upper_vs_eq_pick (u e : row) :
  upper_vs_eq u e =
  if at_ e 1 =? 0 then u
  else upper_pick u (if 0 <? at_ e 1 then neg2 e else cpy2 e).
Proof.
  unfold upper_vs_eq, upper_pick. rewrite Z.gtb_ltb.
  destruct (Z.eqb_spec (at_ e 1) 0) as [E|E].
  - rewrite E, !Z.ltb_irrefl, !andb_false_r. reflexivity.
  - destruct (Z.ltb_spec 0 (at_ e 1)) as [P|P].
    + rewrite !at_neg2 by lia.
      replace (at_ e 1 <? 0) with false by (symmetry; apply Z.ltb_ge; lia).
      rewrite andb_false_r, andb_true_r.
      replace (at_ u 1 * - at_ e 0 <? at_ u 0 * - at_ e 1)
        with (at_ u 0 * at_ e 1 <? at_ u 1 * at_ e 0); [reflexivity|].
      destruct (Z.ltb_spec (at_ u 0 * at_ e 1) (at_ u 1 * at_ e 0));
        symmetry; [apply Z.ltb_lt | apply Z.ltb_ge]; lia.
    + rewrite !at_cpy2 by lia.
      replace (at_ e 1 <? 0) with true by (symmetry; apply Z.ltb_lt; lia).
      rewrite andb_false_r, andb_true_r. reflexivity.
Qed.

Lemma lower_le_trans (a b c : row) :
  0 < at_ a 1 -> 0 < at_ b 1 -> 0 < at_ c 1 ->
  lower_le a b -> lower_le b c -> lower_le a c.
Proof.
  unfold lower_le. intros Ha Hb Hc H1 H2.
  assert (K1 : (at_ c 0 * at_ b 1) * at_ a 1 <= (at_ b 0 * at_ c 1) * at_ a 1)
    by (apply Z.mul_le_mono_nonneg_r; lia).
  assert (K2 : (at_ b 0 * at_ a 1) * at_ c 1 <= (at_ a 0 * at_ b 1) * at_ c 1)
    by (apply Z.mul_le_mono_nonneg_r; lia).
  nia.
Qed.

Lemma upper_ge_trans (a b c : row) :
  at_ a 1 < 0 -> at_ b 1 < 0 -> at_ c 1 < 0 ->
  upper_ge a b -> upper_ge b c -> upper_ge a c.
Proof.
  unfold upper_ge. intros Ha Hb Hc H1 H2.
  assert (K1 : (at_ b 0 * at_ a 1) * at_ c 1 <= (at_ a 0 * at_ b 1) * at_ c 1)
    by (apply Z.mul_le_mono_nonpos_r; lia).
  assert (K2 : (at_ c 0 * at_ b 1) * at_ a 1 <= (at_ b 0 * at_ c 1) * at_ a 1)
    by (apply Z.mul_le_mono_nonpos_r; lia).
  nia.
Qed.

Lemma lower_le_refl (a : row) : lower_le a a.
Proof. unfold lower_le. lia. Qed.

Lemma upper_ge_refl (a : row) : upper_ge a a.
Proof. unfold upper_ge. lia. Qed.

(** Picking over a list of lower bounds leaves the least restrictive one. *)
Lemma fold_lower_pick_weakest (cands : list row) :
  forall l,
    0 < at_ l 1 ->
    Forall (fun r => 0 < at_ r 1) cands ->
    let l' := fold_left lower_pick cands l in
    0 < at_ l' 1 /\ (l' = l \/ In l' cands) /\
    lower_le l' l /\ Forall (lower_le l') cands.
Proof.
  induction cands as [|r cands IH]; intros l Hl Hc; simpl.
  - repeat split; auto using lower_le_refl.
  - inversion Hc as [|? ? Hr Hc']; subst.
    assert (P : 0 < at_ (lower_pick l r) 1 /\
                (lower_pick l r = l \/ lower_pick l r = r) /\
                lower_le (lower_pick l r) l /\ lower_le (lower_pick l r) r).
    { unfold lower_pick, lower_le.
      destruct (Z.ltb_spec (at_ l 0 * at_ r 1) (at_ l 1 * at_ r 0));
        repeat split; auto; lia. }
    destruct P as (P1 & P2 & P3 & P4).
    destruct (IH (lower_pick l r) P1 Hc') as (Q1 & Q2 & Q3 & Q4).
    split; [exact Q1|]. split.
    + destruct Q2 as [Q2|Q2]; [|right; right; exact Q2].
      rewrite Q2. destruct P2 as [->| ->]; [left | right; left]; reflexivity.
    + split; [exact (lower_le_trans _ _ _ Q1 P1 Hl Q3 P3)|].
      constructor; [exact (lower_le_trans _ _ _ Q1 P1 Hr Q3 P4) | exact Q4].
Qed.

(** Picking over a list of upper bounds leaves the least restrictive one. *)
Lemma fold_upper_pick_weakest (cands : list row) :
  forall u,
    at_ u 1 < 0 ->
    Forall (fun r => at_ r 1 < 0) cands ->
    let u' := fold_left upper_pick cands u in
    at_ u' 1 < 0 /\ (u' = u \/ In u' cands) /\
    upper_ge u' u /\ Forall (upper_ge u') cands.
Proof.
  induction cands as [|r cands IH]; intros u Hu Hc; simpl.
  - repeat split; auto using upper_ge_refl.
  - inversion Hc as [|? ? Hr Hc']; subst.
    assert (P : at_ (upper_pick u r) 1 < 0 /\
                (upper_pick u r = u \/ upper_pick u r = r) /\
                upper_ge (upper_pick u r) u /\ upper_ge (upper_pick u r) r).
    { unfold upper_pick, upper_ge.
      destruct (Z.ltb_spec (at_ u 1 * at_ r 0) (at_ u 0 * at_ r 1));
        repeat split; auto; lia. }
    destruct P as (P1 & P2 & P3 & P4).
    destruct (IH (upper_pick u r) P1 Hc') as (Q1 & Q2 & Q3 & Q4).
    split; [exact Q1|]. split.
    + destruct Q2 as [Q2|Q2]; [|right; right; exact Q2].
      rewrite Q2. destruct P2 as [->| ->]; [left | right; left]; reflexivity.
    + split; [exact (upper_ge_trans _ _ _ Q1 P1 Hu Q3 P3)|].
      constructor; [exact (upper_ge_trans _ _ _ Q1 P1 Hr Q3 P4) | exact Q4].
Qed.

Lemma member_eq_fold (es : list row) :
  forall m,
    let m' := fold_left member_eq_step es m in
    lower (m_bounds m') =
      option_map
        (fold_left lower_pick
           (map (fun e => if 0 <? at_ e 1 then cpy2 e else neg2 e)
              (filter (fun e => negb (at_ e 1 =? 0)) es)))
        (lower (m_bounds m)) /\
    upper (m_bounds m') =
      option_map
        (fold_left upper_pick
           (map (fun e => if 0 <? at_ e 1 then neg2 e else cpy2 e)
              (filter (fun e => negb (at_ e 1 =? 0)) es)))
        (upper (m_bounds m)) /\
    has_lower m' = (has_lower m || negb (Nat.eqb (length es) 0)) /\
    has_upper m' = (has_upper m || negb (Nat.eqb (length es) 0)).
Proof.
  induction es as [|e es IH]; intros m; cbn zeta.
  - simpl. rewrite !orb_false_r.
    destruct (lower (m_bounds m)), (upper (m_bounds m)); auto.
  - cbn [fold_left]. destruct (IH (member_eq_step m e)) as (L & U & HL & HU).
    rewrite L, U, HL, HU. cbn [member_eq_step m_bounds lower upper has_lower
      has_upper filter length Nat.eqb negb]. rewrite !orb_true_r.
    repeat split.
    + destruct (lower (m_bounds m)) as [l|]; [|reflexivity].
      cbn [option_map]. rewrite lower_vs_eq_pick.
      destruct (at_ e 1 =? 0); reflexivity.
    + destruct (upper (m_bounds m)) as [u|]; [|reflexivity].
      cbn [option_map]. rewrite upper_vs_eq_pick.
      destruct (at_ e 1 =? 0); reflexivity.
Qed.

Lemma member_ineq_fold (cs : list row) :
  forall m,
    let m' := fold_left member_ineq_step cs m in
    lower (m_bounds m') =
      option_map
        (fold_left lower_pick (map cpy2 (filter (fun c => 0 <? at_ c 1) cs)))
        (lower (m_bounds m)) /\
    upper (m_bounds m') =
      option_map
        (fold_left upper_pick (map cpy2 (filter (fun c => at_ c 1 <? 0) cs)))
        (upper (m_bounds m)) /\
    has_lower m' = (has_lower m || existsb (fun c => 0 <? at_ c 1) cs) /\
    has_upper m' = (has_upper m || existsb (fun c => at_ c 1 <? 0) cs).
Proof.
  induction cs as [|c cs IH]; intros m; cbn zeta.
  - simpl. rewrite !orb_false_r.
    destruct (lower (m_bounds m)), (upper (m_bounds m)); auto.
  - cbn [fold_left]. destruct (IH (member_ineq_step m c)) as (L & U & HL & HU).
    rewrite L, U, HL, HU. cbn [member_ineq_step m_bounds lower upper has_lower
      has_upper filter existsb].
    repeat split.
    + destruct (lower (m_bounds m)) as [l|]; [|reflexivity].
      cbn [option_map]. rewrite lower_vs_ineq_pick.
      destruct (0 <? at_ c 1); reflexivity.
    + destruct (upper (m_bounds m)) as [u|]; [|reflexivity].
      cbn [option_map]. rewrite upper_vs_ineq_pick.
      destruct (at_ c 1 <? 0); reflexivity.
    + destruct (0 <? at_ c 1), (has_lower m); reflexivity.
    + destruct (at_ c 1 <? 0), (has_upper m); reflexivity.
Qed.

(** One member of the loop of [convex_hull_1d], in terms of the bounds it
    provides. *)
Lemma member_1d_step_fold (b : bounds_1d) (bset : isl_basic_set) :
  lower (member_1d_step b bset) =
    (if provides_lower bset
     then option_map (fold_left lower_pick (lower_cands bset)) (lower b)
     else None) /\
  upper (member_1d_step b bset) =
    (if provides_upper bset
     then option_map (fold_left upper_pick (upper_cands bset)) (upper b)
     else None).
Proof.
  unfold member_1d_step, provides_lower, provides_upper, lower_cands,
    upper_cands, n_eq.
  destruct (member_ineq_fold (ineq bset)
              (fold_left member_eq_step (eq bset) (mk_member false false b)))
    as (L & U & HL & HU).
  destruct (member_eq_fold (eq bset) (mk_member false false b))
    as (L' & U' & HL' & HU').
  cbn [lower upper]. rewrite L, U, HL, HU, L', U', HL', HU'.
  cbn [m_bounds has_lower has_upper orb].
  split.
  - destruct (negb (Nat.eqb (length (eq bset)) 0)
              || existsb (fun c => 0 <? at_ c 1) (ineq bset)); [|reflexivity].
    destruct (lower b); cbn [option_map]; [rewrite fold_left_app|]; reflexivity.
  - destruct (negb (Nat.eqb (length (eq bset)) 0)
              || existsb (fun c => at_ c 1 <? 0) (ineq bset)); [|reflexivity].
    destruct (upper b); cbn [option_map]; [rewrite fold_left_app|]; reflexivity.
Qed.

Lemma lower_cands_pos (bset : isl_basic_set) :
  Forall (fun r => 0 < at_ r 1) (lower_cands bset).
Proof.
  unfold lower_cands. apply Forall_app. split; apply Forall_forall; intros r Hr;
    apply in_map_iff in Hr; destruct Hr as (e & <- & He);
    apply filter_In in He; destruct He as (_ & He).
  - apply negb_true_iff, Z.eqb_neq in He.
    destruct (Z.ltb_spec 0 (at_ e 1)); [rewrite at_cpy2 | rewrite at_neg2]; lia.
  - apply Z.ltb_lt in He. rewrite at_cpy2; lia.
Qed.

Lemma upper_cands_neg (bset : isl_basic_set) :
  Forall (fun r => at_ r 1 < 0) (upper_cands bset).
Proof.
  unfold upper_cands. apply Forall_app. split; apply Forall_forall; intros r Hr;
    apply in_map_iff in Hr; destruct Hr as (e & <- & He);
    apply filter_In in He; destruct He as (_ & He).
  - apply negb_true_iff, Z.eqb_neq in He.
    destruct (Z.ltb_spec 0 (at_ e 1)); [rewrite at_neg2 | rewrite at_cpy2]; lia.
  - apply Z.ltb_lt in He. rewrite at_cpy2; lia.
Qed.

(** C3, as stated, fails: the running bounds [1 <= x <= 3] meet the member
    [2 <= x <= 5]; the loop keeps the lower bound [x >= 1], which is less
    restrictive than the member's [x >= 2], and replaces the upper bound by
    the member's [x <= 5], which is less restrictive than [x <= 3].  The
    hull of the two intervals is [1 <= x <= 5]. *)
Lemma hull_1d_keeps_least_restrictive :
  member_1d_step (mk_bounds (Some [-1; 1]) (Some [3; -1])) interval_2_5
    = mk_bounds (Some [-1; 1]) (Some [5; -1]) /\
  In [-2; 1] (lower_cands interval_2_5) /\
  ~ lower_le [-2; 1] [-1; 1] /\
  ~ upper_ge [3; -1] [5; -1] /\
  convex_hull_1d (fun b => Some b) (fun s => Some s) (fun b => Some b)
    (mk_set 1 [interval_1_3; interval_2_5])
    = Some (mk_bmap 1 [] [[-1; 1]; [5; -1]] ISL_BASIC_MAP_RATIONAL).
Proof.
  split; [reflexivity|]. split; [left; reflexivity|].
  split; [unfold lower_le; eval_rows; lia|].
  split; [unfold upper_ge; eval_rows; lia | reflexivity].
Qed.

(** C3, amended: for each member the running lower and upper bounds are
    replaced by the least restrictive bound (the smallest lower bound and
    the largest upper bound among the running bound and those of the
    member), with comparisons done by exact cross-multiplication; a member
    that provides no lower (upper) bound erases the running lower (upper)
    bound, an erased bound stays erased, and an erased bound produces a
    hull with no inequality in that direction. *)
Theorem member_1d_step_least_restrictive :
  forall (b : bounds_1d) (bset : isl_basic_set),
    (forall l, lower b = Some l -> 0 < at_ l 1) ->
    (forall u, upper b = Some u -> at_ u 1 < 0) ->
    let b' := member_1d_step b bset in
    (provides_lower bset = false -> lower b' = None) /\
    (provides_upper bset = false -> upper b' = None) /\
    (lower b = None -> lower b' = None) /\
    (upper b = None -> upper b' = None) /\
    (forall l, lower b = Some l -> provides_lower bset = true ->
       exists l', lower b' = Some l' /\ 0 < at_ l' 1 /\
         (l' = l \/ In l' (lower_cands bset)) /\
         lower_le l' l /\ Forall (lower_le l') (lower_cands bset)) /\
    (forall u, upper b = Some u -> provides_upper bset = true ->
       exists u', upper b' = Some u' /\ at_ u' 1 < 0 /\
         (u' = u \/ In u' (upper_cands bset)) /\
         upper_ge u' u /\ Forall (upper_ge u') (upper_cands bset)) /\
    (lower b' = None -> upper b' = None -> bounds_rows b' = []) /\
    (lower b' = None -> forall r, In r (bounds_rows b') -> at_ r 1 < 0) /\
    (upper b' = None -> forall r, In r (bounds_rows b') -> 0 < at_ r 1).
Proof.
  intros b bset Hl Hu b'.
  destruct (member_1d_step_fold b bset) as (L & U). fold b' in L, U.
  assert (SL : forall l, lower b = Some l -> provides_lower bset = true ->
       exists l', lower b' = Some l' /\ 0 < at_ l' 1 /\
         (l' = l \/ In l' (lower_cands bset)) /\
         lower_le l' l /\ Forall (lower_le l') (lower_cands bset)).
  { intros l El Pl. rewrite L, Pl, El. cbn [option_map].
    eexists. split; [reflexivity|].
    exact (fold_lower_pick_weakest _ l (Hl l El) (lower_cands_pos bset)). }
  assert (SU : forall u, upper b = Some u -> provides_upper bset = true ->
       exists u', upper b' = Some u' /\ at_ u' 1 < 0 /\
         (u' = u \/ In u' (upper_cands bset)) /\
         upper_ge u' u /\ Forall (upper_ge u') (upper_cands bset)).
  { intros u Eu Pu. rewrite U, Pu, Eu. cbn [option_map].
    eexists. split; [reflexivity|].
    exact (fold_upper_pick_weakest _ u (Hu u Eu) (upper_cands_neg bset)). }
  assert (PU : forall u', upper b' = Some u' -> at_ u' 1 < 0).
  { intros u' E. rewrite U in E.
    destruct (provides_upper bset) eqn:Pu; [|discriminate].
    destruct (upper b) as [u|] eqn:Eu; [|discriminate].
    destruct (SU u eq_refl eq_refl) as (u'' & E' & N & _).
    rewrite U in E'. cbn [option_map] in E, E'. congruence. }
  assert (PL : forall l', lower b' = Some l' -> 0 < at_ l' 1).
  { intros l' E. rewrite L in E.
    destruct (provides_lower bset) eqn:Pl; [|discriminate].
    destruct (lower b) as [l|] eqn:El; [|discriminate].
    destruct (SL l eq_refl eq_refl) as (l'' & E' & N & _).
    rewrite L in E'. cbn [option_map] in E, E'. congruence. }
  repeat split.
  - intros P. rewrite L, P. reflexivity.
  - intros P. rewrite U, P. reflexivity.
  - intros E. rewrite L, E. destruct (provides_lower bset); reflexivity.
  - intros E. rewrite U, E. destruct (provides_upper bset); reflexivity.
  - exact SL.
  - exact SU.
  - intros E1 E2. unfold bounds_rows. rewrite E1, E2. reflexivity.
  - intros E r Hr. unfold bounds_rows in Hr. rewrite E in Hr.
    destruct (upper b') as [u'|] eqn:E'; simpl in Hr; [|contradiction].
    destruct Hr as [<-|[]]. rewrite at_cpy2 by lia. apply PU. reflexivity.
  - intros E r Hr. unfold bounds_rows in Hr. rewrite E in Hr.
    destruct (lower b') as [l'|] eqn:E'; simpl in Hr; [|contradiction].
    destruct Hr as [<-|[]]. rewrite at_cpy2 by lia. apply PL. reflexivity.
Qed.

Lemma member_1d_step_least_restrictive_witness :
  exists u', upper (member_1d_step (mk_bounds (Some [-1; 1]) (Some [3; -1]))
                      interval_2_5) = Some u' /\ at_ u' 1 < 0 /\
    (u' = [3; -1] \/ In u' (upper_cands interval_2_5)) /\
    upper_ge u' [3; -1] /\ Forall (upper_ge u') (upper_cands interval_2_5).
Proof.
  assert (Hl : forall l, lower (mk_bounds (Some [-1; 1]) (Some [3; -1])) = Some l
                         -> 0 < at_ l 1).
  { intros l E. inversion E; subst. reflexivity. }
  assert (Hu : forall u, upper (mk_bounds (Some [-1; 1]) (Some [3; -1])) = Some u
                         -> at_ u 1 < 0).
  { intros u E. inversion E; subst. reflexivity. }
  destruct (member_1d_step_least_restrictive
              (mk_bounds (Some [-1; 1]) (Some [3; -1])) interval_2_5 Hl Hu)
    as (_ & _ & _ & _ & _ & SU & _).
  apply SU; reflexivity.
Defined.

(** *** The one-dimensional hull contains its members *)

Lemma eval_cpy2 (r : row) (x : point) : eval (cpy2 r) x = eval2 r x.
Proof.
  unfold eval, eval2, at_. cbn [cpy2 isl_seq_cpy overwrite map seq app length
    skipn zeros repeat tl nth]. unfold at_.
  destruct (pv x) as [|v w]; cbn [dot nth]; lia.
Qed.

Lemma eval_len2 (r : row) (x : point) :
  length r = 2%nat -> eval r x = eval2 r x.
Proof.
  intros H. destruct r as [|r0 [|r1 [|r2 r]]]; try discriminate H.
  unfold eval, eval2, at_. cbn [tl nth].
  destruct (pv x) as [|v w]; cbn [dot nth]; lia.
Qed.

Lemma eval2_neg2 (r : row) (x : point) : eval2 (neg2 r) x = - eval2 r x.
Proof. unfold eval2. rewrite !at_neg2 by lia. lia. Qed.

Lemma eval2_cpy2 (r : row) (x : point) : eval2 (cpy2 r) x = eval2 r x.
Proof. unfold eval2. rewrite !at_cpy2 by lia. reflexivity. Qed.

(** A point that satisfies a lower bound satisfies every less restrictive
    one, and the same for upper bounds. *)
Lemma lower_le_sat (l r : row) (x : point) :
  0 < at_ l 1 -> 0 < at_ r 1 -> 0 < pd x ->
  lower_le l r -> 0 <= eval2 r x -> 0 <= eval2 l x.
Proof.
  unfold lower_le, eval2. intros Hl Hr Hp L S.
  assert (0 <= at_ r 1 * (at_ l 0 * pd x + at_ l 1 * at_ (pv x) 0)); [|nia].
  assert (at_ r 0 * at_ l 1 * pd x <= at_ l 0 * at_ r 1 * pd x)
    by (apply Z.mul_le_mono_nonneg_r; lia).
  assert (0 <= at_ l 1 * (at_ r 0 * pd x + at_ r 1 * at_ (pv x) 0))
    by (apply Z.mul_nonneg_nonneg; lia).
  lia.
Qed.

Lemma upper_ge_sat (u r : row) (x : point) :
  at_ u 1 < 0 -> at_ r 1 < 0 -> 0 < pd x ->
  upper_ge u r -> 0 <= eval2 r x -> 0 <= eval2 u x.
Proof.
  unfold upper_ge, eval2. intros Hu Hr Hp L S.
  assert (0 <= - at_ r 1 * (at_ u 0 * pd x + at_ u 1 * at_ (pv x) 0)); [|nia].
  assert (at_ u 0 * at_ r 1 * pd x <= at_ r 0 * at_ u 1 * pd x)
    by (apply Z.mul_le_mono_nonneg_r; lia).
  assert (0 <= - at_ u 1 * (at_ r 0 * pd x + at_ r 1 * at_ (pv x) 0))
    by (apply Z.mul_nonneg_nonneg; lia).
  lia.
Qed.

(** The points of a member satisfy the bounds the member provides. *)
Lemma lower_cands_sat (m : isl_basic_set) (x : point) :
  plain_1d m -> in_bmap x m ->
  Forall (fun r => 0 <= eval2 r x) (lower_cands m).
Proof.
  intros (We & Wi) (_ & He & Hi). unfold lower_cands.
  rewrite Forall_forall in We, Wi, He, Hi.
  apply Forall_app. split; apply Forall_forall; intros r Hr;
    apply in_map_iff in Hr; destruct Hr as (e & <- & Hin);
    apply filter_In in Hin; destruct Hin as (Hin & _).
  - specialize (He e Hin). unfold sat_eq in He.
    rewrite (eval_len2 e x (proj1 (We e Hin))) in He.
    destruct (0 <? at_ e 1); [rewrite eval2_cpy2 | rewrite eval2_neg2]; lia.
  - specialize (Hi e Hin). unfold sat_ineq in Hi.
    rewrite (eval_len2 e x (proj1 (Wi e Hin))) in Hi.
    rewrite eval2_cpy2. exact Hi.
Qed.

Lemma upper_cands_sat (m : isl_basic_set) (x : point) :
  plain_1d m -> in_bmap x m ->
  Forall (fun r => 0 <= eval2 r x) (upper_cands m).
Proof.
  intros (We & Wi) (_ & He & Hi). unfold upper_cands.
  rewrite Forall_forall in We, Wi, He, Hi.
  apply Forall_app. split; apply Forall_forall; intros r Hr;
    apply in_map_iff in Hr; destruct Hr as (e & <- & Hin);
    apply filter_In in Hin; destruct Hin as (Hin & _).
  - specialize (He e Hin). unfold sat_eq in He.
    rewrite (eval_len2 e x (proj1 (We e Hin))) in He.
    destruct (0 <? at_ e 1); [rewrite eval2_neg2 | rewrite eval2_cpy2]; lia.
  - specialize (Hi e Hin). unfold sat_ineq in Hi.
    rewrite (eval_len2 e x (proj1 (Wi e Hin))) in Hi.
    rewrite eval2_cpy2. exact Hi.
Qed.

Lemma provides_lower_cands (m : isl_basic_set) :
  plain_1d m -> provides_lower m = true -> exists r, In r (lower_cands m).
Proof.
  intros (We & Wi) P. unfold provides_lower, n_eq in P. unfold lower_cands.
  apply orb_true_iff in P. destruct P as [P|P].
  - destruct (eq m) as [|e es]; [discriminate P|].
    inversion We as [|? ? (_ & Ne) _]; subst.
    eexists. apply in_or_app. left. cbn [filter].
    apply Z.eqb_neq in Ne. rewrite Ne. left. reflexivity.
  - apply existsb_exists in P. destruct P as (c & Hc & Pc).
    exists (cpy2 c). apply in_or_app. right. apply in_map, filter_In. auto.
Qed.

Lemma provides_upper_cands (m : isl_basic_set) :
  plain_1d m -> provides_upper m = true -> exists r, In r (upper_cands m).
Proof.
  intros (We & Wi) P. unfold provides_upper, n_eq in P. unfold upper_cands.
  apply orb_true_iff in P. destruct P as [P|P].
  - destruct (eq m) as [|e es]; [discriminate P|].
    inversion We as [|? ? (_ & Ne) _]; subst.
    eexists. apply in_or_app. left. cbn [filter].
    apply Z.eqb_neq in Ne. rewrite Ne. left. reflexivity.
  - apply existsb_exists in P. destruct P as (c & Hc & Pc).
    exists (cpy2 c). apply in_or_app. right. apply in_map, filter_In. auto.
Qed.

(** The lower bound after a member, when there is one. *)
Lemma member_1d_step_lower (b : bounds_1d) (m : isl_basic_set) (l' : row) :
  signed_bounds b ->
  lower (member_1d_step b m) = Some l' ->
  provides_lower m = true /\
  exists l, lower b = Some l /\ 0 < at_ l' 1 /\ lower_le l' l /\
            Forall (lower_le l') (lower_cands m).
Proof.
  intros (Sl & _) E. rewrite (proj1 (member_1d_step_fold b m)) in E.
  destruct (provides_lower m); [|discriminate]. split; [reflexivity|].
  destruct (lower b) as [l|] eqn:El; [|discriminate].
  cbn [option_map] in E. inversion E; subst; clear E. exists l.
  split; [reflexivity|].
  destruct (fold_lower_pick_weakest _ l (Sl l eq_refl) (lower_cands_pos m))
    as (A & _ & B & C). auto.
Qed.

Lemma member_1d_step_upper (b : bounds_1d) (m : isl_basic_set) (u' : row) :
  signed_bounds b ->
  upper (member_1d_step b m) = Some u' ->
  provides_upper m = true /\
  exists u, upper b = Some u /\ at_ u' 1 < 0 /\ upper_ge u' u /\
            Forall (upper_ge u') (upper_cands m).
Proof.
  intros (_ & Su) E. rewrite (proj2 (member_1d_step_fold b m)) in E.
  destruct (provides_upper m); [|discriminate]. split; [reflexivity|].
  destruct (upper b) as [u|] eqn:Eu; [|discriminate].
  cbn [option_map] in E. inversion E; subst; clear E. exists u.
  split; [reflexivity|].
  destruct (fold_upper_pick_weakest _ u (Su u eq_refl) (upper_cands_neg m))
    as (A & _ & B & C). auto.
Qed.

Lemma member_1d_step_signed (b : bounds_1d) (m : isl_basic_set) :
  signed_bounds b -> signed_bounds (member_1d_step b m).
Proof.
  intros S. split.
  - intros l' E. destruct (member_1d_step_lower b m l' S E) as (_ & l & _ & A & _).
    exact A.
  - intros u' E. destruct (member_1d_step_upper b m u' S E) as (_ & u & _ & A & _).
    exact A.
Qed.

(** After a member has been processed the bounds hold on its points. *)
Lemma member_1d_step_covers (b : bounds_1d) (m : isl_basic_set) :
  plain_1d m -> signed_bounds b -> bounds_cover (member_1d_step b m) m.
Proof.
  intros W S. split.
  - intros l' E x Hx.
    destruct (member_1d_step_lower b m l' S E) as (P & l & _ & A & _ & C).
    destruct (provides_lower_cands m W P) as (r & Hr).
    rewrite Forall_forall in C.
    pose proof (lower_cands_pos m) as Pos. rewrite Forall_forall in Pos.
    pose proof (lower_cands_sat m x W Hx) as Sat. rewrite Forall_forall in Sat.
    apply (lower_le_sat l' r x A (Pos r Hr) (proj1 Hx) (C r Hr) (Sat r Hr)).
  - intros u' E x Hx.
    destruct (member_1d_step_upper b m u' S E) as (P & u & _ & A & _ & C).
    destruct (provides_upper_cands m W P) as (r & Hr).
    rewrite Forall_forall in C.
    pose proof (upper_cands_neg m) as Neg. rewrite Forall_forall in Neg.
    pose proof (upper_cands_sat m x W Hx) as Sat. rewrite Forall_forall in Sat.
    apply (upper_ge_sat u' r x A (Neg r Hr) (proj1 Hx) (C r Hr) (Sat r Hr)).
Qed.

(** Bounds that hold on a member still hold on it after another member. *)
Lemma member_1d_step_keeps (b : bounds_1d) (m m0 : isl_basic_set) :
  signed_bounds b -> bounds_cover b m0 ->
  bounds_cover (member_1d_step b m) m0.
Proof.
  intros S (Cl & Cu). split.
  - intros l' E x Hx.
    destruct (member_1d_step_lower b m l' S E) as (_ & l & El & A & B & _).
    apply (lower_le_sat l' l x A (proj1 S l El) (proj1 Hx) B (Cl l El x Hx)).
  - intros u' E x Hx.
    destruct (member_1d_step_upper b m u' S E) as (_ & u & Eu & A & B & _).
    apply (upper_ge_sat u' u x A (proj2 S u Eu) (proj1 Hx) B (Cu u Eu x Hx)).
Qed.

Lemma fold_member_1d_step_signed (ps : list isl_basic_set) :
  forall b, signed_bounds b -> signed_bounds (fold_left member_1d_step ps b).
Proof.
  induction ps as [|m ps IH]; intros b S; cbn [fold_left]; [exact S|].
  apply IH, member_1d_step_signed, S.
Qed.

Lemma fold_member_1d_step_keeps (ps : list isl_basic_set) (m0 : isl_basic_set) :
  forall b, signed_bounds b -> bounds_cover b m0 ->
            bounds_cover (fold_left member_1d_step ps b) m0.
Proof.
  induction ps as [|m ps IH]; intros b S C; cbn [fold_left]; [exact C|].
  apply IH; [apply member_1d_step_signed, S | apply member_1d_step_keeps; assumption].
Qed.

Lemma fold_member_1d_step_covers (ps : list isl_basic_set) :
  forall b, Forall plain_1d ps -> signed_bounds b ->
    forall m, In m ps -> bounds_cover (fold_left member_1d_step ps b) m.
Proof.
  induction ps as [|m1 ps IH]; intros b W S m Hm; [destruct Hm|].
  inversion W as [|? ? W1 W']; subst. cbn [fold_left].
  destruct Hm as [<-|Hm].
  - apply fold_member_1d_step_keeps;
      [apply member_1d_step_signed, S | apply member_1d_step_covers; assumption].
  - apply IH; [exact W' | apply member_1d_step_signed, S | exact Hm].
Qed.

Lemma seed_1d_signed (p0 : isl_basic_set) (b : bounds_1d) :
  plain_1d p0 -> seed_1d p0 = Some b -> signed_bounds b.
Proof.
  intros (We & Wi) E. unfold seed_1d, n_eq in E.
  destruct (eq p0) as [|e es].
  - cbn [length Nat.ltb Nat.leb] in E. inversion E; subst; clear E.
    assert (G : forall cs b0, Forall (fun r => length r = 2%nat /\ at_ r 1 <> 0) cs ->
              signed_bounds b0 ->
              signed_bounds
                (fold_left
                   (fun b c => if 0 <? at_ c 1
                               then mk_bounds (Some (cpy2 c)) (upper b)
                               else mk_bounds (lower b) (Some (cpy2 c)))
                   cs b0)).
    { induction cs as [|c cs IH]; intros b0 W S; cbn [fold_left]; [exact S|].
      inversion W as [|? ? (_ & Nc) W']; subst. apply IH; [exact W'|].
      destruct S as (Sl & Su).
      destruct (Z.ltb_spec 0 (at_ c 1)); split; cbn [lower upper]; auto;
        intros r Er; inversion Er; subst; rewrite at_cpy2; lia. }
    apply G; [exact Wi|]. split; intros r Er; discriminate Er.
  - inversion We as [|? ? (_ & Ne) _]; subst.
    cbn [length Nat.ltb Nat.leb] in E.
    destruct (negb (Nat.eqb (S (length es)) 1)); [discriminate|].
    cbn [nth] in E.
    destruct (Z.ltb_spec 0 (at_ e 1)); inversion E; subst; clear E;
      split; cbn [lower upper]; intros r Er; inversion Er; subst;
      rewrite ?at_cpy2, ?at_neg2; lia.
Qed.

(** On the one-dimensional path the hull contains the set: every point of
    every member satisfies the inequalities that [convex_hull_1d] puts
    into the hull. *)
Lemma bounds_of_members_contain (ps : list isl_basic_set) (b : bounds_1d) :
  Forall plain_1d ps ->
  bounds_of_members ps = Some b ->
  forall m x, In m ps -> in_bmap x m ->
    Forall (fun r => sat_ineq r x) (bounds_rows b).
Proof.
  intros W E m x Hm Hx. unfold bounds_of_members in E.
  destruct ps as [|p0 ps']; [discriminate|].
  destruct (seed_1d p0) as [b0|] eqn:Es; [|discriminate].
  inversion E; subst; clear E.
  assert (S0 : signed_bounds b0).
  { inversion W; subst. eapply seed_1d_signed; eassumption. }
  destruct (fold_member_1d_step_covers (p0 :: ps') b0 W S0 m Hm) as (Cl & Cu).
  unfold bounds_rows.
  apply Forall_app. split.
  - destruct (lower _) as [l|]; constructor; [|constructor].
    unfold sat_ineq. rewrite eval_cpy2. apply (Cl l eq_refl x Hx).
  - destruct (upper _) as [u|]; constructor; [|constructor].
    unfold sat_ineq. rewrite eval_cpy2. apply (Cu u eq_refl x Hx).
Qed.

(** ** The bound test *)

Lemma dot_scale (k : Z) (f v : row) :
  dot (map (Z.mul k) f) v = k * dot f v.
Proof.
  revert v; induction f as [|a f IH]; intros [|b v]; cbn [map dot]; try lia.
  rewrite IH. lia.
Qed.

Lemma map_at_seq (c : row) : map (at_ c) (seq 0 (length c)) = c.
Proof.
  apply nth_ext with (d := 0) (d' := 0).
  - rewrite length_map, length_seq. reflexivity.
  - intros i Hi. rewrite length_map, length_seq in Hi.
    exact (at_map_seq (at_ c) (length c) i Hi).
Qed.

Lemma isl_seq_scale_all (c : row) (m : Z) :
  isl_seq_scale c c m (length c) = map (Z.mul m) c.
Proof.
  unfold isl_seq_scale, overwrite.
  rewrite length_map, length_seq, skipn_all, app_nil_r.
  transitivity (map (Z.mul m) (map (at_ c) (seq 0 (length c)))).
  - rewrite map_map. apply map_ext. intros i. lia.
  - rewrite map_at_seq. reflexivity.
Qed.

Lemma tl_map {A B : Type} (g : A -> B) (l : list A) : tl (map g l) = map g (tl l).
Proof. destruct l; reflexivity. Qed.

Lemma at_0_map_mul (m : Z) (c : row) : at_ (map (Z.mul m) c) 0 = m * at_ c 0.
Proof. destruct c as [|a c]; unfold at_; cbn [map nth]; lia. Qed.

Lemma tl_set_c0 (c : row) (v : Z) : tl (set_c0 c v) = tl c.
Proof. destruct c; reflexivity. Qed.

Lemma at_0_set_c0 (c : row) (v : Z) : at_ (set_c0 c v) 0 = v.
Proof. reflexivity. Qed.

Lemma length_set_c0 (c : row) (v : Z) :
  (1 <= length c)%nat -> length (set_c0 c v) = length c.
Proof.
  intros H. unfold set_c0. rewrite length_overwrite. cbn [length]. lia.
Qed.

Lemma map_mul_mul (k d : Z) (f : row) :
  map (Z.mul k) (map (Z.mul d) f) = map (Z.mul (k * d)) f.
Proof. rewrite map_map. apply map_ext. intros a. lia. Qed.

Lemma map_mul_one (f : row) : map (Z.mul 1) f = f.
Proof.
  rewrite <- (map_id f) at 2. apply map_ext. intros a. lia.
Qed.

(** Boundedness does not depend on a positive scaling of the objective. *)
Lemma bounded_below_scale (k : Z) (f : row) (b : isl_basic_map) :
  0 < k -> bounded_below (map (Z.mul k) f) b -> bounded_below f b.
Proof.
  intros Hk (m & Hm). exists (m / k). intros x Hx.
  specialize (Hm x Hx). rewrite dot_scale in Hm. destruct Hx as (Px & _).
  pose proof (Z.mul_div_le m k Hk) as D.
  assert (k * (m / k) * pd x <= m * pd x)
    by (apply Z.mul_le_mono_nonneg_r; lia).
  nia.
Qed.

Lemma lp_ok_bounded (b : isl_basic_map) (f : row) (o : lp_out) :
  lp_contract b f o -> lp_res o = isl_lp_ok -> bounded_below f b.
Proof.
  unfold lp_contract. intros C R. rewrite R in C.
  destruct C as (Hd & Hmin & _). exists (lp_num o / lp_den o). intros x Hx.
  specialize (Hmin x Hx). destruct Hx as (Px & _).
  pose proof (Z.mul_div_le (lp_num o) (lp_den o) Hd) as D.
  assert (lp_den o * (lp_num o / lp_den o) * pd x <= lp_num o * pd x)
    by (apply Z.mul_le_mono_nonneg_r; lia).
  nia.
Qed.

Lemma lp_unbounded_not_bounded (b : isl_basic_map) (f : row) (o : lp_out) :
  lp_contract b f o -> lp_res o = isl_lp_unbounded -> ~ bounded_below f b.
Proof.
  unfold lp_contract. intros C R (m & Hm). rewrite R in C.
  destruct (C m) as (x & Hx & Lt). specialize (Hm x Hx). lia.
Qed.

Lemma no_points_bounded (b : isl_basic_map) (f : row) :
  (forall x, ~ in_bmap x b) -> bounded_below f b.
Proof. intros H. exists 0. intros x Hx. destruct (H x Hx). Qed.

Lemma bounded_below_scale_up (k : Z) (f : row) (b : isl_basic_map) :
  0 < k -> bounded_below f b -> bounded_below (map (Z.mul k) f) b.
Proof.
  intros Hk (m & Hm). exists (k * m). intros x Hx.
  specialize (Hm x Hx). rewrite dot_scale. nia.
Qed.

(** The row after [if (!isl_int_is_one(opt_denom)) isl_seq_scale(...)]. *)
Lemma scale_step (c : row) (d : Z) :
  let c1 := if d =? 1 then c else isl_seq_scale c c d (length c) in
  length c1 = length c /\ tl c1 = map (Z.mul d) (tl c) /\
  at_ c1 0 = d * at_ c 0.
Proof.
  cbn zeta. destruct (Z.eqb_spec d 1) as [->|_].
  - rewrite map_mul_one. repeat split. lia.
  - rewrite isl_seq_scale_all, length_map, tl_map, at_0_map_mul. auto.
Qed.

Section BoundLoop.

Variable lp : isl_basic_map -> bool -> row -> Z -> bool -> lp_out.
Variable ste : isl_basic_set -> option isl_basic_set.

(** A member without points does not change what the loop establishes. *)
Lemma bound_loop_post_skip pj rest c P l :
  (forall x, ~ in_bmap x pj) ->
  bound_loop_post lp ste rest c P l ->
  bound_loop_post lp ste (pj :: rest) c P l.
Proof.
  intros E H. destruct l as [ms c'|ms c'|ms c']; cbn [bound_loop_post] in *.
  - apply Exists_cons_tl, H.
  - apply Exists_cons_tl, H.
  - destruct H as (k & Hk & Hlen & Htl & Hb & Hv & Ht).
    assert (Q : forall x, P x \/ Exists (in_bmap x) (pj :: rest) ->
                          P x \/ Exists (in_bmap x) rest).
    { intros x [Hx|Hx]; [left; exact Hx|].
      inversion Hx; subst; [destruct (E x); assumption | right; assumption]. }
    exists k. repeat split; try assumption.
    + constructor; [apply no_points_bounded, E | exact Hb].
    + intros x Hx. apply Hv, Q, Hx.
    + intros (x & Hx). destruct (Ht (ex_intro _ x (Q x Hx))) as (y & Hy & Ey).
      exists y. split; [|exact Ey].
      destruct Hy as [Hy|Hy]; [left; exact Hy | right; apply Exists_cons_tl, Hy].
Qed.

(** A member on which the LP has the optimum [num/den]: the row is scaled
    by [den], its constant becomes the smaller of the old constant and
    [num], and the loop goes on with the points of the member added. *)
Lemma bound_loop_post_ok pj rest c c2 (first : bool) P l o :
  lp_contract pj (tl c) o -> lp_res o = isl_lp_ok ->
  (forall x, P x -> 0 < pd x) ->
  (if first then forall x, ~ P x
   else (forall x, P x -> at_ c 0 * pd x <= dot (tl c) (pv x)) /\
        exists x, P x /\ at_ c 0 * pd x = dot (tl c) (pv x)) ->
  length c2 = length c ->
  tl c2 = map (Z.mul (lp_den o)) (tl c) ->
  at_ c2 0 = (if first || (lp_num o <? lp_den o * at_ c 0)
              then lp_num o else lp_den o * at_ c 0) ->
  ((forall x, P x \/ in_bmap x pj -> at_ c2 0 * pd x <= dot (tl c2) (pv x)) ->
   (exists x, (P x \/ in_bmap x pj) /\ at_ c2 0 * pd x = dot (tl c2) (pv x)) ->
   bound_loop_post lp ste rest c2 (fun x => P x \/ in_bmap x pj) l) ->
  bound_loop_post lp ste (pj :: rest) c P l.
Proof.
  intros C R Ppos Pre Hlen Htl H0 IH.
  pose proof (lp_ok_bounded _ _ _ C R) as Bpj.
  unfold lp_contract in C. rewrite R in C.
  destruct C as (Hd & Hmin & x0 & Hx0 & Ex0).
  assert (V : forall x, P x \/ in_bmap x pj ->
                        at_ c2 0 * pd x <= dot (tl c2) (pv x)).
  { intros x Hx. rewrite Htl, dot_scale, H0.
    destruct first; cbn [orb].
    - destruct Hx as [Hx|Hx]; [destruct (Pre x Hx) | apply Hmin, Hx].
    - destruct Pre as (Pv & _).
      destruct (Z.ltb_spec (lp_num o) (lp_den o * at_ c 0)) as [Lt|Ge];
        (destruct Hx as [Hx|Hx];
         [specialize (Pv x Hx); specialize (Ppos x Hx)
         | specialize (Hmin x Hx); destruct Hx as (Px & _)]); nia. }
  assert (T : exists x, (P x \/ in_bmap x pj) /\
                        at_ c2 0 * pd x = dot (tl c2) (pv x)).
  { rewrite Htl, H0. destruct first; cbn [orb].
    - exists x0. split; [right; exact Hx0 | rewrite dot_scale; exact Ex0].
    - destruct Pre as (_ & xp & Hxp & Exp).
      destruct (Z.ltb_spec (lp_num o) (lp_den o * at_ c 0)) as [Lt|Ge].
      + exists x0. split; [right; exact Hx0 | rewrite dot_scale; exact Ex0].
      + exists xp. split; [left; exact Hxp | rewrite dot_scale; nia]. }
  specialize (IH V T).
  destruct l as [ms c'|ms c'|ms c']; cbn [bound_loop_post] in *.
  - apply Exists_cons_tl, IH.
  - apply Exists_cons_tl. apply Exists_exists in IH.
    destruct IH as (b & Hb & Nb). apply Exists_exists. exists b.
    split; [exact Hb|]. intros B. apply Nb. rewrite Htl.
    apply bounded_below_scale_up; assumption.
  - destruct IH as (k & Hk & Hl' & Htl' & Hb & Hv & Ht).
    assert (Q : forall x, P x \/ Exists (in_bmap x) (pj :: rest) <->
                          (P x \/ in_bmap x pj) \/ Exists (in_bmap x) rest).
    { intros x. rewrite Exists_cons. tauto. }
    exists (k * lp_den o). split; [nia|]. split; [congruence|].
    split; [rewrite Htl', Htl; apply map_mul_mul|]. split.
    + constructor; [exact Bpj|].
      apply Forall_forall. intros b Hb'. rewrite Forall_forall in Hb.
      apply (bounded_below_scale (lp_den o)); [exact Hd|].
      rewrite <- Htl. apply Hb, Hb'.
    + split.
      * intros x Hx. apply Hv, Q, Hx.
      * intros (x & Hx). apply Q in Hx.
        destruct (Ht (ex_intro _ x Hx)) as (y & Hy & Ey).
        exists y. split; [apply Q, Hy | exact Ey].
Qed.

Hypothesis ste_marks :
  forall b b', ste b = Some b' ->
    ISL_F_ISSET b' ISL_BASIC_SET_EMPTY = true /\ forall x, ~ in_bmap x b'.

(** The loop of [uset_is_bound] establishes its postcondition. *)
Lemma uset_is_bound_loop_sem (todo : list isl_basic_set) :
  forall seen (first : bool) c (P : point -> Prop),
    (1 <= length c)%nat ->
    (forall b f, In b todo -> ISL_F_ISSET b ISL_BASIC_SET_EMPTY = false ->
                 lp_contract b f (lp b false f 1 true)) ->
    (forall b, In b todo -> ISL_F_ISSET b ISL_BASIC_SET_EMPTY = true ->
               forall x, ~ in_bmap x b) ->
    (forall x, P x -> 0 < pd x) ->
    (if first then forall x, ~ P x
     else (forall x, P x -> at_ c 0 * pd x <= dot (tl c) (pv x)) /\
          exists x, P x /\ at_ c 0 * pd x = dot (tl c) (pv x)) ->
    bound_loop_post lp ste todo c P
      (uset_is_bound_loop lp ste seen todo first c (length c)).
Proof.
  induction todo as [|pj rest IH]; intros seen first c P Hc Hlp Hflag Ppos Pre.
  - cbn [uset_is_bound_loop bound_loop_post].
    exists 1. split; [lia|]. split; [reflexivity|].
    split; [symmetry; apply map_mul_one|]. split; [constructor|].
    assert (Q : forall x, P x \/ Exists (in_bmap x) [] -> P x).
    { intros x [Hx|Hx]; [exact Hx | inversion Hx]. }
    destruct first.
    + split; [intros x Hx; destruct (Pre x (Q x Hx))|].
      intros (x & Hx). destruct (Pre x (Q x Hx)).
    + destruct Pre as (Pv & xp & Hxp & Exp).
      split; [intros x Hx; apply Pv, Q, Hx|].
      intros _. exists xp. split; [left; exact Hxp | exact Exp].
  - assert (Hlp' : forall b f, In b rest ->
              ISL_F_ISSET b ISL_BASIC_SET_EMPTY = false ->
              lp_contract b f (lp b false f 1 true))
      by (intros b f Hb; apply Hlp; right; exact Hb).
    assert (Hflag' : forall b, In b rest ->
              ISL_F_ISSET b ISL_BASIC_SET_EMPTY = true -> forall x, ~ in_bmap x b)
      by (intros b Hb; apply Hflag; right; exact Hb).
    cbn [uset_is_bound_loop].
    destruct (ISL_F_ISSET pj ISL_BASIC_SET_EMPTY) eqn:Fl.
    { apply bound_loop_post_skip; [apply Hflag; [left; reflexivity | exact Fl]|].
      apply IH; assumption. }
    pose proof (Hlp pj (tl c) (or_introl eq_refl) Fl) as C.
    destruct (lp_res (lp pj false (tl c) 1 true)) eqn:R.
    + cbn [bound_loop_post]. apply Exists_cons_hd. exists (tl c). left. exact R.
    + set (o := lp pj false (tl c) 1 true) in *.
      pose proof (scale_step c (lp_den o)) as St. cbn zeta in St.
      match goal with
      | |- context [set_c0 ?X _] => set (c1 := X) in *
      end.
      destruct St as (L1 & T1 & A1).
      match goal with
      | |- context [uset_is_bound_loop _ _ _ _ _ ?X _] => set (c2 := X)
      end.
      assert (L2 : length c2 = length c).
      { subst c2. destruct (first || _); [|exact L1].
        rewrite length_set_c0; [exact L1 | rewrite L1; exact Hc]. }
      assert (T2 : tl c2 = map (Z.mul (lp_den o)) (tl c)).
      { subst c2. destruct (first || _); [rewrite tl_set_c0|]; exact T1. }
      assert (A2 : at_ c2 0 = (if first || (lp_num o <? lp_den o * at_ c 0)
                               then lp_num o else lp_den o * at_ c 0)).
      { subst c2. rewrite <- A1.
        destruct (first || (lp_num o <? at_ c1 0));
          [apply at_0_set_c0 | reflexivity]. }
      apply (bound_loop_post_ok pj rest c c2 first P _ o C R Ppos Pre
               L2 T2 A2).
      intros V T. rewrite <- L2.
      apply IH; try assumption; [lia | |split; assumption].
      intros x [Hx|Hx]; [apply Ppos, Hx | destruct Hx as (Px & _); exact Px].
    + cbn [bound_loop_post]. apply Exists_cons_hd.
      eapply lp_unbounded_not_bounded; eassumption.
    + assert (E : forall x, ~ in_bmap x pj).
      { unfold lp_contract in C. rewrite R in C. exact C. }
      destruct (ste pj) as [pj'|] eqn:S.
      * apply bound_loop_post_skip; [exact E|]. apply IH; assumption.
      * cbn [bound_loop_post]. apply Exists_cons_hd. exists (tl c).
        right. split; [exact R | exact S].
Qed.

Lemma Forall2_marked_refl (l : list isl_basic_set) :
  Forall2 (marked_or_same ste) l l.
Proof. induction l; constructor; [left; reflexivity | assumption]. Qed.

(** The members after the loop: those the LP found empty are marked, the
    others are left as they were; when the loop runs to its end, every
    member without a point carries the EMPTY flag. *)
Lemma uset_is_bound_loop_members (todo : list isl_basic_set) :
  forall seen (first : bool) c len,
    (forall b f, In b todo -> ISL_F_ISSET b ISL_BASIC_SET_EMPTY = false ->
                 lp_contract b f (lp b false f 1 true)) ->
    exists todo',
      bl_members (uset_is_bound_loop lp ste seen todo first c len)
        = seen ++ todo' /\
      Forall2 (marked_or_same ste) todo todo' /\
      match uset_is_bound_loop lp ste seen todo first c len with
      | BL_end _ _ =>
          Forall (fun b' => (forall x, ~ in_bmap x b') ->
                            ISL_F_ISSET b' ISL_BASIC_SET_EMPTY = true) todo'
      | _ => True
      end.
Proof.
  induction todo as [|pj rest IH]; intros seen first c len Hlp.
  - exists []. cbn. rewrite app_nil_r. repeat split; constructor.
  - assert (Hlp' : forall b f, In b rest ->
              ISL_F_ISSET b ISL_BASIC_SET_EMPTY = false ->
              lp_contract b f (lp b false f 1 true))
      by (intros b f Hb; apply Hlp; right; exact Hb).
    cbn [uset_is_bound_loop].
    destruct (ISL_F_ISSET pj ISL_BASIC_SET_EMPTY) eqn:Fl.
    { destruct (IH (seen ++ [pj]) first c len Hlp') as (t' & M & F2 & E).
      exists (pj :: t'). rewrite M, <- app_assoc. split; [reflexivity|].
      split; [constructor; [left; reflexivity | exact F2]|].
      destruct (uset_is_bound_loop _ _ _ _ _ _ _); try exact I.
      constructor; [intros _; exact Fl | exact E]. }
    pose proof (Hlp pj (tl c) (or_introl eq_refl) Fl) as C.
    unfold lp_contract in C.
    destruct (lp_res (lp pj false (tl c) 1 true)) eqn:R.
    + exists (pj :: rest). cbn [bl_members]. split; [reflexivity|].
      split; [apply Forall2_marked_refl | exact I].
    + match goal with
      | |- context [uset_is_bound_loop _ _ _ _ _ ?X _] => set (c2 := X)
      end.
      destruct (IH (seen ++ [pj]) false c2 len Hlp') as (t' & M & F2 & E).
      exists (pj :: t'). rewrite M, <- app_assoc. split; [reflexivity|].
      split; [constructor; [left; reflexivity | exact F2]|].
      destruct (uset_is_bound_loop _ _ _ _ _ _ _); try exact I.
      constructor; [|exact E]. intros N.
      destruct C as (_ & _ & x0 & Hx0 & _). destruct (N x0 Hx0).
    + exists (pj :: rest). cbn [bl_members]. split; [reflexivity|].
      split; [apply Forall2_marked_refl | exact I].
    + destruct (ste pj) as [pj'|] eqn:S.
      * destruct (IH (seen ++ [pj']) first c len Hlp') as (t' & M & F2 & E).
        exists (pj' :: t'). rewrite M, <- app_assoc. split; [reflexivity|].
        split; [constructor; [right; split; [exact C | exact S] | exact F2]|].
        destruct (uset_is_bound_loop _ _ _ _ _ _ _); try exact I.
        constructor; [|exact E]. intros _.
        exact (proj1 (ste_marks pj pj' S)).
      * exists (pj :: rest). cbn [bl_members]. split; [reflexivity|].
        split; [apply Forall2_marked_refl | exact I].
Qed.

End BoundLoop.

(** What a call of [uset_is_bound] returns and leaves behind. *)
Lemma uset_is_bound_correct :
  forall lp ste (set : isl_set) (c : row),
    (1 <= length c)%nat ->
    (forall b f, In b (p set) -> ISL_F_ISSET b ISL_BASIC_SET_EMPTY = false ->
                 lp_contract b f (lp b false f 1 true)) ->
    (forall b, In b (p set) -> ISL_F_ISSET b ISL_BASIC_SET_EMPTY = true ->
               forall x, ~ in_bmap x b) ->
    (forall b b', ste b = Some b' ->
       ISL_F_ISSET b' ISL_BASIC_SET_EMPTY = true /\ forall x, ~ in_bmap x b') ->
    let r := uset_is_bound lp ste set c (length c) in
    (ib_ret r = 1 \/ ib_ret r = 0 \/ ib_ret r = -1) /\
    (ib_ret r = -1 -> Exists (lp_failure lp ste) (p set)) /\
    (ib_ret r <> -1 ->
       (ib_ret r = 1 <-> Forall (bounded_below (tl c)) (p set))) /\
    (ib_ret r = 0 -> Exists (fun b => ~ bounded_below (tl c) b) (p set)) /\
    Forall2 (marked_or_same ste) (p set) (p (ib_set r)) /\
    (ib_ret r = 1 ->
       Forall (fun b' => (forall x, ~ in_bmap x b') ->
                         ISL_F_ISSET b' ISL_BASIC_SET_EMPTY = true)
              (p (ib_set r))) /\
    (ib_ret r = 1 ->
       exists k, 0 < k /\ length (ib_c r) = length c /\
         tl (ib_c r) = map (Z.mul k) (tl c) /\
         (forall x, in_set x set -> sat_ineq (ib_c r) x) /\
         ((exists x, in_set x set) ->
          exists x, in_set x set /\ eval (ib_c r) x = 0)).
Proof.
  intros lp ste set c Hc Hlp Hflag Hste r.
  pose proof (uset_is_bound_loop_sem lp ste (p set) [] true c
                (fun _ => False) Hc Hlp Hflag
                (fun x (F : False) => match F with end)
                (fun x (F : False) => F)) as Sem.
  destruct (uset_is_bound_loop_members lp ste Hste (p set) [] true c
              (length c) Hlp) as (ms & M & F2 & Mk).
  cbn [app] in M.
  assert (NB : Exists (fun b => ~ bounded_below (tl c) b) (p set) ->
               ~ Forall (bounded_below (tl c)) (p set)).
  { intros Ex Fa. apply Exists_exists in Ex. destruct Ex as (b & Hb & Nb).
    rewrite Forall_forall in Fa. exact (Nb (Fa b Hb)). }
  subst r. unfold uset_is_bound.
  destruct (uset_is_bound_loop lp ste [] (p set) true c (length c))
    as [ms' c'|ms' c'|ms' c']; cbn [bl_members] in M; subst ms';
    cbn [bound_loop_post] in Sem; cbn [ib_ret ib_set ib_c p].
  - split; [auto|]. split; [intros _; exact Sem|].
    split; [intros N; congruence|]. split; [discriminate|].
    split; [exact F2|]. split; discriminate.
  - split; [auto|]. split; [discriminate|]. split.
    { intros _. split; [discriminate|]. intros Fa. destruct (NB Sem Fa). }
    split; [intros _; exact Sem|]. split; [exact F2|]. split; discriminate.
  - destruct Sem as (k & Hk & Hlen & Htl & Hb & Hv & Ht).
    split; [auto|]. split; [discriminate|].
    split; [intros _; split; [intros _; exact Hb | reflexivity]|].
    split; [discriminate|]. split; [exact F2|]. split; [intros _; exact Mk|].
    intros _. exists k. split; [exact Hk|].
    split; [rewrite length_set_c0; [exact Hlen | rewrite Hlen; exact Hc]|].
    split; [rewrite tl_set_c0; exact Htl|]. split.
    + intros x Hx. unfold sat_ineq, eval.
      rewrite at_0_set_c0, tl_set_c0.
      specialize (Hv x (or_intror Hx)). lia.
    + intros (x & Hx).
      destruct (Ht (ex_intro _ x (or_intror Hx))) as (y & [[]|Hy] & Ey).
      exists y. split; [exact Hy|]. unfold eval.
      rewrite at_0_set_c0, tl_set_c0. lia.
Qed.

(** ** Where the loop of [uset_is_bound] stops *)

Section BoundLoopExit.

Variable lp : isl_basic_map -> bool -> row -> Z -> bool -> lp_out.
Variable ste : isl_basic_set -> option isl_basic_set.

(** The loop stops at the first member on which the objective is not
    bounded below, with the members after it untouched, whatever they
    are: the members before it are bounded and no LP call on them fails. *)
Lemma uset_is_bound_loop_exit (pre : list isl_basic_set) :
  forall seen (first : bool) c pj post,
    (1 <= length c)%nat ->
    (forall b f, In b (pre ++ [pj]) ->
                 ISL_F_ISSET b ISL_BASIC_SET_EMPTY = false ->
                 lp_contract b f (lp b false f 1 true)) ->
    Forall (fun b => ~ lp_failure lp ste b) (pre ++ [pj]) ->
    Forall (bounded_below (tl c)) pre ->
    ISL_F_ISSET pj ISL_BASIC_SET_EMPTY = false ->
    ~ bounded_below (tl c) pj ->
    exists pre' c',
      uset_is_bound_loop lp ste seen (pre ++ pj :: post) first c (length c)
        = BL_break (seen ++ pre' ++ pj :: post) c' /\
      Forall2 (marked_or_same ste) pre pre'.
Proof.
  induction pre as [|a pre IH]; intros seen first c pj post Hc Hlp Hnf Hb Fl Nb.
  - cbn [app uset_is_bound_loop]. rewrite Fl.
    pose proof (Hlp pj (tl c) (or_introl eq_refl) Fl) as C.
    apply Forall_inv in Hnf.
    destruct (lp_res (lp pj false (tl c) 1 true)) eqn:R.
    + destruct Hnf. exists (tl c). left. exact R.
    + destruct Nb. exact (lp_ok_bounded _ _ _ C R).
    + exists [], c. split; [reflexivity | constructor].
    + destruct Nb. apply no_points_bounded.
      unfold lp_contract in C. rewrite R in C. exact C.
  - assert (Hlp' : forall b f, In b (pre ++ [pj]) ->
              ISL_F_ISSET b ISL_BASIC_SET_EMPTY = false ->
              lp_contract b f (lp b false f 1 true))
      by (intros b f Hin; apply Hlp; right; exact Hin).
    cbn [app] in Hnf. pose proof (Forall_inv Hnf) as Na.
    apply Forall_inv_tail in Hnf.
    pose proof (Forall_inv Hb) as Ba. apply Forall_inv_tail in Hb.
    cbn [app uset_is_bound_loop].
    destruct (ISL_F_ISSET a ISL_BASIC_SET_EMPTY) eqn:Fa.
    { destruct (IH (seen ++ [a]) first c pj post Hc Hlp' Hnf Hb Fl Nb)
        as (pre' & c' & E & F2).
      exists (a :: pre'), c'. rewrite E, <- app_assoc.
      split; [reflexivity | constructor; [left; reflexivity | exact F2]]. }
    pose proof (Hlp a (tl c) (or_introl eq_refl) Fa) as C.
    destruct (lp_res (lp a false (tl c) 1 true)) eqn:R.
    + destruct Na. exists (tl c). left. exact R.
    + set (o := lp a false (tl c) 1 true) in *.
      assert (Hd : 0 < lp_den o).
      { unfold lp_contract in C. rewrite R in C. exact (proj1 C). }
      pose proof (scale_step c (lp_den o)) as St. cbn zeta in St.
      match goal with
      | |- context [set_c0 ?X _] => set (c1 := X) in *
      end.
      destruct St as (L1 & T1 & _).
      match goal with
      | |- context [uset_is_bound_loop _ _ _ _ _ ?X _] => set (c2 := X)
      end.
      assert (L2 : length c2 = length c).
      { subst c2. destruct (first || _); [|exact L1].
        rewrite length_set_c0; [exact L1 | rewrite L1; exact Hc]. }
      assert (T2 : tl c2 = map (Z.mul (lp_den o)) (tl c)).
      { subst c2. destruct (first || _); [rewrite tl_set_c0|]; exact T1. }
      rewrite <- L2.
      destruct (IH (seen ++ [a]) false c2 pj post) as (pre' & c' & E & F2);
        try assumption.
      * rewrite L2. exact Hc.
      * rewrite T2. apply Forall_forall. intros b Hin.
        rewrite Forall_forall in Hb.
        apply bounded_below_scale_up; [exact Hd | apply Hb, Hin].
      * rewrite T2. intros B. apply Nb.
        exact (bounded_below_scale _ _ _ Hd B).
      * exists (a :: pre'), c'. rewrite E, <- app_assoc.
        split; [reflexivity | constructor; [left; reflexivity | exact F2]].
    + destruct (lp_unbounded_not_bounded _ _ _ C R Ba).
    + assert (E0 : forall x, ~ in_bmap x a).
      { unfold lp_contract in C. rewrite R in C. exact C. }
      destruct (ste a) as [a'|] eqn:S.
      * destruct (IH (seen ++ [a']) first c pj post Hc Hlp' Hnf Hb Fl Nb)
          as (pre' & c' & E & F2).
        exists (a' :: pre'), c'. rewrite E, <- app_assoc.
        split; [reflexivity|].
        constructor; [right; split; [exact E0 | exact S] | exact F2].
      * destruct Na. exists (tl c). right. split; [exact R | exact S].
Qed.

(** When the loop is left by [break], it is at the first member on which
    the objective is not bounded below; the LP call on that member was
    answered unbounded, and the members after it are untouched. *)
Lemma uset_is_bound_loop_break (todo : list isl_basic_set) :
  forall seen (first : bool) c ms c',
    (1 <= length c)%nat ->
    (forall b f, In b todo -> ISL_F_ISSET b ISL_BASIC_SET_EMPTY = false ->
                 lp_contract b f (lp b false f 1 true)) ->
    (forall b, In b todo -> ISL_F_ISSET b ISL_BASIC_SET_EMPTY = true ->
               forall x, ~ in_bmap x b) ->
    uset_is_bound_loop lp ste seen todo first c (length c) = BL_break ms c' ->
    exists pre pj post pre',
      todo = pre ++ pj :: post /\
      ms = seen ++ pre' ++ pj :: post /\
      Forall2 (marked_or_same ste) pre pre' /\
      Forall (bounded_below (tl c)) pre /\
      ISL_F_ISSET pj ISL_BASIC_SET_EMPTY = false /\
      lp_res (lp pj false (tl c') 1 true) = isl_lp_unbounded /\
      ~ bounded_below (tl c) pj.
Proof.
  induction todo as [|a rest IH]; intros seen first c ms c' Hc Hlp Hflag E.
  - discriminate E.
  - assert (Hlp' : forall b f, In b rest ->
              ISL_F_ISSET b ISL_BASIC_SET_EMPTY = false ->
              lp_contract b f (lp b false f 1 true))
      by (intros b f Hin; apply Hlp; right; exact Hin).
    assert (Hflag' : forall b, In b rest ->
              ISL_F_ISSET b ISL_BASIC_SET_EMPTY = true -> forall x, ~ in_bmap x b)
      by (intros b Hin; apply Hflag; right; exact Hin).
    cbn [uset_is_bound_loop] in E.
    destruct (ISL_F_ISSET a ISL_BASIC_SET_EMPTY) eqn:Fa.
    { destruct (IH _ _ _ _ _ Hc Hlp' Hflag' E)
        as (pre & pj & post & pre' & -> & -> & F2 & Hb & Fl & R & Nb).
      exists (a :: pre), pj, post, (a :: pre'). rewrite <- app_assoc.
      split; [reflexivity|]. split; [reflexivity|].
      split; [constructor; [left; reflexivity | exact F2]|].
      split; [|auto].
      constructor; [|exact Hb].
      apply no_points_bounded, Hflag; [left; reflexivity | exact Fa]. }
    pose proof (Hlp a (tl c) (or_introl eq_refl) Fa) as C.
    destruct (lp_res (lp a false (tl c) 1 true)) eqn:R.
    + discriminate E.
    + set (o := lp a false (tl c) 1 true) in *.
      assert (Hd : 0 < lp_den o).
      { unfold lp_contract in C. rewrite R in C. exact (proj1 C). }
      pose proof (scale_step c (lp_den o)) as St. cbn zeta in St.
      match type of E with
      | context [set_c0 ?X _] => set (c1 := X) in *
      end.
      destruct St as (L1 & T1 & _).
      match type of E with
      | context [uset_is_bound_loop _ _ _ _ _ ?X _] => set (c2 := X) in *
      end.
      assert (L2 : length c2 = length c).
      { subst c2. destruct (first || _); [|exact L1].
        rewrite length_set_c0; [exact L1 | rewrite L1; exact Hc]. }
      assert (T2 : tl c2 = map (Z.mul (lp_den o)) (tl c)).
      { subst c2. destruct (first || _); [rewrite tl_set_c0|]; exact T1. }
      rewrite <- L2 in E.
      destruct (IH _ _ _ _ _ ltac:(rewrite L2; exact Hc) Hlp' Hflag' E)
        as (pre & pj & post & pre' & -> & -> & F2 & Hb & Fl & Rj & Nb).
      exists (a :: pre), pj, post, (a :: pre'). rewrite <- app_assoc.
      split; [reflexivity|]. split; [reflexivity|].
      split; [constructor; [left; reflexivity | exact F2]|].
      split.
      * constructor; [exact (lp_ok_bounded _ _ _ C R)|].
        apply Forall_forall. intros b Hin. rewrite Forall_forall in Hb.
        apply (bounded_below_scale (lp_den o)); [exact Hd|].
        rewrite <- T2. apply Hb, Hin.
      * split; [exact Fl|]. split; [exact Rj|].
        intros B. apply Nb. rewrite T2.
        apply bounded_below_scale_up; assumption.
    + inversion E; subst ms c'; clear E.
      exists [], a, rest, []. cbn [app].
      split; [reflexivity|]. split; [reflexivity|].
      split; [constructor|]. split; [constructor|].
      split; [exact Fa|]. split; [exact R|].
      exact (lp_unbounded_not_bounded _ _ _ C R).
    + assert (E0 : forall x, ~ in_bmap x a).
      { unfold lp_contract in C. rewrite R in C. exact C. }
      destruct (ste a) as [a'|] eqn:S; [|discriminate E].
      destruct (IH _ _ _ _ _ Hc Hlp' Hflag' E)
        as (pre & pj & post & pre' & -> & -> & F2 & Hb & Fl & Rj & Nb).
      exists (a :: pre), pj, post, (a' :: pre'). rewrite <- app_assoc.
      split; [reflexivity|]. split; [reflexivity|].
      split; [constructor; [right; split; [exact E0 | exact S] | exact F2]|].
      split; [|auto].
      constructor; [apply no_points_bounded, E0 | exact Hb].
Qed.

End BoundLoopExit.

(** C5: [uset_is_bound] returns 1 exactly when the objective is bounded
    below on every member, and -1 only when an LP call fails.  It returns
    0 as soon as the LP is unbounded on a member: at the first member on
    which the objective is not bounded below the answer is 0 and the
    members after it are left as they were, whatever they are (also when
    an LP call on one of them would fail); and an answer 0 is only given
    in this way.  The members whose LP is empty are marked empty and
    skipped; and on success the row is a positive multiple of the given
    one in its coefficients, with the constant the negated minimum of the
    scaled objective over the set: the row is valid on the set and tight
    when the set has a point. *)
Theorem uset_is_bound_spec :
  forall lp ste (set : isl_set) (c : row),
    (1 <= length c)%nat ->
    (forall b f, In b (p set) -> ISL_F_ISSET b ISL_BASIC_SET_EMPTY = false ->
                 lp_contract b f (lp b false f 1 true)) ->
    (forall b, In b (p set) -> ISL_F_ISSET b ISL_BASIC_SET_EMPTY = true ->
               forall x, ~ in_bmap x b) ->
    (forall b b', ste b = Some b' ->
       ISL_F_ISSET b' ISL_BASIC_SET_EMPTY = true /\ forall x, ~ in_bmap x b') ->
    let r := uset_is_bound lp ste set c (length c) in
    (ib_ret r = 1 \/ ib_ret r = 0 \/ ib_ret r = -1) /\
    (ib_ret r = -1 -> Exists (lp_failure lp ste) (p set)) /\
    (ib_ret r <> -1 ->
       (ib_ret r = 1 <-> Forall (bounded_below (tl c)) (p set))) /\
    (ib_ret r = 0 -> Exists (fun b => ~ bounded_below (tl c) b) (p set)) /\
    Forall2 (marked_or_same ste) (p set) (p (ib_set r)) /\
    (ib_ret r = 1 ->
       Forall (fun b' => (forall x, ~ in_bmap x b') ->
                         ISL_F_ISSET b' ISL_BASIC_SET_EMPTY = true)
              (p (ib_set r))) /\
    (ib_ret r = 1 ->
       exists k, 0 < k /\ length (ib_c r) = length c /\
         tl (ib_c r) = map (Z.mul k) (tl c) /\
         (forall x, in_set x set -> sat_ineq (ib_c r) x) /\
         ((exists x, in_set x set) ->
          exists x, in_set x set /\ eval (ib_c r) x = 0)) /\
    (forall pre pj post,
       p set = pre ++ pj :: post ->
       Forall (fun b => ~ lp_failure lp ste b) (pre ++ [pj]) ->
       Forall (bounded_below (tl c)) pre ->
       ~ bounded_below (tl c) pj ->
       ib_ret r = 0 /\
       exists pre', Forall2 (marked_or_same ste) pre pre' /\
                    p (ib_set r) = pre' ++ pj :: post) /\
    (ib_ret r = 0 ->
       exists pre pj post pre',
         p set = pre ++ pj :: post /\
         Forall (bounded_below (tl c)) pre /\
         ~ bounded_below (tl c) pj /\
         Forall2 (marked_or_same ste) pre pre' /\
         p (ib_set r) = pre' ++ pj :: post).
Proof.
  intros lp ste set c Hc Hlp Hflag Hste r.
  pose proof (uset_is_bound_correct lp ste set c Hc Hlp Hflag Hste) as K.
  cbn zeta in K. fold r in K.
  destruct K as (K1 & K2 & K3 & K4 & K5 & K6 & K7).
  do 7 (split; [assumption|]). split.
  - intros pre pj post Hp Hnf Hb Nb.
    assert (Fl : ISL_F_ISSET pj ISL_BASIC_SET_EMPTY = false).
    { destruct (ISL_F_ISSET pj ISL_BASIC_SET_EMPTY) eqn:F; [|reflexivity].
      destruct Nb. apply no_points_bounded, Hflag; [|exact F].
      rewrite Hp. apply in_elt. }
    assert (Hlp' : forall b f, In b (pre ++ [pj]) ->
              ISL_F_ISSET b ISL_BASIC_SET_EMPTY = false ->
              lp_contract b f (lp b false f 1 true)).
    { intros b f Hin. apply Hlp. rewrite Hp. apply in_app_or in Hin.
      apply in_or_app. destruct Hin as [Hin|[<-|[]]];
        [left; exact Hin | right; left; reflexivity]. }
    destruct (uset_is_bound_loop_exit lp ste pre [] true c pj post
                Hc Hlp' Hnf Hb Fl Nb) as (pre' & c' & E & F2).
    subst r. unfold uset_is_bound. rewrite Hp, E.
    cbn [ib_ret ib_set p app]. split; [reflexivity|].
    exists pre'. split; [exact F2 | reflexivity].
  - intros R0. subst r. unfold uset_is_bound in *.
    destruct (uset_is_bound_loop lp ste [] (p set) true c (length c))
      as [ms c'|ms c'|ms c'] eqn:E; cbn [ib_ret] in R0; try discriminate R0.
    destruct (uset_is_bound_loop_break lp ste (p set) [] true c ms c'
                Hc Hlp Hflag E)
      as (pre & pj & post & pre' & Hp & Hm & F2 & Hb & _ & _ & Nb).
    exists pre, pj, post, pre'. cbn [ib_set p].
    repeat split; assumption.
Qed.

Lemma dot_zeros (n : nat) (v : row) : dot (zeros n) v = 0.
Proof.
  revert v; induction n as [|n IH]; intros [|a v]; cbn [zeros repeat dot];
    try reflexivity.
  fold (zeros n). rewrite IH. lia.
Qed.

(** The basic set that [set_to_empty] builds is flagged and has no point. *)
Lemma set_to_empty_marks :
  forall b b', set_to_empty b = Some b' ->
    ISL_F_ISSET b' ISL_BASIC_SET_EMPTY = true /\ forall x, ~ in_bmap x b'.
Proof.
  intros b b' E. inversion E; subst; clear E. split.
  - unfold ISL_F_ISSET. cbn [flags]. apply negb_true_iff, Z.eqb_neq.
    rewrite Z.land_lor_distr_l, Z.land_diag. intros E.
    apply Z.lor_eq_0_iff in E. destruct E as [_ E]. discriminate E.
  - intros x (Px & He & _). cbn [eq] in He.
    inversion He as [|? ? H0 _]; subst.
    unfold sat_eq, eval in H0. cbn [tl] in H0. rewrite dot_zeros in H0.
    unfold at_ in H0. cbn [nth] in H0. lia.
Defined.

(** [lp_interval] meets the contract of the LP solver on the two
    intervals, for every objective. *)
Lemma lp_interval_contract :
  forall b f, In b (p two_intervals) ->
    ISL_F_ISSET b ISL_BASIC_SET_EMPTY = false ->
    lp_contract b f (lp_interval b false f 1 true).
Proof.
  intros b f [<-|[<-|[]]] _; destruct f as [|f1 [|f2 f]]; try exact I;
    unfold lp_contract, lp_interval;
    cbn [eq ineq interval_1_3 interval_2_5 Z.add Z.ltb Z.compare Z.opp
         Pos.compare Pos.compare_cont lp_res lp_num lp_den Z.pos_sub
         Pos.pred_double Z.succ_double Z.pred_double Z.double];
    (split; [lia|]); split.
  - intros x (Px & _ & Hi).
    inversion Hi as [|? ? I1 Hi1]; subst; clear Hi.
    inversion Hi1 as [|? ? I2 _]; subst; clear Hi1.
    eval_rows. destruct (pv x) as [|v w]; eval_rows;
      destruct (Z.leb_spec 0 f1); nia.
  - destruct (Z.leb_spec 0 f1).
    + exists (mk_point 1 [1]). split; [|eval_rows; lia].
      split; [reflexivity|]. split; repeat constructor; eval_rows; lia.
    + exists (mk_point 1 [3]). split; [|eval_rows; lia].
      split; [reflexivity|]. split; repeat constructor; eval_rows; lia.
  - intros x (Px & _ & Hi).
    inversion Hi as [|? ? I1 Hi1]; subst; clear Hi.
    inversion Hi1 as [|? ? I2 _]; subst; clear Hi1.
    eval_rows. destruct (pv x) as [|v w]; eval_rows;
      destruct (Z.leb_spec 0 f1); nia.
  - destruct (Z.leb_spec 0 f1).
    + exists (mk_point 1 [2]). split; [|eval_rows; lia].
      split; [reflexivity|]. split; repeat constructor; eval_rows; lia.
    + exists (mk_point 1 [5]). split; [|eval_rows; lia].
      split; [reflexivity|]. split; repeat constructor; eval_rows; lia.
Defined.

(** A row of zeros has product 0 with every row; a row with a coefficient
    that is not 0 has products as small as one likes. *)
Lemma dot_all_zero (g w : row) :
  forallb (Z.eqb 0) g = true -> dot g w = 0.
Proof.
  revert w. induction g as [|a g IH]; intros [|b w] H; try reflexivity.
  cbn [forallb] in H. apply andb_true_iff in H. destruct H as (Ha & Hg).
  apply Z.eqb_eq in Ha. subst a. cbn [dot]. rewrite (IH w Hg). lia.
Defined.

Lemma dot_some_nonzero (g : row) :
  forallb (Z.eqb 0) g = false -> forall m, exists w, dot g w < m.
Proof.
  induction g as [|a g IH]; intros H m; [discriminate H|].
  cbn [forallb] in H. destruct (Z.eqb_spec 0 a) as [<-|Na].
  - cbn [andb] in H. destruct (IH H m) as (w & Hw).
    exists (0 :: w). cbn [dot]. lia.
  - exists [- Z.sgn a * (Z.abs m + 1)]. cbn [dot].
    assert (dot g [] = 0) as -> by (destruct g; reflexivity).
    pose proof (Z.sgn_abs a). pose proof (Z.abs_pos a).
    assert (a * (- Z.sgn a * (Z.abs m + 1)) = - (Z.abs a * (Z.abs m + 1)))
      by nia.
    nia.
Defined.

(** [lp_half_line] meets the contract of the LP solver on the half line
    followed by the whole line, for every objective. *)
Lemma lp_half_line_contract :
  forall b f, In b (p half_line_then_whole) ->
    ISL_F_ISSET b ISL_BASIC_SET_EMPTY = false ->
    lp_contract b f (lp_half_line b false f 1 true).
Proof.
  intros b f [<-|[<-|[]]] _; [|exact I].
  unfold lp_contract, lp_half_line. cbn [eq ineq half_line].
  destruct ((0 <? hd 0 f) || negb (forallb (Z.eqb 0) (tl f))) eqn:U;
    cbn [lp_res lp_num lp_den].
  - intros m. apply orb_true_iff in U. destruct U as [U|U].
    + destruct f as [|f1 g]; [discriminate U|]. cbn [hd] in U.
      apply Z.ltb_lt in U.
      exists (mk_point 1 [Z.min m 0 - 1]). split.
      * split; [reflexivity|]. split; repeat (once constructor).
        eval_rows. lia.
      * cbn [pd pv dot].
        assert (dot g [] = 0) as -> by (destruct g; reflexivity). nia.
    + apply negb_true_iff in U.
      destruct f as [|f1 g]; [discriminate U|]. cbn [tl] in U.
      destruct (dot_some_nonzero g U m) as (w & Hw).
      exists (mk_point 1 (0 :: w)). split.
      * split; [reflexivity|]. split; repeat (once constructor).
        eval_rows. lia.
      * cbn [pd pv dot]. lia.
  - apply orb_false_iff in U. destruct U as (U1 & U2).
    apply negb_false_iff in U2. apply Z.ltb_ge in U1.
    split; [lia|]. split.
    + intros x (Px & _ & Hi).
      inversion Hi as [|? ? I1 _]; subst; clear Hi.
      unfold sat_ineq, eval in I1. cbn [tl] in I1.
      destruct f as [|f1 g]; [cbn [dot]; lia|].
      cbn [hd tl] in U1, U2.
      destruct (pv x) as [|v w]; [cbn [dot]; lia|].
      cbn [dot] in *. rewrite (dot_all_zero g w U2).
      unfold at_ in I1. cbn [nth] in I1. nia.
    + exists (mk_point 1 [0]). split.
      * split; [reflexivity|]. split; repeat (once constructor).
        eval_rows. lia.
      * cbn [pd pv]. destruct f as [|f1 g]; [reflexivity|].
        cbn [dot]. assert (dot g [] = 0) as -> by (destruct g; reflexivity).
        lia.
Defined.

Lemma uset_is_bound_spec_witness :
  (ib_ret (uset_is_bound lp_interval set_to_empty two_intervals [0; 1] 2) = 1 /\
   ib_c (uset_is_bound lp_interval set_to_empty two_intervals [0; 1] 2)
     = [-1; 1] /\
   forall x, in_set x two_intervals ->
     sat_ineq (ib_c (uset_is_bound lp_interval set_to_empty two_intervals
                       [0; 1] 2)) x) /\
  (ib_ret (uset_is_bound lp_half_line set_to_empty half_line_then_whole
             [0; 1] 2) = 0 /\
   p (ib_set (uset_is_bound lp_half_line set_to_empty half_line_then_whole
                [0; 1] 2)) = [half_line; whole_line]).
Proof.
  assert (Hc : (1 <= length [0; 1])%nat) by (cbn [length]; lia).
  split.
  - split; [reflexivity|]. split; [reflexivity|].
    assert (Hflag : forall b, In b (p two_intervals) ->
              ISL_F_ISSET b ISL_BASIC_SET_EMPTY = true ->
              forall x, ~ in_bmap x b).
    { intros b [<-|[<-|[]]] F; discriminate F. }
    destruct (uset_is_bound_spec lp_interval set_to_empty two_intervals [0; 1]
                Hc lp_interval_contract Hflag set_to_empty_marks)
      as (_ & _ & _ & _ & _ & _ & S & _).
    destruct (S eq_refl) as (k & _ & _ & _ & V & _). exact V.
  - assert (Hflag : forall b, In b (p half_line_then_whole) ->
              ISL_F_ISSET b ISL_BASIC_SET_EMPTY = true ->
              forall x, ~ in_bmap x b).
    { intros b [<-|[<-|[]]] F; discriminate F. }
    destruct (uset_is_bound_spec lp_half_line set_to_empty
                half_line_then_whole [0; 1]
                Hc lp_half_line_contract Hflag set_to_empty_marks)
      as (_ & _ & _ & _ & _ & _ & _ & X & _).
    destruct (X [] half_line [whole_line] eq_refl) as (R0 & pre' & F2 & Hm).
    + constructor; [|constructor].
      intros (f & [E|[E _]]); unfold lp_half_line in E;
        cbn [eq ineq half_line] in E;
        destruct ((0 <? hd 0 f) || negb (forallb (Z.eqb 0) (tl f)));
        discriminate E.
    + constructor.
    + apply (lp_unbounded_not_bounded half_line [1]
               (lp_half_line half_line false [1] 1 true));
        [|reflexivity].
      apply lp_half_line_contract; [left; reflexivity | reflexivity].
    + split; [exact R0|]. inversion F2; subst. exact Hm.
Defined.

(** ** The rows of the simple hull *)

Lemma length_cpy_zeros (src : row) (len : nat) :
  length (isl_seq_cpy (zeros len) src len) = len.
Proof.
  unfold isl_seq_cpy. rewrite length_overwrite, length_map, length_seq.
  unfold zeros. rewrite repeat_length. lia.
Qed.

Lemma same_members_exists lp (ms ms' : list isl_basic_set) (x : point) :
  same_members lp ms ms' ->
  (Exists (in_bmap x) ms <-> Exists (in_bmap x) ms').
Proof.
  unfold same_members. induction 1 as [|b b' ms ms' (Hp & _) _ IH].
  - split; intros H; inversion H.
  - rewrite !Exists_cons, IH, (Hp x). reflexivity.
Qed.

Lemma same_members_In_r lp (ms ms' : list isl_basic_set) (b' : isl_basic_set) :
  same_members lp ms ms' -> In b' ms' ->
  (exists b, In b ms /\ forall x, in_bmap x b <-> in_bmap x b') /\
  (forall f, ISL_F_ISSET b' ISL_BASIC_SET_EMPTY = false ->
             lp_contract b' f (lp b' false f 1 true)) /\
  (ISL_F_ISSET b' ISL_BASIC_SET_EMPTY = true -> forall x, ~ in_bmap x b').
Proof.
  unfold same_members. induction 1 as [|b0 b1 ms ms' (Hp & Hc & Hf) _ IH];
    intros Hin; [destruct Hin|].
  destruct Hin as [<-|Hin].
  - split; [exists b0; split; [left; reflexivity | exact Hp] | auto].
  - destruct (IH Hin) as ((b & Hb & Hpb) & C & N).
    split; [exists b; split; [right; exact Hb | exact Hpb] | auto].
Qed.

Section SimpleHullRows.

Variable lp : isl_basic_map -> bool -> row -> Z -> bool -> lp_out.
Variable ste : isl_basic_set -> option isl_basic_set.
Hypothesis ste_marks :
  forall b b', ste b = Some b' ->
    ISL_F_ISSET b' ISL_BASIC_SET_EMPTY = true /\ forall x, ~ in_bmap x b'.

(** Marking members empty keeps the points of the members. *)
Lemma same_members_marked (ms ms' ms'' : list isl_basic_set) :
  same_members lp ms ms' ->
  Forall2 (marked_or_same ste) ms' ms'' ->
  same_members lp ms ms''.
Proof.
  unfold same_members. intros H. revert ms''.
  induction H as [|b b' ms ms' (Hp & Hc & Hf) _ IH]; intros ms'' M;
    inversion M as [|? b'' ? ms2 Mb M']; subst; constructor;
    [|apply IH; exact M'].
  destruct Mb as [->|(E & S)]; [auto|].
  destruct (ste_marks b' b'' S) as (Fl & N).
  split; [|split].
  - intros x. rewrite (Hp x). split; intros K; [destruct (E x K) | destruct (N x K)].
  - intros f Fl'. rewrite Fl in Fl'. discriminate Fl'.
  - intros _. exact N.
Qed.

Lemma simple_hull_ineq_inv (ms : list isl_basic_set) dim i j st st' :
  simple_hull_ineq lp ste dim i j st = Some st' ->
  simple_inv lp ms st -> simple_inv lp ms st'.
Proof.
  unfold simple_hull_ineq. intros E (Sm & Rows).
  set (c := isl_seq_cpy (zeros (1 + dim))
              (nth j (ineq (nth i (p (sh_set st)) (mk_bmap dim [] [] 0))) [])
              (1 + dim)) in *.
  assert (Lc : length c = (1 + dim)%nat) by apply length_cpy_zeros.
  assert (Hc : (1 <= length c)%nat) by lia.
  assert (Hlp : forall b f, In b (p (sh_set st)) ->
            ISL_F_ISSET b ISL_BASIC_SET_EMPTY = false ->
            lp_contract b f (lp b false f 1 true)).
  { intros b f Hb Fl.
    destruct (same_members_In_r lp _ _ b Sm Hb) as (_ & C & _). exact (C f Fl). }
  assert (Hfl : forall b, In b (p (sh_set st)) ->
            ISL_F_ISSET b ISL_BASIC_SET_EMPTY = true -> forall x, ~ in_bmap x b).
  { intros b Hb Fl.
    destruct (same_members_In_r lp _ _ b Sm Hb) as (_ & _ & N). exact (N Fl). }
  pose proof (uset_is_bound_correct lp ste (sh_set st) c Hc Hlp Hfl ste_marks)
    as K. cbn zeta in K. rewrite Lc in K.
  destruct K as (T & _ & _ & _ & F2 & _ & V).
  pose proof (same_members_marked _ _ _ Sm F2) as Sm'.
  destruct T as [R|[R|R]]; rewrite R in E; cbn in E;
    inversion E; subst; clear E; split; cbn [sh_set sh_rows];
    try exact Sm'; try exact Rows.
  apply Forall_app. split; [exact Rows|]. constructor; [|constructor].
  intros x Hx. destruct (V R) as (k & _ & _ & _ & Val & _).
  apply Val. unfold in_set. apply (same_members_exists lp _ _ x Sm), Hx.
Qed.

Lemma simple_hull_member_inv (ms : list isl_basic_set) dim i todo :
  forall j st st',
    simple_hull_member lp ste dim i todo j st = Some st' ->
    simple_inv lp ms st -> simple_inv lp ms st'.
Proof.
  induction todo as [|todo IH]; intros j st st' E Inv; cbn [simple_hull_member] in E.
  - inversion E; subst; exact Inv.
  - destruct (Nat.ltb _ _); [|inversion E; subst; exact Inv].
    destruct (simple_hull_ineq lp ste dim i j st) as [st1|] eqn:E1;
      [|discriminate].
    apply (IH _ _ _ E). exact (simple_hull_ineq_inv ms _ _ _ _ _ E1 Inv).
Qed.

Lemma simple_hull_members_inv (ms : list isl_basic_set) dim todo :
  forall i st st',
    simple_hull_members lp ste dim todo i st = Some st' ->
    simple_inv lp ms st -> simple_inv lp ms st'.
Proof.
  induction todo as [|todo IH]; intros i st st' E Inv;
    cbn [simple_hull_members] in E.
  - inversion E; subst; exact Inv.
  - destruct (simple_hull_member lp ste dim i _ 0 st) as [st1|] eqn:E1;
      [|discriminate].
    apply (IH _ _ _ E). exact (simple_hull_member_inv ms _ _ _ _ _ _ E1 Inv).
Qed.

(** Every inequality that the loops of [isl_map_simple_hull] add to the
    hull holds on the set: the candidate polyhedron, before it is
    simplified, contains the set. *)
Lemma simple_hull_rows_valid (set : isl_set) (dim : nat) (st : simple_state) :
  (forall b f, In b (p set) -> ISL_F_ISSET b ISL_BASIC_SET_EMPTY = false ->
               lp_contract b f (lp b false f 1 true)) ->
  (forall b, In b (p set) -> ISL_F_ISSET b ISL_BASIC_SET_EMPTY = true ->
             forall x, ~ in_bmap x b) ->
  simple_hull_members lp ste dim (length (p set)) 0 (mk_simple set []) = Some st ->
  forall r x, In r (sh_rows st) -> in_set x set -> sat_ineq r x.
Proof.
  intros Hlp Hfl E r x Hr Hx.
  assert (Inv : simple_inv lp (p set) (mk_simple set [])).
  { split; [|constructor]. cbn [sh_set]. unfold same_members.
    clear E. induction (p set) as [|b ms IH]; constructor.
    - split; [reflexivity|]. split.
      + intros f Fl. apply Hlp; [left; reflexivity | exact Fl].
      + apply Hfl. left; reflexivity.
    - apply IH; intros; [apply Hlp | apply Hfl]; try right; assumption. }
  destruct (simple_hull_members_inv _ _ _ _ _ _ E Inv) as (_ & Rows).
  rewrite Forall_forall in Rows. exact (Rows r Hr x Hx).
Qed.

End SimpleHullRows.

(** * Further properties *)

(** ** Inner products of rows built from blocks *)

Lemma dot_nil_r (f : row) : dot f [] = 0.
Proof. destruct f; reflexivity. Qed.

Lemma dot_zeros_r (f : row) (n : nat) : dot f (zeros n) = 0.
Proof.
  revert n; induction f as [|a f IH]; intros [|n]; cbn [zeros repeat dot];
    try reflexivity.
  fold (zeros n). rewrite IH. lia.
Qed.

Lemma dot_app (f g u v : row) :
  length f = length u -> dot (f ++ g) (u ++ v) = dot f u + dot g v.
Proof.
  revert u; induction f as [|a f IH]; intros [|b u] H; try discriminate H.
  - reflexivity.
  - cbn [app dot]. rewrite IH by (simpl in H; lia). lia.
Qed.

Lemma zeros_add (m n : nat) : zeros (m + n) = zeros m ++ zeros n.
Proof. unfold zeros. apply repeat_app. Qed.

Lemma length_zeros (n : nat) : length (zeros n) = n.
Proof. apply repeat_length. Qed.

Lemma eval_hom (c : row) (x : point) : eval c x = dot c (hom x).
Proof.
  unfold eval, hom, at_. destruct c as [|c0 c]; cbn [nth tl dot]; lia.
Qed.

(** A row that is zero outside the block [j], against a vector made of
    blocks: only the block [j] of the vector counts. *)
Lemma dot_block (dim : nat) (c : row) (m : nat) :
  forall (j : nat) (blocks : list row),
    length c = dim ->
    Forall (fun b => length b = dim) blocks ->
    (j < length blocks)%nat ->
    dot (zeros (dim * j) ++ c ++ zeros m) (concat blocks)
    = dot c (nth j blocks []).
Proof.
  induction j as [|j IH]; intros blocks Hc Hb Hj;
    (destruct blocks as [|b0 bs]; [simpl in Hj; lia|]);
    apply Forall_cons_iff in Hb; destruct Hb as [Hb0 Hbs].
  - rewrite Nat.mul_0_r. cbn [zeros repeat app concat nth].
    rewrite dot_app by congruence. rewrite dot_zeros. lia.
  - replace (dim * S j)%nat with (dim + dim * j)%nat by lia.
    rewrite zeros_add, <- app_assoc. cbn [concat nth].
    rewrite dot_app by (rewrite length_zeros; congruence).
    rewrite dot_zeros, IH; [lia | assumption | assumption | simpl in Hj; lia].
Qed.

Lemma cpy_same (c : row) (len : nat) :
  length c = len -> isl_seq_cpy (zeros len) c len = c.
Proof.
  intros <-. unfold isl_seq_cpy, overwrite.
  rewrite length_map, length_seq, skipn_all2 by (rewrite length_zeros; lia).
  rewrite app_nil_r. apply map_at_seq.
Qed.

Lemma firstn_zeros (i n : nat) : firstn i (zeros (i + n)) = zeros i.
Proof. induction i as [|i IH]; [reflexivity|]. cbn. f_equal. exact IH. Qed.

Lemma skipn_zeros (i n : nat) : skipn i (zeros (i + n)) = zeros n.
Proof. induction i as [|i IH]; [reflexivity|]. cbn. exact IH. Qed.

Lemma set_at_zeros (len i : nat) (v : Z) :
  (i < len)%nat -> set_at (zeros len) i v = zeros i ++ v :: zeros (len - i - 1).
Proof.
  intros H. assert (E : len = (i + S (len - i - 1))%nat) by lia.
  revert E. generalize (len - i - 1)%nat. intros m ->.
  unfold set_at, overwrite. rewrite firstn_zeros, skipn_zeros. reflexivity.
Qed.

(** The blocks of the vector of [wrap_lift]. *)
Lemma lift_blocks_length (dim n i : nat) (x : point) :
  length (hom x) = dim ->
  Forall (fun b => length b = dim)
    (map (fun j => if Nat.eqb j i then hom x else zeros dim) (seq 0 n)).
Proof.
  intros H. apply Forall_forall. intros b Hb. apply in_map_iff in Hb.
  destruct Hb as (j & <- & _). destruct (Nat.eqb j i);
    [exact H | apply length_zeros].
Qed.

Lemma nth_map_seq {A : Type} (f : nat -> A) (n j : nat) (d : A) :
  (j < n)%nat -> nth j (map f (seq 0 n)) d = f j.
Proof.
  intros H. rewrite (nth_indep _ d (f 0%nat))
    by (rewrite length_map, length_seq; exact H).
  rewrite (map_nth f (seq 0 n) 0%nat j), seq_nth by exact H. reflexivity.
Qed.

Lemma lift_blocks_nth (dim n i j : nat) (x : point) :
  (j < n)%nat ->
  nth j (map (fun j => if Nat.eqb j i then hom x else zeros dim) (seq 0 n)) []
  = if Nat.eqb j i then hom x else zeros dim.
Proof.
  intros H.
  exact (nth_map_seq (fun j => if Nat.eqb j i then hom x else zeros dim) n j [] H).
Qed.

(** A row that repeats the block [blk] for every member, against the
    vector of [wrap_lift]: the block is met once, at the member [i]. *)
Lemma dot_repeat_lift (dim i : nat) (blk v : row) :
  length blk = dim -> length v = dim ->
  forall n s,
    dot (concat (repeat blk n))
        (concat (map (fun j => if Nat.eqb j i then v else zeros dim) (seq s n)))
    = if Nat.leb s i && Nat.ltb i (s + n) then dot blk v else 0.
Proof.
  intros Hb Hv. induction n as [|n IH]; intros s.
  - cbn [repeat concat seq map dot].
    destruct (Nat.leb_spec s i), (Nat.ltb_spec i (s + 0)); cbn [andb]; lia.
  - cbn [repeat concat seq map]. rewrite dot_app, IH.
    + destruct (Nat.eqb_spec s i) as [E|Ne]; [|rewrite dot_zeros_r];
        destruct (Nat.leb_spec (S s) i), (Nat.ltb_spec i (S s + n)),
                 (Nat.leb_spec s i), (Nat.ltb_spec i (s + S n));
        cbn [andb]; lia.
    + destruct (Nat.eqb s i); [congruence | rewrite length_zeros; exact Hb].
Qed.

(** The same at the member [i < n], counted from 0. *)
Lemma dot_repeat_lift_at (dim n i : nat) (blk v : row) (u : row) :
  length blk = dim -> length v = dim -> (i < n)%nat ->
  u = concat (map (fun j => if Nat.eqb j i then v else zeros dim) (seq 0 n)) ->
  dot (concat (repeat blk n)) u = dot blk v.
Proof.
  intros Hb Hv Hi ->. rewrite (dot_repeat_lift dim i blk v Hb Hv n 0).
  replace (Nat.leb 0 i && Nat.ltb i (0 + n)) with true; [reflexivity|].
  symmetry. apply andb_true_iff. split; [apply Nat.leb_le | apply Nat.ltb_lt]; lia.
Qed.

(** ** The LP of [wrap_constraints] at a lifted point *)

Section WrapLift.

Variables (dim n i : nat) (x : point).
Hypothesis hom_dim : length (hom x) = dim.
Hypothesis i_lt_n : (i < n)%nat.

Lemma hom_wrap_lift :
  hom (wrap_lift dim n i x) =
  at_ (pv x) 0 ::
  concat (map (fun j => if Nat.eqb j i then hom x else zeros dim) (seq 0 n)).
Proof. reflexivity. Qed.

Lemma eval_wrap_block_row (j : nat) (c : row) :
  (j < n)%nat -> length c = dim ->
  eval (wrap_block_row dim n j c) (wrap_lift dim n i x)
  = if Nat.eqb j i then eval c x else 0.
Proof.
  intros Hj Hc. rewrite eval_hom, hom_wrap_lift. unfold wrap_block_row.
  rewrite (cpy_same c dim Hc).
  change (zeros (1 + dim * j)) with (0 :: zeros (dim * j)).
  cbn [app dot].
  rewrite (dot_block dim c _ j _ Hc (lift_blocks_length dim n i x hom_dim))
    by (rewrite length_map, length_seq; exact Hj).
  rewrite (lift_blocks_nth dim n i j x Hj).
  destruct (Nat.eqb j i); [rewrite eval_hom | rewrite dot_zeros_r]; lia.
Qed.

Lemma eval_wrap_dilation_row (j : nat) :
  (j < n)%nat -> (1 <= dim)%nat ->
  eval (wrap_dilation_row dim n j) (wrap_lift dim n i x)
  = if Nat.eqb j i then pd x else 0.
Proof.
  intros Hj Hd. rewrite eval_hom, hom_wrap_lift. unfold wrap_dilation_row.
  rewrite set_at_zeros by nia.
  replace (1 + dim * n - (1 + dim * j) - 1)%nat
    with ((dim - 1) + dim * (n - j - 1))%nat by nia.
  rewrite (zeros_add (dim - 1) (dim * (n - j - 1))).
  change (zeros (1 + dim * j)) with (0 :: zeros (dim * j)).
  cbn [app dot].
  change (zeros (dim * j) ++ 1 :: zeros (dim - 1) ++ zeros (dim * (n - j - 1)))
    with (zeros (dim * j) ++ (1 :: zeros (dim - 1)) ++ zeros (dim * (n - j - 1))).
  assert (Hc : length (1 :: zeros (dim - 1)) = dim)
    by (cbn [length]; rewrite length_zeros; lia).
  rewrite (dot_block dim _ _ j _ Hc (lift_blocks_length dim n i x hom_dim))
    by (rewrite length_map, length_seq; exact Hj).
  rewrite (lift_blocks_nth dim n i j x Hj).
  destruct (Nat.eqb j i); [|rewrite dot_zeros_r; lia].
  unfold hom. cbn [dot]. rewrite dot_zeros. lia.
Qed.

Lemma eval_wrap_sum_row :
  (2 <= dim)%nat ->
  eval (wrap_sum_row dim n) (wrap_lift dim n i x) = 0.
Proof.
  intros Hd. rewrite eval_hom, hom_wrap_lift. unfold wrap_sum_row.
  cbn [dot].
  assert (Hb : length (0 :: 1 :: zeros (dim - 2)) = dim)
    by (cbn [length]; rewrite length_zeros; lia).
  match goal with
  | |- context [dot ?A ?B] =>
      assert (E : dot A B = dot (0 :: 1 :: zeros (dim - 2)) (hom x))
        by exact (dot_repeat_lift_at dim n i _ (hom x) _ Hb hom_dim i_lt_n eq_refl);
      rewrite E
  end.
  unfold hom, at_. destruct (pv x) as [|v w]; cbn [dot nth];
    rewrite ?dot_zeros; lia.
Qed.

Lemma dot_wrap_objective :
  (3 <= dim)%nat ->
  dot (wrap_objective dim n) (pv (wrap_lift dim n i x)) = at_ (pv x) 1.
Proof.
  intros Hd. unfold wrap_objective, wrap_lift. cbn [pv].
  assert (Hb : length (0 :: 0 :: 1 :: zeros (dim - 3)) = dim)
    by (cbn [length]; rewrite length_zeros; lia).
  match goal with
  | |- context [dot ?A ?B] =>
      assert (E : dot A B = dot (0 :: 0 :: 1 :: zeros (dim - 3)) (hom x))
        by exact (dot_repeat_lift_at dim n i _ (hom x) _ Hb hom_dim i_lt_n eq_refl);
      rewrite E
  end.
  unfold hom, at_. destruct (pv x) as [|v [|v2 w]]; cbn [dot nth];
    rewrite ?dot_zeros; lia.
Qed.

End WrapLift.

Section WrapFeasible.

Variables (dim n i : nat) (x : point).
Hypothesis hom_dim : length (hom x) = dim.
Hypothesis i_lt_n : (i < n)%nat.
Hypothesis dim_ge : (1 <= dim)%nat.
Hypothesis pd_pos : 0 < pd x.

(** The constraints that the second loop of [wrap_constraints] writes for
    the members [j], [j+1], ... hold at the lifted point. *)
Lemma wrap_constraints_from_lift (ps : list isl_basic_set) :
  forall j,
    (j + length ps = n)%nat ->
    Forall (fun b => Forall (fun c => length c = dim) (eq b) /\
                     Forall (fun c => length c = dim) (ineq b)) ps ->
    (forall k b, nth_error ps k = Some b -> (j + k = i)%nat -> in_bmap x b) ->
    Forall (fun c => sat_eq c (wrap_lift dim n i x))
           (fst (wrap_constraints_from dim n j ps)) /\
    Forall (fun c => sat_ineq c (wrap_lift dim n i x))
           (snd (wrap_constraints_from dim n j ps)).
Proof.
  induction ps as [|b ps IH]; intros j Hn Hrows Hmem.
  - split; constructor.
  - cbn [length] in Hn. apply Forall_cons_iff in Hrows.
    destruct Hrows as ((Re & Ri) & Hrows).
    destruct (IH (S j) ltac:(lia) Hrows) as (IHe & IHi).
    { intros k b' Hk Hjk. apply (Hmem (S k) b' Hk). lia. }
    cbn [wrap_constraints_from].
    destruct (wrap_constraints_from dim n (S j) ps) as (eqs, ineqs).
    cbn [fst snd] in *.
    assert (Hj : (j < n)%nat) by lia.
    assert (Hb : Nat.eqb j i = true -> in_bmap x b).
    { intros E. apply Nat.eqb_eq in E. apply (Hmem 0%nat b eq_refl). lia. }
    rewrite Forall_forall in Re, Ri. split.
    + apply Forall_app. split; [|exact IHe].
      apply Forall_forall. intros r Hr. apply in_map_iff in Hr.
      destruct Hr as (c & <- & Hc). unfold sat_eq.
      rewrite (eval_wrap_block_row dim n i x hom_dim i_lt_n j c Hj (Re c Hc)).
      destruct (Nat.eqb j i) eqn:E; [|reflexivity].
      destruct (Hb eq_refl) as (_ & He & _). rewrite Forall_forall in He.
      exact (He c Hc).
    + constructor.
      * unfold sat_ineq.
        rewrite (eval_wrap_dilation_row dim n i x hom_dim i_lt_n j Hj dim_ge).
        destruct (Nat.eqb j i); lia.
      * apply Forall_app. split; [|exact IHi].
        apply Forall_forall. intros r Hr. apply in_map_iff in Hr.
        destruct Hr as (c & <- & Hc). unfold sat_ineq.
        rewrite (eval_wrap_block_row dim n i x hom_dim i_lt_n j c Hj (Ri c Hc)).
        destruct (Nat.eqb j i) eqn:E; [|lia].
        destruct (Hb eq_refl) as (_ & _ & Hi). rewrite Forall_forall in Hi.
        exact (Hi c Hc).
Qed.

End WrapFeasible.

(** A point [x] of the member [i] whose first coordinate is positive gives
    a point of the LP of [wrap_constraints]: the member [i] dilated so
    that the first coordinate becomes 1.  The objective of [wrap_facet]
    there is the second coordinate of [x] (over the denominator [x_1]). *)
Lemma wrap_lift_feasible :
  forall (set : isl_set) (i : nat) (b : isl_basic_set) (x : point),
    let dim := (1 + isl_set_n_dim set)%nat in
    let n := length (p set) in
    (2 <= isl_set_n_dim set)%nat ->
    rows_of_dim set ->
    nth_error (p set) i = Some b ->
    in_bmap x b ->
    length (pv x) = isl_set_n_dim set ->
    0 < at_ (pv x) 0 ->
    in_bmap (wrap_lift dim n i x) (wrap_constraints set) /\
    dot (wrap_objective dim n) (pv (wrap_lift dim n i x)) = at_ (pv x) 1.
Proof.
  intros set i b x dim n Hd Hrows Hb Hx Hlen Hpos.
  assert (Hh : length (hom x) = dim) by (unfold hom, dim; cbn [length]; lia).
  assert (Hi : (i < n)%nat) by (apply nth_error_Some; congruence).
  split; [|apply dot_wrap_objective; [exact Hh | exact Hi | unfold dim; lia]].
  destruct (wrap_constraints_from_lift dim n i x Hh Hi ltac:(unfold dim; lia)
              (proj1 Hx) (p set) 0%nat eq_refl Hrows) as (He & Hi').
  { intros k b' Hk E. cbn in E. subst k. rewrite Hb in Hk. inversion Hk; subst.
    exact Hx. }
  unfold wrap_constraints. fold dim. fold n.
  destruct (wrap_constraints_from dim n 0 (p set)) as (eqs, ineqs).
  cbn [fst snd] in *. split; [exact Hpos|]. cbn [eq ineq]. split; [|exact Hi'].
  constructor; [|exact He].
  unfold sat_eq. apply eval_wrap_sum_row; [exact Hh | exact Hi | unfold dim; lia].
Qed.

(** ** Soundness of [wrap_facet] *)

Lemma map_seq_shift {A : Type} (f : nat -> A) (n : nat) :
  map f (seq 1 n) = map (fun i => f (S i)) (seq 0 n).
Proof. rewrite <- seq_shift, map_map. reflexivity. Qed.

Lemma dot_combine_rows (a b : Z) (s1 : row) :
  forall (s2 v : row),
    length s1 = length s2 ->
    dot (map (fun i => a * at_ s1 i + b * at_ s2 i) (seq 0 (length s1))) v
    = a * dot s1 v + b * dot s2 v.
Proof.
  induction s1 as [|c1 s1 IH]; intros [|c2 s2] v H; try discriminate H.
  - cbn [length seq map dot]. lia.
  - cbn [length seq map]. rewrite map_seq_shift.
    destruct v as [|w v]; [rewrite !dot_nil_r; lia|].
    cbn [dot]. unfold at_ at 1 2. cbn [nth].
    change (map (fun i => a * at_ (c1 :: s1) (S i) + b * at_ (c2 :: s2) (S i))
              (seq 0 (length s1)))
      with (map (fun i => a * at_ s1 i + b * at_ s2 i) (seq 0 (length s1))).
    rewrite IH by (simpl in H; lia). lia.
Qed.

Lemma combine_rows (a b : Z) (s1 s2 : row) (len : nat) :
  length s1 = len ->
  isl_seq_combine s1 a s1 b s2 len
  = map (fun i => a * at_ s1 i + b * at_ s2 i) (seq 0 len).
Proof.
  intros H. unfold isl_seq_combine, overwrite.
  rewrite length_map, length_seq, skipn_all2 by lia. apply app_nil_r.
Qed.

(** The value of the row that [isl_seq_combine] writes over [facet]. *)
Lemma eval_combine (a b : Z) (s1 s2 : row) (len : nat) (x : point) :
  length s1 = len -> length s2 = len ->
  eval (isl_seq_combine s1 a s1 b s2 len) x = a * eval s1 x + b * eval s2 x.
Proof.
  intros H1 H2. rewrite (combine_rows a b s1 s2 len H1), !eval_hom. subst len.
  apply dot_combine_rows. congruence.
Qed.

Lemma length_combine (a b : Z) (s1 s2 : row) (len : nat) :
  length s1 = len -> length (isl_seq_combine s1 a s1 b s2 len) = len.
Proof.
  intros H. rewrite (combine_rows a b s1 s2 len H), length_map, length_seq.
  reflexivity.
Qed.

Lemma Exists_nth_error {A : Type} (P : A -> Prop) (l : list A) :
  Exists P l -> exists i b, nth_error l i = Some b /\ P b.
Proof.
  induction 1 as [b l Hb | b l _ (i & b' & Hi & Hb')].
  - exists 0%nat, b. auto.
  - exists (S i), b'. auto.
Qed.

(** The optimum of the LP of [wrap_facet] bounds the ratio of the second
    to the first coordinate on the set: [den * x_2 - num * x_1 >= 0] at
    every point with [x_1 > 0]. *)
Lemma wrap_lp_ratio (set : isl_set) (o : lp_out) (z : point) :
  (2 <= isl_set_n_dim set)%nat ->
  rows_of_dim set ->
  lp_contract (wrap_constraints set)
    (wrap_objective (1 + isl_set_n_dim set) (length (p set))) o ->
  lp_res o = isl_lp_ok ->
  in_set z set -> length (pv z) = isl_set_n_dim set -> 0 < at_ (pv z) 0 ->
  lp_num o * at_ (pv z) 0 <= lp_den o * at_ (pv z) 1.
Proof.
  intros Hd Hrows C R Hz Hlen Hpos.
  destruct (Exists_nth_error _ _ Hz) as (i & b & Hi & Hb).
  destruct (wrap_lift_feasible set i b z Hd Hrows Hi Hb Hlen Hpos) as (F & O).
  unfold lp_contract in C. rewrite R in C. destruct C as (_ & Cmin & _).
  specialize (Cmin _ F). rewrite O in Cmin. exact Cmin.
Qed.

(** [wrap_facet] is sound: from a row [facet] that holds on the set and
    a row [ridge] that holds on the part of the set on the hyperplane of
    [facet], it returns a row that holds on the set. *)
Lemma wrap_facet_valid lp rinv pre (set set' : isl_set) (facet ridge r : row) T :
  (2 <= isl_set_n_dim set)%nat ->
  length facet = (1 + isl_set_n_dim set)%nat ->
  length ridge = (1 + isl_set_n_dim set)%nat ->
  rinv (wrap_matrix (1 + isl_set_n_dim set) facet ridge) = Some T ->
  pre set T = Some set' ->
  wrap_frame set set' facet ridge ->
  lp_contract (wrap_constraints set')
    (wrap_objective (1 + isl_set_n_dim set) (length (p set')))
    (lp (wrap_constraints set') false
        (wrap_objective (1 + isl_set_n_dim set) (length (p set'))) 1 true) ->
  valid_on set facet ->
  ridge_on set facet ridge ->
  wrap_facet lp rinv pre set facet ridge = Some r ->
  valid_on set r.
Proof.
  intros Hd Lf Lr HT Hpre (Fd & Frows & Fz) C Vf Vr W x Hx.
  unfold wrap_facet, wrap_lp in W. rewrite HT, Hpre in W.
  set (o := lp (wrap_constraints set') false
              (wrap_objective (1 + isl_set_n_dim set) (length (p set'))) 1 true)
    in *.
  destruct (lp_res o) eqn:R; try discriminate W.
  - inversion W; subst r; clear W.
    rewrite (eval_combine _ _ facet ridge _ x Lf Lr).
    pose proof (Vf x Hx) as F0.
    assert (Dpos : 0 < lp_den o).
    { unfold lp_contract in C. rewrite R in C. exact (proj1 C). }
    destruct (Z.eq_dec (eval facet x) 0) as [E|NE].
    + rewrite E. pose proof (Vr x Hx E). nia.
    + destruct (Fz x Hx) as (z & Hz & Lz & Z1 & Z2).
      assert (Px : 0 < pd x).
      { apply Exists_exists in Hx. destruct Hx as (b & _ & P & _). exact P. }
      assert (Pz : 0 < pd z).
      { apply Exists_exists in Hz. destruct Hz as (b & _ & P & _). exact P. }
      assert (Z1pos : 0 < at_ (pv z) 0) by nia.
      rewrite <- Fd in C, Hd, Lz.
      pose proof (wrap_lp_ratio set' o z Hd Frows C R Hz Lz Z1pos) as Q.
      assert (lp_num o * at_ (pv z) 0 * pd x <= lp_den o * at_ (pv z) 1 * pd x)
        by (apply Z.mul_le_mono_nonneg_r; lia).
      pose proof (f_equal (Z.mul (lp_num o)) Z1) as N1.
      pose proof (f_equal (Z.mul (lp_den o)) Z2) as N2.
      assert (lp_num o * eval facet x * pd z <= lp_den o * eval ridge x * pd z)
        by lia.
      assert (lp_num o * eval facet x <= lp_den o * eval ridge x)
        by (apply (Z.mul_le_mono_pos_r _ _ (pd z)); assumption).
      lia.
  - inversion W; subst r. exact (Vf x Hx).
Qed.

(** ** Every inequality that [extend] collects holds on the set *)

Lemma wrap_facet_length lp rinv pre (set : isl_set) (facet ridge r : row) :
  length facet = (1 + isl_set_n_dim set)%nat ->
  wrap_facet lp rinv pre set facet ridge = Some r ->
  length r = (1 + isl_set_n_dim set)%nat.
Proof.
  intros L W. unfold wrap_facet in W.
  destruct (wrap_lp lp rinv pre set facet ridge) as [o|]; [|discriminate].
  destruct (lp_res o); inversion W; subst.
  - apply length_combine, L.
  - exact L.
Qed.

Section ExtendValid.

Variable lp : isl_basic_map -> bool -> row -> Z -> bool -> lp_out.
Variable rinv : isl_mat -> option isl_mat.
Variable pre : isl_set -> isl_mat -> option isl_set.
Variable cf : isl_set -> row -> option isl_basic_set.
Variable set : isl_set.
Hypothesis dim_ge : (2 <= isl_set_n_dim set)%nat.
Hypothesis Hwrap : wrap_contract lp rinv pre set.
Hypothesis Hcf : ridges_contract cf set.

Lemma wrap_facet_valid_here (facet ridge r : row) :
  length facet = (1 + isl_set_n_dim set)%nat ->
  length ridge = (1 + isl_set_n_dim set)%nat ->
  valid_on set facet -> ridge_on set facet ridge ->
  wrap_facet lp rinv pre set facet ridge = Some r ->
  valid_on set r.
Proof.
  intros Lf Lr Vf Vr W.
  destruct (rinv (wrap_matrix (1 + isl_set_n_dim set) facet ridge)) as [T|] eqn:HT.
  - destruct (pre set T) as [set'|] eqn:Hp.
    + destruct (Hwrap facet ridge T set' Lf Lr HT Hp) as (Fr & C).
      exact (wrap_facet_valid lp rinv pre set set' facet ridge r T dim_ge Lf Lr
               HT Hp Fr C Vf Vr W).
    + unfold wrap_facet, wrap_lp in W. rewrite HT, Hp in W. discriminate W.
  - unfold wrap_facet, wrap_lp in W. rewrite HT in W. discriminate W.
Qed.

Lemma extend_ridge_valid (i : nat) (h h' : hull_state) (ridge : row) :
  hull_valid set h ->
  (i < length (h_ineq h))%nat ->
  length ridge = (1 + isl_set_n_dim set)%nat ->
  ridge_on set (nth i (h_ineq h) []) ridge ->
  extend_ridge lp rinv pre set i h ridge = Some h' ->
  hull_valid set h'.
Proof.
  intros V Hi Lr Vr E. apply extend_ridge_cases in E.
  destruct E as (cand' & W & [[_ ->] | [_ ->]]); [exact V|].
  unfold hull_valid in *. cbn [h_ineq]. apply Forall_app. split; [exact V|].
  constructor; [|constructor].
  rewrite Forall_forall in V.
  destruct (V _ (nth_In _ [] Hi)) as (Lc & Vc).
  assert (W' : wrap_facet lp rinv pre set (nth i (h_ineq h) []) ridge = Some cand').
  { rewrite <- W. f_equal. symmetry. apply cpy_same, Lc. }
  split; [exact (wrap_facet_length _ _ _ _ _ _ _ Lc W')|].
  exact (wrap_facet_valid_here _ _ _ Lc Lr Vc Vr W').
Qed.

Lemma extend_ridges_valid (i : nat) (ridges : list row) :
  forall h h',
    hull_valid set h ->
    (i < length (h_ineq h))%nat ->
    Forall (fun ridge => length ridge = (1 + isl_set_n_dim set)%nat /\
                         ridge_on set (nth i (h_ineq h) []) ridge) ridges ->
    extend_ridges lp rinv pre set i h ridges = Some h' ->
    hull_valid set h'.
Proof.
  induction ridges as [|r ridges IH]; intros h h' V Hi R E; cbn [extend_ridges] in E.
  - inversion E; subst; exact V.
  - destruct (extend_ridge lp rinv pre set i h r) as [h1|] eqn:E1; [|discriminate].
    apply Forall_cons_iff in R. destruct R as ((Lr & Vr) & R).
    destruct (extend_ridge_keeps_facet _ _ _ _ _ _ _ _ E1 Hi) as (Hi1 & N1 & _).
    apply (IH h1 h'); [| exact Hi1 | rewrite N1; exact R | exact E].
    exact (extend_ridge_valid i h h1 r V Hi Lr Vr E1).
Qed.

Lemma extend_facet_valid (i : nat) (h h' : hull_state) :
  hull_valid set h ->
  (i < length (h_ineq h))%nat ->
  extend_facet lp rinv pre cf set i h = Some h' ->
  hull_valid set h'.
Proof.
  intros V Hi E. unfold extend_facet in E.
  destruct (cf set (nth i (h_ineq h) [])) as [facet|] eqn:F; [|discriminate].
  pose proof V as V'. unfold hull_valid in V'. rewrite Forall_forall in V'.
  destruct (V' _ (nth_In _ [] Hi)) as (Lc & Vc).
  pose proof (Hcf _ _ Lc Vc F) as R.
  destruct (Nat.ltb (h_room h) (n_ineq facet + length (h_ineq h)));
    refine (extend_ridges_valid i (ineq facet) _ h' _ _ _ E);
    [exact V | exact Hi | exact R | exact V | exact Hi | exact R].
Qed.

Lemma extend_walk_valid_from (steps : nat) :
  forall i h h',
    hull_valid set h ->
    walk_hull (extend_walk lp rinv pre cf set steps i h) = Some h' ->
    hull_valid set h'.
Proof.
  induction steps as [|steps IH]; intros i h h' V E; cbn [extend_walk] in E.
  - destruct (Nat.leb _ _); cbn in E; inversion E; subst; exact V.
  - destruct (Nat.leb_spec (length (h_ineq h)) i) as [Ge|Lt];
      [cbn in E; inversion E; subst; exact V|].
    destruct (extend_facet lp rinv pre cf set i h) as [h1|] eqn:E1;
      [|discriminate].
    apply (IH (S i) h1 h'); [|exact E].
    exact (extend_facet_valid i h h1 V Lt E1).
Qed.

End ExtendValid.

(** X10: every inequality that the walk of [extend] has collected holds on
    the set, at every point of the walk, when the initial row does, the
    ridges returned by [compute_facet] hold on their facets, and the
    transformed set and the LP solver meet their contracts. *)
Theorem extend_collects_valid_rows :
  forall lp rinv pre cf (set : isl_set) (initial : isl_mat) (steps : nat)
         (h : hull_state),
    (2 <= isl_set_n_dim set)%nat ->
    wrap_contract lp rinv pre set ->
    ridges_contract cf set ->
    length (nth 0 initial []) = (1 + isl_set_n_dim set)%nat ->
    valid_on set (nth 0 initial []) ->
    walk_hull (extend_walk lp rinv pre cf set steps 0 (extend_init set initial))
      = Some h ->
    forall r x, In r (h_ineq h) -> in_set x set -> 0 <= eval r x.
Proof.
  intros lp rinv pre cf set initial steps h Hd Hw Hc L V E r x Hr Hx.
  assert (V0 : hull_valid set (extend_init set initial)).
  { unfold hull_valid, extend_init. cbn [h_ineq].
    rewrite (cpy_same _ _ L). constructor; [split; assumption | constructor]. }
  pose proof (extend_walk_valid_from lp rinv pre cf set Hd Hw Hc steps 0 _ h V0 E)
    as Vh.
  unfold hull_valid in Vh. rewrite Forall_forall in Vh.
  exact (proj2 (Vh r Hr) x Hx).
Qed.

(** X8: [wrap_facet] is sound.  Given a row [facet] that holds on the set
    and a row [ridge] that holds on the part of the set on the hyperplane
    of [facet], the row it returns holds on the whole set. *)
Theorem wrap_facet_sound :
  forall lp rinv pre (set set' : isl_set) (facet ridge r : row) (T : isl_mat),
    (2 <= isl_set_n_dim set)%nat ->
    length facet = (1 + isl_set_n_dim set)%nat ->
    length ridge = (1 + isl_set_n_dim set)%nat ->
    rinv (wrap_matrix (1 + isl_set_n_dim set) facet ridge) = Some T ->
    pre set T = Some set' ->
    wrap_frame set set' facet ridge ->
    lp_contract (wrap_constraints set')
      (wrap_objective (1 + isl_set_n_dim set) (length (p set')))
      (lp (wrap_constraints set') false
          (wrap_objective (1 + isl_set_n_dim set) (length (p set'))) 1 true) ->
    valid_on set facet ->
    ridge_on set facet ridge ->
    wrap_facet lp rinv pre set facet ridge = Some r ->
    valid_on set r.
Proof. exact wrap_facet_valid. Qed.

(** X7: a point of a member with a positive first coordinate gives a
    feasible point of the LP of [wrap_constraints], the member dilated so
    that the first coordinate becomes 1; the objective of [wrap_facet]
    there is the second coordinate of the point. *)
Theorem wrap_constraints_lift :
  forall (set : isl_set) (i : nat) (b : isl_basic_set) (x : point),
    let dim := (1 + isl_set_n_dim set)%nat in
    let n := length (p set) in
    (2 <= isl_set_n_dim set)%nat ->
    rows_of_dim set ->
    nth_error (p set) i = Some b ->
    in_bmap x b ->
    length (pv x) = isl_set_n_dim set ->
    0 < at_ (pv x) 0 ->
    in_bmap (wrap_lift dim n i x) (wrap_constraints set) /\
    dot (wrap_objective dim n) (pv (wrap_lift dim n i x)) = at_ (pv x) 1.
Proof. exact wrap_lift_feasible. Qed.

(** *** The triangle as an instance *)

Lemma triangle_rows_of_dim : rows_of_dim triangle_set.
Proof. repeat constructor. Defined.

Lemma triangle_in_set (x : point) :
  in_set x triangle_set <->
  0 < pd x /\ 0 <= at_ (pv x) 0 /\ at_ (pv x) 1 <= pd x /\
  at_ (pv x) 0 <= at_ (pv x) 1.
Proof.
  unfold in_set, triangle_set, triangle. cbn [p]. split.
  - intros H. inversion H as [? ? Hb|? ? Hb]; subst; [|inversion Hb].
    destruct Hb as (P & _ & Hi). cbn [ineq] in Hi.
    inversion Hi as [|? ? I1 Hi1]; subst; clear Hi.
    inversion Hi1 as [|? ? I2 Hi2]; subst; clear Hi1.
    inversion Hi2 as [|? ? I3 _]; subst; clear Hi2.
    eval_rows. destruct (pv x) as [|v [|w u]]; eval_rows; lia.
  - intros (P & A & B & C). constructor. split; [exact P|].
    split; [constructor|]. cbn [ineq].
    repeat constructor; eval_rows;
      destruct (pv x) as [|v [|w u]]; eval_rows; lia.
Defined.

Lemma triangle_frame : wrap_frame triangle_set triangle_set facet_x ridge_y.
Proof.
  split; [reflexivity|]. split; [exact triangle_rows_of_dim|].
  intros x Hx. apply triangle_in_set in Hx. destruct Hx as (P & A & B & C).
  exists (mk_point (pd x) [at_ (pv x) 0; at_ (pv x) 1]).
  split; [apply triangle_in_set; unfold at_ in *; cbn [pd pv nth]; lia|].
  split; [reflexivity|].
  unfold facet_x, ridge_y. eval_rows.
  destruct (pv x) as [|v [|w u]]; eval_rows; split; lia.
Defined.

Lemma triangle_facet_valid : valid_on triangle_set facet_x.
Proof.
  intros x Hx. apply triangle_in_set in Hx. destruct Hx as (P & A & B & C).
  unfold facet_x. eval_rows. destruct (pv x) as [|v [|w u]]; eval_rows; lia.
Defined.

Lemma triangle_ridge_on : ridge_on triangle_set facet_x ridge_y.
Proof.
  intros x Hx E. apply triangle_in_set in Hx. destruct Hx as (P & A & B & C).
  unfold facet_x, ridge_y in *. eval_rows.
  destruct (pv x) as [|v [|w u]]; eval_rows; lia.
Defined.

Lemma wrap_lp_triangle_contract :
  lp_contract (wrap_constraints triangle_set) (wrap_objective 3 1)
    (mk_lp_out isl_lp_ok 1 1).
Proof.
  replace (wrap_constraints triangle_set)
    with (mk_bmap 3 [[-1; 0; 1; 0]]
            [[0; 1; 0; 0]; [0; 0; 1; 0]; [0; 1; 0; -1]; [0; 0; -1; 1]] 0)
    by reflexivity.
  replace (wrap_objective 3 1) with [0; 0; 1] by reflexivity.
  unfold lp_contract; cbn [lp_res lp_num lp_den]. split; [lia|]. split.
  - intros x (P & He & Hi).
    inversion He as [|? ? E1 _]; subst; clear He.
    inversion Hi as [|? ? _ Hi1]; subst; clear Hi.
    inversion Hi1 as [|? ? _ Hi2]; subst; clear Hi1.
    inversion Hi2 as [|? ? _ Hi3]; subst; clear Hi2.
    inversion Hi3 as [|? ? I4 _]; subst; clear Hi3.
    eval_rows.
    destruct (pv x) as [|a [|x1 [|x2 w]]]; eval_rows; lia.
  - exists (mk_point 1 [1; 1; 1]). split; [|reflexivity].
    split; [reflexivity|].
    split; repeat constructor; eval_rows; lia.
Defined.

Lemma wrap_facet_sound_witness :
  valid_on triangle_set [0; -1; 1].
Proof.
  apply (wrap_facet_sound (lp_const (mk_lp_out isl_lp_ok 1 1)) right_inverse_id
           preimage_id triangle_set triangle_set facet_x ridge_y [0; -1; 1]
           (wrap_matrix 3 facet_x ridge_y)).
  - cbn. lia.
  - reflexivity.
  - reflexivity.
  - reflexivity.
  - reflexivity.
  - exact triangle_frame.
  - exact wrap_lp_triangle_contract.
  - exact triangle_facet_valid.
  - exact triangle_ridge_on.
  - reflexivity.
Defined.

Lemma wrap_constraints_lift_witness :
  in_bmap (wrap_lift 3 1 0 (mk_point 1 [1; 1])) (wrap_constraints triangle_set) /\
  dot (wrap_objective 3 1) (pv (wrap_lift 3 1 0 (mk_point 1 [1; 1]))) = 1.
Proof.
  apply (wrap_constraints_lift triangle_set 0 triangle (mk_point 1 [1; 1])).
  - cbn. lia.
  - exact triangle_rows_of_dim.
  - reflexivity.
  - split; [reflexivity|]. split; [constructor|].
    repeat constructor; eval_rows; lia.
  - reflexivity.
  - reflexivity.
Defined.

Lemma triangle_wrap_contract :
  wrap_contract (lp_const (mk_lp_out isl_lp_ok 1 1)) right_inverse_unit
    preimage_id triangle_set.
Proof.
  intros facet ridge T set' Lf Lr HT Hp.
  unfold right_inverse_unit in HT.
  destruct (list_eq_dec (list_eq_dec Z.eq_dec)
              (wrap_matrix (1 + isl_set_n_dim triangle_set) facet ridge)
              unit_matrix_3) as [M|M]; [|discriminate HT].
  destruct facet as [|f0 [|f1 [|f2 [|? ?]]]]; try discriminate Lf.
  destruct ridge as [|r0 [|r1 [|r2 [|? ?]]]]; try discriminate Lr.
  assert (F : [f0; f1; f2] = facet_x)
    by (injection M; unfold at_; cbn [nth]; intros; subst; reflexivity).
  assert (R : [r0; r1; r2] = ridge_y)
    by (injection M; unfold at_; cbn [nth]; intros; subst; reflexivity).
  rewrite F, R.
  assert (S' : set' = triangle_set) by (injection Hp; intros; subst; reflexivity).
  rewrite S'. split; [exact triangle_frame|exact wrap_lp_triangle_contract].
Defined.

Lemma triangle_ridges_contract :
  ridges_contract triangle_compute_facet triangle_set.
Proof.
  intros c facet Lc Vc Hcf. unfold triangle_compute_facet in Hcf.
  destruct (list_eq_dec Z.eq_dec c facet_x) as [E|E];
    injection Hcf as <-; cbn [ineq].
  - subst c. constructor; [|constructor].
    split; [reflexivity|exact triangle_ridge_on].
  - constructor.
Defined.

Lemma extend_collects_valid_rows_witness :
  0 <= eval [0; -1; 1] (mk_point 1 [0; 1]).
Proof.
  apply (extend_collects_valid_rows (lp_const (mk_lp_out isl_lp_ok 1 1))
           right_inverse_unit preimage_id triangle_compute_facet
           triangle_set [facet_x] 2
           (mk_hull [[0; 1; 0]; [0; -1; 1]] (extend_room triangle_set))).
  - cbn. lia.
  - exact triangle_wrap_contract.
  - exact triangle_ridges_contract.
  - reflexivity.
  - exact triangle_facet_valid.
  - vm_compute. reflexivity.
  - right. left. reflexivity.
  - apply triangle_in_set. vm_compute. repeat split; discriminate.
Defined.

(** ** The room of the hull and the order of its rows *)

Lemma extend_room_pos (set : isl_set) : (1 <= extend_room set)%nat.
Proof.
  unfold extend_room.
  assert (G : forall ps n, (n <= fold_left
                                   (fun n b => (n + n_eq b + n_ineq b)%nat) ps n)%nat).
  { induction ps as [|b ps IH]; intros n; cbn [fold_left]; [lia|].
    specialize (IH (n + n_eq b + n_ineq b)%nat). lia. }
  apply G.
Qed.

Lemma extend_ridge_grows lp rinv pre set i h ridge h' :
  extend_ridge lp rinv pre set i h ridge = Some h' ->
  h_room h' = h_room h /\
  (length (h_ineq h') <= S (length (h_ineq h)))%nat /\
  exists more, h_ineq h' = h_ineq h ++ more.
Proof.
  intros E. destruct (extend_ridge_cases _ _ _ _ _ _ _ _ E)
    as (cand' & _ & [(_ & ->)|(_ & ->)]).
  - split; [reflexivity|]. split; [lia|]. exists []. symmetry. apply app_nil_r.
  - cbn [h_room h_ineq]. split; [reflexivity|]. split.
    + rewrite length_app. cbn [length]. lia.
    + exists [cand']. reflexivity.
Qed.

Lemma extend_ridges_grows lp rinv pre set i ridges :
  forall h h',
    extend_ridges lp rinv pre set i h ridges = Some h' ->
    h_room h' = h_room h /\
    (length (h_ineq h') <= length (h_ineq h) + length ridges)%nat /\
    exists more, h_ineq h' = h_ineq h ++ more.
Proof.
  induction ridges as [|r rest IH]; intros h h' E; cbn [extend_ridges] in E.
  - inversion E; subst. split; [reflexivity|]. split; [lia|].
    exists []. symmetry. apply app_nil_r.
  - destruct (extend_ridge lp rinv pre set i h r) as [h1|] eqn:E1; [|discriminate].
    destruct (extend_ridge_grows _ _ _ _ _ _ _ _ E1) as (R1 & L1 & m1 & A1).
    destruct (IH _ _ E) as (R2 & L2 & m2 & A2).
    split; [congruence|]. split; [cbn [length]; lia|].
    exists (m1 ++ m2). rewrite A2, A1, app_assoc. reflexivity.
Qed.

Lemma extend_facet_grows lp rinv pre cf set i h h' :
  (length (h_ineq h) <= h_room h)%nat ->
  extend_facet lp rinv pre cf set i h = Some h' ->
  (length (h_ineq h') <= h_room h')%nat /\
  exists more, h_ineq h' = h_ineq h ++ more.
Proof.
  intros R E. unfold extend_facet in E.
  destruct (cf set (nth i (h_ineq h) [])) as [facet|]; [|discriminate].
  unfold n_ineq in E.
  destruct (Nat.ltb_spec (h_room h) (length (ineq facet) + length (h_ineq h)));
    destruct (extend_ridges_grows _ _ _ _ _ _ _ _ E) as (R1 & L1 & A1);
    cbn [h_room h_ineq] in *; split; try exact A1; lia.
Qed.

Lemma extend_walk_split lp rinv pre cf set (s1 s2 : nat) :
  forall i h,
    extend_walk lp rinv pre cf set (s1 + s2) i h =
    match extend_walk lp rinv pre cf set s1 i h with
    | Walk_running i' h' => extend_walk lp rinv pre cf set s2 i' h'
    | w => w
    end.
Proof.
  induction s1 as [|s1 IH]; intros i h.
  - cbn [Nat.add extend_walk].
    destruct (Nat.leb (length (h_ineq h)) i) eqn:L; [|reflexivity].
    destruct s2; cbn [extend_walk]; rewrite L; reflexivity.
  - cbn [Nat.add extend_walk].
    destruct (Nat.leb (length (h_ineq h)) i); [reflexivity|].
    destruct (extend_facet lp rinv pre cf set i h) as [h1|]; [|reflexivity].
    apply IH.
Qed.

Lemma extend_walk_grows lp rinv pre cf set (steps : nat) :
  forall i h h',
    (length (h_ineq h) <= h_room h)%nat ->
    walk_hull (extend_walk lp rinv pre cf set steps i h) = Some h' ->
    exists more, h_ineq h' = h_ineq h ++ more.
Proof.
  induction steps as [|steps IH]; intros i h h' R E; cbn [extend_walk] in E.
  - destruct (Nat.leb (length (h_ineq h)) i); cbn [walk_hull] in E;
      inversion E; subst; exists []; symmetry; apply app_nil_r.
  - destruct (Nat.leb (length (h_ineq h)) i).
    + cbn [walk_hull] in E. inversion E; subst. exists [].
      symmetry. apply app_nil_r.
    + destruct (extend_facet lp rinv pre cf set i h) as [h1|] eqn:E1;
        [|discriminate].
      destruct (extend_facet_grows _ _ _ _ _ _ _ _ R E1) as (R1 & m1 & A1).
      destruct (IH _ _ _ R1 E) as (m2 & A2).
      exists (m1 ++ m2). rewrite A2, A1, app_assoc. reflexivity.
Qed.

Lemma extend_walk_room lp rinv pre cf set (steps : nat) :
  forall i h,
    (length (h_ineq h) <= h_room h)%nat ->
    match extend_walk lp rinv pre cf set steps i h with
    | Walk_error => True
    | Walk_done h' => (length (h_ineq h') <= h_room h')%nat
    | Walk_running _ h' => (length (h_ineq h') <= h_room h')%nat
    end.
Proof.
  induction steps as [|steps IH]; intros i h R; cbn [extend_walk].
  - destruct (Nat.leb (length (h_ineq h)) i); exact R.
  - destruct (Nat.leb (length (h_ineq h)) i); [exact R|].
    destruct (extend_facet lp rinv pre cf set i h) as [h1|] eqn:E1; [|exact I].
    destruct (extend_facet_grows _ _ _ _ _ _ _ _ R E1) as (R1 & _).
    apply IH, R1.
Qed.

(** The failing call behind an error of the ridge loop: there is room for
    every ridge, so one of the ridges could not be wrapped around the
    facet [i]. *)
Lemma extend_ridges_error_at lp rinv pre set i ridges :
  forall h,
    (i < length (h_ineq h))%nat ->
    (length (h_ineq h) + length ridges <= h_room h)%nat ->
    extend_ridges lp rinv pre set i h ridges = None ->
    exists ridge, In ridge ridges /\
      wrap_facet lp rinv pre set
        (isl_seq_cpy (zeros (1 + isl_set_n_dim set)) (nth i (h_ineq h) [])
           (1 + isl_set_n_dim set)) ridge = None.
Proof.
  induction ridges as [|r rest IH]; intros h Hi R E; cbn [extend_ridges] in E.
  - discriminate.
  - cbn [length] in R.
    destruct (extend_ridge lp rinv pre set i h r) as [h1|] eqn:E1.
    + destruct (extend_ridge_grows _ _ _ _ _ _ _ _ E1) as (R1 & L1 & m1 & A1).
      assert (Hi1 : (i < length (h_ineq h1))%nat)
        by (rewrite A1, length_app; lia).
      destruct (IH h1 Hi1 ltac:(lia) E) as (ridge & Hin & W).
      exists ridge. split; [right; exact Hin|].
      rewrite <- W. rewrite A1, (app_nth1 _ _ _ Hi). reflexivity.
    + exists r. split; [left; reflexivity|].
      unfold extend_ridge in E1.
      destruct (Nat.leb_spec (h_room h) (length (h_ineq h))) as [L|_]; [lia|].
      destruct (wrap_facet lp rinv pre set _ r) as [cand'|] eqn:W;
        [|reflexivity].
      destruct (seen_before _ _ _); discriminate E1.
Qed.

Lemma extend_facet_error_at lp rinv pre cf set i h :
  (i < length (h_ineq h))%nat ->
  extend_facet lp rinv pre cf set i h = None ->
  cf set (nth i (h_ineq h) []) = None \/
  exists facet ridge,
    cf set (nth i (h_ineq h) []) = Some facet /\ In ridge (ineq facet) /\
    wrap_facet lp rinv pre set
      (isl_seq_cpy (zeros (1 + isl_set_n_dim set)) (nth i (h_ineq h) [])
         (1 + isl_set_n_dim set)) ridge = None.
Proof.
  intros Hi E. unfold extend_facet in E.
  destruct (cf set (nth i (h_ineq h) [])) as [facet|] eqn:C; [|left; reflexivity].
  right. exists facet. unfold n_ineq in E.
  destruct (Nat.ltb_spec (h_room h) (length (ineq facet) + length (h_ineq h)));
    (apply extend_ridges_error_at in E;
     [destruct E as (ridge & Hin & W); exists ridge; cbn [h_ineq] in W; auto
     | cbn [h_ineq]; exact Hi | cbn [h_ineq h_room]; lia]).
Qed.

(** An error of the walk comes from the facet the walk has reached. *)
Lemma extend_walk_error_at lp rinv pre cf set (steps : nat) :
  forall i h,
    extend_walk lp rinv pre cf set steps i h = Walk_error ->
    exists s i' h',
      (s < steps)%nat /\
      extend_walk lp rinv pre cf set s i h = Walk_running i' h' /\
      (i' < length (h_ineq h'))%nat /\
      (cf set (nth i' (h_ineq h') []) = None \/
       exists facet ridge,
         cf set (nth i' (h_ineq h') []) = Some facet /\
         In ridge (ineq facet) /\
         wrap_facet lp rinv pre set
           (isl_seq_cpy (zeros (1 + isl_set_n_dim set))
              (nth i' (h_ineq h') []) (1 + isl_set_n_dim set)) ridge = None).
Proof.
  induction steps as [|steps IH]; intros i h E; cbn [extend_walk] in E.
  - destruct (Nat.leb (length (h_ineq h)) i); discriminate.
  - destruct (Nat.leb_spec (length (h_ineq h)) i) as [L|L]; [discriminate|].
    destruct (extend_facet lp rinv pre cf set i h) as [h1|] eqn:E1.
    + destruct (IH _ _ E) as (s & i' & h' & Hs & Es & Hi' & Hf).
      exists (S s), i', h'. split; [lia|]. split; [|split; assumption].
      cbn [extend_walk].
      destruct (Nat.leb_spec (length (h_ineq h)) i) as [L'|_]; [lia|].
      rewrite E1. exact Es.
    + exists 0%nat, i, h. split; [lia|]. split.
      * cbn [extend_walk].
        destruct (Nat.leb_spec (length (h_ineq h)) i) as [L'|_]; [lia|].
        reflexivity.
      * split; [exact L|]. apply extend_facet_error_at; assumption.
Qed.

(** X13: the walk of [extend] never fails for lack of room in the hull.
    When it ends in an error, the walk has reached a facet [i] of the
    hull built so far for which [compute_facet] returned a null result, or
    one of whose ridges [wrap_facet] could not wrap around it. *)
Theorem extend_walk_fails_only_in_callees :
  forall lp rinv pre cf (set : isl_set) (initial : isl_mat) (steps : nat),
    extend_walk lp rinv pre cf set steps 0 (extend_init set initial)
      = Walk_error ->
    exists s i h,
      (s < steps)%nat /\
      extend_walk lp rinv pre cf set s 0 (extend_init set initial)
        = Walk_running i h /\
      (i < length (h_ineq h))%nat /\
      (cf set (nth i (h_ineq h) []) = None \/
       exists facet ridge,
         cf set (nth i (h_ineq h) []) = Some facet /\
         In ridge (ineq facet) /\
         wrap_facet lp rinv pre set
           (isl_seq_cpy (zeros (1 + isl_set_n_dim set))
              (nth i (h_ineq h) []) (1 + isl_set_n_dim set)) ridge = None).
Proof.
  intros lp rinv pre cf set initial steps E.
  exact (extend_walk_error_at _ _ _ _ _ steps 0 (extend_init set initial) E).
Qed.

Lemma extend_walk_fails_only_in_callees_witness :
  exists s i h,
    (s < 1)%nat /\
    extend_walk (lp_const (mk_lp_out isl_lp_ok 1 1)) right_inverse_id
      preimage_id compute_facet_fails triangle_set s 0
      (extend_init triangle_set [facet_x]) = Walk_running i h /\
    (i < length (h_ineq h))%nat /\
    (compute_facet_fails triangle_set (nth i (h_ineq h) []) = None \/
     exists facet ridge,
       compute_facet_fails triangle_set (nth i (h_ineq h) []) = Some facet /\
       In ridge (ineq facet) /\
       wrap_facet (lp_const (mk_lp_out isl_lp_ok 1 1)) right_inverse_id
         preimage_id triangle_set
         (isl_seq_cpy (zeros (1 + isl_set_n_dim triangle_set))
            (nth i (h_ineq h) []) (1 + isl_set_n_dim triangle_set)) ridge
         = None).
Proof.
  apply (extend_walk_fails_only_in_callees (lp_const (mk_lp_out isl_lp_ok 1 1))
           right_inverse_id preimage_id compute_facet_fails triangle_set
           [facet_x] 1).
  reflexivity.
Defined.

(** X14: the walk of [extend] only appends.  The rows that are in the hull
    at some point of the walk are still there, at the same positions, at
    every later point; in particular the initial row stays the first. *)
Theorem extend_walk_appends :
  forall lp rinv pre cf (set : isl_set) (initial : isl_mat) (s1 s2 : nat)
         (h1 h2 : hull_state),
    walk_hull (extend_walk lp rinv pre cf set s1 0 (extend_init set initial))
      = Some h1 ->
    walk_hull (extend_walk lp rinv pre cf set (s1 + s2) 0
                 (extend_init set initial)) = Some h2 ->
    (exists more, h_ineq h2 = h_ineq h1 ++ more) /\
    nth 0 (h_ineq h2) [] =
      isl_seq_cpy (zeros (1 + isl_set_n_dim set)) (nth 0 initial [])
        (1 + isl_set_n_dim set).
Proof.
  intros lp rinv pre cf set initial s1 s2 h1 h2 E1 E2.
  assert (R : (length (h_ineq (extend_init set initial))
               <= h_room (extend_init set initial))%nat)
    by (unfold extend_init; cbn [h_ineq h_room length]; apply extend_room_pos).
  split.
  - rewrite extend_walk_split in E2.
    pose proof (extend_walk_room lp rinv pre cf set s1 0 _ R) as R1.
    destruct (extend_walk lp rinv pre cf set s1 0 (extend_init set initial))
      as [|h|i h]; cbn [walk_hull] in E1.
    + discriminate.
    + cbn [walk_hull] in E2. inversion E1; subst. inversion E2; subst.
      exists []. symmetry. apply app_nil_r.
    + inversion E1; subst. apply (extend_walk_grows _ _ _ _ _ s2 i _ _ R1 E2).
  - destruct (extend_walk_grows _ _ _ _ _ (s1 + s2) 0 _ h2 R E2) as (more & A).
    rewrite A. reflexivity.
Qed.

Lemma extend_walk_appends_witness :
  (exists more, [[0; 1; 0]; [0; -1; 1]] = [[0; 1; 0]] ++ more) /\
  nth 0 [[0; 1; 0]; [0; -1; 1]] [] =
    isl_seq_cpy (zeros (1 + isl_set_n_dim triangle_set)) (nth 0 [facet_x] [])
      (1 + isl_set_n_dim triangle_set).
Proof.
  apply (extend_walk_appends (lp_const (mk_lp_out isl_lp_ok 1 1))
           right_inverse_unit preimage_id triangle_compute_facet
           triangle_set [facet_x] 0 2
           (mk_hull [[0; 1; 0]] (extend_room triangle_set))
           (mk_hull [[0; 1; 0]; [0; -1; 1]] (extend_room triangle_set))).
  - vm_compute. reflexivity.
  - vm_compute. reflexivity.
Defined.

(** ** The system of [convex_hull_pair] *)

Lemma dot_zeros_app (n : nat) (r : row) :
  forall v, dot (zeros n ++ r) v = dot r (skipn n v).
Proof.
  induction n as [|n IH]; intros v; [reflexivity|].
  destruct v as [|a v]; cbn [zeros repeat app dot skipn].
  - rewrite dot_nil_r. reflexivity.
  - fold (zeros n). rewrite IH. lia.
Qed.

Lemma dot_app_zeros (c : row) (m : nat) :
  forall v, dot (c ++ zeros m) v = dot c v.
Proof.
  induction c as [|a c IH]; intros v; cbn [app].
  - rewrite dot_zeros. destruct v; reflexivity.
  - destruct v as [|b v]; cbn [dot]; [reflexivity|]. rewrite IH. reflexivity.
Qed.

Lemma dot_firstn (c : row) :
  forall v, dot c (firstn (length c) v) = dot c v.
Proof.
  induction c as [|a c IH]; intros v; [reflexivity|].
  destruct v as [|b v]; cbn [length firstn dot]; [reflexivity|].
  rewrite IH. reflexivity.
Qed.

Lemma skipn_at (k : nat) :
  forall v : row,
    (skipn k v = [] /\ at_ v k = 0 /\ skipn (S k) v = []) \/
    skipn k v = at_ v k :: skipn (S k) v.
Proof.
  induction k as [|k IH]; intros [|a v].
  - left. repeat split.
  - right. reflexivity.
  - left. repeat split.
  - destruct (IH v) as [(A & B & C)|A]; [left|right].
    + repeat split; assumption.
    + exact A.
Qed.

Lemma dot_skipn_part (dim k : nat) (c v : row) :
  length c = (1 + dim)%nat ->
  dot c (skipn k v)
  = eval c (mk_point (at_ v k) (firstn dim (skipn (k + 1) v))).
Proof.
  intros L. destruct c as [|c0 c]; [discriminate L|].
  injection L as L. unfold eval. cbn [pd pv tl]. unfold at_ at 1. cbn [nth].
  replace (k + 1)%nat with (S k) by lia.
  rewrite <- L, dot_firstn.
  destruct (skipn_at k v) as [(A & B & C)|A]; rewrite A.
  - rewrite B, C, !dot_nil_r. lia.
  - reflexivity.
Qed.

Lemma eval_pair_block_row (dim i : nat) (c : row) (y : point) :
  length c = (1 + dim)%nat ->
  eval (pair_block_row dim i c) y = eval c (pair_part dim i y).
Proof.
  intros L. rewrite eval_hom. unfold pair_block_row, pair_part.
  rewrite (cpy_same c (1 + dim) L), dot_zeros_app, dot_app_zeros.
  apply dot_skipn_part, L.
Qed.

Lemma set_at_cons (a : Z) (r : row) (k : nat) (v : Z) :
  set_at (a :: r) (S k) v = a :: set_at r k v.
Proof. reflexivity. Qed.

Lemma dot_set_at (a : Z) :
  forall (k : nat) (r v : row),
    (k < length r)%nat ->
    dot (set_at r k a) v = dot r v + (a - at_ r k) * at_ v k.
Proof.
  induction k as [|k IH]; intros [|r0 r] v L; cbn [length] in L; try lia.
  - unfold set_at, overwrite, at_. cbn [firstn skipn app length nth].
    destruct v as [|v0 v]; cbn [dot nth]; lia.
  - rewrite set_at_cons. destruct v as [|v0 v].
    + unfold at_. cbn [dot nth]. lia.
    + cbn [dot]. rewrite IH by lia. unfold at_. cbn [nth]. lia.
Qed.

Lemma length_set_at (a : Z) :
  forall (k : nat) (r : row),
    (k < length r)%nat -> length (set_at r k a) = length r.
Proof.
  induction k as [|k IH]; intros [|r0 r] L; cbn [length] in L; try lia.
  - reflexivity.
  - rewrite set_at_cons. cbn [length]. rewrite IH by lia. reflexivity.
Qed.

Lemma at_set_at_ne (a : Z) :
  forall (k j : nat) (r : row),
    (k < length r)%nat -> j <> k -> at_ (set_at r k a) j = at_ r j.
Proof.
  induction k as [|k IH]; intros j [|r0 r] L N; cbn [length] in L; try lia.
  - destruct j as [|j]; [congruence|]. reflexivity.
  - rewrite set_at_cons. destruct j as [|j]; [reflexivity|].
    unfold at_ in *. cbn [nth]. apply IH; lia.
Qed.

Lemma at_zeros (n j : nat) : at_ (zeros n) j = 0.
Proof.
  unfold at_, zeros. revert j. induction n as [|n IH]; intros [|j];
    cbn [repeat nth]; auto.
Qed.

Lemma eval_pair_dilation_row (dim i : nat) (y : point) :
  (i <= 1)%nat ->
  eval (pair_dilation_row dim i) y = pd (pair_part dim i y).
Proof.
  intros Hi. rewrite eval_hom. unfold pair_dilation_row, pair_part. cbn [pd].
  rewrite dot_set_at by (rewrite length_zeros; nia).
  rewrite dot_zeros, at_zeros. lia.
Qed.

Lemma eval_pair_link_row (dim j : nat) (y : point) :
  (j < 1 + dim)%nat ->
  eval (pair_link_row dim j) y
  = - at_ (hom y) j + at_ (hom y) (1 + dim + j) + at_ (hom y) (2 * (1 + dim) + j).
Proof.
  intros Hj. rewrite eval_hom. unfold pair_link_row.
  assert (L0 : length (zeros (1 + 2 + 3 * dim)) = (1 + 2 + 3 * dim)%nat)
    by apply length_zeros.
  assert (L1 : length (set_at (zeros (1 + 2 + 3 * dim)) j (-1))
               = (1 + 2 + 3 * dim)%nat)
    by (rewrite length_set_at; rewrite L0; lia).
  assert (L2 : length (set_at (set_at (zeros (1 + 2 + 3 * dim)) j (-1))
                         (1 + dim + j) 1) = (1 + 2 + 3 * dim)%nat)
    by (rewrite length_set_at; rewrite L1; lia).
  rewrite dot_set_at by (rewrite L2; lia).
  rewrite at_set_at_ne by (rewrite ?L1; lia).
  rewrite at_set_at_ne by (rewrite ?L0; lia).
  rewrite dot_set_at by (rewrite L1; lia).
  rewrite at_set_at_ne by (rewrite ?L0; lia).
  rewrite dot_set_at by (rewrite L0; lia).
  rewrite dot_zeros, !at_zeros. lia.
Qed.

Lemma Forall_map_iff {A B : Type} (f : A -> B) (P : B -> Prop) (Q : A -> Prop)
    (l : list A) :
  (forall a, In a l -> (P (f a) <-> Q a)) ->
  (Forall P (map f l) <-> Forall Q l).
Proof.
  intros H. rewrite Forall_map, !Forall_forall.
  split; intros G a Ha; apply (H a Ha), G, Ha.
Qed.

Lemma Forall_links (dim : nat) (y : point) :
  Forall (fun c => sat_eq c y) (map (pair_link_row dim) (seq 0 (1 + dim)))
  <-> pair_linked dim y.
Proof.
  rewrite Forall_map, Forall_forall. unfold pair_linked, sat_eq. split.
  - intros H j Hj.
    assert (I : In j (seq 0 (1 + dim))) by (apply in_seq; lia).
    specialize (H j I). rewrite eval_pair_link_row in H by exact Hj. lia.
  - intros H j Hj. apply in_seq in Hj.
    rewrite eval_pair_link_row by lia. specialize (H j ltac:(lia)). lia.
Qed.

Lemma pair_system_points (b1 b2 : isl_basic_set) (y : point) :
  rows_of_bset_dim (isl_basic_set_n_dim b1) b1 ->
  rows_of_bset_dim (isl_basic_set_n_dim b1) b2 ->
  (in_bmap y (convex_hull_pair_system b1 b2) <->
   0 < pd y /\
   in_cone (pair_part (isl_basic_set_n_dim b1) 0 y) b1 /\
   in_cone (pair_part (isl_basic_set_n_dim b1) 1 y) b2 /\
   pair_linked (isl_basic_set_n_dim b1) y).
Proof.
  intros (E1 & I1) (E2 & I2).
  set (dim := isl_basic_set_n_dim b1) in *.
  unfold in_bmap, convex_hull_pair_system, pair_member_rows, in_cone.
  fold dim. cbn [eq ineq fst snd].
  rewrite !Forall_app, Forall_links.
  rewrite (Forall_map_iff (pair_block_row dim 0) (fun c => sat_eq c y)
             (fun c => sat_eq c (pair_part dim 0 y)) (eq b1)).
  2:{ intros c Hc. unfold sat_eq. rewrite eval_pair_block_row; [reflexivity|].
      rewrite Forall_forall in E1. apply E1, Hc. }
  rewrite (Forall_map_iff (pair_block_row dim 1) (fun c => sat_eq c y)
             (fun c => sat_eq c (pair_part dim 1 y)) (eq b2)).
  2:{ intros c Hc. unfold sat_eq. rewrite eval_pair_block_row; [reflexivity|].
      rewrite Forall_forall in E2. apply E2, Hc. }
  rewrite (Forall_map_iff (pair_block_row dim 0) (fun c => sat_ineq c y)
             (fun c => sat_ineq c (pair_part dim 0 y)) (ineq b1)).
  2:{ intros c Hc. unfold sat_ineq. rewrite eval_pair_block_row; [reflexivity|].
      rewrite Forall_forall in I1. apply I1, Hc. }
  rewrite (Forall_map_iff (pair_block_row dim 1) (fun c => sat_ineq c y)
             (fun c => sat_ineq c (pair_part dim 1 y)) (ineq b2)).
  2:{ intros c Hc. unfold sat_ineq. rewrite eval_pair_block_row; [reflexivity|].
      rewrite Forall_forall in I2. apply I2, Hc. }
  assert (D : forall i, (i <= 1)%nat ->
            (Forall (fun c => sat_ineq c y) [pair_dilation_row dim i]
             <-> 0 <= pd (pair_part dim i y))).
  { intros i Hi. split.
    - intros H. inversion H as [|? ? S _]; subst. unfold sat_ineq in S.
      rewrite eval_pair_dilation_row in S by exact Hi. exact S.
    - intros H. constructor; [|constructor]. unfold sat_ineq.
      rewrite eval_pair_dilation_row by exact Hi. exact H. }
  rewrite (D 0%nat) by lia. rewrite (D 1%nat) by lia.
  tauto.
Qed.

Lemma at_app_l (u v : row) (j : nat) :
  (j < length u)%nat -> at_ (u ++ v) j = at_ u j.
Proof. intros H. unfold at_. apply app_nth1, H. Qed.

Lemma at_app_r (u v : row) (j : nat) :
  at_ (u ++ v) (length u + j) = at_ v j.
Proof. unfold at_. apply app_nth2_plus. Qed.

Lemma skipn_app_r (u v : row) (k : nat) :
  skipn (length u + k) (u ++ v) = skipn k v.
Proof.
  rewrite skipn_app, skipn_all2 by lia.
  replace (length u + k - length u)%nat with k by lia. reflexivity.
Qed.

Lemma firstn_app_l (u v : row) : firstn (length u) (u ++ v) = u.
Proof.
  rewrite firstn_app, firstn_all, Nat.sub_diag. cbn [firstn].
  apply app_nil_r.
Qed.

Lemma length_vadd (u v : row) :
  length u = length v -> length (vadd u v) = length u.
Proof.
  intros L. unfold vadd. rewrite length_map, List.length_combine. lia.
Qed.

Lemma at_vadd (u : row) :
  forall (v : row) (j : nat),
    length u = length v -> at_ (vadd u v) j = at_ u j + at_ v j.
Proof.
  unfold vadd, at_.
  induction u as [|a u IH]; intros [|b v] j L; try discriminate L.
  - destruct j; reflexivity.
  - injection L as L. destruct j as [|j]; cbn [combine map nth fst snd];
      [reflexivity|]. apply IH, L.
Qed.

Lemma length_hom (x : point) : length (hom x) = S (length (pv x)).
Proof. reflexivity. Qed.

Section PairSum.

Variables (dim : nat) (q1 q2 : point).
Hypothesis len1 : length (pv q1) = dim.
Hypothesis len2 : length (pv q2) = dim.

Lemma hom_pair_sum :
  hom (pair_sum q1 q2)
  = ((pd q1 + pd q2) :: vadd (pv q1) (pv q2)) ++ hom q1 ++ hom q2.
Proof. reflexivity. Qed.

Lemma length_sum_block :
  length ((pd q1 + pd q2) :: vadd (pv q1) (pv q2)) = (1 + dim)%nat.
Proof. cbn [length]. rewrite length_vadd; lia. Qed.

Lemma pair_part_sum_0 : pair_part dim 0 (pair_sum q1 q2) = q1.
Proof.
  unfold pair_part. rewrite hom_pair_sum.
  pose proof length_sum_block as L0.
  set (B0 := (pd q1 + pd q2) :: vadd (pv q1) (pv q2)) in *.
  replace ((0 + 1) * (1 + dim))%nat with (length B0 + 0)%nat by lia.
  rewrite at_app_r, <- Nat.add_assoc, skipn_app_r.
  unfold hom at 1 3. cbn [Nat.add skipn app]. unfold at_. cbn [nth].
  rewrite <- len1, firstn_app_l. destruct q1; reflexivity.
Qed.

Lemma pair_part_sum_1 : pair_part dim 1 (pair_sum q1 q2) = q2.
Proof.
  unfold pair_part. rewrite hom_pair_sum, app_assoc.
  pose proof length_sum_block as L0.
  set (B0 := (pd q1 + pd q2) :: vadd (pv q1) (pv q2)) in *.
  assert (L : length (B0 ++ hom q1) = ((1 + 1) * (1 + dim))%nat)
    by (rewrite length_app, L0, length_hom, len1; lia).
  rewrite <- L.
  replace (length (B0 ++ hom q1)) with (length (B0 ++ hom q1) + 0)%nat at 1
    by lia.
  rewrite at_app_r, skipn_app_r.
  unfold hom. cbn [skipn]. unfold at_. cbn [nth].
  rewrite <- len2, firstn_all. destruct q2; reflexivity.
Qed.

Lemma pair_linked_sum : pair_linked dim (pair_sum q1 q2).
Proof.
  intros j Hj. rewrite hom_pair_sum.
  pose proof length_sum_block as L0.
  assert (A : at_ ((pd q1 + pd q2) :: vadd (pv q1) (pv q2)) j
              = at_ (hom q1) j + at_ (hom q2) j).
  { destruct j as [|j]; [reflexivity|].
    unfold hom. change (at_ (?a :: ?l) (S j)) with (at_ l j).
    apply at_vadd. lia. }
  set (B0 := (pd q1 + pd q2) :: vadd (pv q1) (pv q2)) in *.
  rewrite at_app_l by lia.
  replace (1 + dim + j)%nat with (length B0 + j)%nat by lia.
  rewrite at_app_r.
  rewrite at_app_l by (rewrite length_hom, len1; lia).
  replace (2 * (1 + dim) + j)%nat with (length B0 + (length (hom q1) + j))%nat
    by (rewrite length_hom, len1; lia).
  rewrite at_app_r, at_app_r. exact A.
Qed.

End PairSum.

Lemma pair_sum_in_system (b1 b2 : isl_basic_set) (q1 q2 : point) :
  rows_of_bset_dim (isl_basic_set_n_dim b1) b1 ->
  rows_of_bset_dim (isl_basic_set_n_dim b1) b2 ->
  in_cone q1 b1 -> in_cone q2 b2 ->
  length (pv q1) = isl_basic_set_n_dim b1 ->
  length (pv q2) = isl_basic_set_n_dim b1 ->
  0 < pd q1 + pd q2 ->
  in_bmap (pair_sum q1 q2) (convex_hull_pair_system b1 b2).
Proof.
  intros R1 R2 C1 C2 L1 L2 P.
  apply (pair_system_points b1 b2 _ R1 R2).
  rewrite (pair_part_sum_0 _ q1 q2 L1 L2), (pair_part_sum_1 _ q1 q2 L1 L2).
  split; [exact P|]. split; [exact C1|]. split; [exact C2|].
  apply pair_linked_sum; assumption.
Qed.

Lemma dot_scale_r (k : Z) (f v : row) :
  dot f (map (Z.mul k) v) = k * dot f v.
Proof.
  revert v; induction f as [|a f IH]; intros [|b v]; cbn [map dot]; try lia.
  rewrite IH. lia.
Qed.

Lemma eval_scale_point (k : Z) (c : row) (x : point) :
  eval c (scale_point k x) = k * eval c x.
Proof.
  unfold eval, scale_point. cbn [pd pv]. rewrite dot_scale_r. lia.
Qed.

Lemma in_cone_scale (k : Z) (x : point) (b : isl_basic_set) :
  0 <= k -> in_bmap x b -> in_cone (scale_point k x) b.
Proof.
  intros K (P & E & I). split; [cbn [scale_point pd]; nia|]. split.
  - eapply Forall_impl; [|exact E]. intros c S. unfold sat_eq in *.
    rewrite eval_scale_point, S. lia.
  - eapply Forall_impl; [|exact I]. intros c S. unfold sat_ineq in *.
    rewrite eval_scale_point. nia.
Qed.

Lemma project_pair_sum (dim : nat) (q1 q2 : point) :
  length (pv q1) = dim -> length (pv q2) = dim ->
  project_out dim (2 * (1 + dim)) (pair_sum q1 q2)
  = mk_point (pd q1 + pd q2) (vadd (pv q1) (pv q2)).
Proof.
  intros L1 L2. unfold project_out, pair_sum. cbn [pd pv]. f_equal.
  assert (Lv : length (vadd (pv q1) (pv q2)) = dim)
    by (rewrite length_vadd; lia).
  rewrite <- Lv at 1. rewrite firstn_app_l.
  rewrite skipn_all2; [apply app_nil_r|].
  rewrite !length_app, !length_hom, Lv, L1, L2. lia.
Qed.

(** X17: the points of the system that [convex_hull_pair] sets up are the
    sums, in homogeneous coordinates, of a point of the cone of the
    first basic set and a point of the cone of the second, followed by
    the two summands. *)
Theorem convex_hull_pair_system_points :
  forall (b1 b2 : isl_basic_set) (y : point),
    rows_of_bset_dim (isl_basic_set_n_dim b1) b1 ->
    rows_of_bset_dim (isl_basic_set_n_dim b1) b2 ->
    (in_bmap y (convex_hull_pair_system b1 b2) <->
     0 < pd y /\
     in_cone (pair_part (isl_basic_set_n_dim b1) 0 y) b1 /\
     in_cone (pair_part (isl_basic_set_n_dim b1) 1 y) b2 /\
     pair_linked (isl_basic_set_n_dim b1) y).
Proof. exact pair_system_points. Qed.

Lemma convex_hull_pair_system_points_witness :
  in_bmap (mk_point 2 [3; 1; 0; 1; 3])
    (convex_hull_pair_system bmap_x_eq_0 interval_1_3) <->
  0 < pd (mk_point 2 [3; 1; 0; 1; 3]) /\
  in_cone (pair_part 1 0 (mk_point 2 [3; 1; 0; 1; 3])) bmap_x_eq_0 /\
  in_cone (pair_part 1 1 (mk_point 2 [3; 1; 0; 1; 3])) interval_1_3 /\
  pair_linked 1 (mk_point 2 [3; 1; 0; 1; 3]).
Proof.
  apply (convex_hull_pair_system_points bmap_x_eq_0 interval_1_3
           (mk_point 2 [3; 1; 0; 1; 3])).
  - split; repeat constructor.
  - split; repeat constructor.
Defined.

(** X18: [convex_hull_pair] contains the convex combinations.  When the
    collaborators keep the projections of the points of the system, every
    convex combination of a point of the first basic set and a point of
    the second lies in the result; with the weights 1 and 0 these are the
    points of the two basic sets themselves. *)
Theorem convex_hull_pair_contains_combinations :
  forall finalize remove_dims hull_of (b1 b2 h : isl_basic_set)
         (p1 p2 : point) (w1 w2 : Z),
    rows_of_bset_dim (isl_basic_set_n_dim b1) b1 ->
    rows_of_bset_dim (isl_basic_set_n_dim b1) b2 ->
    pair_contract finalize remove_dims hull_of b1 b2 ->
    convex_hull_pair finalize remove_dims hull_of (Some b1) (Some b2) = Some h ->
    in_bmap p1 b1 -> in_bmap p2 b2 ->
    length (pv p1) = isl_basic_set_n_dim b1 ->
    length (pv p2) = isl_basic_set_n_dim b1 ->
    0 <= w1 -> 0 <= w2 -> 0 < w1 + w2 ->
    in_bmap (combination w1 w2 p1 p2) h.
Proof.
  intros finalize remove_dims hull_of b1 b2 h p1 p2 w1 w2 R1 R2 C H
    P1 P2 L1 L2 W1 W2 W.
  unfold convex_hull_pair in H.
  destruct (isl_basic_set_set_rational finalize (convex_hull_pair_system b1 b2))
    as [hull1|] eqn:E1; [|discriminate].
  destruct (remove_dims hull1 (isl_basic_set_n_dim b1)
              (2 * (1 + isl_basic_set_n_dim b1))%nat) as [hull2|] eqn:E2;
    [|discriminate].
  assert (D1 : 0 < pd p1) by apply P1.
  assert (D2 : 0 < pd p2) by apply P2.
  set (q1 := scale_point (w1 * pd p2) p1).
  set (q2 := scale_point (w2 * pd p1) p2).
  assert (Lq1 : length (pv q1) = isl_basic_set_n_dim b1)
    by (unfold q1, scale_point; cbn [pv]; rewrite length_map; exact L1).
  assert (Lq2 : length (pv q2) = isl_basic_set_n_dim b1)
    by (unfold q2, scale_point; cbn [pv]; rewrite length_map; exact L2).
  assert (S : in_bmap (pair_sum q1 q2) (convex_hull_pair_system b1 b2)).
  { apply pair_sum_in_system; try assumption.
    - apply in_cone_scale; [nia | exact P1].
    - apply in_cone_scale; [nia | exact P2].
    - unfold q1, q2, scale_point. cbn [pd].
      replace (w1 * pd p2 * pd p1 + w2 * pd p1 * pd p2)
        with ((w1 + w2) * (pd p1 * pd p2)) by ring.
      apply Z.mul_pos_pos; [exact W | apply Z.mul_pos_pos; assumption]. }
  pose proof (C hull1 hull2 h E1 E2 H _ S) as G.
  rewrite (project_pair_sum _ q1 q2 Lq1 Lq2) in G.
  unfold combination.
  replace ((w1 + w2) * (pd p1 * pd p2)) with (pd q1 + pd q2)
    by (unfold q1, q2, scale_point; cbn [pd]; ring).
  exact G.
Qed.

Lemma pair_contract_0_3 :
  pair_contract finalize_id remove_dims_0_3 hull_id bmap_x_eq_0 interval_1_3.
Proof.
  intros hull1 hull2 h _ E2 E3 y Hy.
  injection E2 as <-. injection E3 as <-.
  assert (R1 : rows_of_bset_dim (isl_basic_set_n_dim bmap_x_eq_0) bmap_x_eq_0)
    by (split; repeat constructor).
  assert (R2 : rows_of_bset_dim (isl_basic_set_n_dim bmap_x_eq_0) interval_1_3)
    by (split; repeat constructor).
  apply (pair_system_points bmap_x_eq_0 interval_1_3 y R1 R2) in Hy.
  clear R1 R2.
  destruct Hy as (P & (A1 & Q1 & _) & (A2 & _ & Q2) & Lk).
  pose proof (Lk 0%nat ltac:(cbn; lia)) as K0.
  pose proof (Lk 1%nat ltac:(cbn; lia)) as K1.
  inversion Q1 as [|? ? S1 _]; subst; clear Q1.
  inversion Q2 as [|? ? S2 Q3]; subst; clear Q2.
  inversion Q3 as [|? ? S3 _]; subst; clear Q3.
  unfold sat_eq, sat_ineq, eval, pair_part, hom, at_ in *.
  destruct y as [d v]. cbn [pd pv] in *.
  destruct v as [|x [|a1 [|x1 [|a2 [|x2 rest]]]]];
    cbn [nth firstn skipn dot tl hd pd pv Nat.add Nat.mul
         isl_basic_set_n_dim total_dim bmap_x_eq_0] in *;
    (split; [exact P|]); (split; [once constructor|]);
    repeat (once constructor); unfold sat_ineq, project_out;
    cbn [pd pv firstn skipn app]; eval_rows; lia.
Defined.

Lemma convex_hull_pair_contains_combinations_witness :
  in_bmap (combination 1 1 (mk_point 1 [0]) (mk_point 1 [3])) interval_0_3.
Proof.
  apply (convex_hull_pair_contains_combinations finalize_id remove_dims_0_3
           hull_id bmap_x_eq_0 interval_1_3 interval_0_3
           (mk_point 1 [0]) (mk_point 1 [3]) 1 1).
  - split; repeat constructor.
  - split; repeat constructor.
  - exact pair_contract_0_3.
  - reflexivity.
  - split; [reflexivity|].
    split; repeat (once constructor); eval_rows; lia.
  - split; [reflexivity|].
    split; repeat (once constructor); eval_rows; lia.
  - reflexivity.
  - reflexivity.
  - lia.
  - lia.
  - lia.
Defined.

(** ** The one-dimensional hull: where its bounds come from *)

Lemma member_1d_step_lower_origin (b : bounds_1d) (m : isl_basic_set) :
  signed_bounds b ->
  (forall l', lower (member_1d_step b m) = Some l' ->
     exists l, lower b = Some l /\ 0 < at_ l' 1 /\ lower_le l' l /\
               (l' = l \/ In l' (lower_cands m)) /\
               Forall (lower_le l') (lower_cands m)) /\
  (lower (member_1d_step b m) = None ->
     lower b = None \/ provides_lower m = false).
Proof.
  intros (Sl & _). rewrite (proj1 (member_1d_step_fold b m)).
  destruct (provides_lower m); [|split; [discriminate | auto]].
  destruct (lower b) as [l|] eqn:El; cbn [option_map];
    [|split; [discriminate | auto]].
  split; [|discriminate].
  intros l' E. inversion E; subst; clear E. exists l.
  destruct (fold_lower_pick_weakest _ l (Sl l eq_refl) (lower_cands_pos m))
    as (A & B & C & D).
  repeat split; assumption.
Qed.

Lemma member_1d_step_upper_origin (b : bounds_1d) (m : isl_basic_set) :
  signed_bounds b ->
  (forall u', upper (member_1d_step b m) = Some u' ->
     exists u, upper b = Some u /\ at_ u' 1 < 0 /\ upper_ge u' u /\
               (u' = u \/ In u' (upper_cands m)) /\
               Forall (upper_ge u') (upper_cands m)) /\
  (upper (member_1d_step b m) = None ->
     upper b = None \/ provides_upper m = false).
Proof.
  intros (_ & Su). rewrite (proj2 (member_1d_step_fold b m)).
  destruct (provides_upper m); [|split; [discriminate | auto]].
  destruct (upper b) as [u|] eqn:Eu; cbn [option_map];
    [|split; [discriminate | auto]].
  split; [|discriminate].
  intros u' E. inversion E; subst; clear E. exists u.
  destruct (fold_upper_pick_weakest _ u (Su u eq_refl) (upper_cands_neg m))
    as (A & B & C & D).
  repeat split; assumption.
Qed.

Lemma fold_member_1d_step_lower_origin (todo : list isl_basic_set) :
  forall b, signed_bounds b ->
    (forall l, lower (fold_left member_1d_step todo b) = Some l ->
       exists l0, lower b = Some l0 /\ 0 < at_ l 1 /\ lower_le l l0 /\
                  (l = l0 \/ exists m, In m todo /\ In l (lower_cands m)) /\
                  (forall m r, In m todo -> In r (lower_cands m) ->
                               lower_le l r)) /\
    (lower (fold_left member_1d_step todo b) = None ->
       lower b = None \/ exists m, In m todo /\ provides_lower m = false).
Proof.
  induction todo as [|m rest IH]; intros b S; cbn [fold_left].
  - split; [|auto]. intros l E. exists l.
    split; [exact E|]. split; [apply (proj1 S l E)|].
    split; [apply lower_le_refl|]. split; [left; reflexivity|].
    intros m r [].
  - pose proof (member_1d_step_signed b m S) as S1.
    destruct (IH _ S1) as (IHs & IHn).
    destruct (member_1d_step_lower_origin b m S) as (Ms & Mn).
    split.
    + intros l E.
      destruct (IHs l E) as (l1 & E1 & P & L1 & O1 & W1).
      destruct (Ms l1 E1) as (l0 & E0 & P1 & L0 & O0 & W0).
      pose proof (proj1 S l0 E0) as P0.
      exists l0. split; [exact E0|]. split; [exact P|].
      split; [exact (lower_le_trans _ _ _ P P1 P0 L1 L0)|]. split.
      * destruct O1 as [->|(m' & Hm' & I')].
        -- destruct O0 as [->|I0]; [left; reflexivity|].
           right. exists m. split; [left; reflexivity | exact I0].
        -- right. exists m'. split; [right; exact Hm' | exact I'].
      * intros m' r [<-|Hm'] Hr.
        -- rewrite Forall_forall in W0.
           pose proof (lower_cands_pos m) as Pos. rewrite Forall_forall in Pos.
           exact (lower_le_trans _ _ _ P P1 (Pos r Hr) L1 (W0 r Hr)).
        -- exact (W1 m' r Hm' Hr).
    + intros E. destruct (IHn E) as [E1|(m' & Hm' & N')].
      * destruct (Mn E1) as [E0|N]; [left; exact E0|].
        right. exists m. split; [left; reflexivity | exact N].
      * right. exists m'. split; [right; exact Hm' | exact N'].
Qed.

Lemma fold_member_1d_step_upper_origin (todo : list isl_basic_set) :
  forall b, signed_bounds b ->
    (forall u, upper (fold_left member_1d_step todo b) = Some u ->
       exists u0, upper b = Some u0 /\ at_ u 1 < 0 /\ upper_ge u u0 /\
                  (u = u0 \/ exists m, In m todo /\ In u (upper_cands m)) /\
                  (forall m r, In m todo -> In r (upper_cands m) ->
                               upper_ge u r)) /\
    (upper (fold_left member_1d_step todo b) = None ->
       upper b = None \/ exists m, In m todo /\ provides_upper m = false).
Proof.
  induction todo as [|m rest IH]; intros b S; cbn [fold_left].
  - split; [|auto]. intros u E. exists u.
    split; [exact E|]. split; [apply (proj2 S u E)|].
    split; [apply upper_ge_refl|]. split; [left; reflexivity|].
    intros m r [].
  - pose proof (member_1d_step_signed b m S) as S1.
    destruct (IH _ S1) as (IHs & IHn).
    destruct (member_1d_step_upper_origin b m S) as (Ms & Mn).
    split.
    + intros u E.
      destruct (IHs u E) as (u1 & E1 & P & L1 & O1 & W1).
      destruct (Ms u1 E1) as (u0 & E0 & P1 & L0 & O0 & W0).
      pose proof (proj2 S u0 E0) as P0.
      exists u0. split; [exact E0|]. split; [exact P|].
      split; [exact (upper_ge_trans _ _ _ P P1 P0 L1 L0)|]. split.
      * destruct O1 as [->|(m' & Hm' & I')].
        -- destruct O0 as [->|I0]; [left; reflexivity|].
           right. exists m. split; [left; reflexivity | exact I0].
        -- right. exists m'. split; [right; exact Hm' | exact I'].
      * intros m' r [<-|Hm'] Hr.
        -- rewrite Forall_forall in W0.
           pose proof (upper_cands_neg m) as Neg. rewrite Forall_forall in Neg.
           exact (upper_ge_trans _ _ _ P P1 (Neg r Hr) L1 (W0 r Hr)).
        -- exact (W1 m' r Hm' Hr).
    + intros E. destruct (IHn E) as [E1|(m' & Hm' & N')].
      * destruct (Mn E1) as [E0|N]; [left; exact E0|].
        right. exists m. split; [left; reflexivity | exact N].
      * right. exists m'. split; [right; exact Hm' | exact N'].
Qed.

Lemma seed_fold_origin (cs : list row) :
  forall b0,
    Forall (fun r => length r = 2%nat /\ at_ r 1 <> 0) cs ->
    let b := fold_left
               (fun b c => if 0 <? at_ c 1
                           then mk_bounds (Some (cpy2 c)) (upper b)
                           else mk_bounds (lower b) (Some (cpy2 c)))
               cs b0 in
    (forall l, lower b = Some l ->
       lower b0 = Some l \/ In l (map cpy2 (filter (fun c => 0 <? at_ c 1) cs))) /\
    (lower b = None ->
       lower b0 = None /\ existsb (fun c => 0 <? at_ c 1) cs = false) /\
    (forall u, upper b = Some u ->
       upper b0 = Some u \/ In u (map cpy2 (filter (fun c => at_ c 1 <? 0) cs))) /\
    (upper b = None ->
       upper b0 = None /\ existsb (fun c => at_ c 1 <? 0) cs = false).
Proof.
  induction cs as [|c cs IH]; intros b0 W; cbn [fold_left].
  - cbn [filter map existsb In]. repeat split; auto.
  - inversion W as [|? ? (_ & Nc) W']; subst.
    cbn [filter existsb].
    destruct (Z.ltb_spec 0 (at_ c 1)) as [Pc|Pc].
    + assert (Ng : (at_ c 1 <? 0) = false) by (apply Z.ltb_ge; lia).
      rewrite Ng. cbn [orb map In].
      destruct (IH (mk_bounds (Some (cpy2 c)) (upper b0)) W')
        as (A & B & C & D). cbn [lower upper] in A, B, C, D.
      split; [|split; [|split]].
      * intros l E. destruct (A l E) as [E0|I]; [|auto].
        inversion E0; subst. auto.
      * intros E. destruct (B E) as (E0 & _). discriminate E0.
      * exact C.
      * exact D.
    + assert (Ng : (at_ c 1 <? 0) = true) by (apply Z.ltb_lt; lia).
      rewrite Ng. cbn [orb map In].
      destruct (IH (mk_bounds (lower b0) (Some (cpy2 c))) W')
        as (A & B & C & D). cbn [lower upper] in A, B, C, D.
      split; [|split; [|split]].
      * exact A.
      * exact B.
      * intros u E. destruct (C u E) as [E0|I]; [|auto].
        inversion E0; subst. auto.
      * intros E. destruct (D E) as (E0 & _). discriminate E0.
Qed.

Lemma seed_1d_origin (p0 : isl_basic_set) (b : bounds_1d) :
  plain_1d p0 -> seed_1d p0 = Some b ->
  (forall l, lower b = Some l -> In l (lower_cands p0)) /\
  (lower b = None -> provides_lower p0 = false) /\
  (forall u, upper b = Some u -> In u (upper_cands p0)) /\
  (upper b = None -> provides_upper p0 = false).
Proof.
  intros (We & Wi) E.
  unfold seed_1d, lower_cands, upper_cands, provides_lower, provides_upper,
    n_eq in *.
  destruct (eq p0) as [|e es].
  - cbn [length Nat.ltb Nat.leb] in E. inversion E; subst; clear E.
    cbn [filter map app length Nat.eqb negb orb].
    destruct (seed_fold_origin (ineq p0) (mk_bounds None None) Wi)
      as (A & B & C & D). cbn [lower upper] in A, B, C, D.
    split; [|split; [|split]].
    + intros l El. destruct (A l El) as [X|X]; [discriminate X | exact X].
    + intros El. apply (B El).
    + intros u Eu. destruct (C u Eu) as [X|X]; [discriminate X | exact X].
    + intros Eu. apply (D Eu).
  - inversion We as [|? ? (_ & Ne) _]; subst.
    cbn [length Nat.ltb Nat.leb] in E.
    destruct es as [|e2 es]; [|discriminate E].
    cbn [length Nat.eqb negb nth] in E.
    cbn [filter].
    assert (Nz : negb (at_ e 1 =? 0) = true)
      by (apply negb_true_iff, Z.eqb_neq, Ne).
    rewrite Nz. cbn [map app].
    destruct (Z.ltb_spec 0 (at_ e 1)); inversion E; subst; clear E;
      cbn [lower upper]; (split; [|split; [|split]]);
      try discriminate;
      intros r Er; inversion Er; subst; left; reflexivity.
Qed.

(** A bound that is absent stays absent, and a member that provides no
    bound removes the running one. *)
Lemma fold_member_1d_step_lower_none (todo : list isl_basic_set) :
  forall b,
    lower b = None \/ (exists m, In m todo /\ provides_lower m = false) ->
    lower (fold_left member_1d_step todo b) = None.
Proof.
  induction todo as [|m rest IH]; intros b H; cbn [fold_left].
  - destruct H as [E|(m & [] & _)]. exact E.
  - apply IH. pose proof (proj1 (member_1d_step_fold b m)) as F.
    destruct H as [E|(m' & [<-|Hm'] & N)].
    + left. rewrite F, E. destruct (provides_lower m); reflexivity.
    + left. rewrite F, N. reflexivity.
    + right. exists m'. split; assumption.
Qed.

Lemma fold_member_1d_step_upper_none (todo : list isl_basic_set) :
  forall b,
    upper b = None \/ (exists m, In m todo /\ provides_upper m = false) ->
    upper (fold_left member_1d_step todo b) = None.
Proof.
  induction todo as [|m rest IH]; intros b H; cbn [fold_left].
  - destruct H as [E|(m & [] & _)]. exact E.
  - apply IH. pose proof (proj2 (member_1d_step_fold b m)) as F.
    destruct H as [E|(m' & [<-|Hm'] & N)].
    + left. rewrite F, E. destruct (provides_upper m); reflexivity.
    + left. rewrite F, N. reflexivity.
    + right. exists m'. split; assumption.
Qed.

(** X15: the bounds of the one-dimensional hull.  The lower bound that
    [convex_hull_1d] ends with is a lower bound of one of the members and
    is implied by every lower bound of every member; there is none exactly
    when some member has no lower bound.  The same holds for the upper
    bound. *)
Theorem hull_1d_bounds_are_weakest :
  forall (ps : list isl_basic_set) (b : bounds_1d),
    Forall plain_1d ps ->
    bounds_of_members ps = Some b ->
    (forall l, lower b = Some l -> weakest_lower ps l) /\
    (forall u, upper b = Some u -> weakest_upper ps u) /\
    (lower b = None <-> exists m, In m ps /\ provides_lower m = false) /\
    (upper b = None <-> exists m, In m ps /\ provides_upper m = false).
Proof.
  intros ps b W E. unfold bounds_of_members in E.
  destruct ps as [|p0 rest]; [discriminate|].
  destruct (seed_1d p0) as [b0|] eqn:Es; [|discriminate].
  inversion E; subst; clear E.
  assert (W0 : plain_1d p0) by (inversion W; assumption).
  pose proof (seed_1d_signed p0 b0 W0 Es) as S0.
  destruct (seed_1d_origin p0 b0 W0 Es) as (OL & NL & OU & NU).
  destruct (fold_member_1d_step_lower_origin (p0 :: rest) b0 S0) as (FL & GL).
  destruct (fold_member_1d_step_upper_origin (p0 :: rest) b0 S0) as (FU & GU).
  split; [|split; [|split]].
  - intros l El. destruct (FL l El) as (l0 & E0 & _ & _ & O & Wk).
    split; [|exact Wk].
    destruct O as [->|O]; [|exact O].
    exists p0. split; [left; reflexivity | apply OL, E0].
  - intros u Eu. destruct (FU u Eu) as (u0 & E0 & _ & _ & O & Wk).
    split; [|exact Wk].
    destruct O as [->|O]; [|exact O].
    exists p0. split; [left; reflexivity | apply OU, E0].
  - split.
    + intros El. destruct (GL El) as [E0|X]; [|exact X].
      exists p0. split; [left; reflexivity | apply NL, E0].
    + intros X.
      exact (fold_member_1d_step_lower_none (p0 :: rest) b0 (or_intror X)).
  - split.
    + intros Eu. destruct (GU Eu) as [E0|X]; [|exact X].
      exists p0. split; [left; reflexivity | apply NU, E0].
    + intros X.
      exact (fold_member_1d_step_upper_none (p0 :: rest) b0 (or_intror X)).
Qed.

Lemma two_intervals_plain : Forall plain_1d [interval_1_3; interval_2_5].
Proof.
  repeat (once constructor); try reflexivity; unfold at_; cbn [nth]; lia.
Defined.

Lemma hull_1d_bounds_are_weakest_witness :
  (forall l, Some [-1; 1] = Some l ->
             weakest_lower [interval_1_3; interval_2_5] l) /\
  (forall u, Some [5; -1] = Some u ->
             weakest_upper [interval_1_3; interval_2_5] u) /\
  (Some [-1; 1] = None <->
   exists m, In m [interval_1_3; interval_2_5] /\ provides_lower m = false) /\
  (Some [5; -1] = None <->
   exists m, In m [interval_1_3; interval_2_5] /\ provides_upper m = false).
Proof.
  apply (hull_1d_bounds_are_weakest [interval_1_3; interval_2_5]
           (mk_bounds (Some [-1; 1]) (Some [5; -1]))).
  - exact two_intervals_plain.
  - reflexivity.
Defined.

(** ** The simple hull: its rows are tight translates *)

Lemma Forall2_nth_In {A B : Type} (R : A -> B -> Prop) (l : list A) (l' : list B) :
  Forall2 R l l' ->
  forall i d', (i < length l')%nat -> exists b, In b l /\ R b (nth i l' d').
Proof.
  induction 1 as [|a b l l' Hab _ IH]; intros i d' Hi; cbn [length] in Hi;
    [lia|].
  destruct i as [|i]; cbn [nth].
  - exists a. split; [left; reflexivity | exact Hab].
  - destruct (IH i d' ltac:(lia)) as (b0 & Hb0 & Rb0).
    exists b0. split; [right; exact Hb0 | exact Rb0].
Qed.

Lemma Forall2_compose {A : Type} (R S T : A -> A -> Prop) (l1 l2 l3 : list A) :
  (forall a b c, R a b -> S b c -> T a c) ->
  Forall2 R l1 l2 -> Forall2 S l2 l3 -> Forall2 T l1 l3.
Proof.
  intros H F. revert l3.
  induction F as [|a b l1 l2 Hab _ IH]; intros l3 G;
    inversion G; subst; constructor; eauto.
Qed.

Section SimpleHullTight.

Variable lp : isl_basic_map -> bool -> row -> Z -> bool -> lp_out.
Variable ste : isl_basic_set -> option isl_basic_set.
Hypothesis ste_marks :
  forall b b', ste b = Some b' ->
    ISL_F_ISSET b' ISL_BASIC_SET_EMPTY = true /\ forall x, ~ in_bmap x b'.
Hypothesis ste_drops : forall b b', ste b = Some b' -> ineq b' = [].

Lemma simple_hull_ineq_tight (ms : list isl_basic_set) dim i j st st' :
  (j < n_ineq (nth i (p (sh_set st)) (mk_bmap dim [] [] 0)))%nat ->
  simple_hull_ineq lp ste dim i j st = Some st' ->
  simple_inv_tight lp dim ms st -> simple_inv_tight lp dim ms st'.
Proof.
  unfold simple_hull_ineq. intros Hj E (Sm & Ke & Rows).
  set (bi := nth i (p (sh_set st)) (mk_bmap dim [] [] 0)) in *.
  set (c := isl_seq_cpy (zeros (1 + dim)) (nth j (ineq bi) []) (1 + dim)) in *.
  assert (Lc : length c = (1 + dim)%nat) by apply length_cpy_zeros.
  assert (Hc : (1 <= length c)%nat) by lia.
  assert (Hlp : forall b f, In b (p (sh_set st)) ->
            ISL_F_ISSET b ISL_BASIC_SET_EMPTY = false ->
            lp_contract b f (lp b false f 1 true)).
  { intros b f Hb Fl.
    destruct (same_members_In_r lp _ _ b Sm Hb) as (_ & C & _). exact (C f Fl). }
  assert (Hfl : forall b, In b (p (sh_set st)) ->
            ISL_F_ISSET b ISL_BASIC_SET_EMPTY = true -> forall x, ~ in_bmap x b).
  { intros b Hb Fl.
    destruct (same_members_In_r lp _ _ b Sm Hb) as (_ & _ & N). exact (N Fl). }
  pose proof (uset_is_bound_correct lp ste (sh_set st) c Hc Hlp Hfl ste_marks)
    as K. cbn zeta in K. rewrite Lc in K.
  destruct K as (T & _ & _ & _ & F2 & _ & V).
  pose proof (same_members_marked lp ste ste_marks _ _ _ Sm F2) as Sm'.
  assert (Ke' : Forall2 kept_or_emptied ms
                  (p (ib_set (uset_is_bound lp ste (sh_set st) c (1 + dim))))).
  { refine (Forall2_compose _ _ _ _ _ _ _ Ke F2).
    intros a b b' [->|Eb] [->|(_ & Mb)].
    - left; reflexivity.
    - right. exact (ste_drops _ _ Mb).
    - right. exact Eb.
    - right. exact (ste_drops _ _ Mb). }
  destruct T as [R|[R|R]]; rewrite R in E; cbn in E;
    inversion E; subst; clear E; split; cbn [sh_set sh_rows];
    try exact Sm'; (split; [exact Ke'|]); try exact Rows.
  apply Forall_app. split; [exact Rows|]. constructor; [|constructor].
  destruct (V R) as (k & Hk & _ & Htl & _ & Ti).
  split.
  - assert (Hi : (i < length (p (sh_set st)))%nat).
    { destruct (Nat.lt_ge_cases i (length (p (sh_set st)))) as [L|L];
        [exact L|].
      unfold bi in Hj. rewrite nth_overflow in Hj by exact L.
      cbn in Hj. lia. }
    destruct (Forall2_nth_In _ _ _ Ke i (mk_bmap dim [] [] 0) Hi)
      as (b & Hb & Kb).
    fold bi in Kb. unfold n_ineq in Hj.
    destruct Kb as [Eb|Eb]; [|rewrite Eb in Hj; cbn in Hj; lia].
    exists b, (nth j (ineq bi) []), k.
    split; [exact Hb|]. split; [rewrite <- Eb; apply nth_In; exact Hj|].
    split; [exact Hk | exact Htl].
  - intros (x & Hx).
    assert (Hx' : exists x, in_set x (sh_set st)).
    { exists x. unfold in_set. apply (same_members_exists lp _ _ x Sm), Hx. }
    destruct (Ti Hx') as (y & Hy & Ey).
    exists y. split; [|exact Ey].
    apply (same_members_exists lp _ _ y Sm), Hy.
Qed.

Lemma simple_hull_member_tight (ms : list isl_basic_set) dim i todo :
  forall j st st',
    simple_hull_member lp ste dim i todo j st = Some st' ->
    simple_inv_tight lp dim ms st -> simple_inv_tight lp dim ms st'.
Proof.
  induction todo as [|todo IH]; intros j st st' E Inv;
    cbn [simple_hull_member] in E.
  - inversion E; subst; exact Inv.
  - destruct (Nat.ltb_spec j
                (n_ineq (nth i (p (sh_set st)) (mk_bmap dim [] [] 0))))
      as [Hj|Hj]; [|inversion E; subst; exact Inv].
    destruct (simple_hull_ineq lp ste dim i j st) as [st1|] eqn:E1;
      [|discriminate].
    apply (IH _ _ _ E). exact (simple_hull_ineq_tight ms _ _ _ _ _ Hj E1 Inv).
Qed.

Lemma simple_hull_members_tight (ms : list isl_basic_set) dim todo :
  forall i st st',
    simple_hull_members lp ste dim todo i st = Some st' ->
    simple_inv_tight lp dim ms st -> simple_inv_tight lp dim ms st'.
Proof.
  induction todo as [|todo IH]; intros i st st' E Inv;
    cbn [simple_hull_members] in E.
  - inversion E; subst; exact Inv.
  - destruct (simple_hull_member lp ste dim i _ 0 st) as [st1|] eqn:E1;
      [|discriminate].
    apply (IH _ _ _ E). exact (simple_hull_member_tight ms _ _ _ _ _ _ E1 Inv).
Qed.

Lemma simple_hull_rows_tight (set : isl_set) (dim : nat) (st : simple_state) :
  (forall b f, In b (p set) -> ISL_F_ISSET b ISL_BASIC_SET_EMPTY = false ->
               lp_contract b f (lp b false f 1 true)) ->
  (forall b, In b (p set) -> ISL_F_ISSET b ISL_BASIC_SET_EMPTY = true ->
             forall x, ~ in_bmap x b) ->
  simple_hull_members lp ste dim (length (p set)) 0 (mk_simple set []) = Some st ->
  forall r, In r (sh_rows st) ->
    simple_row_origin dim (p set) r /\
    ((exists x, in_set x set) -> exists x, in_set x set /\ eval r x = 0).
Proof.
  intros Hlp Hfl E r Hr.
  assert (Inv : simple_inv_tight lp dim (p set) (mk_simple set [])).
  { split; [|split; [|constructor]]; cbn [sh_set].
    - unfold same_members. clear E.
      induction (p set) as [|b ms IH]; constructor.
      + split; [reflexivity|]. split.
        * intros f Fl. apply Hlp; [left; reflexivity | exact Fl].
        * apply Hfl. left; reflexivity.
      + apply IH; intros; [apply Hlp | apply Hfl]; try right; assumption.
    - clear. induction (p set); constructor; [left; reflexivity | assumption]. }
  destruct (simple_hull_members_tight _ _ _ _ _ _ E Inv) as (_ & _ & Rows).
  rewrite Forall_forall in Rows. exact (Rows r Hr).
Qed.

End SimpleHullTight.

(** X21: every inequality that the loops of [isl_map_simple_hull] add to
    the hull holds on every point of the set: the polyhedron they build
    contains the set. *)
Theorem simple_hull_contains_set :
  forall lp ste (set : isl_set) (dim : nat) (st : simple_state),
    (forall b b', ste b = Some b' ->
       ISL_F_ISSET b' ISL_BASIC_SET_EMPTY = true /\ forall x, ~ in_bmap x b') ->
    (forall b f, In b (p set) -> ISL_F_ISSET b ISL_BASIC_SET_EMPTY = false ->
                 lp_contract b f (lp b false f 1 true)) ->
    (forall b, In b (p set) -> ISL_F_ISSET b ISL_BASIC_SET_EMPTY = true ->
               forall x, ~ in_bmap x b) ->
    simple_hull_members lp ste dim (length (p set)) 0 (mk_simple set [])
      = Some st ->
    forall r x, In r (sh_rows st) -> in_set x set -> sat_ineq r x.
Proof.
  intros lp ste set dim st M. exact (simple_hull_rows_valid lp ste M set dim st).
Qed.

Lemma two_intervals_unflagged :
  forall b, In b (p two_intervals) ->
    ISL_F_ISSET b ISL_BASIC_SET_EMPTY = true -> forall x, ~ in_bmap x b.
Proof. intros b [<-|[<-|[]]] F; discriminate F. Defined.

Lemma simple_hull_contains_set_witness :
  sat_ineq [5; -1] (mk_point 1 [4]).
Proof.
  apply (simple_hull_contains_set lp_interval set_to_empty two_intervals 1
           (mk_simple two_intervals [[-1; 1]; [5; -1]; [-1; 1]; [5; -1]])
           set_to_empty_marks lp_interval_contract two_intervals_unflagged).
  - vm_compute. reflexivity.
  - right. left. reflexivity.
  - right. left. split; [reflexivity|].
    split; repeat (once constructor); eval_rows; lia.
Defined.

(** X22: every inequality that the loops of [isl_map_simple_hull] add to
    the hull is a translate of an inequality of a member, its coefficients
    being a positive multiple of that inequality's, and it is attained on
    the set when the set has a point. *)
Theorem simple_hull_rows_are_tight_translates :
  forall lp ste (set : isl_set) (dim : nat) (st : simple_state),
    (forall b b', ste b = Some b' ->
       ISL_F_ISSET b' ISL_BASIC_SET_EMPTY = true /\ forall x, ~ in_bmap x b') ->
    (forall b b', ste b = Some b' -> ineq b' = []) ->
    (forall b f, In b (p set) -> ISL_F_ISSET b ISL_BASIC_SET_EMPTY = false ->
                 lp_contract b f (lp b false f 1 true)) ->
    (forall b, In b (p set) -> ISL_F_ISSET b ISL_BASIC_SET_EMPTY = true ->
               forall x, ~ in_bmap x b) ->
    simple_hull_members lp ste dim (length (p set)) 0 (mk_simple set [])
      = Some st ->
    forall r, In r (sh_rows st) ->
      simple_row_origin dim (p set) r /\
      ((exists x, in_set x set) -> exists x, in_set x set /\ eval r x = 0).
Proof.
  intros lp ste set dim st M D.
  exact (simple_hull_rows_tight lp ste M D set dim st).
Qed.

Lemma set_to_empty_drops :
  forall b b', set_to_empty b = Some b' -> ineq b' = [].
Proof. intros b b' E. inversion E; subst. reflexivity. Defined.

Lemma simple_hull_rows_are_tight_translates_witness :
  simple_row_origin 1 (p two_intervals) [5; -1] /\
  ((exists x, in_set x two_intervals) ->
   exists x, in_set x two_intervals /\ eval [5; -1] x = 0).
Proof.
  apply (simple_hull_rows_are_tight_translates lp_interval set_to_empty
           two_intervals 1
           (mk_simple two_intervals [[-1; 1]; [5; -1]; [-1; 1]; [5; -1]])
           set_to_empty_marks set_to_empty_drops lp_interval_contract
           two_intervals_unflagged).
  - vm_compute. reflexivity.
  - right. left. reflexivity.
Defined.

(** ** Adding an equality *)

Lemma add_equality_points extend (b b' : isl_basic_set) (c : row) :
  (forall b0 b1, extend b0 = Some b1 -> eq b1 = eq b0 /\ ineq b1 = ineq b0) ->
  length c = (1 + isl_basic_set_n_dim b)%nat ->
  (ISL_F_ISSET b ISL_BASIC_SET_EMPTY = true -> forall x, ~ in_bmap x b) ->
  isl_basic_set_add_equality extend b c = Some b' ->
  forall x, in_bmap x b' <-> in_bmap x b /\ sat_eq c x.
Proof.
  intros Hext L Hfl E x. unfold isl_basic_set_add_equality in E.
  destruct (ISL_F_ISSET b ISL_BASIC_SET_EMPTY) eqn:Fl.
  - inversion E; subst; clear E. specialize (Hfl eq_refl x). tauto.
  - destruct (extend b) as [b1|] eqn:Ex; [|discriminate].
    destruct (Hext _ _ Ex) as (He & Hi).
    inversion E; subst; clear E.
    unfold in_bmap. cbn [eq ineq]. rewrite He, Hi, Forall_app.
    match goal with
    | |- context [isl_seq_cpy ?a ?b ?n] =>
        replace (isl_seq_cpy a b n) with c
          by (symmetry; apply cpy_same; exact L)
    end.
    split.
    + intros (P & (A & B) & C). inversion B; subst. tauto.
    + intros ((P & A & C) & B). repeat split; try assumption.
      constructor; [exact B | constructor].
Qed.

Lemma map_add_equality_points extend (c : row) (ps : list isl_basic_set) :
  (forall b0 b1, extend b0 = Some b1 -> eq b1 = eq b0 /\ ineq b1 = ineq b0) ->
  forall ps',
    Forall (fun b => length c = (1 + isl_basic_set_n_dim b)%nat) ps ->
    Forall (fun b => ISL_F_ISSET b ISL_BASIC_SET_EMPTY = true ->
                     forall x, ~ in_bmap x b) ps ->
    map_option (fun b => isl_basic_set_add_equality extend b c) ps = Some ps' ->
    forall x, Exists (in_bmap x) ps' <-> Exists (in_bmap x) ps /\ sat_eq c x.
Proof.
  intros Hext. induction ps as [|b ps IH]; intros ps' L Hfl E x;
    cbn [map_option] in E.
  - inversion E; subst. split; [intros H; inversion H | intros (H & _); inversion H].
  - inversion L as [|? ? Lb L']; subst. inversion Hfl as [|? ? Fb Hfl']; subst.
    destruct (isl_basic_set_add_equality extend b c) as [b'|] eqn:Eb;
      [|discriminate].
    destruct (map_option _ ps) as [ps1|] eqn:Ep; [|discriminate].
    cbn [option_map] in E. inversion E; subst; clear E.
    rewrite !Exists_cons, (IH ps1 L' Hfl' eq_refl x),
      (add_equality_points extend b b' c Hext Lb Fb Eb x).
    tauto.
Qed.

(** X5: [isl_set_add_equality] cuts the set with the hyperplane of the
    row: the points of the result are the points of the set at which the
    row vanishes.  Members flagged empty are passed on untouched. *)
Theorem isl_set_add_equality_slices :
  forall extend (set set' : isl_set) (c : row),
    (forall b0 b1, extend b0 = Some b1 -> eq b1 = eq b0 /\ ineq b1 = ineq b0) ->
    Forall (fun b => length c = (1 + isl_basic_set_n_dim b)%nat) (p set) ->
    Forall (fun b => ISL_F_ISSET b ISL_BASIC_SET_EMPTY = true ->
                     forall x, ~ in_bmap x b) (p set) ->
    isl_set_add_equality extend set c = Some set' ->
    (forall x, in_set x set' <-> in_set x set /\ sat_eq c x) /\
    Forall2 (fun b b' => ISL_F_ISSET b ISL_BASIC_SET_EMPTY = true -> b' = b)
            (p set) (p set').
Proof.
  intros extend set set' c Hext L Hfl E. unfold isl_set_add_equality in E.
  destruct (map_option _ (p set)) as [ps'|] eqn:Ep; [|discriminate].
  inversion E; subst; clear E. cbn [p]. split.
  - intros x. unfold in_set. cbn [p].
    apply (map_add_equality_points extend c (p set) Hext ps' L Hfl Ep).
  - clear L Hfl. revert ps' Ep.
    induction (p set) as [|b ps IH]; intros ps' Ep; cbn [map_option] in Ep.
    + inversion Ep; subst. constructor.
    + destruct (isl_basic_set_add_equality extend b c) as [b'|] eqn:Eb;
        [|discriminate].
      destruct (map_option _ ps) as [ps1|] eqn:Ep1; [|discriminate].
      cbn [option_map] in Ep. inversion Ep; subst; clear Ep.
      constructor; [|apply IH; reflexivity].
      intros Fl. unfold isl_basic_set_add_equality in Eb. rewrite Fl in Eb.
      inversion Eb; reflexivity.
Qed.

Lemma isl_set_add_equality_slices_witness :
  (forall x,
     in_set x (mk_set 2 [mk_bmap 2 [[0; 1; 0]]
                           [[0; 1; 0]; [1; 0; -1]; [0; -1; 1]] 0])
     <-> in_set x triangle_set /\ sat_eq facet_x x) /\
  Forall2 (fun b b' => ISL_F_ISSET b ISL_BASIC_SET_EMPTY = true -> b' = b)
    (p triangle_set)
    (p (mk_set 2 [mk_bmap 2 [[0; 1; 0]]
                    [[0; 1; 0]; [1; 0; -1]; [0; -1; 1]] 0])).
Proof.
  apply (isl_set_add_equality_slices extend_id triangle_set
           (mk_set 2 [mk_bmap 2 [[0; 1; 0]]
                        [[0; 1; 0]; [1; 0; -1]; [0; -1; 1]] 0]) facet_x).
  - intros b0 b1 E. inversion E; subst. split; reflexivity.
  - repeat (once constructor).
  - constructor; [|constructor]. intros F. discriminate F.
  - reflexivity.
Defined.

(** ** Boundedness of a union *)

Lemma isl_set_is_bounded_cases :
  forall (tab : Type) (from_cone : isl_basic_map -> tab) (is_bounded : tab -> Z)
         (set : isl_set),
    let r := isl_set_is_bounded tab from_cone is_bounded set in
    (r = 1 <->
     Forall (fun b => 0 < isl_basic_set_is_bounded tab from_cone is_bounded b)
            (p set)) /\
    (r <> 1 ->
     exists i b,
       nth_error (p set) i = Some b /\
       isl_basic_set_is_bounded tab from_cone is_bounded b = r /\ r <= 0 /\
       Forall (fun b => 0 < isl_basic_set_is_bounded tab from_cone is_bounded b)
              (firstn i (p set))).
Proof.
  intros tab from_cone is_bounded set. unfold isl_set_is_bounded. cbn zeta.
  induction (p set) as [|b ps (IH1 & IH2)]; cbn [isl_set_is_bounded_from].
  - split; [split; [constructor | reflexivity]|]. intros N. congruence.
  - set (v := isl_basic_set_is_bounded tab from_cone is_bounded b).
    destruct (Z.eqb_spec v 0) as [Z0|Z0]; cbn [orb].
    + split.
      * split; [intros E; lia|].
        intros F. inversion F; subst. fold v in H1. lia.
      * intros _. exists 0%nat, b. cbn [nth_error firstn].
        repeat split; [lia | constructor].
    + destruct (Z.ltb_spec v 0) as [N0|N0].
      * split.
        -- split; [intros E; lia|].
           intros F. inversion F; subst. fold v in H1. lia.
        -- intros _. exists 0%nat, b. cbn [nth_error firstn].
           repeat split; [lia | constructor].
      * split.
        -- rewrite IH1. split.
           ++ intros F. constructor; [fold v; lia | exact F].
           ++ intros F. inversion F; assumption.
        -- intros N. destruct (IH2 N) as (i & b0 & Hn & Hv & Hr & Hf).
           exists (S i), b0. cbn [nth_error firstn].
           repeat split; try assumption.
           constructor; [fold v; lia | exact Hf].
Qed.

(** X19: [isl_set_is_bounded] returns 1 exactly when every member is
    reported bounded (a positive value); otherwise it returns what the
    first member that is not reported bounded gave, 0 or an error, without
    looking at the members after it. *)
Theorem isl_set_is_bounded_first_failure :
  forall (tab : Type) (from_cone : isl_basic_map -> tab) (is_bounded : tab -> Z)
         (set : isl_set),
    let r := isl_set_is_bounded tab from_cone is_bounded set in
    (r = 1 <->
     Forall (fun b => 0 < isl_basic_set_is_bounded tab from_cone is_bounded b)
            (p set)) /\
    (r <> 1 ->
     exists i b,
       nth_error (p set) i = Some b /\
       isl_basic_set_is_bounded tab from_cone is_bounded b = r /\ r <= 0 /\
       Forall (fun b => 0 < isl_basic_set_is_bounded tab from_cone is_bounded b)
              (firstn i (p set))).
Proof. exact isl_set_is_bounded_cases. Qed.

Lemma isl_set_is_bounded_at (tab : Type) (from_cone : isl_basic_map -> tab)
    (is_bounded : tab -> Z) (ps : list isl_basic_set) :
  forall (i : nat) (b : isl_basic_set),
    nth_error ps i = Some b ->
    isl_basic_set_is_bounded tab from_cone is_bounded b <= 0 ->
    Forall (fun b => 0 < isl_basic_set_is_bounded tab from_cone is_bounded b)
           (firstn i ps) ->
    isl_set_is_bounded_from tab from_cone is_bounded ps
    = isl_basic_set_is_bounded tab from_cone is_bounded b.
Proof.
  induction ps as [|b0 ps IH]; intros i b E N F; [destruct i; discriminate E|].
  cbn [isl_set_is_bounded_from].
  destruct i as [|i]; cbn [nth_error firstn] in E, F.
  - inversion E; subst b0.
    destruct (Z.eqb_spec (isl_basic_set_is_bounded tab from_cone is_bounded b) 0);
      [reflexivity|].
    destruct (Z.ltb_spec (isl_basic_set_is_bounded tab from_cone is_bounded b) 0);
      [reflexivity | lia].
  - inversion F as [|? ? P0 F']; subst.
    destruct (Z.eqb_spec (isl_basic_set_is_bounded tab from_cone is_bounded b0) 0);
      [lia|].
    destruct (Z.ltb_spec (isl_basic_set_is_bounded tab from_cone is_bounded b0) 0);
      [lia|].
    cbn [orb]. apply (IH i b E N F').
Qed.

(** ** [isl_basic_map_convex_hull] applied twice *)

Lemma ISL_F_ISSET_SET_same (b : isl_basic_map) (f : Z) :
  f <> 0 -> ISL_F_ISSET (ISL_F_SET b f) f = true.
Proof.
  intros Nf. unfold ISL_F_ISSET, ISL_F_SET. cbn [flags].
  apply negb_true_iff, Z.eqb_neq.
  rewrite Z.land_lor_distr_l, Z.land_diag. intros E.
  apply Z.lor_eq_0_iff in E. destruct E as [_ E]. exact (Nf E).
Qed.

Lemma ISL_F_ISSET_SET_other (b : isl_basic_map) (f g : Z) :
  ISL_F_ISSET b f = true -> ISL_F_ISSET (ISL_F_SET b g) f = true.
Proof.
  unfold ISL_F_ISSET, ISL_F_SET. cbn [flags]. intros H.
  apply negb_true_iff, Z.eqb_neq in H. apply negb_true_iff, Z.eqb_neq.
  rewrite Z.land_lor_distr_l. intros E.
  apply Z.lor_eq_0_iff in E. destruct E as [E _]. exact (H E).
Qed.

Lemma basic_hull_result (tab : Type) gauss from_bmap det_eq det_red update
    (b r : isl_basic_map) :
  isl_basic_map_convex_hull tab gauss from_bmap det_eq det_red update (Some b)
    = Some r ->
  ISL_F_ISSET r ISL_BASIC_MAP_EMPTY = true \/
  ISL_F_ISSET r ISL_BASIC_MAP_NO_REDUNDANT = true \/
  (n_ineq r <= 1)%nat.
Proof.
  unfold isl_basic_map_convex_hull. intros E.
  destruct (ISL_F_ISSET (gauss b) ISL_BASIC_MAP_EMPTY) eqn:E1;
    [inversion E; subst; auto|].
  destruct (ISL_F_ISSET (gauss b) ISL_BASIC_MAP_NO_REDUNDANT) eqn:E2;
    [inversion E; subst; auto|].
  destruct (Nat.leb_spec (n_ineq (gauss b)) 1) as [L|L];
    inversion E; subst; clear E; [auto|].
  right. left. apply ISL_F_ISSET_SET_same. discriminate.
Qed.

(** X2: a second application of [isl_basic_map_convex_hull] never runs the
    tableau.  Every result is flagged EMPTY or NO_REDUNDANT or has at most
    one inequality, so that, when Gaussian elimination keeps these two
    flags and adds no inequality, the function applied to its own result
    takes a fast path and returns what the elimination makes of it; the
    result itself when the elimination leaves it alone. *)
Theorem basic_map_convex_hull_twice :
  forall (tab : Type) gauss from_bmap det_eq det_red update
         (b r : isl_basic_map),
    (forall b0, ISL_F_ISSET b0 ISL_BASIC_MAP_EMPTY = true ->
                ISL_F_ISSET (gauss b0) ISL_BASIC_MAP_EMPTY = true) ->
    (forall b0, ISL_F_ISSET b0 ISL_BASIC_MAP_NO_REDUNDANT = true ->
                ISL_F_ISSET (gauss b0) ISL_BASIC_MAP_NO_REDUNDANT = true) ->
    (forall b0, (n_ineq (gauss b0) <= n_ineq b0)%nat) ->
    isl_basic_map_convex_hull tab gauss from_bmap det_eq det_red update (Some b)
      = Some r ->
    (ISL_F_ISSET r ISL_BASIC_MAP_EMPTY = true \/
     ISL_F_ISSET r ISL_BASIC_MAP_NO_REDUNDANT = true \/
     (n_ineq r <= 1)%nat) /\
    isl_basic_map_convex_hull tab gauss from_bmap det_eq det_red update (Some r)
      = Some (gauss r) /\
    (gauss r = r ->
     isl_basic_map_convex_hull tab gauss from_bmap det_eq det_red update (Some r)
       = Some r).
Proof.
  intros tab gauss from_bmap det_eq det_red update b r Ge Gr Gn E.
  pose proof (basic_hull_result tab gauss from_bmap det_eq det_red update b r E)
    as P.
  assert (T : isl_basic_map_convex_hull tab gauss from_bmap det_eq det_red
                update (Some r) = Some (gauss r)).
  { unfold isl_basic_map_convex_hull.
    destruct (ISL_F_ISSET (gauss r) ISL_BASIC_MAP_EMPTY) eqn:E1; [reflexivity|].
    destruct (ISL_F_ISSET (gauss r) ISL_BASIC_MAP_NO_REDUNDANT) eqn:E2;
      [reflexivity|].
    destruct P as [P|[P|P]].
    - rewrite (Ge r P) in E1. discriminate.
    - rewrite (Gr r P) in E2. discriminate.
    - destruct (Nat.leb_spec (n_ineq (gauss r)) 1) as [L|L]; [reflexivity|].
      specialize (Gn r). lia. }
  split; [exact P|]. split; [exact T|].
  intros G. rewrite T, G. reflexivity.
Qed.

Lemma basic_map_convex_hull_twice_witness :
  (ISL_F_ISSET triangle_hull
     ISL_BASIC_MAP_EMPTY = true \/
   ISL_F_ISSET triangle_hull
     ISL_BASIC_MAP_NO_REDUNDANT = true \/
   (n_ineq triangle_hull <= 1)%nat) /\
  isl_basic_map_convex_hull unit gauss_positive_pivot (fun _ => tt)
    (fun t => t) (fun t => t) (fun b _ => b)
    (Some triangle_hull)
  = Some (gauss_positive_pivot
            triangle_hull) /\
  (gauss_positive_pivot triangle_hull
   = mk_bmap 2 [] [[0; 1; 0]; [1; 0; -1]; [0; -1; 1]] 12 ->
   isl_basic_map_convex_hull unit gauss_positive_pivot (fun _ => tt)
     (fun t => t) (fun t => t) (fun b _ => b)
     (Some triangle_hull)
   = Some triangle_hull).
Proof.
  apply (basic_map_convex_hull_twice unit gauss_positive_pivot (fun _ => tt)
           (fun t => t) (fun t => t) (fun b _ => b) triangle
           triangle_hull).
  - intros b0 F. exact F.
  - intros b0 F. exact F.
  - intros b0. unfold n_ineq, gauss_positive_pivot. cbn [ineq]. lia.
  - reflexivity.
Defined.

(** ** Independent bounds: the order of the rows *)

Lemma find_seq_spec (f : nat -> bool) (len : nat) :
  forall s,
    match find f (seq s len) with
    | Some i => (s <= i < s + len)%nat /\ f i = true /\
                forall j, (s <= j < i)%nat -> f j = false
    | None => forall j, (s <= j < s + len)%nat -> f j = false
    end.
Proof.
  induction len as [|len IH]; intros s; cbn [seq find].
  - intros j Hj. lia.
  - destruct (f s) eqn:Fs.
    + split; [lia|]. split; [exact Fs|]. intros j Hj. lia.
    + specialize (IH (S s)). destruct (find f (seq (S s) len)) as [i|].
      * destruct IH as (A & B & C). split; [lia|]. split; [exact B|].
        intros j Hj. destruct (Nat.eq_dec j s) as [->|N]; [exact Fs|].
        apply C. lia.
      * intros j Hj. destruct (Nat.eq_dec j s) as [->|N]; [exact Fs|].
        apply IH. lia.
Qed.

Lemma first_non_zero_spec (r : row) (len : nat) :
  (isl_seq_first_non_zero r len = -1 /\
   forall j, (j < len)%nat -> at_ r j = 0) \/
  (exists k, isl_seq_first_non_zero r len = Z.of_nat k /\ (k < len)%nat /\
             at_ r k <> 0 /\ forall j, (j < k)%nat -> at_ r j = 0).
Proof.
  unfold isl_seq_first_non_zero.
  pose proof (find_seq_spec (fun i => negb (at_ r i =? 0)) len 0) as H.
  destruct (find _ (seq 0 len)) as [i|].
  - right. destruct H as (A & B & C). exists i.
    split; [reflexivity|]. split; [lia|]. split.
    + apply negb_true_iff, Z.eqb_neq in B. exact B.
    + intros j Hj. specialize (C j ltac:(lia)).
      apply negb_false_iff, Z.eqb_eq in C. exact C.
  - left. split; [reflexivity|]. intros j Hj. specialize (H j ltac:(lia)).
    apply negb_false_iff, Z.eqb_eq in H. exact H.
Qed.

Lemma first_non_zero_unique (r : row) (len k : nat) :
  (k < len)%nat -> at_ r k <> 0 -> (forall j, (j < k)%nat -> at_ r j = 0) ->
  isl_seq_first_non_zero r len = Z.of_nat k.
Proof.
  intros Hk Nk Zk.
  destruct (first_non_zero_spec r len) as [(_ & Z0)|(k' & E & Hk' & Nk' & Zk')].
  - destruct (Nk (Z0 k Hk)).
  - rewrite E. f_equal.
    destruct (Nat.lt_trichotomy k k') as [L|[L|L]]; [|exact (eq_sym L)|].
    + destruct (Nk (Zk' k L)).
    + destruct (Nk' (Zk k' L)).
Qed.

Lemma first_non_zero_none (r : row) (len : nat) :
  (forall j, (j < len)%nat -> at_ r j = 0) ->
  isl_seq_first_non_zero r len = -1.
Proof.
  intros Z0.
  destruct (first_non_zero_spec r len) as [(E & _)|(k & _ & Hk & Nk & _)];
    [exact E|].
  destruct (Nk (Z0 k Hk)).
Qed.

Lemma first_non_zero_ext (r q : row) (len : nat) :
  (forall j, (j < len)%nat -> (at_ r j = 0 <-> at_ q j = 0)) ->
  isl_seq_first_non_zero r len = isl_seq_first_non_zero q len.
Proof.
  intros H.
  destruct (first_non_zero_spec r len) as [(E & Z0)|(k & E & Hk & Nk & Zk)];
    rewrite E; symmetry.
  - apply first_non_zero_none. intros j Hj. apply (H j Hj), Z0, Hj.
  - apply first_non_zero_unique; [exact Hk | |].
    + intros Q. apply Nk, (H k Hk), Q.
    + intros j Hj. apply (H j ltac:(lia)), Zk, Hj.
Qed.

Lemma at_map_mul (k : Z) (r : row) (j : nat) :
  at_ (map (Z.mul k) r) j = k * at_ r j.
Proof.
  unfold at_. revert j. induction r as [|a r IH]; intros [|j]; cbn [map nth];
    try lia. apply IH.
Qed.

Lemma first_non_zero_scale (k : Z) (r : row) (len : nat) :
  k <> 0 ->
  isl_seq_first_non_zero (map (Z.mul k) r) len = isl_seq_first_non_zero r len.
Proof.
  intros Nk. apply first_non_zero_ext. intros j _. rewrite at_map_mul.
  split; [intros H; apply Z.mul_eq_0 in H; tauto | intros ->; lia].
Qed.

Lemma first_non_zero_cpy (dst src : row) (len : nat) :
  isl_seq_first_non_zero (isl_seq_cpy dst src len) len
  = isl_seq_first_non_zero src len.
Proof.
  apply first_non_zero_ext. intros j Hj. rewrite at_cpy_lt by exact Hj.
  reflexivity.
Qed.

Lemma elim_loop_position elim (len : nat) :
  elim_contract elim ->
  forall rows i cur pos i' cur',
    increasing (pivots len rows) -> length cur = len ->
    isl_seq_first_non_zero cur len = pos -> 0 <= pos ->
    elim_loop elim rows i cur pos len = EL_position i' cur' ->
    exists k,
      i' = (i + k)%nat /\ (k <= length rows)%nat /\
      length cur' = length cur /\
      pos <= isl_seq_first_non_zero cur' len /\
      Forall (fun a => a < isl_seq_first_non_zero cur' len)
             (pivots len (firstn k rows)) /\
      Forall (fun a => isl_seq_first_non_zero cur' len < a)
             (pivots len (skipn k rows)).
Proof.
  intros Hel. induction rows as [|r rest IH]; intros i cur pos i' cur'
    Inc Lcur Ep P0 E; cbn [elim_loop] in E.
  - inversion E; subst i' cur' pos. exists 0%nat.
    cbn [firstn skipn pivots map length].
    repeat split; try lia; constructor.
  - cbn [pivots map increasing] in Inc. fold (pivots len rest) in Inc.
    subst pos. destruct Inc as (Ir & Er).
    set (pos_i := isl_seq_first_non_zero (tl r) len) in *.
    destruct (Z.ltb_spec pos_i (isl_seq_first_non_zero cur len)) as [L1|L1].
    + destruct (IH _ _ _ _ _ Er Lcur eq_refl P0 E)
        as (k & Ei & Hk & Hl & Hp & F1 & F2).
      exists (S k). cbn [firstn skipn pivots map length].
      fold (pivots len (firstn k rest)).
      repeat split; try lia; try assumption.
      constructor; [fold pos_i; lia | exact F1].
    + destruct (Z.ltb_spec (isl_seq_first_non_zero cur len) pos_i) as [L2|L2].
      * inversion E; subst i' cur'. exists 0%nat.
        cbn [firstn skipn pivots map length]. fold (pivots len rest).
        repeat split; try lia; [constructor|].
        constructor; [fold pos_i; exact L2|].
        eapply Forall_impl; [|exact Ir]. cbn beta. fold pos_i. intros a Ha. lia.
      * assert (Eq : pos_i = isl_seq_first_non_zero cur len) by lia.
        destruct (first_non_zero_spec cur len)
          as [(E1 & _)|(kc & Ec & Hkc & Nkc & Zkc)]; [lia|].
        destruct (first_non_zero_spec (tl r) len)
          as [(E1 & _)|(kr & Ekr & Hkr & Nkr & Zkr)];
          [fold pos_i in E1; lia|].
        fold pos_i in Ekr.
        assert (Ek : kr = kc) by lia. subst kr.
        rewrite Ec in E. rewrite Nat2Z.id in E.
        destruct (Hel cur (tl r) kc len Hkc Lcur Nkr) as (Ln & Z0 & Zb).
        set (cur1 := elim cur (tl r) kc len) in *.
        assert (Gt : isl_seq_first_non_zero cur1 len = -1 \/
                     Z.of_nat kc < isl_seq_first_non_zero cur1 len).
        { destruct (first_non_zero_spec cur1 len)
            as [(E1 & _)|(k1 & E1 & Hk1 & Nk1 & Zk1)]; [left; exact E1|].
          right. rewrite E1.
          destruct (Nat.lt_trichotomy k1 kc) as [L|[L|L]]; [| |lia].
          - destruct (Nk1 (Zb k1 L (Zkc k1 L) (Zkr k1 L))).
          - subst k1. destruct (Nk1 Z0). }
        destruct (Z.ltb_spec (isl_seq_first_non_zero cur1 len) 0) as [L3|L3];
          [discriminate E|].
        destruct Gt as [Gt|Gt]; [lia|].
        assert (Lcur1 : length cur1 = len) by lia.
        destruct (IH _ _ _ _ _ Er Lcur1 eq_refl L3 E)
          as (k & Ei & Hk & Hl & Hp & F1 & F2).
        exists (S k). cbn [firstn skipn pivots map length].
        fold (pivots len (firstn k rest)).
        repeat split; try lia; try assumption.
        constructor; [fold pos_i; lia | exact F1].
Qed.

Lemma firstn_exact {A : Type} (X Y : list A) (n : nat) :
  length X = n -> firstn n (X ++ Y) = X.
Proof.
  intros <-. rewrite firstn_app, firstn_all, Nat.sub_diag. cbn [firstn].
  apply app_nil_r.
Qed.

Lemma skipn_exact {A : Type} (X Y : list A) (n : nat) :
  length X = n -> skipn n (X ++ Y) = Y.
Proof.
  intros <-. rewrite skipn_app, skipn_all, Nat.sub_diag. reflexivity.
Qed.

Lemma nth_exact {A : Type} (X Y : list A) (a d : A) (n : nat) :
  length X = n -> nth n (X ++ a :: Y) d = a.
Proof.
  intros <-. rewrite app_nth2 by lia. rewrite Nat.sub_diag. reflexivity.
Qed.

Lemma rows_split (dirs : isl_mat) (i n : nat) :
  (i <= n)%nat -> (n < length dirs)%nat ->
  dirs = firstn i dirs ++ firstn (n - i) (skipn i dirs)
           ++ nth n dirs [] :: skipn (S n) dirs /\
  firstn n dirs = firstn i dirs ++ firstn (n - i) (skipn i dirs).
Proof.
  intros Hi Hn.
  assert (F : firstn n dirs = firstn i dirs ++ firstn (n - i) (skipn i dirs)).
  { rewrite <- (firstn_skipn i (firstn n dirs)) at 1.
    rewrite firstn_firstn, Nat.min_l by exact Hi. f_equal.
    rewrite firstn_skipn_comm. f_equal. f_equal. lia. }
  split; [|exact F].
  rewrite app_assoc, <- F.
  rewrite <- (firstn_skipn n dirs) at 1. f_equal.
  clear F Hi. revert n Hn. induction dirs as [|d dirs IH]; intros n Hn;
    cbn [length] in Hn; [lia|].
  destruct n as [|n]; [reflexivity|]. cbn [skipn nth]. apply IH. lia.
Qed.

Section RowsRotation.

Variables (A B C : isl_mat) (o r : row) (i n : nat).
Hypothesis len_A : length A = i.
Hypothesis len_B : length B = (n - i)%nat.
Hypothesis i_le_n : (i <= n)%nat.

Lemma set_row_split : set_row (A ++ B ++ o :: C) n r = A ++ B ++ r :: C.
Proof.
  unfold set_row. rewrite !app_assoc.
  assert (L : length (A ++ B) = n) by (rewrite length_app; lia).
  rewrite (firstn_exact (A ++ B) (o :: C) n L).
  replace (S n) with (length ((A ++ B) ++ [o]))
    by (rewrite length_app, L; cbn [length]; lia).
  replace ((A ++ B) ++ o :: C) with (((A ++ B) ++ [o]) ++ C)
    by (rewrite <- !app_assoc; reflexivity).
  rewrite (skipn_exact ((A ++ B) ++ [o]) C _ eq_refl).
  rewrite <- !app_assoc. reflexivity.
Qed.

Lemma rotate_rows_split :
  rotate_rows (A ++ B ++ r :: C) i n = A ++ r :: B ++ C.
Proof.
  unfold rotate_rows.
  assert (L : length (A ++ B) = n) by (rewrite length_app; lia).
  assert (E1 : firstn i (A ++ B ++ r :: C) = A)
    by (apply firstn_exact, len_A).
  assert (E2 : skipn i (A ++ B ++ r :: C) = B ++ r :: C)
    by (apply skipn_exact, len_A).
  assert (E3 : nth n (A ++ B ++ r :: C) [] = r)
    by (rewrite app_assoc; apply nth_exact, L).
  assert (E4 : skipn (S n) (A ++ B ++ r :: C) = C).
  { replace (A ++ B ++ r :: C) with (((A ++ B) ++ [r]) ++ C)
      by (rewrite <- !app_assoc; reflexivity).
    apply skipn_exact. rewrite length_app, L. cbn [length]. lia. }
  rewrite E1, E2, E3, E4, (firstn_exact B _ _ len_B). reflexivity.
Qed.

Lemma firstn_rotated : firstn (S n) (A ++ r :: B ++ C) = A ++ r :: B.
Proof.
  replace (A ++ r :: B ++ C) with ((A ++ r :: B) ++ C)
    by (rewrite <- app_assoc; reflexivity).
  apply firstn_exact. rewrite length_app. cbn [length]. lia.
Qed.

Lemma skipn_rotated : skipn (S n) (A ++ r :: B ++ C) = C.
Proof.
  replace (A ++ r :: B ++ C) with ((A ++ r :: B) ++ C)
    by (rewrite <- app_assoc; reflexivity).
  apply skipn_exact. rewrite length_app. cbn [length]. lia.
Qed.

End RowsRotation.

Lemma increasing_app (l1 l2 : list Z) :
  increasing (l1 ++ l2) <->
  increasing l1 /\ increasing l2 /\
  Forall (fun a => Forall (fun b => a < b) l2) l1.
Proof.
  induction l1 as [|a l1 IH]; cbn [app increasing].
  - split; [intros H; repeat split; [exact H | constructor] | tauto].
  - rewrite IH, Forall_app. split.
    + intros ((F1 & F2) & I1 & I2 & F). repeat split; try assumption.
      constructor; assumption.
    + intros ((F1 & I1) & I2 & F). inversion F; subst. tauto.
Qed.

Lemma increasing_insert (len : nat) (A B : isl_mat) (r : row) :
  increasing (pivots len (A ++ B)) ->
  Forall (fun a => a < isl_seq_first_non_zero (tl r) len) (pivots len A) ->
  Forall (fun a => isl_seq_first_non_zero (tl r) len < a) (pivots len B) ->
  increasing (pivots len (A ++ r :: B)).
Proof.
  unfold pivots. rewrite !map_app. cbn [map].
  rewrite !increasing_app. cbn [increasing].
  intros (IA & IB & FAB) FA FB.
  split; [exact IA|]. split; [split; assumption|].
  rewrite Forall_forall in *. intros a Ha.
  constructor; [apply FA, Ha|]. apply FAB, Ha.
Qed.

Lemma reduce_against_position elim (c : row) (dirs : isl_mat)
    (n_col n i : nat) (cur : row) :
  elim_contract elim ->
  (n < length dirs)%nat ->
  length (nth n dirs []) = n_col -> (1 <= n_col)%nat ->
  increasing (pivots (n_col - 1) (firstn n dirs)) ->
  reduce_against elim c dirs n_col n = EL_position i cur ->
  (i <= n)%nat /\ length cur = (n_col - 1)%nat /\
  (n <> 0%nat -> 0 <= isl_seq_first_non_zero cur (n_col - 1)) /\
  Forall (fun a => a < isl_seq_first_non_zero cur (n_col - 1))
         (pivots (n_col - 1) (firstn i (firstn n dirs))) /\
  Forall (fun a => isl_seq_first_non_zero cur (n_col - 1) < a)
         (pivots (n_col - 1) (skipn i (firstn n dirs))).
Proof.
  intros Hel Hn Lold Hcol Ech. unfold reduce_against.
  set (old := nth n dirs []) in *.
  set (cur0 := isl_seq_cpy (tl old) (tl c) (n_col - 1)).
  assert (L0 : length cur0 = (n_col - 1)%nat).
  { unfold cur0, isl_seq_cpy.
    rewrite length_overwrite, length_map, length_seq.
    destruct old; cbn [length tl] in *; lia. }
  assert (P0 : isl_seq_first_non_zero cur0 (n_col - 1)
               = isl_seq_first_non_zero (tl c) (n_col - 1))
    by apply first_non_zero_cpy.
  destruct (Nat.eqb_spec n 0) as [N0|N0].
  - intros R. inversion R; subst i cur; clear R.
    split; [lia|]. split; [exact L0|].
    split; [intros N; destruct (N N0)|].
    subst n. cbn [firstn skipn pivots map]. split; constructor.
  - destruct (Z.ltb_spec (isl_seq_first_non_zero cur0 (n_col - 1)) 0) as [L|L];
      [discriminate|].
    intros El.
    destruct (elim_loop_position elim (n_col - 1) Hel _ _ _ _ _ _
                Ech L0 eq_refl L El) as (k & Ei & Hk & Hl & Hp & F1 & F2).
    cbn [Nat.add] in Ei. subst k. rewrite length_firstn in Hk.
    repeat split; try assumption; lia.
Qed.

(** X3: [is_independent_bound] keeps the directions ordered by their first
    non-zero positions (the position [isl_seq_first_non_zero] gives for
    the coefficients of a row, -1 for a row of zeros).  When these
    positions increase strictly over the [n] rows found so far and the
    call returns 1, they increase strictly over the [n + 1] rows it
    leaves: the new row has been put at the place its first non-zero
    position asks for, the rows found before keep their order, the rows
    after them are untouched, and the new row is a bound of the set.  The
    new row has a non-zero coefficient when [n] is not 0; for [n = 0] the
    code makes no such test. *)
Theorem is_independent_bound_keeps_order :
  forall lp ste elim (set : isl_set) (c : row) (dirs : isl_mat)
         (n_col n : nat),
    elim_contract elim ->
    (forall b f, In b (p set) -> ISL_F_ISSET b ISL_BASIC_SET_EMPTY = false ->
                 lp_contract b f (lp b false f 1 true)) ->
    (forall b, In b (p set) -> ISL_F_ISSET b ISL_BASIC_SET_EMPTY = true ->
               forall x, ~ in_bmap x b) ->
    (forall b b', ste b = Some b' ->
       ISL_F_ISSET b' ISL_BASIC_SET_EMPTY = true /\ forall x, ~ in_bmap x b') ->
    (n < length dirs)%nat ->
    length (nth n dirs []) = n_col -> (1 <= n_col)%nat ->
    increasing (pivots (n_col - 1) (firstn n dirs)) ->
    ind_ret (is_independent_bound lp ste elim set c dirs n_col n) = 1 ->
    increasing
      (pivots (n_col - 1)
         (firstn (S n)
            (ind_dirs (is_independent_bound lp ste elim set c dirs n_col n)))) /\
    skipn (S n) (ind_dirs (is_independent_bound lp ste elim set c dirs n_col n))
      = skipn (S n) dirs /\
    exists i new,
      (i <= n)%nat /\
      firstn (S n) (ind_dirs (is_independent_bound lp ste elim set c dirs n_col n))
        = firstn i dirs ++ new :: firstn (n - i) (skipn i dirs) /\
      (n <> 0%nat -> 0 <= isl_seq_first_non_zero (tl new) (n_col - 1)) /\
      forall x, in_set x set -> sat_ineq new x.
Proof.
  intros lp ste elim set c dirs n_col n Hel Hlp Hfl Hste Hn Lold Hcol Ech.
  unfold is_independent_bound.
  destruct (reduce_against elim c dirs n_col n) as [cur|i cur] eqn:Rd;
    [cbn [ind_ret]; discriminate|].
  destruct (reduce_against_position elim c dirs n_col n i cur Hel Hn Lold Hcol
              Ech Rd) as (Hi & Lc & Pc & F1 & F2).
  set (row0 := hd 0 (nth n dirs []) :: cur).
  assert (Lr : length row0 = n_col) by (unfold row0; cbn [length]; lia).
  assert (H1 : (1 <= length row0)%nat) by lia.
  pose proof (uset_is_bound_correct lp ste set row0 H1 Hlp Hfl Hste) as K.
  cbn zeta in K. rewrite Lr in K.
  set (r := uset_is_bound lp ste set row0 n_col) in *.
  destruct K as (_ & _ & _ & _ & _ & _ & V).
  cbn zeta.
  destruct (Z.eqb_spec (ib_ret r) 1) as [E1|E1]; cbn [negb];
    [|cbn [ind_ret]; congruence].
  intros _.
  destruct (V E1) as (kk & Hkk & _ & Htl & Val & _).
  assert (Pn : isl_seq_first_non_zero (tl (ib_c r)) (n_col - 1)
               = isl_seq_first_non_zero cur (n_col - 1)).
  { rewrite Htl. unfold row0. cbn [tl]. apply first_non_zero_scale. lia. }
  destruct (rows_split dirs i n Hi Hn) as (D & F).
  set (A := firstn i dirs) in *.
  set (B := firstn (n - i) (skipn i dirs)) in *.
  set (C := skipn (S n) dirs) in *.
  assert (LA : length A = i) by (unfold A; rewrite length_firstn; lia).
  assert (LB : length B = (n - i)%nat)
    by (unfold B; rewrite length_firstn, length_skipn; lia).
  rewrite F in F1, F2, Ech.
  rewrite (firstn_exact A B i LA) in F1. rewrite (skipn_exact A B i LA) in F2.
  assert (S1 : set_row dirs n (ib_c r) = A ++ B ++ ib_c r :: C).
  { rewrite D at 1. exact (set_row_split A B C _ (ib_c r) i n LA LB Hi). }
  assert (S2 : ind_dirs
                 (if Nat.ltb i n
                  then mk_independent 1 (ib_set r)
                         (rotate_rows (set_row dirs n (ib_c r)) i n)
                  else mk_independent 1 (ib_set r) (set_row dirs n (ib_c r)))
               = A ++ ib_c r :: B ++ C).
  { rewrite S1. destruct (Nat.ltb_spec i n) as [L|L]; cbn [ind_dirs].
    - exact (rotate_rows_split A B C (ib_c r) i n LA LB Hi).
    - assert (B0 : B = []) by (apply length_zero_iff_nil; lia).
      rewrite B0. reflexivity. }
  rewrite S2.
  rewrite (firstn_rotated A B C (ib_c r) i n LA LB Hi).
  rewrite (skipn_rotated A B C (ib_c r) i n LA LB Hi).
  split; [|split; [reflexivity|]].
  - apply increasing_insert; [exact Ech | |]; rewrite Pn; assumption.
  - exists i, (ib_c r). split; [exact Hi|]. split; [reflexivity|].
    split; [rewrite Pn; exact Pc | exact Val].
Qed.

Lemma seq_elim_gcd_contract : elim_contract seq_elim_gcd.
Proof.
  intros dst src pos len Hpos Ld Ns. unfold seq_elim_gcd.
  destruct (Z.eqb_spec (at_ dst pos) 0) as [Zd|Nd].
  - split; [reflexivity|]. split; [exact Zd|]. intros j _ Zj _. exact Zj.
  - set (s := at_ src pos) in *. set (d := at_ dst pos) in *.
    set (g := Z.gcd s d).
    assert (Gp : 0 < g).
    { pose proof (Z.gcd_nonneg s d) as G0.
      destruct (Z.eq_dec g 0) as [G|G]; [|unfold g in *; lia].
      apply Z.gcd_eq_0_l in G. destruct (Ns G). }
    destruct (Z.gcd_divide_l s d) as (s' & Es).
    destruct (Z.gcd_divide_r s d) as (d' & Ed).
    fold g in Es, Ed.
    assert (Qs : s / g = s') by (rewrite Es; apply Z.div_mul; lia).
    assert (Qd : d / g = d') by (rewrite Ed; apply Z.div_mul; lia).
    rewrite Qs, Qd.
    split; [|split].
    + unfold isl_seq_combine.
      rewrite length_overwrite, length_map, length_seq. lia.
    + rewrite at_combine_lt by exact Hpos. fold s d.
      destruct (Z.ltb_spec 0 s) as [Ps|Ps].
      * assert (Ps' : 0 < s') by nia.
        rewrite Z.abs_eq by lia. rewrite Es, Ed. ring.
      * assert (Ps' : s' < 0) by nia.
        rewrite Z.abs_neq by lia. rewrite Es, Ed. ring.
    + intros j Hj Zj Zs. rewrite at_combine_lt by lia. rewrite Zj, Zs. lia.
Defined.

Lemma lp_triangle_contract :
  forall b f, In b (p triangle_set) ->
    ISL_F_ISSET b ISL_BASIC_SET_EMPTY = false ->
    lp_contract b f (lp_triangle b false f 1 true).
Proof.
  intros b f [<-|[]] _. destruct f as [|f1 [|f2 [|f3 f]]]; try exact I.
  unfold lp_contract, lp_triangle. cbn [lp_res lp_num lp_den].
  split; [lia|]. split.
  - intros x Hx.
    assert (Hs : in_set x triangle_set) by (left; exact Hx).
    apply triangle_in_set in Hs. destruct Hs as (P & A & B & C).
    unfold at_ in *. destruct (pv x) as [|x1 [|x2 w]]; cbn [nth dot] in *.
    + nia.
    + nia.
    + set (m := Z.min 0 (Z.min f2 (f1 + f2))).
      assert (M0 : m <= 0) by (unfold m; lia).
      assert (M1 : m <= f2) by (unfold m; lia).
      assert (M2 : m <= f1 + f2) by (unfold m; lia).
      assert (K1 : 0 <= (f1 + f2 - m) * x1) by (apply Z.mul_nonneg_nonneg; lia).
      assert (K2 : 0 <= (f2 - m) * (x2 - x1)) by (apply Z.mul_nonneg_nonneg; lia).
      assert (K3 : 0 <= (0 - m) * (pd x - x2)) by (apply Z.mul_nonneg_nonneg; lia).
      nia.
  - destruct (Z.min_spec 0 (Z.min f2 (f1 + f2))) as [(L & ->)|(L & ->)].
    + exists (mk_point 1 [0; 0]). split; [|cbn [pd pv dot]; lia].
      split; [reflexivity|].
      split; repeat (once constructor); eval_rows; lia.
    + destruct (Z.min_spec f2 (f1 + f2)) as [(L' & ->)|(L' & ->)].
      * exists (mk_point 1 [0; 1]). split; [|cbn [pd pv dot]; lia].
        split; [reflexivity|].
        split; repeat (once constructor); eval_rows; lia.
      * exists (mk_point 1 [1; 1]). split; [|cbn [pd pv dot]; lia].
        split; [reflexivity|].
        split; repeat (once constructor); eval_rows; lia.
Defined.

Lemma triangle_unflagged :
  forall b, In b (p triangle_set) ->
    ISL_F_ISSET b ISL_BASIC_SET_EMPTY = true -> forall x, ~ in_bmap x b.
Proof. intros b [<-|[]] F; discriminate F. Defined.

(** With no row found yet a row of zeros is accepted, at position -1: the
    test for a zero row is made only when [n] is not 0. *)
Example is_independent_bound_accepts_zero_row :
  ind_ret (is_independent_bound lp_triangle set_to_empty seq_elim_gcd
             triangle_set [5; 0; 0] [[0; 0; 0]; [0; 0; 0]] 3 0) = 1 /\
  pivots 2 (firstn 1
              (ind_dirs (is_independent_bound lp_triangle set_to_empty
                           seq_elim_gcd triangle_set [5; 0; 0]
                           [[0; 0; 0]; [0; 0; 0]] 3 0))) = [-1].
Proof. vm_compute. split; reflexivity. Qed.

Lemma is_independent_bound_keeps_order_witness :
  increasing (pivots 2 (firstn 2 [[0; 1; 0]; [0; 0; 1]])) /\
  skipn 2 [[0; 1; 0]; [0; 0; 1]] = skipn 2 [[0; 1; 0]; [0; 0; 0]] /\
  exists i new,
    (i <= 1)%nat /\
    firstn 2 [[0; 1; 0]; [0; 0; 1]]
    = firstn i [[0; 1; 0]; [0; 0; 0]]
        ++ new :: firstn (1 - i) (skipn i [[0; 1; 0]; [0; 0; 0]]) /\
    (1%nat <> 0%nat -> 0 <= isl_seq_first_non_zero (tl new) 2) /\
    forall x, in_set x triangle_set -> sat_ineq new x.
Proof.
  apply (is_independent_bound_keeps_order lp_triangle set_to_empty
           seq_elim_gcd triangle_set [0; -1; 1] [[0; 1; 0]; [0; 0; 0]] 3 1
           seq_elim_gcd_contract lp_triangle_contract triangle_unflagged
           set_to_empty_marks).
  - cbn [length]. lia.
  - reflexivity.
  - lia.
  - repeat (once constructor).
  - vm_compute. reflexivity.
Defined.

(** ** The hulls as the functions return them *)

Lemma map_option_Forall2 {A B : Type} (f : A -> option B) (l : list A) :
  forall l', map_option f l = Some l' ->
             Forall2 (fun a b => f a = Some b) l l'.
Proof.
  induction l as [|a l IH]; intros l' E; cbn [map_option] in E.
  - inversion E; subst. constructor.
  - destruct (f a) as [b|] eqn:Fa; [|discriminate].
    destruct (map_option f l) as [l1|]; [|discriminate].
    cbn [option_map] in E. inversion E; subst.
    constructor; [exact Fa | apply IH; reflexivity].
Qed.

Lemma Forall2_In_l {A B : Type} (R : A -> B -> Prop) (l : list A) (l' : list B) :
  Forall2 R l l' -> forall a, In a l -> exists b, In b l' /\ R a b.
Proof.
  induction 1 as [|a0 b0 l l' Hab _ IH]; intros a Ha; [destruct Ha|].
  destruct Ha as [<-|Ha].
  - exists b0. split; [left; reflexivity | exact Hab].
  - destruct (IH a Ha) as (b & Hb & Rb). exists b. split; [right|]; assumption.
Qed.

Lemma Forall2_In_r {A B : Type} (R : A -> B -> Prop) (l : list A) (l' : list B) :
  Forall2 R l l' -> forall b, In b l' -> exists a, In a l /\ R a b.
Proof.
  induction 1 as [|a0 b0 l l' Hab _ IH]; intros b Hb; [destruct Hb|].
  destruct Hb as [<-|Hb].
  - exists a0. split; [left; reflexivity | exact Hab].
  - destruct (IH b Hb) as (a & Ha & Ra). exists a. split; [right|]; assumption.
Qed.

Lemma set_rational_keeps_points finalize (b b' : isl_basic_set) :
  (forall b0 b1, finalize b0 = Some b1 ->
                 forall x, in_bmap x b0 -> in_bmap x b1) ->
  isl_basic_set_set_rational finalize b = Some b' ->
  forall x, in_bmap x b -> in_bmap x b'.
Proof.
  intros Hf E x Hx. unfold isl_basic_set_set_rational in E.
  destruct (ISL_F_ISSET b ISL_BASIC_MAP_RATIONAL).
  - inversion E; subst. exact Hx.
  - apply (Hf _ _ E). exact Hx.
Qed.

(** X16: [convex_hull_1d] returns a polyhedron that contains the set, when
    [isl_basic_set_simplify] leaves members of the expected form with the
    points they had, [isl_set_remove_empty_parts] drops no point and
    [isl_basic_set_finalize] keeps the points. *)
Theorem convex_hull_1d_contains_set :
  forall simplify remove_empty finalize (set : isl_set) (hull : isl_basic_set),
    (forall b b', In b (p set) -> simplify b = Some b' ->
       plain_1d b' /\ forall x, in_bmap x b -> in_bmap x b') ->
    (forall s s', remove_empty s = Some s' ->
       (forall b, In b (p s') -> In b (p s)) /\
       (forall x, in_set x s -> in_set x s')) ->
    (forall b b', finalize b = Some b' ->
       forall x, in_bmap x b -> in_bmap x b') ->
    convex_hull_1d simplify remove_empty finalize set = Some hull ->
    forall x, in_set x set -> in_bmap x hull.
Proof.
  intros simplify remove_empty finalize set hull Hs Hr Hf E x Hx.
  unfold convex_hull_1d in E.
  destruct (map_option simplify (p set)) as [ps|] eqn:Em; [|discriminate].
  destruct (remove_empty (mk_set (set_dim set) ps)) as [set1|] eqn:Er;
    [|discriminate].
  destruct (bounds_of_members (p set1)) as [b|] eqn:Eb; [|discriminate].
  destruct (isl_basic_set_set_rational finalize (mk_bmap 1 [] [] 0))
    as [hull0|] eqn:E0; [|discriminate].
  pose proof (map_option_Forall2 _ _ _ Em) as F2.
  destruct (Hr _ _ Er) as (Sub & Keep). cbn [p] in Sub.
  assert (X1 : in_set x set1).
  { apply Keep. unfold in_set in *. cbn [p].
    apply Exists_exists in Hx. destruct Hx as (m & Hm & Xm).
    destruct (Forall2_In_l _ _ _ F2 m Hm) as (m' & Hm' & Sm).
    apply Exists_exists. exists m'. split; [exact Hm'|].
    apply (proj2 (Hs m m' Hm Sm)), Xm. }
  assert (Pl : Forall plain_1d (p set1)).
  { apply Forall_forall. intros m1 Hm1.
    destruct (Forall2_In_r _ _ _ F2 m1 (Sub m1 Hm1)) as (m & Hm & Sm).
    apply (proj1 (Hs m m1 Hm Sm)). }
  apply Exists_exists in X1. destruct X1 as (m1 & Hm1 & Xm1).
  pose proof (bounds_of_members_contain (p set1) b Pl Eb m1 x Hm1 Xm1) as Rows.
  assert (P : 0 < pd x) by apply Xm1.
  assert (X0 : in_bmap x hull0).
  { apply (set_rational_keeps_points finalize _ _ Hf E0).
    split; [exact P|]. split; constructor. }
  apply (Hf _ _ E). destruct X0 as (_ & Xe & Xi).
  split; [exact P|]. split; [exact Xe|]. cbn [ineq].
  apply Forall_app. split; assumption.
Qed.

Lemma convex_hull_1d_contains_set_witness :
  in_bmap (mk_point 1 [4]) (mk_bmap 1 [] [[-1; 1]; [5; -1]] 16).
Proof.
  apply (convex_hull_1d_contains_set finalize_id remove_empty_none finalize_id
           two_intervals (mk_bmap 1 [] [[-1; 1]; [5; -1]] 16)).
  - intros b b' Hb E. inversion E; subst b'. split; [|auto].
    pose proof two_intervals_plain as Pl. rewrite Forall_forall in Pl.
    apply Pl, Hb.
  - intros s s' E. inversion E; subst s'. split; auto.
  - intros b b' E. inversion E; subst b'. auto.
  - vm_compute. reflexivity.
  - right. left. split; [reflexivity|].
    split; repeat (once constructor); eval_rows; lia.
Defined.

(** ** The feasible points of the LP of [wrap_constraints] *)

Lemma dot_app_skipn (f g : row) :
  forall v, dot (f ++ g) v = dot f v + dot g (skipn (length f) v).
Proof.
  induction f as [|a f IH]; intros v; cbn [app length skipn dot]; [lia|].
  destruct v as [|b v]; cbn [dot skipn].
  - rewrite dot_nil_r. destruct (f ++ g); reflexivity.
  - rewrite IH. lia.
Qed.

Lemma at_skipn (k j : nat) (v : row) : at_ (skipn k v) j = at_ v (k + j).
Proof. unfold at_. rewrite nth_skipn. f_equal. Qed.

Lemma dot_sum_blocks (dim : nat) :
  (2 <= dim)%nat ->
  forall n v,
    dot (concat (repeat (0 :: 1 :: zeros (dim - 2)) n)) v
    = fold_right Z.add 0 (map (fun i => at_ v (dim * i + 1)) (seq 0 n)).
Proof.
  intros Hd. induction n as [|n IH]; intros v; [reflexivity|].
  cbn [repeat concat]. rewrite dot_app_skipn.
  assert (L : length (0 :: 1 :: zeros (dim - 2)) = dim)
    by (cbn [length]; rewrite length_zeros; lia).
  rewrite L, IH. cbn [seq map fold_right].
  rewrite map_seq_shift.
  assert (B : dot (0 :: 1 :: zeros (dim - 2)) v = at_ v (dim * 0 + 1)).
  { rewrite Nat.mul_0_r. unfold at_.
    pose proof (dot_zeros (dim - 2)) as Z0.
    set (z := zeros (dim - 2)) in *.
    destruct v as [|a [|b v]]; cbn [dot nth Nat.add]; try lia.
    rewrite Z0. lia. }
  rewrite B. f_equal. f_equal. apply map_ext. intros i.
  rewrite at_skipn. f_equal. lia.
Qed.

Lemma eval_wrap_sum_row_any (dim n : nat) (y : point) :
  (2 <= dim)%nat ->
  eval (wrap_sum_row dim n) y = - pd y + wrap_first_sum dim n y.
Proof.
  intros Hd. unfold eval, wrap_sum_row, wrap_first_sum.
  cbn [tl]. unfold at_ at 1. cbn [nth].
  rewrite (dot_sum_blocks dim Hd). lia.
Qed.

Lemma eval_wrap_block_row_any (dim n i : nat) (c : row) (y : point) :
  (1 <= dim)%nat -> length c = dim ->
  eval (wrap_block_row dim n i c) y = eval c (wrap_part dim i y).
Proof.
  intros Hd L. rewrite eval_hom. unfold wrap_block_row, wrap_part.
  rewrite (cpy_same c dim L), dot_zeros_app, dot_app_zeros.
  apply dot_skipn_part. lia.
Qed.

Lemma eval_wrap_dilation_row_any (dim n i : nat) (y : point) :
  (1 <= dim)%nat -> (i < n)%nat ->
  eval (wrap_dilation_row dim n i) y = pd (wrap_part dim i y).
Proof.
  intros Hd Hi. rewrite eval_hom. unfold wrap_dilation_row, wrap_part. cbn [pd].
  rewrite dot_set_at by (rewrite length_zeros; nia).
  rewrite dot_zeros, at_zeros. lia.
Qed.

Lemma wrap_constraints_from_points (dim n : nat) (y : point)
    (ps : list isl_basic_set) :
  (1 <= dim)%nat ->
  forall j,
    (j + length ps <= n)%nat ->
    Forall (fun b => Forall (fun c => length c = dim) (eq b) /\
                     Forall (fun c => length c = dim) (ineq b)) ps ->
    (Forall (fun c => sat_eq c y) (fst (wrap_constraints_from dim n j ps)) /\
     Forall (fun c => sat_ineq c y) (snd (wrap_constraints_from dim n j ps))
     <->
     forall k b, nth_error ps k = Some b -> in_cone (wrap_part dim (j + k) y) b).
Proof.
  intros Hd. induction ps as [|b ps IH]; intros j Hj R;
    cbn [wrap_constraints_from].
  - cbn [fst snd]. split.
    + intros _ k b0 E. destruct k; discriminate E.
    + intros _. split; constructor.
  - inversion R as [|? ? (Re & Ri) R']; subst. cbn [length] in Hj.
    specialize (IH (S j) ltac:(lia) R').
    destruct (wrap_constraints_from dim n (S j) ps) as [eqs ineqs].
    cbn [fst snd] in *.
    rewrite Forall_app, Forall_cons_iff, Forall_app.
    rewrite (Forall_map_iff (wrap_block_row dim n j) (fun c => sat_eq c y)
               (fun c => sat_eq c (wrap_part dim j y)) (eq b)).
    2:{ intros c Hc. unfold sat_eq.
        rewrite eval_wrap_block_row_any; [reflexivity | exact Hd |].
        rewrite Forall_forall in Re. apply Re, Hc. }
    rewrite (Forall_map_iff (wrap_block_row dim n j) (fun c => sat_ineq c y)
               (fun c => sat_ineq c (wrap_part dim j y)) (ineq b)).
    2:{ intros c Hc. unfold sat_ineq.
        rewrite eval_wrap_block_row_any; [reflexivity | exact Hd |].
        rewrite Forall_forall in Ri. apply Ri, Hc. }
    unfold sat_ineq at 1. rewrite eval_wrap_dilation_row_any by lia.
    split.
    + intros ((E1 & E2) & D & I1 & I2) k b0 Ek.
      destruct k as [|k]; cbn [nth_error] in Ek.
      * inversion Ek; subst b0. rewrite Nat.add_0_r.
        split; [exact D|]. split; assumption.
      * replace (j + S k)%nat with (S j + k)%nat by lia.
        apply (proj1 IH (conj E2 I2) k b0 Ek).
    + intros H.
      destruct (H 0%nat b eq_refl) as (D & E1 & I1).
      rewrite Nat.add_0_r in D, E1, I1.
      assert (T : forall k b0, nth_error ps k = Some b0 ->
                    in_cone (wrap_part dim (S j + k) y) b0).
      { intros k b0 Ek. replace (S j + k)%nat with (j + S k)%nat by lia.
        apply (H (S k) b0 Ek). }
      destruct (proj2 IH T) as (E2 & I2). tauto.
Qed.

Lemma wrap_points_iff :
  forall (set : isl_set) (y : point),
    (1 <= isl_set_n_dim set)%nat ->
    rows_of_dim set ->
    (in_bmap y (wrap_constraints set) <->
     0 < pd y /\
     wrap_first_sum (1 + isl_set_n_dim set) (length (p set)) y = pd y /\
     forall i b, nth_error (p set) i = Some b ->
                 in_cone (wrap_part (1 + isl_set_n_dim set) i y) b).
Proof.
  intros set y Hd R. unfold in_bmap, wrap_constraints.
  pose proof (wrap_constraints_from_points (1 + isl_set_n_dim set)
                (length (p set)) y (p set) ltac:(lia) 0 ltac:(lia) R) as W.
  destruct (wrap_constraints_from (1 + isl_set_n_dim set) (length (p set)) 0
              (p set)) as [eqs ineqs].
  cbn [fst snd eq ineq] in *. rewrite Forall_cons_iff.
  unfold sat_eq at 1. rewrite eval_wrap_sum_row_any by lia.
  split.
  - intros (P & (S & E) & I). split; [exact P|]. split; [lia|].
    apply (proj1 W (conj E I)).
  - intros (P & S & H). destruct (proj2 W H) as (E & I).
    split; [exact P|]. split; [split; [lia | exact E] | exact I].
Qed.

(** X6: the feasible points of the LP that [wrap_constraints] builds.  A
    point satisfies its constraints exactly when every block lies in the
    homogeneous cone of its member (the member's equalities and
    inequalities hold with the dilation as constant, and the dilation is
    not negative) and the first coordinates of the blocks add up to 1. *)
Theorem wrap_constraints_points :
  forall (set : isl_set) (y : point),
    (1 <= isl_set_n_dim set)%nat ->
    rows_of_dim set ->
    (in_bmap y (wrap_constraints set) <->
     0 < pd y /\
     wrap_first_sum (1 + isl_set_n_dim set) (length (p set)) y = pd y /\
     forall i b, nth_error (p set) i = Some b ->
                 in_cone (wrap_part (1 + isl_set_n_dim set) i y) b).
Proof. exact wrap_points_iff. Qed.

Lemma wrap_constraints_points_witness :
  in_bmap (mk_point 1 [1; 1; 1]) (wrap_constraints triangle_set) <->
  0 < pd (mk_point 1 [1; 1; 1]) /\
  wrap_first_sum (1 + isl_set_n_dim triangle_set) (length (p triangle_set))
    (mk_point 1 [1; 1; 1]) = pd (mk_point 1 [1; 1; 1]) /\
  forall i b, nth_error (p triangle_set) i = Some b ->
    in_cone (wrap_part (1 + isl_set_n_dim triangle_set) i
               (mk_point 1 [1; 1; 1])) b.
Proof.
  apply (wrap_constraints_points triangle_set (mk_point 1 [1; 1; 1])).
  - cbn. lia.
  - exact triangle_rows_of_dim.
Defined.

(** ** The row of [wrap_facet] touches the set *)

Lemma dot_objective_blocks (dim : nat) :
  (3 <= dim)%nat ->
  forall n v,
    dot (concat (repeat (0 :: 0 :: 1 :: zeros (dim - 3)) n)) v
    = fold_right Z.add 0 (map (fun i => at_ v (dim * i + 2)) (seq 0 n)).
Proof.
  intros Hd. induction n as [|n IH]; intros v; [reflexivity|].
  cbn [repeat concat]. rewrite dot_app_skipn.
  assert (L : length (0 :: 0 :: 1 :: zeros (dim - 3)) = dim)
    by (cbn [length]; rewrite length_zeros; lia).
  rewrite L, IH. cbn [seq map fold_right].
  rewrite map_seq_shift.
  assert (B : dot (0 :: 0 :: 1 :: zeros (dim - 3)) v = at_ v (dim * 0 + 2)).
  { rewrite Nat.mul_0_r. unfold at_.
    pose proof (dot_zeros (dim - 3)) as Z0.
    set (z := zeros (dim - 3)) in *.
    destruct v as [|a [|b [|c v]]]; cbn [dot nth Nat.add]; try lia.
    rewrite Z0. lia. }
  rewrite B. f_equal. f_equal. apply map_ext. intros i.
  rewrite at_skipn. f_equal. lia.
Qed.

Lemma at_firstn (m j : nat) (v : row) :
  (j < m)%nat -> at_ (firstn m v) j = at_ v j.
Proof.
  unfold at_. revert j v. induction m as [|m IH]; intros j v Hj; [lia|].
  destruct v as [|a v]; [destruct j; reflexivity|].
  destruct j as [|j]; cbn [firstn nth]; [reflexivity|]. apply IH. lia.
Qed.

Lemma at_wrap_part (dim i j : nat) (y : point) :
  (j < dim - 1)%nat ->
  at_ (pv (wrap_part dim i y)) j = at_ (pv y) (dim * i + 1 + j).
Proof.
  intros Hj. unfold wrap_part. cbn [pv].
  rewrite at_firstn by exact Hj. rewrite at_skipn.
  unfold hom, at_. replace (1 + dim * i + 1 + j)%nat with (S (dim * i + 1 + j))
    by lia. reflexivity.
Qed.

Lemma sum_map_linear (a b : Z) (f g : nat -> Z) (l : list nat) :
  fold_right Z.add 0 (map (fun i => a * f i + b * g i) l)
  = a * fold_right Z.add 0 (map f l) + b * fold_right Z.add 0 (map g l).
Proof. induction l as [|i l IH]; cbn [map fold_right]; lia. Qed.

Lemma sum_nonneg_zero (f : nat -> Z) (l : list nat) :
  (forall i, In i l -> 0 <= f i) ->
  fold_right Z.add 0 (map f l) = 0 ->
  forall i, In i l -> f i = 0.
Proof.
  induction l as [|j l IH]; intros N S i Hi; [destruct Hi|].
  cbn [map fold_right] in S.
  assert (Nl : 0 <= fold_right Z.add 0 (map f l)).
  { clear S IH Hi. induction l as [|k l IHl]; cbn [map fold_right]; [lia|].
    assert (0 <= f k) by (apply N; right; left; reflexivity).
    assert (0 <= fold_right Z.add 0 (map f l)).
    { apply IHl. intros i0 [<-|H0]; apply N; [left | right; right]; auto. }
    lia. }
  assert (Nj : 0 <= f j) by (apply N; left; reflexivity).
  destruct Hi as [<-|Hi]; [lia|].
  apply IH; [intros k Hk; apply N; right; exact Hk | lia | exact Hi].
Qed.

Lemma sum_pos_exists (f : nat -> Z) (l : list nat) :
  0 < fold_right Z.add 0 (map f l) -> exists i, In i l /\ 0 < f i.
Proof.
  induction l as [|j l IH]; cbn [map fold_right]; intros S; [lia|].
  destruct (Z.lt_ge_cases 0 (f j)) as [P|P].
  - exists j. split; [left; reflexivity | exact P].
  - destruct (IH ltac:(lia)) as (i & Hi & Pi).
    exists i. split; [right; exact Hi | exact Pi].
Qed.

Lemma dot_app_zeros_r (f v : row) (m : nat) :
  dot f (v ++ zeros m) = dot f v.
Proof.
  revert v. induction f as [|a f IH]; intros v; [reflexivity|].
  destruct v as [|b v].
  - change ([] ++ zeros m) with (zeros m).
    rewrite dot_zeros_r, dot_nil_r. reflexivity.
  - cbn [app dot]. rewrite IH. reflexivity.
Qed.

Lemma eval_pad_point (d : nat) (c : row) (q : point) :
  length c = (1 + d)%nat -> eval c (pad_point d q) = eval c q.
Proof.
  intros L. unfold eval, pad_point. cbn [pd pv]. f_equal.
  assert (Lt : length (tl c) = d) by (destruct c; cbn [length tl] in *; lia).
  rewrite <- Lt at 1. rewrite dot_firstn, dot_app_zeros_r. reflexivity.
Qed.

Lemma at_pad_point (d j : nat) (q : point) :
  (j < d)%nat -> at_ (pv (pad_point d q)) j = at_ (pv q) j.
Proof.
  intros Hj. unfold pad_point. cbn [pv]. rewrite at_firstn by exact Hj.
  unfold at_. destruct (Nat.lt_ge_cases j (length (pv q))) as [L|L].
  - apply app_nth1, L.
  - rewrite app_nth2 by exact L. rewrite (nth_overflow (pv q)) by exact L.
    apply at_zeros.
Qed.

Lemma length_pad_point (d : nat) (q : point) :
  length (pv (pad_point d q)) = d.
Proof.
  unfold pad_point. cbn [pv].
  rewrite length_firstn, length_app, length_zeros. lia.
Qed.

Lemma pad_point_in_bmap (d : nat) (q : point) (b : isl_basic_set) :
  Forall (fun c => length c = (1 + d)%nat) (eq b) ->
  Forall (fun c => length c = (1 + d)%nat) (ineq b) ->
  in_cone q b -> 0 < pd q -> in_bmap (pad_point d q) b.
Proof.
  intros Re Ri (_ & E & I) P. split; [exact P|]. split.
  - rewrite Forall_forall in *. intros c Hc. unfold sat_eq.
    rewrite eval_pad_point by (apply Re, Hc). apply E, Hc.
  - rewrite Forall_forall in *. intros c Hc. unfold sat_ineq.
    rewrite eval_pad_point by (apply Ri, Hc). apply I, Hc.
Qed.

Lemma wrap_lp_touches (set' : isl_set) (o : lp_out) :
  (2 <= isl_set_n_dim set')%nat ->
  rows_of_dim set' ->
  lp_contract (wrap_constraints set')
    (wrap_objective (1 + isl_set_n_dim set') (length (p set'))) o ->
  lp_res o = isl_lp_ok ->
  (forall z, in_set z set' -> 0 <= at_ (pv z) 0) ->
  (forall z, in_set z set' -> at_ (pv z) 0 = 0 -> 0 <= at_ (pv z) 1) ->
  no_recession set' ->
  exists z, in_set z set' /\ 0 < at_ (pv z) 0 /\
            lp_den o * at_ (pv z) 1 = lp_num o * at_ (pv z) 0.
Proof.
  intros Hd R C Ok Vf Vr Nr.
  pose proof C as C0. unfold lp_contract in C0. rewrite Ok in C0.
  destruct C0 as (Dp & _ & (y & Fy & Ey)).
  apply (wrap_points_iff set' y ltac:(lia) R) in Fy.
  destruct Fy as (Py & Sy & Hy).
  set (dim := (1 + isl_set_n_dim set')%nat) in *.
  set (n := length (p set')) in *.
  unfold wrap_objective in Ey.
  rewrite (dot_objective_blocks dim ltac:(unfold dim; lia)) in Ey.
  unfold wrap_first_sum in Sy.
  set (f := fun i => at_ (pv y) (dim * i + 1)) in *.
  set (g := fun i => at_ (pv y) (dim * i + 2)) in *.
  assert (A : forall i, In i (seq 0 n) ->
            0 <= f i /\ 0 <= lp_den o * g i + - lp_num o * f i /\
            (0 < f i -> exists z, in_set z set' /\
                                  at_ (pv z) 0 = f i /\ at_ (pv z) 1 = g i)).
  { intros i Hi. apply in_seq in Hi.
    destruct (nth_error (p set') i) as [b|] eqn:Eb;
      [|apply nth_error_None in Eb; fold n in Eb; lia].
    pose proof (Hy i b Eb) as Cq.
    pose proof (nth_error_In _ _ Eb) as Hb.
    set (q := wrap_part dim i y) in *.
    assert (Q0 : at_ (pv q) 0 = f i).
    { unfold q. rewrite at_wrap_part by (unfold dim; lia).
      unfold f. f_equal. lia. }
    assert (Q1 : at_ (pv q) 1 = g i).
    { unfold q. rewrite at_wrap_part by (unfold dim; lia).
      unfold g. f_equal. lia. }
    destruct (Z.eq_dec (pd q) 0) as [Z0|N0].
    - destruct (Nr b q Hb Cq Z0) as (F0 & G0).
      rewrite Q0 in F0. rewrite Q1 in G0. rewrite F0, G0.
      split; [lia|]. split; [lia|]. intros X. lia.
    - assert (Pq : 0 < pd q) by (destruct Cq as (P0 & _); lia).
      unfold rows_of_dim in R. rewrite Forall_forall in R.
      destruct (R b Hb) as (Re & Ri).
      pose proof (pad_point_in_bmap (isl_set_n_dim set') q b Re Ri Cq Pq) as Bq.
      assert (Sq : in_set (pad_point (isl_set_n_dim set') q) set').
      { unfold in_set. apply Exists_exists. exists b. split; assumption. }
      assert (P0 : at_ (pv (pad_point (isl_set_n_dim set') q)) 0 = f i)
        by (rewrite at_pad_point by lia; exact Q0).
      assert (P1 : at_ (pv (pad_point (isl_set_n_dim set') q)) 1 = g i)
        by (rewrite at_pad_point by lia; exact Q1).
      pose proof (Vf _ Sq) as F0. rewrite P0 in F0.
      split; [exact F0|]. split.
      + destruct (Z.eq_dec (f i) 0) as [Zf|Nf].
        * pose proof (Vr _ Sq) as G0. rewrite P0, P1 in G0.
          specialize (G0 Zf). rewrite Zf. nia.
        * assert (Rt : lp_num o * at_ (pv (pad_point (isl_set_n_dim set') q)) 0
                       <= lp_den o * at_ (pv (pad_point (isl_set_n_dim set') q)) 1).
          { apply (wrap_lp_ratio set' o _ Hd); try assumption.
            - unfold rows_of_dim. apply Forall_forall. exact R.
            - apply length_pad_point.
            - rewrite P0. lia. }
          rewrite P0, P1 in Rt. lia.
      + intros _. exists (pad_point (isl_set_n_dim set') q).
        split; [exact Sq|]. split; assumption. }
  assert (Sum0 : fold_right Z.add 0
                   (map (fun i => lp_den o * g i + - lp_num o * f i) (seq 0 n))
                 = 0).
  { rewrite sum_map_linear. fold f in Sy. rewrite Sy. fold g in Ey. lia. }
  pose proof (sum_nonneg_zero _ _ (fun i Hi => proj1 (proj2 (A i Hi))) Sum0) as T0.
  destruct (sum_pos_exists f (seq 0 n) ltac:(fold f in Sy; lia)) as (i & Hi & Pf).
  destruct (A i Hi) as (_ & _ & Z). destruct (Z Pf) as (z & Sz & Z0 & Z1).
  exists z. split; [exact Sz|]. rewrite Z0, Z1. split; [exact Pf|].
  specialize (T0 i Hi). cbn beta in T0. lia.
Qed.

(** X9: the row that [wrap_facet] returns for an LP with an optimum
    touches the set off the facet.  When the members have no direction of
    recession, there is a point of the set at which the returned row
    vanishes and [facet] is positive: together with its validity, the row
    supports the set along a face that is not inside the old facet. *)
Theorem wrap_facet_touches_set lp rinv pre (set set' : isl_set)
    (facet ridge r : row) T :
  (2 <= isl_set_n_dim set)%nat ->
  length facet = (1 + isl_set_n_dim set)%nat ->
  length ridge = (1 + isl_set_n_dim set)%nat ->
  rinv (wrap_matrix (1 + isl_set_n_dim set) facet ridge) = Some T ->
  pre set T = Some set' ->
  isl_set_n_dim set' = isl_set_n_dim set ->
  rows_of_dim set' ->
  wrap_frame_back set set' facet ridge ->
  lp_contract (wrap_constraints set')
    (wrap_objective (1 + isl_set_n_dim set) (length (p set')))
    (lp (wrap_constraints set') false
        (wrap_objective (1 + isl_set_n_dim set) (length (p set'))) 1 true) ->
  lp_res (lp (wrap_constraints set') false
            (wrap_objective (1 + isl_set_n_dim set) (length (p set'))) 1 true)
    = isl_lp_ok ->
  valid_on set facet ->
  ridge_on set facet ridge ->
  no_recession set' ->
  wrap_facet lp rinv pre set facet ridge = Some r ->
  exists x, in_set x set /\ eval r x = 0 /\ 0 < eval facet x.
Proof.
  intros Hd Lf Lr HT Hp Ed R Fb C Ok Vf Vr Nr W.
  unfold wrap_facet, wrap_lp in W. rewrite HT, Hp in W.
  set (o := lp (wrap_constraints set') false
              (wrap_objective (1 + isl_set_n_dim set) (length (p set'))) 1 true)
    in *.
  rewrite Ok in W. inversion W; subst r; clear W.
  assert (Vf' : forall z, in_set z set' -> 0 <= at_ (pv z) 0).
  { intros z Hz. destruct (Fb z Hz) as (x & Hx & E0 & _).
    pose proof (Vf x Hx) as F0.
    assert (Px : 0 < pd x).
    { apply Exists_exists in Hx. destruct Hx as (m & _ & Xm). apply Xm. }
    assert (Pz : 0 < pd z).
    { apply Exists_exists in Hz. destruct Hz as (m & _ & Zm). apply Zm. }
    nia. }
  assert (Vr' : forall z, in_set z set' -> at_ (pv z) 0 = 0 -> 0 <= at_ (pv z) 1).
  { intros z Hz Z0. destruct (Fb z Hz) as (x & Hx & E0 & E1).
    assert (Px : 0 < pd x).
    { apply Exists_exists in Hx. destruct Hx as (m & _ & Xm). apply Xm. }
    assert (Pz : 0 < pd z).
    { apply Exists_exists in Hz. destruct Hz as (m & _ & Zm). apply Zm. }
    assert (F0 : eval facet x = 0) by nia.
    pose proof (Vr x Hx F0) as R0. nia. }
  rewrite <- Ed in C, Hd. fold o in C.
  assert (C' : lp_contract (wrap_constraints set')
                 (wrap_objective (1 + isl_set_n_dim set') (length (p set'))) o).
  { unfold o. rewrite Ed. rewrite Ed in C. exact C. }
  destruct (wrap_lp_touches set' o Hd R C' Ok Vf' Vr' Nr) as (z & Hz & Pz1 & Ez).
  destruct (Fb z Hz) as (x & Hx & E0 & E1).
  assert (Px : 0 < pd x).
  { apply Exists_exists in Hx. destruct Hx as (m & _ & Xm). apply Xm. }
  assert (Pz : 0 < pd z).
  { apply Exists_exists in Hz. destruct Hz as (m & _ & Zm). apply Zm. }
  exists x. split; [exact Hx|].
  rewrite (eval_combine _ _ facet ridge _ x Lf Lr).
  split.
  - assert (K : (- lp_num o * eval facet x + lp_den o * eval ridge x) * pd z = 0).
    { replace ((- lp_num o * eval facet x + lp_den o * eval ridge x) * pd z)
        with (- lp_num o * (eval facet x * pd z)
              + lp_den o * (eval ridge x * pd z)) by ring.
      rewrite <- E0, <- E1.
      replace (- lp_num o * (at_ (pv z) 0 * pd x)
               + lp_den o * (at_ (pv z) 1 * pd x))
        with (pd x * (lp_den o * at_ (pv z) 1 - lp_num o * at_ (pv z) 0))
        by ring.
      rewrite Ez. ring. }
    apply Z.mul_eq_0 in K. destruct K as [K|K]; [exact K | lia].
  - assert (K : 0 < eval facet x * pd z)
      by (rewrite <- E0; apply Z.mul_pos_pos; assumption).
    nia.
Qed.

Lemma triangle_frame_back :
  wrap_frame_back triangle_set triangle_set facet_x ridge_y.
Proof.
  intros z Hz. exists z. split; [exact Hz|].
  unfold facet_x, ridge_y. eval_rows.
  destruct (pv z) as [|v [|w u]]; eval_rows; split; lia.
Defined.

Lemma triangle_no_recession : no_recession triangle_set.
Proof.
  intros b q [<-|[]] (P & _ & I) Z0. cbn [ineq triangle] in I.
  inversion I as [|? ? I1 I']; subst; clear I.
  inversion I' as [|? ? I2 I'']; subst; clear I'.
  inversion I'' as [|? ? I3 _]; subst; clear I''.
  eval_rows. destruct (pv q) as [|v [|w u]]; eval_rows; split; lia.
Defined.

Lemma wrap_facet_touches_set_witness :
  exists x, in_set x triangle_set /\ eval [0; -1; 1] x = 0 /\
            0 < eval facet_x x.
Proof.
  apply (wrap_facet_touches_set (lp_const (mk_lp_out isl_lp_ok 1 1))
           right_inverse_id preimage_id triangle_set triangle_set
           facet_x ridge_y [0; -1; 1] (wrap_matrix 3 facet_x ridge_y)).
  - cbn. lia.
  - reflexivity.
  - reflexivity.
  - reflexivity.
  - reflexivity.
  - reflexivity.
  - exact triangle_rows_of_dim.
  - exact triangle_frame_back.
  - exact wrap_lp_triangle_contract.
  - reflexivity.
  - exact triangle_facet_valid.
  - exact triangle_ridge_on.
  - exact triangle_no_recession.
  - reflexivity.
Defined.

(** ** The paths of [uset_convex_hull] *)

(** X20: how [uset_convex_hull] uses the boundedness test.  For a set of
    dimension at least 2 with more than one member, the first member that
    is not reported bounded decides: if it is reported unbounded (0), the
    set goes to the Fourier-Motzkin path; if the test failed on it
    (a negative value), no error is returned and the set goes to the
    wrapping path, as a bounded set does. *)
Theorem uset_convex_hull_boundedness_paths :
  forall finalize is_empty empty universe normalize
         (tab : Type) (from_cone : isl_basic_map -> tab) (is_bounded : tab -> Z)
         hull_1d elim bounds_of wrap_with_bounds
         (set set1 set2 : isl_set) (i : nat) (b : isl_basic_set),
    isl_set_n_dim set <> 0%nat ->
    isl_set_set_rational finalize set = Some set1 ->
    normalize set1 = Some set2 ->
    length (p set2) <> 1%nat ->
    isl_set_n_dim set2 <> 1%nat ->
    nth_error (p set2) i = Some b ->
    Forall (fun b0 => 0 < isl_basic_set_is_bounded tab from_cone is_bounded b0)
           (firstn i (p set2)) ->
    isl_basic_set_is_bounded tab from_cone is_bounded b <= 0 ->
    uset_convex_hull finalize is_empty empty universe normalize tab from_cone
      is_bounded hull_1d elim bounds_of wrap_with_bounds set
    = if isl_basic_set_is_bounded tab from_cone is_bounded b =? 0
      then elim set2
      else match bounds_of set2 with
           | None => None
           | Some bounds => wrap_with_bounds set2 bounds
           end.
Proof.
  intros finalize is_empty empty universe normalize tab from_cone is_bounded
    hull_1d elim bounds_of wrap_with_bounds set set1 set2 i b
    D0 E1 E2 N1 D1 Eb F Nb.
  unfold uset_convex_hull.
  destruct (Nat.eqb_spec (isl_set_n_dim set) 0) as [X|_]; [destruct (D0 X)|].
  rewrite E1, E2.
  destruct (Nat.eqb_spec (length (p set2)) 1) as [X|_]; [destruct (N1 X)|].
  destruct (Nat.eqb_spec (isl_set_n_dim set2) 1) as [X|_]; [destruct (D1 X)|].
  unfold isl_set_is_bounded.
  rewrite (isl_set_is_bounded_at tab from_cone is_bounded (p set2) i b Eb Nb F).
  reflexivity.
Qed.

Lemma uset_convex_hull_boundedness_paths_witness :
  uset_convex_hull finalize_id (fun _ => 0) (fun _ => None) (fun _ => None)
    remove_empty_none unit (fun _ => tt) cone_is_bounded_error
    (fun _ => None) (fun _ => None) (fun _ => Some [facet_x])
    (fun _ _ => Some triangle) square_set
  = if isl_basic_set_is_bounded unit (fun _ => tt) cone_is_bounded_error
         (mk_bmap 2 [] [[0; 1; 0]; [0; 0; 1]; [1; -1; -1]] 16) =? 0
    then None
    else match Some [facet_x] with
         | None => None
         | Some bounds => Some triangle
         end.
Proof.
  apply (uset_convex_hull_boundedness_paths finalize_id (fun _ => 0)
           (fun _ => None) (fun _ => None) remove_empty_none unit
           (fun _ => tt) cone_is_bounded_error (fun _ => None) (fun _ => None)
           (fun _ => Some [facet_x]) (fun _ _ => Some triangle)
           square_set
           (mk_set 2 [ mk_bmap 2 [] [[0; 1; 0]; [0; 0; 1]; [1; -1; -1]] 16;
                       mk_bmap 2 [] [[1; -1; 0]; [1; 0; -1]; [-1; 1; 1]] 16 ])
           (mk_set 2 [ mk_bmap 2 [] [[0; 1; 0]; [0; 0; 1]; [1; -1; -1]] 16;
                       mk_bmap 2 [] [[1; -1; 0]; [1; 0; -1]; [-1; 1; 1]] 16 ])
           0 (mk_bmap 2 [] [[0; 1; 0]; [0; 0; 1]; [1; -1; -1]] 16)).
  - discriminate.
  - reflexivity.
  - reflexivity.
  - discriminate.
  - discriminate.
  - reflexivity.
  - constructor.
  - vm_compute. discriminate.
Defined.

(** ** The sign filter of the redundancy test *)

Lemma dot_set_at_r (a : Z) :
  forall (k : nat) (f v : row),
    (k < length v)%nat ->
    dot f (set_at v k a) = dot f v + at_ f k * (a - at_ v k).
Proof.
  induction k as [|k IH]; intros f [|v0 v] L; cbn [length] in L; try lia.
  - unfold set_at, overwrite, at_. cbn [firstn skipn app length nth].
    destruct f as [|f0 f]; cbn [dot nth]; lia.
  - rewrite set_at_cons. destruct f as [|f0 f].
    + unfold at_. cbn [dot nth]. lia.
    + cbn [dot]. rewrite IH by lia. unfold at_. cbn [nth]. lia.
Qed.

Lemma eval_shift_point (r : row) (x : point) (i : nat) (t : Z) :
  eval r (shift_point x i t) = eval r x + at_ r (1 + i) * t.
Proof.
  unfold eval, shift_point. cbn [pd pv].
  rewrite dot_set_at_r by (rewrite length_app, length_zeros; lia).
  rewrite dot_app_zeros_r.
  assert (A : at_ (pv x ++ zeros (S i)) i = at_ (pv x) i).
  { unfold at_. destruct (Nat.lt_ge_cases i (length (pv x))) as [L|L].
    - apply app_nth1, L.
    - rewrite app_nth2 by exact L. rewrite (nth_overflow (pv x)) by exact L.
      apply at_zeros. }
  rewrite A.
  assert (B : at_ (tl r) i = at_ r (1 + i))
    by (unfold at_; destruct r; [destruct i|]; reflexivity).
  rewrite B. lia.
Qed.

(** X1: the sign filter of [isl_basic_map_constraint_is_redundant] gives
    the right answer on polyhedra whose equalities do not involve the
    variable it stops at.  If the polyhedron has a point, the coefficient
    of [c] in the variable is not zero and no inequality has a coefficient
    of the same sign there, the function answers 0 and the constraint is
    indeed not implied: some point of the polyhedron violates it. *)
Theorem sign_filter_answer_is_right :
  forall lp ste (b : isl_basic_map) (c : row) (opt_d : bool) (i : nat),
    (i < total_dim b)%nat ->
    unmatched_sign (ineq b) c i ->
    Forall (fun e => at_ e (1 + i) = 0) (eq b) ->
    (exists x, in_bmap x b) ->
    rr_ret (isl_basic_map_constraint_is_redundant lp ste (Some b) c opt_d) = 0 /\
    exists x, in_bmap x b /\ eval c x < 0.
Proof.
  intros lp ste b c opt_d i Hi U E (x0 & P0 & E0 & I0). split.
  - assert (F : sign_filter_fires b c = true)
      by (apply sign_filter_fires_iff; exists i; split; assumption).
    unfold isl_basic_map_constraint_is_redundant. rewrite F. reflexivity.
  - destruct U as (Nc & Ur).
    set (s := Z.sgn (at_ c (1 + i))) in *.
    set (t := - s * (Z.abs (eval c x0) + 1)).
    exists (shift_point x0 i t). split.
    + split; [exact P0|]. split.
      * rewrite Forall_forall in *. intros e He. unfold sat_eq.
        rewrite eval_shift_point, (E e He). specialize (E0 e He).
        unfold sat_eq in E0. lia.
      * rewrite Forall_forall in *. intros r Hr. unfold sat_ineq.
        rewrite eval_shift_point. specialize (I0 r Hr). unfold sat_ineq in I0.
        specialize (Ur r Hr). fold s in Ur.
        assert (K : 0 <= at_ r (1 + i) * t).
        { unfold t.
          assert (S1 : s = 1 \/ s = -1) by (unfold s; lia).
          destruct S1 as [S1|S1]; rewrite S1 in *.
          - assert (at_ r (1 + i) <= 0) by lia. nia.
          - assert (0 <= at_ r (1 + i)) by lia. nia. }
        lia.
    + rewrite eval_shift_point. unfold t.
      assert (K : at_ c (1 + i) * s = Z.abs (at_ c (1 + i)))
        by (unfold s; apply Z.sgn_abs).
      replace (at_ c (1 + i) * (- s * (Z.abs (eval c x0) + 1)))
        with (- (at_ c (1 + i) * s) * (Z.abs (eval c x0) + 1)) by ring.
      rewrite K.
      assert (A1 : 1 <= Z.abs (at_ c (1 + i))) by lia.
      nia.
Qed.

Lemma sign_filter_answer_is_right_witness :
  rr_ret (isl_basic_map_constraint_is_redundant lp_min_zero set_to_empty
            (Some bmap_x_ge_0) [0; -1] true) = 0 /\
  exists x, in_bmap x bmap_x_ge_0 /\ eval [0; -1] x < 0.
Proof.
  apply (sign_filter_answer_is_right lp_min_zero set_to_empty bmap_x_ge_0
           [0; -1] true 0).
  - cbn. lia.
  - split; [discriminate|]. repeat (once constructor). discriminate.
  - constructor.
  - exists (mk_point 1 [0]). split; [reflexivity|].
    split; repeat (once constructor); eval_rows; lia.
Defined.

(** ** Rejected directions *)

Lemma elim_loop_combination elim (len : nat) :
  elim_combines elim ->
  forall rows i cur pos,
    length cur = len ->
    isl_seq_first_non_zero cur len = pos -> 0 <= pos ->
    length (end_row (elim_loop elim rows i cur pos len)) = len /\
    exists a bs, a <> 0 /\
      (forall j, (j < len)%nat ->
         at_ (end_row (elim_loop elim rows i cur pos len)) j
         = a * at_ cur j + lincomb bs rows j) /\
      match elim_loop elim rows i cur pos len with
      | EL_dependent c' => forall j, (j < len)%nat -> at_ c' j = 0
      | EL_position _ _ => True
      end.
Proof.
  intros Hel. induction rows as [|r rest IH]; intros i cur pos Lc Ep P0;
    cbn [elim_loop].
  - split; [exact Lc|]. exists 1, []. split; [lia|]. split; [|exact I].
    intros j _. cbn [end_row lincomb]. lia.
  - subst pos.
    set (pos_i := isl_seq_first_non_zero (tl r) len).
    destruct (Z.ltb_spec pos_i (isl_seq_first_non_zero cur len)) as [L1|L1].
    + destruct (IH (S i) cur _ Lc eq_refl P0) as (Le & a & bs & Na & Hc & Hd).
      split; [exact Le|].
      exists a, (0 :: bs). split; [exact Na|]. split; [|exact Hd].
      intros j Hj. rewrite (Hc j Hj). cbn [lincomb]. lia.
    + destruct (Z.ltb_spec (isl_seq_first_non_zero cur len) pos_i) as [L2|L2].
      * split; [exact Lc|]. exists 1, []. split; [lia|]. split; [|exact I].
        intros j _. cbn [end_row lincomb]. lia.
      * destruct (first_non_zero_spec cur len)
          as [(E1 & _)|(kc & Ec & Hkc & Nkc & Zkc)]; [lia|].
        destruct (first_non_zero_spec (tl r) len)
          as [(E1 & _)|(kr & Ekr & Hkr & Nkr & Zkr)];
          [fold pos_i in E1; lia|].
        fold pos_i in Ekr.
        assert (Ek : kr = kc) by lia. subst kr.
        rewrite Ec. rewrite Nat2Z.id.
        destruct (Hel cur (tl r) kc len Hkc Lc Nkr) as (Ln & a1 & b1 & Na1 & H1).
        set (cur1 := elim cur (tl r) kc len) in *.
        assert (Lc1 : length cur1 = len) by lia.
        destruct (Z.ltb_spec (isl_seq_first_non_zero cur1 len) 0) as [L3|L3].
        -- split; [exact Lc1|].
           exists a1, [b1]. split; [exact Na1|]. split.
           ++ intros j Hj. cbn [end_row lincomb]. rewrite (H1 j Hj). lia.
           ++ destruct (first_non_zero_spec cur1 len)
                as [(_ & Z0)|(k1 & E1 & _)]; [exact Z0 | lia].
        -- destruct (IH (S i) cur1 _ Lc1 eq_refl L3)
             as (Le & a & bs & Na & Hc & Hd).
           split; [exact Le|].
           exists (a * a1), (a * b1 :: bs).
           split; [apply Z.neq_mul_0; split; assumption|].
           split; [|exact Hd].
           intros j Hj. rewrite (Hc j Hj), (H1 j Hj). cbn [lincomb]. ring.
Qed.

Lemma reduce_against_combination elim (c : row) (dirs : isl_mat)
    (n_col n : nat) :
  elim_combines elim ->
  length (nth n dirs []) = n_col -> (1 <= n_col)%nat ->
  length (end_row (reduce_against elim c dirs n_col n)) = (n_col - 1)%nat /\
  exists a bs, a <> 0 /\
    (forall j, (j < n_col - 1)%nat ->
       at_ (end_row (reduce_against elim c dirs n_col n)) j
       = a * at_ (tl c) j + lincomb bs (firstn n dirs) j) /\
    match reduce_against elim c dirs n_col n with
    | EL_dependent c' => forall j, (j < n_col - 1)%nat -> at_ c' j = 0
    | EL_position _ _ => True
    end.
Proof.
  intros Hel Lold Hcol. unfold reduce_against.
  set (old := nth n dirs []) in *.
  set (cur0 := isl_seq_cpy (tl old) (tl c) (n_col - 1)).
  assert (L0 : length cur0 = (n_col - 1)%nat).
  { unfold cur0, isl_seq_cpy.
    rewrite length_overwrite, length_map, length_seq.
    destruct old; cbn [length tl] in *; lia. }
  assert (A0 : forall j, (j < n_col - 1)%nat -> at_ cur0 j = at_ (tl c) j)
    by (intros j Hj; apply at_cpy_lt, Hj).
  destruct (Nat.eqb n 0).
  - split; [exact L0|]. exists 1, []. split; [lia|]. split; [|exact I].
    intros j Hj. cbn [end_row lincomb]. rewrite (A0 j Hj). lia.
  - destruct (Z.ltb_spec (isl_seq_first_non_zero cur0 (n_col - 1)) 0) as [L|L].
    + split; [exact L0|]. exists 1, []. split; [lia|]. split.
      * intros j Hj. cbn [end_row lincomb]. rewrite (A0 j Hj). lia.
      * destruct (first_non_zero_spec cur0 (n_col - 1))
          as [(_ & Z0)|(k1 & E1 & _)]; [exact Z0 | lia].
    + destruct (elim_loop_combination elim (n_col - 1) Hel (firstn n dirs) 0
                  cur0 _ L0 eq_refl L) as (Le & a & bs & Na & Hc & Hd).
      split; [exact Le|].
      exists a, bs. split; [exact Na|]. split; [|exact Hd].
      intros j Hj. rewrite (Hc j Hj), (A0 j Hj). reflexivity.
Qed.

(** X4: what [is_independent_bound] rejects.  When it returns 0, either
    the coefficients of [c] are linearly dependent on those of the rows
    found before (a non-zero multiple of [c] plus a combination of the
    rows vanishes), or the row that was left after the elimination, a
    non-zero multiple of [c] plus a combination of the rows, is not
    bounded below on some member of the set. *)
Theorem is_independent_bound_rejections :
  forall lp ste elim (set : isl_set) (c : row) (dirs : isl_mat)
         (n_col n : nat),
    elim_combines elim ->
    (forall b f, In b (p set) -> ISL_F_ISSET b ISL_BASIC_SET_EMPTY = false ->
                 lp_contract b f (lp b false f 1 true)) ->
    (forall b, In b (p set) -> ISL_F_ISSET b ISL_BASIC_SET_EMPTY = true ->
               forall x, ~ in_bmap x b) ->
    (forall b b', ste b = Some b' ->
       ISL_F_ISSET b' ISL_BASIC_SET_EMPTY = true /\ forall x, ~ in_bmap x b') ->
    length (nth n dirs []) = n_col -> (1 <= n_col)%nat ->
    ind_ret (is_independent_bound lp ste elim set c dirs n_col n) = 0 ->
    exists a bs, a <> 0 /\
      ((forall j, (j < n_col - 1)%nat ->
          a * at_ (tl c) j + lincomb bs (firstn n dirs) j = 0) \/
       (exists cur,
          (forall j, (j < n_col - 1)%nat ->
             at_ cur j = a * at_ (tl c) j + lincomb bs (firstn n dirs) j) /\
          Exists (fun b => ~ bounded_below cur b) (p set))).
Proof.
  intros lp ste elim set c dirs n_col n Hel Hlp Hfl Hste Lold Hcol.
  destruct (reduce_against_combination elim c dirs n_col n Hel Lold Hcol)
    as (Le & a & bs & Na & Hc & Hd).
  unfold is_independent_bound.
  destruct (reduce_against elim c dirs n_col n) as [cur|i cur] eqn:Rd;
    cbn [end_row] in Hc, Le.
  - intros _. exists a, bs. split; [exact Na|]. left.
    intros j Hj. rewrite <- (Hc j Hj). apply Hd, Hj.
  - set (row0 := hd 0 (nth n dirs []) :: cur).
    assert (Lr : length row0 = n_col) by (unfold row0; cbn [length]; lia).
    assert (H1 : (1 <= length row0)%nat) by lia.
    pose proof (uset_is_bound_correct lp ste set row0 H1 Hlp Hfl Hste) as K.
    cbn zeta in K. rewrite Lr in K.
    set (r := uset_is_bound lp ste set row0 n_col) in *.
    destruct K as (_ & _ & _ & U & _).
    cbn zeta.
    destruct (Z.eqb_spec (ib_ret r) 1) as [E1|E1]; cbn [negb].
    + destruct (Nat.ltb i n); cbn [ind_ret]; discriminate.
    + cbn [ind_ret]. intros R0. exists a, bs. split; [exact Na|]. right.
      exists cur. split; [exact Hc|]. apply (U R0).
Qed.

Lemma seq_elim_gcd_combines : elim_combines seq_elim_gcd.
Proof.
  intros dst src pos len Hpos Ld Ns. unfold seq_elim_gcd.
  destruct (Z.eqb_spec (at_ dst pos) 0) as [Zd|Nd].
  - split; [reflexivity|]. exists 1, 0. split; [lia|]. intros j _. lia.
  - set (s := at_ src pos) in *. set (d := at_ dst pos) in *.
    set (g := Z.gcd s d).
    assert (Gp : 0 < g).
    { pose proof (Z.gcd_nonneg s d) as G0.
      destruct (Z.eq_dec g 0) as [G|G]; [|unfold g in *; lia].
      apply Z.gcd_eq_0_l in G. destruct (Ns G). }
    destruct (Z.gcd_divide_l s d) as (s' & Es). fold g in Es.
    assert (Qs : s / g = s') by (rewrite Es; apply Z.div_mul; lia).
    split.
    + unfold isl_seq_combine.
      rewrite length_overwrite, length_map, length_seq. lia.
    + exists (Z.abs (s / g)), (if 0 <? s then - (d / g) else d / g).
      split.
      * rewrite Qs. assert (s' <> 0) by (intros Z0; subst s'; lia). lia.
      * intros j Hj. apply at_combine_lt, Hj.
Defined.

Lemma is_independent_bound_rejections_witness :
  exists a bs, a <> 0 /\
    ((forall j, (j < 3 - 1)%nat ->
        a * at_ (tl [5; 2; 0]) j
        + lincomb bs (firstn 1 [[0; 1; 0]; [0; 0; 0]]) j = 0) \/
     (exists cur,
        (forall j, (j < 3 - 1)%nat ->
           at_ cur j = a * at_ (tl [5; 2; 0]) j
                       + lincomb bs (firstn 1 [[0; 1; 0]; [0; 0; 0]]) j) /\
        Exists (fun b => ~ bounded_below cur b) (p triangle_set))).
Proof.
  apply (is_independent_bound_rejections lp_triangle set_to_empty
           seq_elim_gcd triangle_set [5; 2; 0] [[0; 1; 0]; [0; 0; 0]] 3 1
           seq_elim_gcd_combines lp_triangle_contract triangle_unflagged
           set_to_empty_marks).
  - reflexivity.
  - lia.
  - vm_compute. reflexivity.
Defined.

(** ** The hull is closed under wrapping *)

Lemma isl_seq_eq_refl (r : row) (len : nat) : isl_seq_eq r r len = true.
Proof.
  unfold isl_seq_eq. apply forallb_forall. intros i _. apply Z.eqb_refl.
Qed.

Lemma seen_before_app (rows more : list row) (cand : row) (len : nat) :
  seen_before rows cand len = true ->
  seen_before (rows ++ more) cand len = true.
Proof.
  unfold seen_before. rewrite existsb_app. intros ->. reflexivity.
Qed.

Lemma seen_before_last (rows : list row) (cand : row) (len : nat) :
  seen_before (rows ++ [cand]) cand len = true.
Proof.
  unfold seen_before. rewrite existsb_app. cbn [existsb].
  rewrite isl_seq_eq_refl. apply orb_true_iff. right. reflexivity.
Qed.

Lemma nth_prefix (rows more : list row) (i : nat) :
  (i < length rows)%nat -> nth i (rows ++ more) [] = nth i rows [].
Proof. intros H. apply app_nth1, H. Qed.

Lemma extend_ridges_closed lp rinv pre set i ridges :
  forall h h',
    (i < length (h_ineq h))%nat ->
    extend_ridges lp rinv pre set i h ridges = Some h' ->
    forall ridge, In ridge ridges ->
    exists r,
      wrap_facet lp rinv pre set
        (isl_seq_cpy (zeros (1 + isl_set_n_dim set)) (nth i (h_ineq h) [])
           (1 + isl_set_n_dim set)) ridge = Some r /\
      seen_before (h_ineq h') r (1 + isl_set_n_dim set) = true.
Proof.
  induction ridges as [|r0 rest IH]; intros h h' Hi E ridge Hin;
    [destruct Hin|].
  cbn [extend_ridges] in E.
  destruct (extend_ridge lp rinv pre set i h r0) as [h1|] eqn:E1;
    [|discriminate].
  destruct (extend_ridge_grows _ _ _ _ _ _ _ _ E1) as (_ & _ & m1 & A1).
  destruct (extend_ridges_grows _ _ _ _ _ _ _ _ E) as (_ & _ & m2 & A2).
  assert (Hi1 : (i < length (h_ineq h1))%nat)
    by (rewrite A1, length_app; lia).
  assert (N1 : nth i (h_ineq h1) [] = nth i (h_ineq h) [])
    by (rewrite A1; apply nth_prefix, Hi).
  destruct Hin as [<-|Hin].
  - destruct (extend_ridge_cases _ _ _ _ _ _ _ _ E1)
      as (cand' & W & [(S & ->)|(S & ->)]).
    + exists cand'. split; [exact W|]. rewrite A2. apply seen_before_app, S.
    + exists cand'. split; [exact W|]. rewrite A2. cbn [h_ineq].
      apply seen_before_app, seen_before_last.
  - destruct (IH h1 h' Hi1 E ridge Hin) as (r & W & S).
    exists r. rewrite <- N1. split; assumption.
Qed.

Lemma closed_below_grows lp rinv pre cf set (k : nat) (rows more : list row) :
  (k <= length rows)%nat ->
  closed_below lp rinv pre cf set k rows ->
  closed_below lp rinv pre cf set k (rows ++ more).
Proof.
  intros Hk C i facet ridge Hi Ef Hr.
  rewrite (nth_prefix rows more i ltac:(lia)) in *.
  destruct (C i facet ridge Hi Ef Hr) as (r & W & S).
  exists r. split; [exact W | apply seen_before_app, S].
Qed.

Lemma extend_facet_closed lp rinv pre cf set i h h' :
  (i < length (h_ineq h))%nat ->
  closed_below lp rinv pre cf set i (h_ineq h) ->
  extend_facet lp rinv pre cf set i h = Some h' ->
  closed_below lp rinv pre cf set (S i) (h_ineq h') /\
  (S i <= length (h_ineq h'))%nat.
Proof.
  intros Hi C E. unfold extend_facet in E.
  destruct (cf set (nth i (h_ineq h) [])) as [facet|] eqn:Ef; [|discriminate].
  set (h0 := if Nat.ltb (h_room h) (n_ineq facet + length (h_ineq h))
             then mk_hull (h_ineq h) (length (h_ineq h) + n_ineq facet)
             else h) in *.
  assert (R0 : h_ineq h0 = h_ineq h)
    by (unfold h0; destruct (Nat.ltb _ _); reflexivity).
  destruct (extend_ridges_grows _ _ _ _ _ _ _ _ E) as (_ & _ & more & A).
  rewrite R0 in A.
  assert (Hi0 : (i < length (h_ineq h0))%nat) by (rewrite R0; exact Hi).
  pose proof (extend_ridges_closed lp rinv pre set i (ineq facet) h0 h' Hi0 E)
    as Cl. rewrite R0 in Cl.
  split; [|rewrite A, length_app; lia].
  intros k facet' ridge Hk Ef' Hr.
  destruct (Nat.eq_dec k i) as [->|Nk].
  - rewrite A in Ef' |- *. rewrite (nth_prefix _ more i Hi) in *.
    rewrite Ef in Ef'. inversion Ef'; subst facet'.
    rewrite <- A. apply Cl, Hr.
  - rewrite A in *.
    apply (closed_below_grows lp rinv pre cf set i (h_ineq h) more
             ltac:(lia) C k facet' ridge ltac:(lia) Ef' Hr).
Qed.

Lemma extend_walk_closed_from lp rinv pre cf set (steps : nat) :
  forall i h,
    (i <= length (h_ineq h))%nat ->
    closed_below lp rinv pre cf set i (h_ineq h) ->
    match extend_walk lp rinv pre cf set steps i h with
    | Walk_error => True
    | Walk_done h' =>
        closed_below lp rinv pre cf set (length (h_ineq h')) (h_ineq h')
    | Walk_running i' h' =>
        closed_below lp rinv pre cf set i' (h_ineq h')
    end.
Proof.
  induction steps as [|steps IH]; intros i h Hi C; cbn [extend_walk].
  - destruct (Nat.leb_spec (length (h_ineq h)) i) as [L|L]; [|exact C].
    replace (length (h_ineq h)) with i by lia. exact C.
  - destruct (Nat.leb_spec (length (h_ineq h)) i) as [L|L].
    + replace (length (h_ineq h)) with i by lia. exact C.
    + destruct (extend_facet lp rinv pre cf set i h) as [h1|] eqn:E1;
        [|exact I].
      destruct (extend_facet_closed _ _ _ _ _ _ _ _ L C E1) as (C1 & L1).
      apply (IH (S i) h1 L1 C1).
Qed.

(** X12: when the walk of [extend] ends, the hull is closed under
    wrapping.  For every inequality of the hull and every ridge that
    [compute_facet] gives for it, the row that [wrap_facet] makes of the
    two is one of the inequalities of the hull. *)
Theorem extend_walk_closed :
  forall lp rinv pre cf (set : isl_set) (initial : isl_mat) (steps : nat)
         (h : hull_state),
    extend_walk lp rinv pre cf set steps 0 (extend_init set initial)
      = Walk_done h ->
    forall i facet ridge,
      (i < length (h_ineq h))%nat ->
      cf set (nth i (h_ineq h) []) = Some facet ->
      In ridge (ineq facet) ->
      exists r,
        wrap_facet lp rinv pre set
          (isl_seq_cpy (zeros (1 + isl_set_n_dim set)) (nth i (h_ineq h) [])
             (1 + isl_set_n_dim set)) ridge = Some r /\
        seen_before (h_ineq h) r (1 + isl_set_n_dim set) = true.
Proof.
  intros lp rinv pre cf set initial steps h E.
  pose proof (extend_walk_closed_from lp rinv pre cf set steps 0
                (extend_init set initial) ltac:(lia)) as K.
  rewrite E in K. apply K.
  intros i facet ridge Hi. lia.
Qed.

Lemma extend_walk_closed_witness :
  exists r,
    wrap_facet (lp_const (mk_lp_out isl_lp_ok 1 1)) right_inverse_unit
      preimage_id triangle_set
      (isl_seq_cpy (zeros (1 + isl_set_n_dim triangle_set))
         (nth 0 [[0; 1; 0]; [0; -1; 1]] [])
         (1 + isl_set_n_dim triangle_set)) ridge_y = Some r /\
    seen_before [[0; 1; 0]; [0; -1; 1]] r (1 + isl_set_n_dim triangle_set)
    = true.
Proof.
  apply (extend_walk_closed (lp_const (mk_lp_out isl_lp_ok 1 1))
           right_inverse_unit preimage_id triangle_compute_facet
           triangle_set [facet_x] 2
           (mk_hull [[0; 1; 0]; [0; -1; 1]] (extend_room triangle_set))
           eq_refl 0 (mk_bmap 2 [] [ridge_y] 0) ridge_y).
  - cbn. lia.
  - reflexivity.
  - left. reflexivity.
Defined.

(** ** The walk of [extend] ends *)

Lemma seen_before_In (rows : list row) (r : row) (len : nat) :
  In r rows -> seen_before rows r len = true.
Proof.
  intros H. unfold seen_before. apply existsb_exists.
  exists r. split; [exact H | apply isl_seq_eq_refl].
Qed.

Lemma NoDup_snoc (rows : list row) (r : row) :
  NoDup rows -> ~ In r rows -> NoDup (rows ++ [r]).
Proof.
  intros N H. induction N as [|a l Ha N IH]; cbn [app].
  - constructor; [intros [] | constructor].
  - constructor.
    + intros X. apply in_app_or in X. destruct X as [X|[<-|[]]].
      * exact (Ha X).
      * apply H. left. reflexivity.
    + apply IH. intros X. apply H. right. exact X.
Qed.

Section ExtendTotal.

Variable lp : isl_basic_map -> bool -> row -> Z -> bool -> lp_out.
Variable rinv : isl_mat -> option isl_mat.
Variable pre : isl_set -> isl_mat -> option isl_set.
Variable cf : isl_set -> row -> option isl_basic_set.
Variable set : isl_set.
Variable facets : list row.
Hypothesis Hlen :
  Forall (fun c => length c = (1 + isl_set_n_dim set)%nat) facets.
Hypothesis Hclosed : wrap_closed lp rinv pre cf set facets.

(** One ridge of a facet of the list: the wrapped row is a row of the
    list, and the hull keeps rows of the list without repetition. *)
Lemma extend_ridge_total (i : nat) (h : hull_state) (ridge : row) :
  (i < length (h_ineq h))%nat ->
  (exists r, wrap_facet lp rinv pre set (nth i (h_ineq h) []) ridge = Some r /\
             In r facets) ->
  (length (h_ineq h) < h_room h)%nat ->
  NoDup (h_ineq h) -> incl (h_ineq h) facets ->
  exists h',
    extend_ridge lp rinv pre set i h ridge = Some h' /\
    h_room h' = h_room h /\
    (length (h_ineq h') <= S (length (h_ineq h)))%nat /\
    NoDup (h_ineq h') /\ incl (h_ineq h') facets /\
    exists more, h_ineq h' = h_ineq h ++ more.
Proof.
  intros Hi (r & W & Hr) R N I. unfold extend_ridge.
  destruct (Nat.leb_spec (h_room h) (length (h_ineq h))) as [L|_]; [lia|].
  assert (Lc : length (nth i (h_ineq h) []) = (1 + isl_set_n_dim set)%nat).
  { rewrite Forall_forall in Hlen. apply Hlen, I, nth_In, Hi. }
  rewrite (cpy_same _ _ Lc), W.
  destruct (seen_before (h_ineq h) r (1 + isl_set_n_dim set)) eqn:S.
  - exists h. split; [reflexivity|]. split; [reflexivity|]. split; [lia|].
    split; [exact N|]. split; [exact I|]. exists []. symmetry. apply app_nil_r.
  - exists (mk_hull (h_ineq h ++ [r]) (h_room h)). cbn [h_ineq h_room].
    split; [reflexivity|]. split; [reflexivity|].
    split; [rewrite length_app; cbn [length]; lia|].
    split.
    + apply NoDup_snoc; [exact N|]. intros X.
      rewrite (seen_before_In _ _ _ X) in S. discriminate S.
    + split; [|exists [r]; reflexivity].
      intros a Ha. apply in_app_or in Ha. destruct Ha as [Ha|[<-|[]]];
        [apply I, Ha | exact Hr].
Qed.

Lemma extend_ridges_total (i : nat) (c : row) (ridges : list row) :
  forall h,
    (i < length (h_ineq h))%nat ->
    nth i (h_ineq h) [] = c ->
    (forall ridge, In ridge ridges ->
       exists r, wrap_facet lp rinv pre set c ridge = Some r /\ In r facets) ->
    (length (h_ineq h) + length ridges <= h_room h)%nat ->
    NoDup (h_ineq h) -> incl (h_ineq h) facets ->
    exists h',
      extend_ridges lp rinv pre set i h ridges = Some h' /\
      NoDup (h_ineq h') /\ incl (h_ineq h') facets.
Proof.
  induction ridges as [|r0 rest IH]; intros h Hi Hc Hw R N I;
    cbn [extend_ridges].
  - exists h. auto.
  - cbn [length] in R.
    destruct (extend_ridge_total i h r0 Hi) as (h1 & E1 & R1 & L1 & N1 & I1 & m & A1);
      try assumption; [rewrite Hc; apply Hw; left; reflexivity | lia |].
    rewrite E1. apply IH; try assumption.
    + rewrite A1, length_app. lia.
    + rewrite A1, (app_nth1 _ _ _ Hi). exact Hc.
    + intros ridge Hin. apply Hw. right. exact Hin.
    + lia.
Qed.

Lemma extend_facet_total (i : nat) (h : hull_state) :
  (i < length (h_ineq h))%nat ->
  NoDup (h_ineq h) -> incl (h_ineq h) facets ->
  exists h',
    extend_facet lp rinv pre cf set i h = Some h' /\
    NoDup (h_ineq h') /\ incl (h_ineq h') facets.
Proof.
  intros Hi N I. unfold extend_facet.
  destruct (Hclosed (nth i (h_ineq h) []) (I _ (nth_In _ [] Hi)))
    as (facet & C & Hw).
  rewrite C. unfold n_ineq.
  destruct (Nat.ltb_spec (h_room h) (length (ineq facet) + length (h_ineq h)));
    apply (extend_ridges_total i (nth i (h_ineq h) [])); cbn [h_ineq h_room];
    try assumption; try reflexivity; lia.
Qed.

(** The walk is over after as many facets as the list has rows. *)
Lemma extend_walk_total (steps : nat) :
  forall i h,
    NoDup (h_ineq h) -> incl (h_ineq h) facets ->
    (length facets <= i + steps)%nat ->
    exists h', extend_walk lp rinv pre cf set steps i h = Walk_done h'.
Proof.
  induction steps as [|steps IH]; intros i h N I B; cbn [extend_walk];
    pose proof (NoDup_incl_length N I) as Le;
    destruct (Nat.leb_spec (length (h_ineq h)) i) as [L|L];
    try (exists h; reflexivity); [lia|].
  destruct (extend_facet_total i h L N I) as (h1 & E1 & N1 & I1).
  rewrite E1. apply IH; [assumption | assumption | lia].
Qed.

End ExtendTotal.

(** X11: [extend] returns a polyhedron that contains the set.  The rows
    the walk can reach lie in a finite list [facets] that holds the
    initial row and is closed under wrapping ([compute_facet] returns a
    facet for each of its rows and [wrap_facet] wraps the row around each
    ridge into a row of the list); the initial row holds on the set, the
    ridges hold on their facets, the preimage and the LP solver used by
    [wrap_facet] meet their contracts, and [isl_basic_set_simplify] and
    [isl_basic_set_finalize] return a result that keeps the points.  Then
    the walk is over after at most as many facets as the list has rows,
    and [extend] returns a basic set that contains every point of the
    set. *)
Theorem extend_contains_set :
  forall lp rinv pre cf simplify finalize (set : isl_set) (initial : isl_mat)
         (facets : list row) (steps : nat),
    (2 <= isl_set_n_dim set)%nat ->
    length (p set) <> 0%nat ->
    length (nth 0 initial []) = (1 + isl_set_n_dim set)%nat ->
    wrap_contract lp rinv pre set ->
    ridges_contract cf set ->
    valid_on set (nth 0 initial []) ->
    In (nth 0 initial []) facets ->
    Forall (fun c => length c = (1 + isl_set_n_dim set)%nat) facets ->
    wrap_closed lp rinv pre cf set facets ->
    (forall b, exists b', simplify b = Some b' /\
                          forall x, in_bmap x b -> in_bmap x b') ->
    (forall b, exists b', finalize b = Some b' /\
                          forall x, in_bmap x b -> in_bmap x b') ->
    (length facets <= steps)%nat ->
    exists hull,
      extend lp rinv pre cf simplify finalize steps set initial = Some hull /\
      forall x, in_set x set -> in_bmap x hull.
Proof.
  intros lp rinv pre cf simplify finalize set initial facets steps
    Hd Hn L Hw Hc V Hin Hlen Hcl Hs Hf B.
  assert (Hf' : forall b b', finalize b = Some b' ->
                  forall x, in_bmap x b -> in_bmap x b').
  { intros b b' E. destruct (Hf b) as (b2 & E2 & K).
    rewrite E in E2. inversion E2; subst b2. exact K. }
  unfold extend.
  destruct (Nat.eqb_spec (length (p set)) 0) as [Z0|_]; [destruct (Hn Z0)|].
  destruct (Nat.eqb_spec (1 + isl_set_n_dim set) (length (nth 0 initial [])))
    as [_|N0]; [|destruct (N0 (eq_sym L))].
  cbn [negb].
  assert (E0 : exists hull0,
             isl_basic_set_set_rational finalize
               (mk_bmap (isl_set_n_dim set) [] [] 0) = Some hull0).
  { unfold isl_basic_set_set_rational.
    destruct (ISL_F_ISSET _ _); [eexists; reflexivity|].
    destruct (Hf (ISL_F_SET (mk_bmap (isl_set_n_dim set) [] [] 0)
                    ISL_BASIC_MAP_RATIONAL)) as (b' & E & _).
    exists b'. exact E. }
  destruct E0 as (hull0 & E0). rewrite E0.
  assert (I0 : h_ineq (extend_init set initial) = [nth 0 initial []]).
  { unfold extend_init. cbn [h_ineq]. rewrite (cpy_same _ _ L). reflexivity. }
  destruct (extend_walk_total lp rinv pre cf set facets Hlen Hcl steps 0
              (extend_init set initial)) as (h & Ew).
  { rewrite I0. constructor; [intros [] | constructor]. }
  { rewrite I0. intros a [<-|[]]. exact Hin. }
  { lia. }
  rewrite Ew.
  destruct (Hs (mk_bmap (isl_set_n_dim set) (eq hull0) (h_ineq h)
                  (flags hull0))) as (hull1 & E1 & K1).
  rewrite E1. destruct (Hf hull1) as (hull & E2 & K2).
  exists hull. split; [exact E2|]. intros x Hx.
  assert (P : 0 < pd x).
  { unfold in_set in Hx. apply Exists_exists in Hx.
    destruct Hx as (m & _ & Xm). apply Xm. }
  assert (X0 : in_bmap x hull0).
  { apply (set_rational_keeps_points finalize _ _ Hf' E0).
    split; [exact P|]. split; constructor. }
  assert (V0 : hull_valid set (extend_init set initial)).
  { unfold hull_valid. rewrite I0.
    constructor; [split; [exact L | exact V] | constructor]. }
  assert (Vh : hull_valid set h).
  { apply (extend_walk_valid_from lp rinv pre cf set Hd Hw Hc steps 0 _ h V0).
    rewrite Ew. reflexivity. }
  apply K2, K1.
  destruct X0 as (_ & Xe & _).
  split; [exact P|]. split; [exact Xe|]. cbn [ineq].
  unfold hull_valid in Vh. rewrite Forall_forall in *.
  intros r Hr. apply (proj2 (Vh r Hr) x Hx).
Qed.

(** The two rows of the walk on the triangle are closed under wrapping. *)
Lemma triangle_wrap_closed :
  wrap_closed (lp_const (mk_lp_out isl_lp_ok 1 1)) right_inverse_unit
    preimage_id triangle_compute_facet triangle_set [[0; 1; 0]; [0; -1; 1]].
Proof.
  intros c [<-|[<-|[]]]; eexists; (split; [vm_compute; reflexivity|]);
    intros ridge Hin; cbn [ineq In] in Hin.
  - destruct Hin as [<-|[]]. exists [0; -1; 1].
    split; [vm_compute; reflexivity | right; left; reflexivity].
  - destruct Hin.
Defined.

Lemma extend_contains_set_witness :
  exists hull,
    extend (lp_const (mk_lp_out isl_lp_ok 1 1)) right_inverse_unit preimage_id
      triangle_compute_facet finalize_id finalize_id 2 triangle_set [facet_x]
      = Some hull /\
    forall x, in_set x triangle_set -> in_bmap x hull.
Proof.
  apply (extend_contains_set (lp_const (mk_lp_out isl_lp_ok 1 1))
           right_inverse_unit preimage_id triangle_compute_facet
           finalize_id finalize_id triangle_set [facet_x]
           [[0; 1; 0]; [0; -1; 1]] 2).
  - cbn. lia.
  - discriminate.
  - reflexivity.
  - exact triangle_wrap_contract.
  - exact triangle_ridges_contract.
  - exact triangle_facet_valid.
  - left. reflexivity.
  - repeat (once constructor).
  - exact triangle_wrap_closed.
  - intros b. exists b. split; [reflexivity | auto].
  - intros b. exists b. split; [reflexivity | auto].
  - cbn [length]. lia.
Defined.
